(** * promise-pool-executor: a shallow embedding of the scheduler

    Two generations of the executor live side by side in the sources:

    - [src/ts/index.ts]: the monolithic executor, with its tasks kept as
      plain records in the pool ([InternalTaskDefinition]) and the functions
      [startPromise], [errorTask], [triggerPromises], [nextPromise],
      [addGenericTask], [addBatchTask];
    - [src/ts/private/task.ts]: the task class of the group-based executor
      ([PromisePoolTaskPrivate]), whose groups are objects shared between
      tasks.

    Module [JS] holds the part of JavaScript both rely on (numbers with
    [Infinity] and [NaN], truthiness, [typeof], sparse arrays).  Module
    [Legacy] embeds [index.ts], module [TaskTs] embeds [task.ts].  The
    statements about them follow the definitions. *)

From Stdlib Require Import ZArith Bool String Lia.
From stdpp Require Import base numbers list strings.

Open Scope Z_scope.

(* ===================================================================== *)
(** ** JavaScript values *)
(* ===================================================================== *)

Module JS.

(** A JavaScript [number], as far as the executor uses it: counters and
    limits.  Counters are integers; a limit is the number the caller passed,
    which no check of the executor requires to be whole: an integer, a
    fraction, [Infinity], [-Infinity] or [NaN].  [Frac z f] is the number
    strictly between the integers [z] and [z + 1] whose fractional part has
    the binary digits [f], read as [frac_lt] explains: [Frac 0 xH] is [0.5],
    [Frac 1 xH] is [1.5], [Frac (-1) xH] is [-0.5], [Frac 2 (xO xH)] is
    [2.25].  Every finite double that is not an integer is written in exactly
    one way.  The bounds of a double (its magnitude and its 53 bits of
    precision) are left out: the arithmetic is exact. *)
Inductive num : Type :=
| NaN
| Fin (z : Z)
| PInf
| NInf
| Frac (z : Z) (f : positive).

(** The fractional part of [Frac z f], in binary: the digits after the point
    are the constructors of [f] from the outside in, [xO] for 0 and [xI] for
    1, and the [xH] inside is the last digit, a 1.  So [xH] is 0.1 (a half),
    [xO xH] is 0.01 (a quarter), [xI xH] is 0.11 (three quarters).
    [frac_lt f g] compares two fractional parts digit by digit. *)
Fixpoint frac_lt (f g : positive) : bool :=
  match f, g with
  | xO f', xO g' => frac_lt f' g'
  | xI f', xI g' => frac_lt f' g'
  | xO _, (xI _ | xH) => true
  | xH, xI _ => true
  | _, _ => false
  end.

(** The number of digits of a fractional part, and the fractional part as a
    count of [2 ^ -frac_len f]: 0.11 is three quarters. *)
Fixpoint frac_len (f : positive) : nat :=
  match f with
  | xH => 1%nat
  | xO f' | xI f' => S (frac_len f')
  end.
Fixpoint frac_num (f : positive) : Z :=
  match f with
  | xH => 1
  | xO f' => frac_num f'
  | xI f' => 2 ^ Z.of_nat (frac_len f') + frac_num f'
  end.

(** The fractional part [r / 2 ^ k], for [0 <= r < 2 ^ k]; [None] when it is
    zero. *)
Fixpoint frac_of (k : nat) (r : Z) : option positive :=
  match k with
  | O => None
  | S k' =>
      if r =? 0 then None
      else if r <? 2 ^ Z.of_nat k' then xO <$> frac_of k' r
      else Some (match frac_of k' (r - 2 ^ Z.of_nat k') with
                 | Some f => xI f
                 | None => xH
                 end)
  end.

(** The finite number [m / 2 ^ k]. *)
Definition dyadic (m : Z) (k : nat) : num :=
  match frac_of k (m mod 2 ^ Z.of_nat k) with
  | None => Fin (m / 2 ^ Z.of_nat k)
  | Some f => Frac (m / 2 ^ Z.of_nat k) f
  end.

(** A finite number as a count of [2 ^ -k], for [k] not less than the
    number of its fractional digits ([digits]). *)
Definition digits (a : num) : nat :=
  match a with
  | Frac _ f => frac_len f
  | _ => 0%nat
  end.
Definition scaled (k : nat) (a : num) : Z :=
  match a with
  | Fin z => z * 2 ^ Z.of_nat k
  | Frac z f => z * 2 ^ Z.of_nat k + frac_num f * 2 ^ Z.of_nat (k - frac_len f)
  | _ => 0
  end.

(** [a < b] *)
Definition num_lt (a b : num) : bool :=
  match a, b with
  | Fin x, Fin y => x <? y
  | Fin x, Frac y _ => x <=? y
  | Frac x _, Fin y => x <? y
  | Frac x f, Frac y g => (x <? y) || ((x =? y) && frac_lt f g)
  | Fin _, PInf => true
  | Frac _ _, PInf => true
  | NInf, Fin _ => true
  | NInf, Frac _ _ => true
  | NInf, PInf => true
  | _, _ => false
  end.

(** [a <= b] *)
Definition num_le (a b : num) : bool :=
  match a, b with
  | Fin x, Fin y => x <=? y
  | Fin x, Frac y _ => x <=? y
  | Frac x _, Fin y => x <? y
  | Frac x f, Frac y g => (x <? y) || ((x =? y) && negb (frac_lt g f))
  | Fin _, PInf => true
  | Frac _ _, PInf => true
  | PInf, PInf => true
  | NInf, Fin _ => true
  | NInf, Frac _ _ => true
  | NInf, PInf => true
  | NInf, NInf => true
  | _, _ => false
  end.

(** [a >= b] and [a > b] are the mirrored comparisons, as in JavaScript. *)
Definition num_ge (a b : num) : bool := num_le b a.
Definition num_gt (a b : num) : bool := num_lt b a.

(** [a + b] *)
Definition num_add (a b : num) : num :=
  match a, b with
  | NaN, _ | _, NaN => NaN
  | Fin x, Fin y => Fin (x + y)
  | PInf, NInf | NInf, PInf => NaN
  | PInf, _ | _, PInf => PInf
  | NInf, _ | _, NInf => NInf
  | _, _ =>
      let k := Nat.max (digits a) (digits b) in
      dyadic (scaled k a + scaled k b) k
  end.

(** [a - b] *)
Definition num_sub (a b : num) : num :=
  match a, b with
  | NaN, _ | _, NaN => NaN
  | Fin x, Fin y => Fin (x - y)
  | PInf, PInf | NInf, NInf => NaN
  | PInf, _ => PInf
  | NInf, _ => NInf
  | _, PInf => NInf
  | _, NInf => PInf
  | _, _ =>
      let k := Nat.max (digits a) (digits b) in
      dyadic (scaled k a - scaled k b) k
  end.

(** [Math.min(a, b)]: [NaN] as soon as one argument is. *)
Definition num_min (a b : num) : num :=
  match a, b with
  | NaN, _ | _, NaN => NaN
  | _, _ => if num_le a b then a else b
  end.

Definition num_truthy (n : num) : bool :=
  match n with
  | NaN => false
  | Fin z => negb (z =? 0)
  | PInf | NInf | Frac _ _ => true
  end.

(** A whole number or [Infinity]: what the data model takes a limit to
    be. *)
Definition whole (n : num) : bool :=
  match n with
  | Fin _ | PInf => true
  | _ => false
  end.

(** The count [c] is less than one above the limit [L] ([c - 1 < L]).  The
    guards of the executor let a count grow by one while it is below its
    limit, so this is as far as a count gets: for a whole limit it says
    [c <= L], for the limit [1.5] it says [c <= 2]. *)
Definition near (c : Z) (L : num) : Prop := num_lt (Fin (c - 1)) L = true.

(** Values that cross the executor's interface.  [VErr msg] is an [Error]
    object with that message (the text the source appends after the colon is
    left out), [VObj n] any other object, told apart by [n]. *)
Inductive jsval : Type :=
| VUndefined
| VNull
| VBool (b : bool)
| VNum (n : num)
| VStr (s : string)
| VErr (msg : string)
| VObj (n : nat).

Definition truthy (v : jsval) : bool :=
  match v with
  | VUndefined | VNull => false
  | VBool b => b
  | VNum n => num_truthy n
  | VStr s => negb (String.eqb s "")
  | VErr _ | VObj _ => true
  end.

Inductive jstype : Type :=
| TyUndefined | TyObject | TyBoolean | TyNumber | TyString | TyFunction.

Definition typeof (v : jsval) : jstype :=
  match v with
  | VUndefined => TyUndefined
  | VNull | VErr _ | VObj _ => TyObject
  | VBool _ => TyBoolean
  | VNum _ => TyNumber
  | VStr _ => TyString
  end.

(** [v || Infinity] *)
Definition or_infinity (v : jsval) : jsval :=
  if truthy v then v else VNum PInf.

(** A JavaScript array: a slot is a value or a hole. *)
Definition array : Type := list (option jsval).

(** [a[i]] *)
Definition arr_get (i : nat) (a : array) : jsval :=
  match a !! i with
  | Some (Some v) => v
  | _ => VUndefined
  end.

(** [a[i] = v]: in range the slot is overwritten, beyond the end the array
    grows and the slots in between are holes. *)
Definition arr_set (i : nat) (v : jsval) (a : array) : array :=
  if (i <? length a)%nat then <[i := Some v]> a
  else a ++ replicate (i - length a) None ++ [Some v].

(** [a.length = n] *)
Definition arr_set_length (n : nat) (a : array) : array :=
  take n a ++ replicate (n - length a) None.

(** The relative index of [slice]: negative counts from the end, and a
    fraction is cut off towards zero first. *)
Definition rel_index (len : nat) (n : num) : nat :=
  match n with
  | NaN => 0%nat
  | Fin z => if z <? 0 then Z.to_nat (Z.max (Z.of_nat len + z) 0)
             else Nat.min (Z.to_nat z) len
  | PInf => len
  | NInf => 0%nat
  | Frac z _ =>
      let z' := if z <? 0 then z + 1 else z in
      if z' <? 0 then Z.to_nat (Z.max (Z.of_nat len + z') 0)
      else Nat.min (Z.to_nat z') len
  end.

(** [data.slice(from, to)] *)
Definition slice {A} (from to : num) (data : list A) : list A :=
  let a := rel_index (length data) from in
  let b := rel_index (length data) to in
  take (b - a) (drop a data).

#[global] Instance num_eq_dec : EqDecision num.
Proof. solve_decision. Defined.

#[global] Instance jsval_eq_dec : EqDecision jsval.
Proof. solve_decision. Defined.

#[global] Instance jstype_eq_dec : EqDecision jstype.
Proof. solve_decision. Defined.

(** How the operation a generator returned will end.  The executor only
    attaches handlers to it; when it ends is the environment's choice. *)
Inductive fate : Type :=
| WillResolve (v : jsval)
| WillReject (e : jsval).

(** What a generator call hands back: a plain value ([null], [undefined]
    and the other falsy values all mean "no more work") or a promise. *)
Inductive returned : Type :=
| RetVal (v : jsval)
| RetPromise (f : fate).

Inductive outcome : Type :=
| Throws (e : jsval)
| Returns (r : returned).

(** [!promise] *)
Definition falsy (r : returned) : bool :=
  match r with
  | RetVal v => negb (truthy v)
  | RetPromise _ => false
  end.

(** [promise instanceof Promise ? promise : Promise.resolve(promise)] *)
Definition as_promise (r : returned) : fate :=
  match r with
  | RetVal v => WillResolve v
  | RetPromise f => f
  end.

End JS.

(* ===================================================================== *)
(** ** [src/ts/index.ts]: the monolithic executor *)
(* ===================================================================== *)

Module Legacy.
Import JS.

(** A task id is what the caller passed ([id?: any]) or a fresh [Symbol()]. *)
Inductive task_id : Type :=
| IdVal (v : jsval)
| IdSym (n : nat).

#[global] Instance task_id_eq_dec : EqDecision task_id.
Proof. solve_decision. Defined.

Definition id_truthy (i : task_id) : bool :=
  match i with
  | IdVal v => truthy v
  | IdSym _ => true
  end.

(** [interface TaskStatus] *)
Record TaskStatus : Type := mkStatus {
  st_id : task_id;
  st_activeCount : Z;
  st_concurrencyLimit : num;
  st_invocations : nat;
  st_invocationLimit : num;
  st_freeSlots : num
}.

(** User code run by the executor: a generator is a function of the
    invocation number whose body may read and write the variables it closes
    over and call back into the pool before it returns. *)
Inductive script : Type :=
| Ret (o : outcome)
| GetVar (x : nat) (k : num -> script)
| SetVar (x : nat) (v : num) (k : script)
| AddGenericTask (id : option task_id) (generator : nat -> script)
    (concurrencyLimit invocationLimit : jsval) (k : script)
| StopTask (id : task_id) (k : script)
| GetTaskStatus (id : task_id) (k : option TaskStatus -> script).

(** [interface GenericTaskParams] *)
Record GenericTaskParams : Type := mkParams {
  gp_id : option task_id;
  gp_generator : nat -> script;
  gp_concurrencyLimit : jsval;
  gp_invocationLimit : jsval
}.

(** The promise handed out for a task, settled through its
    [PromiseResolver]: once settled, later calls change nothing.  A fulfilled
    promise holds the task's [result] array itself. *)
Inductive settlement : Type :=
| Unsettled
| Fulfilled
| Rejected (e : jsval).

(** [interface InternalTaskDefinition] *)
Record task : Type := mkTask {
  tid : task_id;
  generator : nat -> script;
  activeCount : Z;
  concurrencyLimit : num;
  invocations : nat;
  invocationLimit : num;
  result : array;
  exhausted : bool;
  errored : bool;
  init : bool;
  promise : settlement
}.

Definition set_activeCount (n : Z) (t : task) : task :=
  mkTask (tid t) (generator t) n (concurrencyLimit t) (invocations t)
    (invocationLimit t) (result t) (exhausted t) (errored t) (init t) (promise t).
Definition set_invocations (n : nat) (t : task) : task :=
  mkTask (tid t) (generator t) (activeCount t) (concurrencyLimit t) n
    (invocationLimit t) (result t) (exhausted t) (errored t) (init t) (promise t).
Definition set_result (a : array) (t : task) : task :=
  mkTask (tid t) (generator t) (activeCount t) (concurrencyLimit t) (invocations t)
    (invocationLimit t) a (exhausted t) (errored t) (init t) (promise t).
Definition set_exhausted (b : bool) (t : task) : task :=
  mkTask (tid t) (generator t) (activeCount t) (concurrencyLimit t) (invocations t)
    (invocationLimit t) (result t) b (errored t) (init t) (promise t).
Definition set_errored (b : bool) (t : task) : task :=
  mkTask (tid t) (generator t) (activeCount t) (concurrencyLimit t) (invocations t)
    (invocationLimit t) (result t) (exhausted t) b (init t) (promise t).
Definition set_init (b : bool) (t : task) : task :=
  mkTask (tid t) (generator t) (activeCount t) (concurrencyLimit t) (invocations t)
    (invocationLimit t) (result t) (exhausted t) (errored t) b (promise t).
Definition set_promise (s : settlement) (t : task) : task :=
  mkTask (tid t) (generator t) (activeCount t) (concurrencyLimit t) (invocations t)
    (invocationLimit t) (result t) (exhausted t) (errored t) (init t) s.

(** [resolveInstance] / [rejectInstance] of a task's promise. *)
Definition resolveInstance (t : task) : task :=
  match promise t with
  | Unsettled => set_promise Fulfilled t
  | _ => t
  end.
Definition rejectInstance (e : jsval) (t : task) : task :=
  match promise t with
  | Unsettled => set_promise (Rejected e) t
  | _ => t
  end.

(** A started invocation whose operation has not completed: the closure of
    the handlers [startPromise] attached ([task], [resultIndex]) and how the
    operation will end. *)
Record inflight : Type := mkInflight {
  p_task : nat;
  p_index : nat;
  p_fate : fate
}.

(** The callbacks given to [setTimeout(..., 1)]. *)
Inductive timer : Type :=
| TInitDone (r : nat)
| TRejectTask (r : nat) (e : jsval)
| TResolveTask (r : nat)
| TErrorIdle (e : jsval)
| TResolveIdle.

(** [class PromisePoolExecutor], with what its closures hold on to.  Task
    objects live in [heap] and are named by their position there: [_tasks],
    [_taskMap] and the pending handlers all point at the same objects.
    [vars] are the variables user closures captured, [idle_done] the idle
    promises settled so far (with the error for a rejection). *)
Record pool : Type := mkPool {
  _concurrencyLimit : num;
  _activePromiseCount : Z;
  _tasks : list nat;
  _taskMap : list (task_id * nat);
  _idlePromises : list nat;
  _tasksInit : Z;
  heap : list task;
  inflights : list inflight;
  timers : list timer;
  vars : list num;
  symbols : nat;
  idle_fresh : nat;
  idle_done : list (nat * option jsval)
}.

Definition set_active (n : Z) (w : pool) : pool :=
  mkPool (_concurrencyLimit w) n (_tasks w) (_taskMap w) (_idlePromises w)
    (_tasksInit w) (heap w) (inflights w) (timers w) (vars w) (symbols w)
    (idle_fresh w) (idle_done w).
Definition set_tasks (l : list nat) (w : pool) : pool :=
  mkPool (_concurrencyLimit w) (_activePromiseCount w) l (_taskMap w) (_idlePromises w)
    (_tasksInit w) (heap w) (inflights w) (timers w) (vars w) (symbols w)
    (idle_fresh w) (idle_done w).
Definition set_taskMap (m : list (task_id * nat)) (w : pool) : pool :=
  mkPool (_concurrencyLimit w) (_activePromiseCount w) (_tasks w) m (_idlePromises w)
    (_tasksInit w) (heap w) (inflights w) (timers w) (vars w) (symbols w)
    (idle_fresh w) (idle_done w).
Definition set_idle (l : list nat) (d : list (nat * option jsval)) (w : pool) : pool :=
  mkPool (_concurrencyLimit w) (_activePromiseCount w) (_tasks w) (_taskMap w) l
    (_tasksInit w) (heap w) (inflights w) (timers w) (vars w) (symbols w)
    (idle_fresh w) d.
Definition set_tasksInit (n : Z) (w : pool) : pool :=
  mkPool (_concurrencyLimit w) (_activePromiseCount w) (_tasks w) (_taskMap w)
    (_idlePromises w) n (heap w) (inflights w) (timers w) (vars w) (symbols w)
    (idle_fresh w) (idle_done w).
Definition set_heap (h : list task) (w : pool) : pool :=
  mkPool (_concurrencyLimit w) (_activePromiseCount w) (_tasks w) (_taskMap w)
    (_idlePromises w) (_tasksInit w) h (inflights w) (timers w) (vars w) (symbols w)
    (idle_fresh w) (idle_done w).
Definition set_inflights (l : list inflight) (w : pool) : pool :=
  mkPool (_concurrencyLimit w) (_activePromiseCount w) (_tasks w) (_taskMap w)
    (_idlePromises w) (_tasksInit w) (heap w) l (timers w) (vars w) (symbols w)
    (idle_fresh w) (idle_done w).
Definition set_timers (l : list timer) (w : pool) : pool :=
  mkPool (_concurrencyLimit w) (_activePromiseCount w) (_tasks w) (_taskMap w)
    (_idlePromises w) (_tasksInit w) (heap w) (inflights w) l (vars w) (symbols w)
    (idle_fresh w) (idle_done w).
Definition set_vars (l : list num) (w : pool) : pool :=
  mkPool (_concurrencyLimit w) (_activePromiseCount w) (_tasks w) (_taskMap w)
    (_idlePromises w) (_tasksInit w) (heap w) (inflights w) (timers w) l (symbols w)
    (idle_fresh w) (idle_done w).
Definition set_symbols (n : nat) (w : pool) : pool :=
  mkPool (_concurrencyLimit w) (_activePromiseCount w) (_tasks w) (_taskMap w)
    (_idlePromises w) (_tasksInit w) (heap w) (inflights w) (timers w) (vars w) n
    (idle_fresh w) (idle_done w).
Definition set_idle_fresh (n : nat) (w : pool) : pool :=
  mkPool (_concurrencyLimit w) (_activePromiseCount w) (_tasks w) (_taskMap w)
    (_idlePromises w) (_tasksInit w) (heap w) (inflights w) (timers w) (vars w)
    (symbols w) n (idle_done w).

(** Update of the task object at [r], seen through every reference to it. *)
Definition with_task (r : nat) (f : task -> task) (w : pool) : pool :=
  set_heap (alter f r (heap w)) w.

Definition add_timer (t : timer) (w : pool) : pool :=
  set_timers (timers w ++ [t]) w.

(** [new PromisePoolExecutor(concurrencyLimit)]; [None] when the constructor
    throws. *)
Definition new_pool (concurrencyLimit : jsval) : option pool :=
  match or_infinity concurrencyLimit with
  | VNum n =>
      if num_le n (Fin 0) then None
      else Some (mkPool n 0 [] [] [] 0 [] [] [] [] 0%nat 0%nat [])
  | _ => None
  end.

(** [get freeSlots] *)
Definition freeSlots (w : pool) : num :=
  num_sub (_concurrencyLimit w) (Fin (_activePromiseCount w)).

(** [get idling] *)
Definition idling (w : pool) : bool :=
  (_activePromiseCount w =? 0) && (length (_tasks w) =? 0)%nat.

(** [Map.get], [Map.has], [Map.delete], [Map.set] on [_taskMap] *)
Definition map_get (i : task_id) (m : list (task_id * nat)) : option nat :=
  snd <$> find (fun p => bool_decide (fst p = i)) m.
Definition map_has (i : task_id) (m : list (task_id * nat)) : bool :=
  match map_get i m with Some _ => true | None => false end.
Definition map_delete (i : task_id) (m : list (task_id * nat)) : list (task_id * nat) :=
  filter (fun p => fst p ≠ i) m.
Definition map_set (i : task_id) (r : nat) (m : list (task_id * nat)) : list (task_id * nat) :=
  if map_has i m
  then (fun p => if bool_decide (fst p = i) then (i, r) else p) <$> m
  else m ++ [(i, r)].

(** [this._tasks.indexOf(task)] *)
Fixpoint indexOf (r : nat) (l : list nat) : option nat :=
  match l with
  | [] => None
  | x :: l' => if (x =? r)%nat then Some 0%nat else S <$> indexOf r l'
  end.

(** [this._tasks.splice(this._tasks.indexOf(task), 1)]: [indexOf] answers
    [-1] for a task that is not in the array, and [splice(-1, 1)] then takes
    out the last element. *)
Definition splice_task (r : nat) (l : list nat) : list nat :=
  match indexOf r l with
  | Some i => delete i l
  | None => take (length l - 1) l
  end.

(** [getTaskStatus(id)] *)
Definition getTaskStatus (i : task_id) (w : pool) : option TaskStatus :=
  match map_get i (_taskMap w) with
  | None => None
  | Some r =>
      match heap w !! r with
      | None => None
      | Some t =>
          Some (mkStatus (tid t) (activeCount t) (concurrencyLimit t)
                  (invocations t) (invocationLimit t)
                  (num_min (num_min (freeSlots w)
                     (num_sub (concurrencyLimit t) (Fin (activeCount t))))
                     (num_sub (invocationLimit t) (Fin (Z.of_nat (invocations t))))))
      end
  end.

(** [stopTask(id)] *)
Definition stopTask (i : task_id) (w : pool) : bool * pool :=
  match map_get i (_taskMap w) with
  | None => (false, w)
  | Some r => (true, with_task r (set_exhausted true) w)
  end.

(** [errorIdle(err)] and [resolveIdle()] *)
Definition errorIdle (e : jsval) (w : pool) : pool :=
  set_idle [] (idle_done w ++ ((fun i => (i, Some e)) <$> _idlePromises w)) w.
Definition resolveIdle (w : pool) : pool :=
  set_idle [] (idle_done w ++ ((fun i => (i, None)) <$> _idlePromises w)) w.

(** [errorTask(task, err)] *)
Definition errorTask (r : nat) (e : jsval) (w : pool) : pool :=
  match heap w !! r with
  | None => w
  | Some t =>
      let w1 :=
        if negb (errored t) then
          let w0 := with_task r (fun t => set_exhausted true (set_errored true t)) w in
          if negb (init t) then with_task r (rejectInstance e) w0
          else add_timer (TRejectTask r e) w0
        else w in
      if _tasksInit w1 =? 0 then errorIdle e w1
      else add_timer (TErrorIdle e) w1
  end.

(** The result of [addGenericTask]: a promise rejected or fulfilled on the
    spot, or the promise of the task registered at a heap position. *)
Inductive added : Type :=
| AddRejected (e : jsval)
| AddResolved (a : array)
| AddPromise (r : nat).

Definition resolve_id (i : option task_id) (w : pool) : task_id * pool :=
  match i with
  | Some i' =>
      if id_truthy i' then (i', w)
      else (IdSym (symbols w), set_symbols (S (symbols w)) w)
  | None => (IdSym (symbols w), set_symbols (S (symbols w)) w)
  end.

(** The first half of [addGenericTask]: the task literal and the checks on
    it.  [inr t] is the task to register. *)
Definition checkGenericTask (p : GenericTaskParams) (w : pool) : (added + task) * pool :=
  let '(i, w0) := resolve_id (gp_id p) w in
  let cl := or_infinity (gp_concurrencyLimit p) in
  let il := or_infinity (gp_invocationLimit p) in
  if map_has i (_taskMap w0) then
    (inl (AddRejected (VStr "The id used for this task already exists.")), w0)
  else
    match il with
    | VNum il' =>
        if num_le il' (Fin 0) then (inl (AddResolved []), w0)
        else
          match cl with
          | VNum cl' =>
              if num_le cl' (Fin 0)
              then (inl (AddRejected (VErr "Invalid concurrency limit: ")), w0)
              else (inr (mkTask i (gp_generator p) 0 cl' 0%nat il' [] false false true
                           Unsettled), w0)
          | _ => (inl (AddRejected (VErr "Invalid concurrency limit: ")), w0)
          end
    | _ => (inl (AddRejected (VStr "Invalid invocation limit: ")), w0)
    end.

(** The second half of [addGenericTask], up to the call of
    [triggerPromises]: the task is put on the heap and into [_tasks] and
    [_taskMap], and the timer that ends its [init] phase is armed. *)
Definition registerTask (t : task) (w : pool) : nat * pool :=
  let r := length (heap w) in
  let w1 := set_heap (heap w ++ [t]) w in
  let w2 := add_timer (TInitDone r) (set_tasksInit (_tasksInit w1 + 1) w1) in
  let w3 := set_tasks (_tasks w2 ++ [r]) w2 in
  (r, set_taskMap (map_set (tid t) r (_taskMap w3)) w3).

(** What [startPromise] does once the generator has returned a promise:
    both counters go up, the invocation takes the next result index, and the
    handlers are attached. *)
Definition begin_invocation (r : nat) (f : fate) (w : pool) : pool :=
  match heap w !! r with
  | None => w
  | Some t =>
      let resultIndex := invocations t in
      let w1 := set_active (_activePromiseCount w + 1) w in
      let w2 := with_task r (fun t =>
                  let t1 := set_invocations (S (invocations t))
                              (set_activeCount (activeCount t + 1) t) in
                  if num_ge (Fin (Z.of_nat (invocations t1))) (invocationLimit t1)
                  then set_exhausted true t1 else t1) w1 in
      set_inflights (inflights w2 ++ [mkInflight r resultIndex f]) w2
  end.

(** The first half of [nextPromise]: an exhausted task with nothing in
    flight is resolved (unless it failed) and taken out of the pool. *)
Definition retire (r : nat) (w : pool) : pool :=
  match heap w !! r with
  | None => w
  | Some t =>
      if exhausted t && (activeCount t <=? 0) then
        let w1 :=
          if negb (errored t) then
            if init t then with_task r resolveInstance w
            else add_timer (TResolveTask r) w
          else w in
        let w2 := set_tasks (splice_task r (_tasks w1)) w1 in
        set_taskMap (map_delete (tid t) (_taskMap w2)) w2
      else w
  end.

(** The last part of [nextPromise]. *)
Definition settle_idle (w : pool) : pool :=
  if idling w then
    if _tasksInit w =? 0 then resolveIdle w
    else add_timer TResolveIdle w
  else w.

(** [triggerPromises], [startPromise], [nextPromise], [addGenericTask] and
    the generator bodies call each other; the [while] loop of
    [triggerPromises] need not end (a task without limits whose generator
    always returns a promise is started for ever), so all of them take fuel
    and answer [None] when it runs out. *)
Fixpoint triggerLoop (fuel : nat) (taskIndex : nat) (w : pool) : option pool :=
  match fuel with
  | O => None
  | S fuel' =>
      if num_lt (Fin (_activePromiseCount w)) (_concurrencyLimit w)
         && (taskIndex <? length (_tasks w))%nat
      then
        match _tasks w !! taskIndex with
        | None => None
        | Some r =>
            match heap w !! r with
            | None => None
            | Some t =>
                if negb (exhausted t)
                   && num_lt (Fin (activeCount t)) (concurrencyLimit t)
                then
                  match startPromise fuel' r w with
                  | None => None
                  | Some w' => triggerLoop fuel' taskIndex w'
                  end
                else triggerLoop fuel' (S taskIndex) w
            end
        end
      else Some w
  end

with startPromise (fuel : nat) (r : nat) (w : pool) : option pool :=
  match fuel with
  | O => None
  | S fuel' =>
      match heap w !! r with
      | None => None
      | Some t =>
          match run_script fuel' (generator t (invocations t)) w with
          | None => None
          | Some (Throws e, w1) => Some (errorTask r e w1)
          | Some (Returns v, w1) =>
              if falsy v then
                nextPromise fuel' r (with_task r (set_exhausted true) w1)
              else Some (begin_invocation r (as_promise v) w1)
          end
      end
  end

with run_script (fuel : nat) (s : script) (w : pool) : option (outcome * pool) :=
  match fuel with
  | O => None
  | S fuel' =>
      match s with
      | Ret o => Some (o, w)
      | GetVar x k =>
          match vars w !! x with
          | None => Some (Throws (VErr "ReferenceError"), w)
          | Some v => run_script fuel' (k v) w
          end
      | SetVar x v k => run_script fuel' k (set_vars (<[x := v]> (vars w)) w)
      | AddGenericTask i g cl il k =>
          match addGenericTask fuel' (mkParams i g cl il) w with
          | None => None
          | Some (_, w1) => run_script fuel' k w1
          end
      | StopTask i k => run_script fuel' k (snd (stopTask i w))
      | GetTaskStatus i k => run_script fuel' (k (getTaskStatus i w)) w
      end
  end

with nextPromise (fuel : nat) (r : nat) (w : pool) : option pool :=
  match fuel with
  | O => None
  | S fuel' =>
      match triggerLoop fuel' 0 (retire r w) with
      | None => None
      | Some w' => Some (settle_idle w')
      end
  end

with addGenericTask (fuel : nat) (p : GenericTaskParams) (w : pool)
  : option (added * pool) :=
  match fuel with
  | O => None
  | S fuel' =>
      match checkGenericTask p w with
      | (inl a, w0) => Some (a, w0)
      | (inr t, w0) =>
          let '(r, w1) := registerTask t w0 in
          match triggerLoop fuel' 0 w1 with
          | None => None
          | Some w2 => Some (AddPromise r, w2)
          end
      end
  end.

(** [triggerPromises()] *)
Definition triggerPromises (fuel : nat) (w : pool) : option pool :=
  triggerLoop fuel 0 w.

(** An operation in flight completes.  The handlers were attached as
    [promise.catch(h1).then(h2)]: a rejection first runs [h1] (which calls
    [errorTask] and returns [undefined]), and [h2] runs in a later step with
    that [undefined]; a fulfilment runs [h2] with the value.  [h2] takes the
    invocation out of both counters, stores the result at [resultIndex] and
    calls [nextPromise]. *)
Definition complete (fuel : nat) (i : nat) (w : pool) : option pool :=
  match inflights w !! i with
  | None => Some w
  | Some p =>
      match p_fate p with
      | WillReject e =>
          let w1 := errorTask (p_task p) e w in
          Some (set_inflights
                  (<[i := mkInflight (p_task p) (p_index p) (WillResolve VUndefined)]>
                     (inflights w1)) w1)
      | WillResolve v =>
          let w1 := set_inflights (delete i (inflights w)) w in
          let w2 := set_active (_activePromiseCount w1 - 1) w1 in
          let w3 := with_task (p_task p) (fun t =>
                      set_result (arr_set (p_index p) v (result t))
                        (set_activeCount (activeCount t - 1) t)) w2 in
          nextPromise fuel (p_task p) w3
      end
  end.

(** A [setTimeout] callback runs. *)
Definition fire_timer (j : nat) (w : pool) : pool :=
  match timers w !! j with
  | None => w
  | Some t =>
      let w' := set_timers (delete j (timers w)) w in
      match t with
      | TInitDone r => with_task r (set_init false) (set_tasksInit (_tasksInit w' - 1) w')
      | TRejectTask r e => with_task r (rejectInstance e) w'
      | TResolveTask r => with_task r resolveInstance w'
      | TErrorIdle e => errorIdle e w'
      | TResolveIdle => if idling w' then resolveIdle w' else w'
      end
  end.

(** [waitForIdle()]: [None] stands for the promise resolved on the spot. *)
Definition waitForIdle (w : pool) : option nat * pool :=
  if idling w then (None, w)
  else (Some (idle_fresh w),
        set_idle_fresh (S (idle_fresh w))
          (set_idle (_idlePromises w ++ [idle_fresh w]) (idle_done w) w)).

(** [batchSize: number | ((elements, freeSlots) => number)]; the checks on
    it are made at run time, so any value may arrive. *)
Inductive batch_size : Type :=
| BSVal (v : jsval)
| BSFun (f : num -> num -> jsval).

(** [interface BatchTaskParams] *)
Record BatchTaskParams : Type := mkBatchParams {
  bp_id : option task_id;
  bp_generator : list jsval -> num -> nat -> script;
  bp_data : list jsval;
  bp_batchSize : batch_size;
  bp_concurrencyLimit : jsval;
  bp_invocationLimit : jsval
}.

Definition bs_truthy (b : batch_size) : bool :=
  match b with BSVal v => truthy v | BSFun _ => true end.
Definition bs_typeof (b : batch_size) : jstype :=
  match b with BSVal v => typeof v | BSFun _ => TyFunction end.
Definition le_zero (v : jsval) : bool :=
  match v with VNum n => num_le n (Fin 0) | _ => false end.
Definition bs_le_zero (b : batch_size) : bool :=
  match b with BSVal v => le_zero v | BSFun _ => false end.

(** [!params.batchSize || typeof params.batchSize !== "function"
      && (typeof params.batchSize !== "number" || params.batchSize <= 0)] *)
Definition invalid_batch_size (b : batch_size) : bool :=
  negb (bs_truthy b)
  || (negb (bool_decide (bs_typeof b = TyFunction))
      && (negb (bool_decide (bs_typeof b = TyNumber)) || bs_le_zero b)).

(** [!batchSize || typeof batchSize !== "number" || batchSize <= 0] *)
Definition invalid_returned_size (v : jsval) : bool :=
  negb (truthy v) || negb (bool_decide (typeof v = TyNumber)) || le_zero v.

(** [index += v] (only numbers reach these lines: everything else was
    turned away by the checks before) *)
Definition plus_assign (index : num) (v : jsval) : num :=
  match v with VNum n => num_add index n | _ => NaN end.

Definition invalid_size_error : jsval := VErr "Invalid batch size: ".

(** The generator [addBatchTask] hands to [addGenericTask].  [x] is the
    variable [index] of the enclosing call, [i] its [id]. *)
Definition batch_generator (x : nat) (i : task_id) (p : BatchTaskParams)
    (invocation : nat) : script :=
  GetVar x (fun index =>
    if num_ge index (Fin (Z.of_nat (length (bp_data p)))) then
      Ret (Returns (RetVal VNull))
    else
      let oldIndex := index in
      match bp_batchSize p with
      | BSFun f =>
          GetTaskStatus i (fun status =>
            match status with
            | None => Ret (Throws (VErr "TypeError"))
            | Some st =>
                let batchSize :=
                  f (num_sub (Fin (Z.of_nat (length (bp_data p)))) oldIndex)
                    (st_freeSlots st) in
                if invalid_returned_size batchSize then
                  Ret (Returns (RetPromise (WillReject invalid_size_error)))
                else
                  let index' := plus_assign index batchSize in
                  SetVar x index'
                    (bp_generator p (slice oldIndex index' (bp_data p)) oldIndex invocation)
            end)
      | BSVal v =>
          let index' := plus_assign index v in
          SetVar x index'
            (bp_generator p (slice oldIndex index' (bp_data p)) oldIndex invocation)
      end).

(** [addBatchTask(params)] *)
Definition addBatchTask (fuel : nat) (p : BatchTaskParams) (w : pool)
  : option (added * pool) :=
  if invalid_batch_size (bp_batchSize p) then
    Some (AddRejected invalid_size_error, w)
  else
    let x := length (vars w) in
    let w0 := set_vars (vars w ++ [Fin 0]) w in
    let '(i, w1) := resolve_id (bp_id p) w0 in
    addGenericTask fuel
      (mkParams (Some i) (batch_generator x i p)
         (bp_concurrencyLimit p) (bp_invocationLimit p)) w1.

(** What can happen to a pool: calls from outside, completions, timers. *)
Inductive op : Type :=
| OpAddGeneric (p : GenericTaskParams)
| OpAddBatch (p : BatchTaskParams)
| OpStop (i : task_id)
| OpWaitForIdle
| OpComplete (i : nat)
| OpTimer (j : nat).

Definition apply_op (fuel : nat) (o : op) (w : pool) : option pool :=
  match o with
  | OpAddGeneric p => snd <$> addGenericTask fuel p w
  | OpAddBatch p => snd <$> addBatchTask fuel p w
  | OpStop i => Some (snd (stopTask i w))
  | OpWaitForIdle => Some (snd (waitForIdle w))
  | OpComplete i => complete fuel i w
  | OpTimer j => Some (fire_timer j w)
  end.

Fixpoint run_ops (fuel : nat) (os : list op) (w : pool) : option pool :=
  match os with
  | [] => Some w
  | o :: os' =>
      match apply_op fuel o w with
      | None => None
      | Some w' => run_ops fuel os' w'
      end
  end.

(** *** Scenarios *)

(** A promise that stays pending until the environment completes it. *)
Definition pending_promise (v : jsval) : outcome := Returns (RetPromise (WillResolve v)).

(** A generator that, on its first call only (flag in variable 0), adds a
    second task to the pool, and returns a promise every time:
[[
  generator: () => {
      if (first) { first = false; pool.addGenericTask({ generator: inner }); }
      return work();
  }
]] *)
Definition inner_generator (_ : nat) : script := Ret (pending_promise (VNum (Fin 7))).
Definition adding_generator (_ : nat) : script :=
  GetVar 0 (fun first =>
    if num_truthy first then
      SetVar 0 (Fin 0)
        (AddGenericTask None inner_generator VUndefined VUndefined
           (Ret (pending_promise (VNum (Fin 1)))))
    else Ret (pending_promise (VNum (Fin 1)))).

(** A pool of concurrency limit [n] whose user code owns the given
    variables. *)
Definition pool_with_vars (n : Z) (vs : list num) : option pool :=
  set_vars vs <$> new_pool (VNum (Fin n)).

(** The recursion-prevention scenario, with the observation made by the
    generators themselves: variable 0 is [1] while the outer generator is
    running, and the inner generator copies it into variable 1 when it is
    called.
[[
  generator: () => {                       // outer
      if (done) return null;
      done = true; inside = 1;
      pool.addGenericTask({ generator: () => { seen = inside; return null; } });
      inside = 0;
      return null;
  }
]] *)
Definition observing_generator (_ : nat) : script :=
  GetVar 0 (fun inside => SetVar 1 inside (Ret (Returns (RetVal VNull)))).
Definition submitting_generator (_ : nat) : script :=
  GetVar 2 (fun done =>
    if num_truthy done then Ret (Returns (RetVal VNull))
    else
      SetVar 2 (Fin 1) (SetVar 0 (Fin 1)
        (AddGenericTask None observing_generator VUndefined VUndefined
           (SetVar 0 (Fin 0) (Ret (Returns (RetVal VNull))))))).


(** A positive number, as the comments of [addBatchTask] mean it: a number
    that is not [NaN] and is greater than zero. *)
Definition positive_number (v : jsval) : Prop :=
  exists n, v = VNum n /\ num_lt (Fin 0) n = true.

(** The free slots [getTaskStatus] reports for a task: the least of what
    the pool, the task's concurrency limit and the task's invocation limit
    leave. *)
Definition free_slots_of (t : task) (w : pool) : num :=
  num_min (num_min (freeSlots w) (num_sub (concurrencyLimit t) (Fin (activeCount t))))
    (num_sub (invocationLimit t) (Fin (Z.of_nat (invocations t)))).

(** A pool with a batch task over three elements whose [batchSize] function
    answers [0], before the first call of its generator: the task as
    [addBatchTask] registers it. *)
Definition zero_batch_params : BatchTaskParams :=
  mkBatchParams None (fun _ _ _ => Ret (pending_promise VNull))
    [VNum (Fin 3); VNum (Fin 1); VNum (Fin 2)] (BSFun (fun _ _ => VNum (Fin 0)))
    VUndefined VUndefined.
Definition zero_batch_pool : pool :=
  mkPool PInf 0 [0%nat] [(IdSym 0, 0%nat)] [] 1
    [mkTask (IdSym 0) (batch_generator 0 (IdSym 0) zero_batch_params) 0 PInf 0%nat PInf []
       false false true Unsettled]
    [] [TInitDone 0] [Fin 0] 1%nat 0%nat [].

(** A pool without concurrency limit whose only task, at heap position 0
    and with id [Symbol()] number 0, is the batch task of [p], running
    without limits, with its [index] (variable 0) still at [0]. *)
Definition batch_looping (p : BatchTaskParams) (w : pool) : Prop :=
  _concurrencyLimit w = PInf /\ _tasks w = [0%nat]
  /\ map_get (IdSym 0) (_taskMap w) = Some 0%nat
  /\ vars w !! 0%nat = Some (Fin 0)
  /\ exists t,
       heap w !! 0%nat = Some t
       /\ generator t = batch_generator 0 (IdSym 0) p
       /\ exhausted t = false
       /\ concurrencyLimit t = PInf /\ invocationLimit t = PInf.

(** *** Properties of a pool *)

(** The invocations of task [r] that are in flight. *)
Definition inflight_of (r : nat) (w : pool) : list inflight :=
  filter (fun p => p_task p = r) (inflights w).

(** The counters agree with what is in flight: the pool's counter with all
    the invocations in flight, the counter of every task with its own; and
    every invocation in flight belongs to a task on the heap. *)
Definition counts_ok (w : pool) : Prop :=
  _activePromiseCount w = Z.of_nat (length (inflights w))
  /\ (forall r t, heap w !! r = Some t ->
        activeCount t = Z.of_nat (length (inflight_of r w)))
  /\ (forall p, p ∈ inflights w -> (p_task p < length (heap w))%nat).

(** ** Relations used to state the invariants *)

(** Two pools with the same counters and the same invocations in flight,
    the second with possibly more tasks, all new ones idle. *)
Definition same_counts (w w' : pool) : Prop :=
  _activePromiseCount w' = _activePromiseCount w
  /\ inflights w' = inflights w
  /\ (length (heap w) <= length (heap w'))%nat
  /\ (forall r t', heap w' !! r = Some t' ->
        match heap w !! r with
        | Some t => activeCount t' = activeCount t
        | None => activeCount t' = 0
        end).


(** A script that does not add a task to the pool while it runs. *)
Inductive quiet : script -> Prop :=
| quiet_Ret o : quiet (Ret o)
| quiet_GetVar x k : (forall v, quiet (k v)) -> quiet (GetVar x k)
| quiet_SetVar x v k : quiet k -> quiet (SetVar x v k)
| quiet_StopTask i k : quiet k -> quiet (StopTask i k)
| quiet_GetTaskStatus i k : (forall s, quiet (k s)) -> quiet (GetTaskStatus i k).

(** Every generator of the pool is quiet. *)
Definition quiet_pool (w : pool) : Prop :=
  forall r t i, heap w !! r = Some t -> quiet (generator t i).

(** The operations whose generators are quiet. *)
Definition quiet_op (o : op) : Prop :=
  match o with
  | OpAddGeneric p => forall i, quiet (gp_generator p i)
  | OpAddBatch p => forall d n i, quiet (bp_generator p d n i)
  | _ => True
  end.

(** No counter is a whole step above its limit: the pool's against the
    pool's concurrency limit, a task's against the task's. *)
Definition within_limits (w : pool) : Prop :=
  near (_activePromiseCount w) (_concurrencyLimit w)
  /\ (forall r t, heap w !! r = Some t -> near (activeCount t) (concurrencyLimit t)).

Definition bounded (w : pool) : Prop := within_limits w /\ quiet_pool w.

(** Two pools with the same tasks, counters, limits and generators. *)
Definition same_bounds (w w' : pool) : Prop :=
  _activePromiseCount w' = _activePromiseCount w
  /\ _concurrencyLimit w' = _concurrencyLimit w
  /\ length (heap w') = length (heap w)
  /\ (forall r t t', heap w !! r = Some t -> heap w' !! r = Some t' ->
        activeCount t' = activeCount t
        /\ concurrencyLimit t' = concurrencyLimit t
        /\ generator t' = generator t).

(** ** The other ways to add a task *)

(** [interface SingleTaskParams] *)
Record SingleTaskParams : Type := mkSingleParams {
  sp_id : option task_id;
  sp_generator : jsval -> script;
  sp_data : jsval
}.

(** The parameters [addSingleTask] hands to [addGenericTask]: the generator
    ignores the invocation number and calls [params.generator(params.data)],
    and the invocation limit is 1. *)
Definition single_params (p : SingleTaskParams) : GenericTaskParams :=
  mkParams (sp_id p) (fun _ => sp_generator p (sp_data p)) VUndefined (VNum (Fin 1)).

(** [addSingleTask(params)]: the promise of the generic task; what
    [.then((result) => result[0])] makes of its value is [single_result]. *)
Definition addSingleTask (fuel : nat) (p : SingleTaskParams) (w : pool)
  : option (added * pool) :=
  addGenericTask fuel (single_params p) w.
Definition single_result (a : array) : jsval := arr_get 0 a.

(** [interface LinearTaskParams] *)
Record LinearTaskParams : Type := mkLinearParams {
  lp_id : option task_id;
  lp_generator : nat -> script;
  lp_invocationLimit : jsval
}.

Definition linear_params (p : LinearTaskParams) : GenericTaskParams :=
  mkParams (lp_id p) (lp_generator p) (VNum (Fin 1)) (lp_invocationLimit p).

(** [addLinearTask(params)] *)
Definition addLinearTask (fuel : nat) (p : LinearTaskParams) (w : pool)
  : option (added * pool) :=
  addGenericTask fuel (linear_params p) w.

(** [interface EachTaskParams] *)
Record EachTaskParams : Type := mkEachParams {
  ep_id : option task_id;
  ep_generator : jsval -> nat -> script;
  ep_data : list jsval;
  ep_concurrencyLimit : jsval;
  ep_invocationLimit : jsval
}.

(** The generator [addEachTask] hands to [addGenericTask]:
[[
  (index) => {
      if (index >= params.data.length) { return null; }
      let oldIndex = index; index++;
      return params.generator(params.data[oldIndex], oldIndex);
  }
]] *)
Definition each_generator (p : EachTaskParams) (index : nat) : script :=
  if (length (ep_data p) <=? index)%nat then Ret (Returns (RetVal VNull))
  else
    let oldIndex := index in
    ep_generator p (default VUndefined (ep_data p !! oldIndex)) oldIndex.

Definition each_params (p : EachTaskParams) : GenericTaskParams :=
  mkParams (ep_id p) (each_generator p) (ep_concurrencyLimit p) (ep_invocationLimit p).

(** [addEachTask(params)] *)
Definition addEachTask (fuel : nat) (p : EachTaskParams) (w : pool)
  : option (added * pool) :=
  addGenericTask fuel (each_params p) w.

(** *** More scenarios *)

(** A generator that, on its first call only (flag in variable 0), hands
    its work over to a new task of one invocation, and returns [null] every
    time:
[[
  generator: () => {
      if (first) { first = false;
                   pool.addGenericTask({ generator: inner, invocationLimit: 1 }); }
      return null;
  }
]]
    It is added to a pool in which a task of concurrency limit 1 is
    running. *)
Definition delegating_generator (_ : nat) : script :=
  GetVar 0 (fun first =>
    if num_truthy first then
      SetVar 0 (Fin 0)
        (AddGenericTask None inner_generator VUndefined (VNum (Fin 1))
           (Ret (Returns (RetVal VNull))))
    else Ret (Returns (RetVal VNull))).
Definition delegating_ops : list op :=
  [OpAddGeneric (mkParams None inner_generator (VNum (Fin 1)) VUndefined);
   OpAddGeneric (mkParams None delegating_generator VUndefined VUndefined)].

(** The generator of a task with id 7 that stops its own task before it
    returns an operation:
[[
  generator: () => { pool.stopTask(7); return work(); }
]] *)
Definition self_stopping_generator (_ : nat) : script :=
  StopTask (IdVal (VNum (Fin 7))) (Ret (pending_promise VNull)).

(** A task of one invocation, a second task (id 7) that has to wait for
    it, and [stopTask(7)]. *)
Definition waiting_ops : list op :=
  [OpAddGeneric (mkParams None (fun _ => Ret (pending_promise VNull)) VUndefined
                   (VNum (Fin 1)));
   OpAddGeneric (mkParams (Some (IdVal (VNum (Fin 7))))
                   (fun _ => Ret (pending_promise VNull)) VUndefined VUndefined);
   OpStop (IdVal (VNum (Fin 7)))].

(** ** More relations and properties of a pool *)

(** From [t] to [t']: the task object but for [init] and [promise];
    [exhausted] and [errored] are never taken back. *)
Definition task_steady (t t' : task) : Prop :=
  tid t' = tid t /\ generator t' = generator t
  /\ concurrencyLimit t' = concurrencyLimit t /\ invocationLimit t' = invocationLimit t
  /\ invocations t' = invocations t /\ activeCount t' = activeCount t
  /\ result t' = result t
  /\ (exhausted t = true -> exhausted t' = true)
  /\ (errored t = true -> errored t' = true).

(** From [w] to [w']: the same tasks, in [_tasks], in [_taskMap] and on
    the heap, the same counters, limits and invocations in flight. *)
Definition steady (w w' : pool) : Prop :=
  _concurrencyLimit w' = _concurrencyLimit w
  /\ _activePromiseCount w' = _activePromiseCount w
  /\ inflights w' = inflights w
  /\ length (heap w') = length (heap w)
  /\ (forall r t, heap w !! r = Some t ->
        exists t', heap w' !! r = Some t' /\ task_steady t t')
  /\ _taskMap w' = _taskMap w
  /\ _tasks w' = _tasks w.

(** From [w] to [w']: every task is still there, with its id, generator
    and limits; it has not been invoked less often, and not more often if
    it was exhausted. *)
Definition lasting (w w' : pool) : Prop :=
  forall r t, heap w !! r = Some t ->
    exists t', heap w' !! r = Some t'
      /\ tid t' = tid t /\ generator t' = generator t
      /\ concurrencyLimit t' = concurrencyLimit t
      /\ invocationLimit t' = invocationLimit t
      /\ (invocations t <= invocations t')%nat
      /\ (exhausted t = true -> exhausted t' = true /\ invocations t' = invocations t)
      /\ (errored t = true -> errored t' = true).


(** The task as [startPromise] leaves it when the generator has returned
    a promise. *)
Definition started (t : task) : task :=
  let t1 := set_invocations (S (invocations t)) (set_activeCount (activeCount t + 1) t) in
  if num_ge (Fin (Z.of_nat (invocations t1))) (invocationLimit t1)
  then set_exhausted true t1 else t1.

(** An invariant [I], in a pool where no generator adds a task. *)
Definition quiet_inv (I : pool -> Prop) (w : pool) : Prop := I w /\ quiet_pool w.

(** A property of every task object. *)
Definition every_task (P : task -> Prop) (w : pool) : Prop :=
  forall r t, heap w !! r = Some t -> P t.

(** The invocations made are not a whole step above the invocation limit
    (within it when it is a whole number), and below it while the task is
    not exhausted. *)
Definition capped_task (t : task) : Prop :=
  near (Z.of_nat (invocations t)) (invocationLimit t)
  /\ (exhausted t = false ->
      num_lt (Fin (Z.of_nat (invocations t))) (invocationLimit t) = true).

(** A task made by [addEachTask] has not been invoked more often than it
    has elements. *)
Definition each_task_bound (t : task) : Prop :=
  forall p, generator t = each_generator p -> (invocations t <= length (ep_data p))%nat.

(** Every invocation in flight belongs to a task of [_tasks]. *)
Definition tasks_listed (w : pool) : Prop :=
  forall p, p ∈ inflights w -> p_task p ∈ _tasks w.

Definition listed_ok (w : pool) : Prop := counts_ok w /\ tasks_listed w.

(** Task [r] is in [_tasks], exhausted, and has nothing in flight. *)
Definition stuck (r : nat) (w : pool) : Prop :=
  r ∈ _tasks w
  /\ (exists t, heap w !! r = Some t /\ exhausted t = true)
  /\ (forall p, p ∈ inflights w -> p_task p <> r).

End Legacy.

(* ===================================================================== *)
(** ** [src/ts/private/task.ts]: the task of the group-based executor *)
(* ===================================================================== *)

Module TaskTs.
Import JS.

(** Modelled from the spec: [enum TaskState] is declared in
    [public/task.ts], which is not among the sources.  Its members and their
    order (Active < Paused < Exhausted < Terminated) are those of the data
    model; [task.ts] compares states with [<] and [>=]. *)
Inductive TaskState : Type := Active | Paused | Exhausted | Terminated.

Definition rank (s : TaskState) : Z :=
  match s with
  | Active => 0
  | Paused => 1
  | Exhausted => 2
  | Terminated => 3
  end.

Definition state_lt (a b : TaskState) : bool := rank a <? rank b.
Definition state_ge (a b : TaskState) : bool := rank b <=? rank a.

#[global] Instance TaskState_eq_dec : EqDecision TaskState.
Proof. solve_decision. Defined.

(** [interface TaskError]: an error and whether somebody has claimed it.
    One such object is shared by the task, its groups and the deferred
    check, so the objects live in a store and are named by position. *)
Record TaskError : Type := mkTaskError {
  error : jsval;
  handled : bool
}.

(** Modelled from the spec: [class PromisePoolGroupPrivate] is in
    [private/group.ts], which is not among the sources.  The fields are the
    ones [task.ts] reads and writes ([_pool], [_activePromiseCount],
    [_activeTaskCount], [_frequencyLimit], [_frequencyStarts]) and those of
    the data model of a group (limits, window, idle waiters, recorded
    rejection).  [_frequencyLimit] is a number, or [undefined] when no
    frequency limit is set. *)
Record PromisePoolGroupPrivate : Type := mkGroup {
  g_pool : nat;
  _concurrencyLimit : num;
  _frequencyLimit : jsval;
  _frequencyWindow : Z;
  _activePromiseCount : Z;
  _activeTaskCount : Z;
  _frequencyStarts : list Z;
  _idleWaiters : list nat;
  g_rejection : option nat
}.

Definition set_apc (n : Z) (g : PromisePoolGroupPrivate) : PromisePoolGroupPrivate :=
  mkGroup (g_pool g) (_concurrencyLimit g) (_frequencyLimit g) (_frequencyWindow g)
    n (_activeTaskCount g) (_frequencyStarts g) (_idleWaiters g) (g_rejection g).
Definition set_atc (n : Z) (g : PromisePoolGroupPrivate) : PromisePoolGroupPrivate :=
  mkGroup (g_pool g) (_concurrencyLimit g) (_frequencyLimit g) (_frequencyWindow g)
    (_activePromiseCount g) n (_frequencyStarts g) (_idleWaiters g) (g_rejection g).
Definition set_starts (l : list Z) (g : PromisePoolGroupPrivate) : PromisePoolGroupPrivate :=
  mkGroup (g_pool g) (_concurrencyLimit g) (_frequencyLimit g) (_frequencyWindow g)
    (_activePromiseCount g) (_activeTaskCount g) l (_idleWaiters g) (g_rejection g).
Definition set_waiters (l : list nat) (g : PromisePoolGroupPrivate) : PromisePoolGroupPrivate :=
  mkGroup (g_pool g) (_concurrencyLimit g) (_frequencyLimit g) (_frequencyWindow g)
    (_activePromiseCount g) (_activeTaskCount g) (_frequencyStarts g) l (g_rejection g).
Definition set_g_rejection (r : option nat) (g : PromisePoolGroupPrivate)
  : PromisePoolGroupPrivate :=
  mkGroup (g_pool g) (_concurrencyLimit g) (_frequencyLimit g) (_frequencyWindow g)
    (_activePromiseCount g) (_activeTaskCount g) (_frequencyStarts g) (_idleWaiters g) r.

(** The generator of a task is called with [this] bound to the task, and
    the tests call [this.end()] and [this.pause()] from inside it. *)
Inductive script : Type :=
| Ret (o : outcome)
| CallEnd (k : script)
| CallPause (k : script).

(** The value a task's promise resolves with ([_returnResult: any]): the
    result array, or whatever the result converter made of it. *)
Inductive retval : Type :=
| RArray (a : array)
| RValue (v : jsval).

Inductive converted : Type :=
| ConvThrows (e : jsval)
| ConvReturns (r : retval).

(** [class PromisePoolTaskPrivate].  [_result] becomes [null] ([None]) when
    the task resolves; [_returnResult] is [undefined] ([None]) until then.
    Groups are named by their position in the store of the world. *)
Record PromisePoolTaskPrivate : Type := mkTask {
  _groups : list nat;
  _generator : nat -> script;
  _taskGroup : nat;
  _invocations : nat;
  _invocationLimit : num;
  _result : option array;
  _returnResult : option retval;
  _state : TaskState;
  _rejection : option nat;
  _promises : list nat;
  _pool : nat;
  _resultConverter : option (array -> converted)
}.

Definition set_invocations (n : nat) (t : PromisePoolTaskPrivate) :=
  mkTask (_groups t) (_generator t) (_taskGroup t) n (_invocationLimit t) (_result t)
    (_returnResult t) (_state t) (_rejection t) (_promises t) (_pool t) (_resultConverter t).
Definition set_invocationLimit (n : num) (t : PromisePoolTaskPrivate) :=
  mkTask (_groups t) (_generator t) (_taskGroup t) (_invocations t) n (_result t)
    (_returnResult t) (_state t) (_rejection t) (_promises t) (_pool t) (_resultConverter t).
Definition set_result (a : option array) (t : PromisePoolTaskPrivate) :=
  mkTask (_groups t) (_generator t) (_taskGroup t) (_invocations t) (_invocationLimit t) a
    (_returnResult t) (_state t) (_rejection t) (_promises t) (_pool t) (_resultConverter t).
Definition set_returnResult (r : option retval) (t : PromisePoolTaskPrivate) :=
  mkTask (_groups t) (_generator t) (_taskGroup t) (_invocations t) (_invocationLimit t)
    (_result t) r (_state t) (_rejection t) (_promises t) (_pool t) (_resultConverter t).
Definition set_state (s : TaskState) (t : PromisePoolTaskPrivate) :=
  mkTask (_groups t) (_generator t) (_taskGroup t) (_invocations t) (_invocationLimit t)
    (_result t) (_returnResult t) s (_rejection t) (_promises t) (_pool t) (_resultConverter t).
Definition set_rejection (r : option nat) (t : PromisePoolTaskPrivate) :=
  mkTask (_groups t) (_generator t) (_taskGroup t) (_invocations t) (_invocationLimit t)
    (_result t) (_returnResult t) (_state t) r (_promises t) (_pool t) (_resultConverter t).
Definition set_promises (l : list nat) (t : PromisePoolTaskPrivate) :=
  mkTask (_groups t) (_generator t) (_taskGroup t) (_invocations t) (_invocationLimit t)
    (_result t) (_returnResult t) (_state t) (_rejection t) l (_pool t) (_resultConverter t).

(** How a [ResolvablePromise] handed to a waiter was settled. *)
Inductive settlement : Type :=
| Resolved (v : option retval)
| Rejected (e : jsval).

(** A started invocation whose operation has not completed: the closure of
    the handlers [_run] attached (the task, [resultIndex]) and how the
    operation will end. *)
Record inflight : Type := mkInflight {
  p_task : nat;
  p_index : nat;
  p_fate : fate
}.

(** The objects a task works on.  [nextTicks] are the deferred checks given
    to [process.nextTick]; [unobserved] collects the errors passed to a bare
    [Promise.reject(err)], the rejections nobody can observe; [settled] the
    waiters' promises settled so far; [triggered] counts the calls of the
    pool's trigger callback and [detached] lists the tasks the detach
    callback was called for. *)
Record world : Type := mkWorld {
  groups : list PromisePoolGroupPrivate;
  tasks : list PromisePoolTaskPrivate;
  errors : list TaskError;
  inflights : list inflight;
  nextTicks : list nat;
  unobserved : list jsval;
  settled : list (nat * settlement);
  fresh : nat;
  triggered : nat;
  detached : list nat
}.

Definition set_groups (l : list PromisePoolGroupPrivate) (w : world) : world :=
  mkWorld l (tasks w) (errors w) (inflights w) (nextTicks w) (unobserved w)
    (settled w) (fresh w) (triggered w) (detached w).
Definition set_tasks (l : list PromisePoolTaskPrivate) (w : world) : world :=
  mkWorld (groups w) l (errors w) (inflights w) (nextTicks w) (unobserved w)
    (settled w) (fresh w) (triggered w) (detached w).
Definition set_errors (l : list TaskError) (w : world) : world :=
  mkWorld (groups w) (tasks w) l (inflights w) (nextTicks w) (unobserved w)
    (settled w) (fresh w) (triggered w) (detached w).
Definition set_inflights (l : list inflight) (w : world) : world :=
  mkWorld (groups w) (tasks w) (errors w) l (nextTicks w) (unobserved w)
    (settled w) (fresh w) (triggered w) (detached w).
Definition set_nextTicks (l : list nat) (w : world) : world :=
  mkWorld (groups w) (tasks w) (errors w) (inflights w) l (unobserved w)
    (settled w) (fresh w) (triggered w) (detached w).
Definition set_unobserved (l : list jsval) (w : world) : world :=
  mkWorld (groups w) (tasks w) (errors w) (inflights w) (nextTicks w) l
    (settled w) (fresh w) (triggered w) (detached w).
Definition set_settled (l : list (nat * settlement)) (w : world) : world :=
  mkWorld (groups w) (tasks w) (errors w) (inflights w) (nextTicks w) (unobserved w)
    l (fresh w) (triggered w) (detached w).
Definition set_fresh (n : nat) (w : world) : world :=
  mkWorld (groups w) (tasks w) (errors w) (inflights w) (nextTicks w) (unobserved w)
    (settled w) n (triggered w) (detached w).
Definition set_triggered (n : nat) (w : world) : world :=
  mkWorld (groups w) (tasks w) (errors w) (inflights w) (nextTicks w) (unobserved w)
    (settled w) (fresh w) n (detached w).
Definition set_detached (l : list nat) (w : world) : world :=
  mkWorld (groups w) (tasks w) (errors w) (inflights w) (nextTicks w) (unobserved w)
    (settled w) (fresh w) (triggered w) l.

Definition empty_world : world := mkWorld [] [] [] [] [] [] [] 0%nat 0%nat [].

Definition with_task (t : nat) (f : PromisePoolTaskPrivate -> PromisePoolTaskPrivate)
    (w : world) : world :=
  set_tasks (alter f t (tasks w)) w.
Definition with_group (g : nat) (f : PromisePoolGroupPrivate -> PromisePoolGroupPrivate)
    (w : world) : world :=
  set_groups (alter f g (groups w)) w.
Definition with_error (r : nat) (f : TaskError -> TaskError) (w : world) : world :=
  set_errors (alter f r (errors w)) w.

(** [gs.forEach(f)] over group references *)
Definition forEach_group (gs : list nat) (f : nat -> world -> world) (w : world) : world :=
  foldl (fun w g => f g w) w gs.

(** [promise.resolve(v)] / [promise.reject(e)] on every waiter in a list *)
Definition settle_all (ps : list nat) (s : settlement) (w : world) : world :=
  set_settled (settled w ++ ((fun p => (p, s)) <$> ps)) w.

(** [Promise.reject(err)] with nothing attached *)
Definition drop_unobserved (e : jsval) (w : world) : world :=
  set_unobserved (unobserved w ++ [e]) w.

(** [this._triggerCallback()]: the pool's callback; the pool is not among
    the sources, the call is recorded. *)
Definition triggerCallback (w : world) : world :=
  set_triggered (S (triggered w)) w.

(** [this._detachCallback(this._groups)], recorded likewise. *)
Definition detachCallback (t : nat) (w : world) : world :=
  set_detached (detached w ++ [t]) w.

(** *** The group, as far as the task calls it *)

(** Modelled from the spec: the constructor of a group
    ([private/group.ts], not among the sources).  A limit that is given
    must be a positive number; a limit that is not given leaves the
    concurrency unbounded and the frequency limit unset.  [None] when the
    constructor throws. *)
Definition new_group (pool : nat) (concurrencyLimit frequencyLimit frequencyWindow : jsval)
  : option PromisePoolGroupPrivate :=
  let positive (v : jsval) : bool :=
    match v with VNum n => num_lt (Fin 0) n | _ => false end in
  let given (v : jsval) : bool :=
    match v with VUndefined | VNull => false | _ => true end in
  if (given concurrencyLimit && negb (positive concurrencyLimit))
     || (given frequencyLimit && negb (positive frequencyLimit))
     || (given frequencyWindow && negb (positive frequencyWindow))
  then None
  else
    Some (mkGroup pool
            (match concurrencyLimit with VNum n => n | _ => PInf end)
            (match frequencyLimit with VNum n => VNum n | _ => VUndefined end)
            (match frequencyWindow with VNum (Fin z) => z | _ => 0 end)
            0 0 [] [] None).

(** Modelled from the spec: [group._incrementTasks()] adjusts
    [active_task_count]. *)
Definition _incrementTasks (g : nat) (w : world) : world :=
  with_group g (fun G => set_atc (_activeTaskCount G + 1) G) w.

(** Modelled from the spec: [group._decrementTasks()].  When the count
    reaches zero the group is idle: its idle waiters are resolved (there are
    none left if a rejection reached them) and its recorded rejection is
    cleared. *)
Definition _decrementTasks (g : nat) (w : world) : world :=
  match groups w !! g with
  | None => w
  | Some G =>
      let n := _activeTaskCount G - 1 in
      if n <=? 0 then
        settle_all (_idleWaiters G) (Resolved None)
          (with_group g (fun G => set_g_rejection None (set_waiters [] (set_atc n G))) w)
      else with_group g (set_atc n) w
  end.

(** Modelled from the spec: [group._reject(taskError)] records the error if
    none is recorded and rejects the current idle waiters with it, marking
    the error as handled when it does. *)
Definition group_reject (r : nat) (g : nat) (w : world) : world :=
  match groups w !! g, errors w !! r with
  | Some G, Some E =>
      let w1 := match g_rejection G with
                | None => with_group g (set_g_rejection (Some r)) w
                | Some _ => w
                end in
      match _idleWaiters G with
      | [] => w1
      | ws => settle_all ws (Rejected (error E))
                (with_group g (set_waiters [])
                   (with_error r (fun E => mkTaskError (error E) true) w1))
      end
  | _, _ => w
  end.

(** Modelled from the spec: [group._cleanFrequencyStarts(now)] purges the
    entries with timestamp [<= now - frequency_window]. *)
Definition clean_group (now : Z) (G : PromisePoolGroupPrivate) : PromisePoolGroupPrivate :=
  set_starts (filter (fun t => now - _frequencyWindow G < t) (_frequencyStarts G)) G.
Definition group_cleanFrequencyStarts (now : Z) (g : nat) (w : world) : world :=
  with_group g (clean_group now) w.

(** What [_busyTime()] answers: [false] (ready), [true] (busy, no time
    known) or the timestamp at which the wait ends. *)
Inductive busy_time : Type :=
| BusyBool (b : bool)
| BusyUntil (t : Z).

(** Modelled from the spec: [group._busyTime()].  Busy without a time when
    the concurrency limit is reached; otherwise, with a frequency limit, the
    stale starts are purged and the group is busy until the oldest start
    leaves the window if the limit is reached; ready otherwise. *)
Definition group_busyTime (now : Z) (g : nat) (w : world) : busy_time * world :=
  match groups w !! g with
  | None => (BusyBool true, w)
  | Some G =>
      if num_ge (Fin (_activePromiseCount G)) (_concurrencyLimit G) then (BusyBool true, w)
      else
        match _frequencyLimit G with
        | VNum limit =>
            let w1 := group_cleanFrequencyStarts now g w in
            match groups w1 !! g with
            | None => (BusyBool true, w1)
            | Some G1 =>
                if num_ge (Fin (Z.of_nat (length (_frequencyStarts G1)))) limit then
                  match _frequencyStarts G1 with
                  | t0 :: _ => (BusyUntil (t0 + _frequencyWindow G1), w1)
                  | [] => (BusyBool false, w1)
                  end
                else (BusyBool false, w1)
            end
        | _ => (BusyBool false, w)
        end
  end.

(** *** The methods of the task *)

(** [pause()] *)
Definition pause (t : nat) (w : world) : world :=
  with_task t (fun T => if bool_decide (_state T = Active) then set_state Paused T else T) w.

(** The part of [_reject] after its call of [this.end()]: the waiters are
    rejected (which marks the error handled), every group is told, and the
    deferred check is armed unless the error is handled by now.  [r] names
    the [taskError] object. *)
Definition reject_rest (t : nat) (e : jsval) (r : nat) (w2 : world) : world :=
  match tasks w2 !! t with
  | None => w2
  | Some T2 =>
      let w3 :=
        match _promises T2 with
        | [] => w2
        | ps =>
            with_task t (set_promises [])
              (settle_all ps (Rejected e)
                 (with_error r (fun E => mkTaskError (error E) true) w2))
        end in
      let w4 := forEach_group (_groups T2) (group_reject r) w3 in
      match errors w4 !! r with
      | Some E =>
          if negb (handled E) then set_nextTicks (nextTicks w4 ++ [r]) w4
          else w4
      | None => w4
      end
  end.

(** [end()], [_resolve()] and [_reject(err)] call each other: [end] calls
    [_resolve], which calls [_reject] when the result converter throws, and
    [_reject] calls [end].  The chain is never longer than three calls (the
    inner [end] finds the task terminated, the inner [_resolve] finds the
    rejection recorded), so three levels of the mutual definition are the
    methods themselves; [TaskFacts.end_f_depth] and its companions show
    that more levels change nothing. *)
Fixpoint end_f (depth : nat) (t : nat) (w : world) : world :=
  match depth with
  | O => w
  | S depth' =>
      match tasks w !! t with
      | None => w
      | Some T =>
          match groups w !! _taskGroup T with
          | None => w
          | Some TG =>
              if state_lt (_state T) Terminated && (_activePromiseCount TG <=? 0) then
                let w1 := with_task t (set_state Terminated) w in
                let w2 :=
                  if 0 <? _activeTaskCount TG then
                    detachCallback t (forEach_group (_groups T) _decrementTasks w1)
                  else w1 in
                resolve_f depth' t w2
              else if state_lt (_state T) Exhausted then
                with_task t (set_state Exhausted) w
              else w
          end
      end
  end

with resolve_f (depth : nat) (t : nat) (w : world) : world :=
  match depth with
  | O => w
  | S depth' =>
      match tasks w !! t with
      | None => w
      | Some T =>
          match _rejection T, _result T with
          | Some _, _ => w
          | None, None => w
          | None, Some a =>
              let res := arr_set_length (_invocations T) a in
              let w1 := with_task t (fun T => set_state Terminated (set_result (Some res) T)) w in
              let finish (r : retval) : world :=
                let w2 := with_task t (fun T =>
                            set_result None (set_returnResult (Some r) T)) w1 in
                match _promises T with
                | [] => w2
                | ps => with_task t (set_promises []) (settle_all ps (Resolved (Some r)) w2)
                end in
              match _resultConverter T with
              | Some conv =>
                  match conv res with
                  | ConvThrows e => reject_f depth' t e w1
                  | ConvReturns r => finish r
                  end
              | None => finish (RArray res)
              end
          end
      end
  end

with reject_f (depth : nat) (t : nat) (e : jsval) (w : world) : world :=
  match depth with
  | O => w
  | S depth' =>
      match tasks w !! t with
      | None => w
      | Some T =>
          match _rejection T with
          | Some _ => drop_unobserved e w
          | None =>
              let r := length (errors w) in
              let w1 := with_task t (set_rejection (Some r))
                          (set_errors (errors w ++ [mkTaskError e false]) w) in
              reject_rest t e r (end_f depth' t w1)
          end
      end
  end.

(** [end()] *)
Definition end_ (t : nat) (w : world) : world := end_f 3 t w.
(** [_resolve()] *)
Definition _resolve (t : nat) (w : world) : world := resolve_f 3 t w.
(** [_reject(err)] *)
Definition _reject (t : nat) (e : jsval) (w : world) : world := reject_f 3 t e w.

(** The callback [_reject] gives to [process.nextTick]: the first pending
    one runs. *)
Definition tick (w : world) : world :=
  match nextTicks w with
  | [] => w
  | r :: rest =>
      let w1 := set_nextTicks rest w in
      match errors w1 !! r with
      | Some E => if negb (handled E) then drop_unobserved (error E) w1 else w1
      | None => w1
      end
  end.

(** [resume()] *)
Definition resume (t : nat) (w : world) : world :=
  match tasks w !! t with
  | None => w
  | Some T =>
      if bool_decide (_state T = Paused) then
        triggerCallback (with_task t (set_state Active) w)
      else w
  end.

(** What [promise()] returns: a promise already rejected, one already
    resolved, or a fresh [ResolvablePromise] put on the waiting list. *)
Inductive promised : Type :=
| PRejected (e : jsval)
| PResolved (v : option retval)
| PWaiting (p : nat).

(** [promise()] *)
Definition promise (t : nat) (w : world) : option (promised * world) :=
  match tasks w !! t with
  | None => None
  | Some T =>
      match _rejection T with
      | Some r =>
          match errors w !! r with
          | None => None
          | Some E =>
              Some (PRejected (error E),
                    with_error r (fun E => mkTaskError (error E) true) w)
          end
      | None =>
          if bool_decide (_state T = Terminated) then Some (PResolved (_returnResult T), w)
          else
            Some (PWaiting (fresh w),
                  with_task t (fun T => set_promises (_promises T ++ [fresh w]) T)
                    (set_fresh (S (fresh w)) w))
      end
  end.

(** Modelled from the spec: [isNull] comes from [private/utils.ts], which
    is not among the sources; it is taken to hold of [null] and
    [undefined]. *)
Definition isNull (v : jsval) : bool :=
  match v with VUndefined | VNull => true | _ => false end.

(** [set invocationLimit(val)]; [None] when the setter throws. *)
Definition set_limit (t : nat) (val : jsval) (w : world) : option world :=
  match tasks w !! t with
  | None => None
  | Some T =>
      if isNull val then
        Some (triggerCallback (with_task t (set_invocationLimit PInf) w))
      else
        match val with
        | VNum n =>
            if negb (bool_decide (n = NaN)) && num_ge n (Fin 0) then
              let w1 := with_task t (set_invocationLimit n) w in
              let w2 := if num_ge (Fin (Z.of_nat (_invocations T))) n
                        then end_ t w1 else w1 in
              Some (triggerCallback w2)
            else None
        | _ => None
        end
  end.

(** The body of a generator, run with [this] bound to task [t]. *)
Fixpoint run_script (t : nat) (s : script) (w : world) : outcome * world :=
  match s with
  | Ret o => (o, w)
  | CallEnd k => run_script t k (end_ t w)
  | CallPause k => run_script t k (pause t w)
  end.

(** What the [forEach] of [_run] does to one group. *)
Definition start_group (now : Z) (G : PromisePoolGroupPrivate) : PromisePoolGroupPrivate :=
  let G1 := set_apc (_activePromiseCount G + 1) G in
  if truthy (_frequencyLimit G1)
  then set_starts (_frequencyStarts G1 ++ [now]) G1
  else G1.
Definition start_in_group (now : Z) (g : nat) (w : world) : world :=
  with_group g (start_group now) w.

(** [_run()]; [now] is what [Date.now()] answers. *)
Definition _run (t : nat) (now : Z) (w : world) : world :=
  match tasks w !! t with
  | None => w
  | Some T =>
      if num_ge (Fin (Z.of_nat (_invocations T))) (_invocationLimit T) then end_ t w
      else
        match run_script t (_generator T (_invocations T)) w with
        | (Throws e, w1) => _reject t e w1
        | (Returns v, w1) =>
            if falsy v then
              match tasks w1 !! t with
              | Some T1 => if bool_decide (_state T1 = Active) then end_ t w1 else w1
              | None => w1
              end
            else
              let w2 := forEach_group (_groups T) (start_in_group now) w1 in
              match tasks w2 !! t with
              | None => w2
              | Some T2 =>
                  let resultIndex := _invocations T2 in
                  let w3 := with_task t (set_invocations (S resultIndex)) w2 in
                  let w4 :=
                    if num_ge (Fin (Z.of_nat (S resultIndex))) (_invocationLimit T2)
                    then end_ t w3 else w3 in
                  set_inflights
                    (inflights w4 ++ [mkInflight t resultIndex (as_promise v)]) w4
              end
        end
  end.

(** What the [forEach] of the completion handler does to one group. *)
Definition finish_group (G : PromisePoolGroupPrivate) : PromisePoolGroupPrivate :=
  set_apc (_activePromiseCount G - 1) G.
Definition finish_in_group (g : nat) (w : world) : world :=
  with_group g finish_group w.

(** An operation in flight completes.  The handlers were attached as
    [promise.catch(h1).then(h2)]: a rejection first runs [h1] (which calls
    [_reject] and returns [undefined]), and [h2] runs in a later step with
    that [undefined]; a fulfilment runs [h2] with the value.  When [h2]
    finds [this._result] to be [null] the assignment throws a [TypeError],
    the rest of the handler is skipped and the promise that [then] made is
    rejected with nobody listening. *)
Definition complete (i : nat) (w : world) : world :=
  match inflights w !! i with
  | None => w
  | Some p =>
      let t := p_task p in
      match p_fate p with
      | WillReject e =>
          let w1 := _reject t e w in
          set_inflights
            (<[i := mkInflight t (p_index p) (WillResolve VUndefined)]> (inflights w1)) w1
      | WillResolve v =>
          let w1 := set_inflights (delete i (inflights w)) w in
          match tasks w1 !! t with
          | None => w1
          | Some T =>
              let w2 := forEach_group (_groups T) finish_in_group w1 in
              let stored : option world :=
                if bool_decide (v = VUndefined) then Some w2
                else
                  match _result T with
                  | Some a => Some (with_task t (set_result (Some (arr_set (p_index p) v a))) w2)
                  | None => None
                  end in
              match stored with
              | None => drop_unobserved (VErr "TypeError") w2
              | Some w3 =>
                  let idle :=
                    match groups w3 !! _taskGroup T with
                    | Some TG => _activePromiseCount TG <=? 0
                    | None => false
                    end in
                  let w4 := if state_ge (_state T) Exhausted && idle then end_ t w3 else w3 in
                  triggerCallback w4
              end
          end
      end
  end.

(** [_busyTime()] of the task: the [for] loop over the groups, with its
    early [return true]. *)
Fixpoint busy_loop (now : Z) (gs : list nat) (time : Z) (w : world) : busy_time * world :=
  match gs with
  | [] => (if time =? 0 then BusyBool false else BusyUntil time, w)
  | g :: gs' =>
      match group_busyTime now g w with
      | (BusyUntil n, w1) => busy_loop now gs' (if time <? n then n else time) w1
      | (BusyBool true, w1) => (BusyBool true, w1)
      | (BusyBool false, w1) => busy_loop now gs' time w1
      end
  end.

Definition _busyTime (now : Z) (t : nat) (w : world) : busy_time * world :=
  match tasks w !! t with
  | None => (BusyBool true, w)
  | Some T =>
      if negb (bool_decide (_state T = Active)) then (BusyBool true, w)
      else busy_loop now (_groups T) 0 w
  end.

(** [_cleanFrequencyStarts(now)]: every group but the global one (index 0). *)
Definition _cleanFrequencyStarts (now : Z) (t : nat) (w : world) : world :=
  match tasks w !! t with
  | None => w
  | Some T => forEach_group (drop 1 (_groups T)) (group_cleanFrequencyStarts now) w
  end.

(** Modelled from the spec: the scheduler of the pool ([public/pool.ts] is
    not among the sources) looks at one task: it purges the stale frequency
    starts, asks the task for its busy time and invokes the task if and only
    if the answer is "ready". *)
Definition schedule (t : nat) (now : Z) (w : world) : world :=
  let w1 := _cleanFrequencyStarts now t w in
  match _busyTime now t w1 with
  | (BusyBool false, w2) => _run t now w2
  | (_, w2) => w2
  end.

(** [interface GenericTaskParams], with the fields the constructor of the
    task and of its private group read. *)
Record GenericTaskParams : Type := mkParams {
  generator : nat -> script;
  invocationLimit : jsval;
  paused : bool;
  params_groups : list nat;
  resultConverter : option (array -> converted);
  concurrencyLimit : jsval;
  frequencyLimit : jsval;
  frequencyWindow : jsval
}.

(** [params.invocationLimit <= 0], for the values that get this far
    ([null] counts as [0], [undefined] compares false). *)
Definition limit_le_zero (v : jsval) : bool :=
  match v with
  | VNull => true
  | VNum n => num_le n (Fin 0)
  | _ => false
  end.

(** [new PromisePoolTaskPrivate(internalParams, params)] for the pool
    [pool] whose global group is [globalGroup]; the global group and the
    groups of [params.groups] are references to groups of the store as it
    is before the call.  [None] when the constructor throws.  The new task
    is the last one in the store. *)
Definition new_task (pool globalGroup : nat) (params : GenericTaskParams) (w : world)
  : option (nat * world) :=
  let state := if paused params then Paused else Active in
  let limit : option num :=
    if isNull (invocationLimit params) then Some PInf
    else match invocationLimit params with VNum n => Some n | _ => None end in
  match limit,
        new_group pool (concurrencyLimit params) (frequencyLimit params)
          (frequencyWindow params) with
  | Some limit, Some TG =>
      let g := length (groups w) in
      let w1 := set_groups (groups w ++ [TG]) w in
      if bool_decide (globalGroup < g)%nat
         && forallb (fun g' => match groups w !! g' with
                               | Some G => (g_pool G =? pool)%nat
                               | None => false
                               end) (params_groups params)
      then
        let gs := [globalGroup; g] ++ params_groups params in
        let t := length (tasks w1) in
        let T := mkTask gs (generator params) g 0%nat limit (Some []) None state None []
                   pool (resultConverter params) in
        let w2 := set_tasks (tasks w1 ++ [T]) w1 in
        if limit_le_zero (invocationLimit params) then Some (t, end_ t w2)
        else Some (t, forEach_group gs _incrementTasks w2)
      else None
  | _, _ => None
  end.

(** Modelled from the spec: [pool.addGroup(options)] creates a group that
    belongs to the pool ([public/pool.ts] is not among the sources); [None]
    when the constructor of the group throws. *)
Definition addGroup (pool : nat) (cl fl fw : jsval) (w : world) : option (nat * world) :=
  match new_group pool cl fl fw with
  | Some G => Some (length (groups w), set_groups (groups w ++ [G]) w)
  | None => None
  end.

(** What can happen to the tasks of a pool: a new group, calls of the
    public methods, the scheduler looking at a task, a completion, a
    tick. *)
Inductive op : Type :=
| OpAddGroup (pool : nat) (concurrencyLimit frequencyLimit frequencyWindow : jsval)
| OpNew (pool globalGroup : nat) (params : GenericTaskParams)
| OpPromise (t : nat)
| OpPause (t : nat)
| OpResume (t : nat)
| OpEnd (t : nat)
| OpSetLimit (t : nat) (val : jsval)
| OpSchedule (t : nat) (now : Z)
| OpComplete (i : nat)
| OpTick.

(** A call that throws leaves the world as it was. *)
Definition apply_op (o : op) (w : world) : world :=
  match o with
  | OpAddGroup pool cl fl fw =>
      match addGroup pool cl fl fw w with Some (_, w') => w' | None => w end
  | OpNew pool gg params =>
      match new_task pool gg params w with Some (_, w') => w' | None => w end
  | OpPromise t =>
      match promise t w with Some (_, w') => w' | None => w end
  | OpPause t => pause t w
  | OpResume t => resume t w
  | OpEnd t => end_ t w
  | OpSetLimit t val =>
      match set_limit t val w with Some w' => w' | None => w end
  | OpSchedule t now => schedule t now w
  | OpComplete i => complete i w
  | OpTick => tick w
  end.

Definition run_ops (os : list op) (w : world) : world :=
  foldl (fun w o => apply_op o w) w os.

(** A world with one pool (number 0) whose global group, without limits,
    is group 0. *)
Definition pool_world : world :=
  set_groups [mkGroup 0 PInf VUndefined 0 0 0 [] [] None] empty_world.

(** *** Properties of a world *)

(** The part of a task and of a group that only [_run], the completion
    handler, the setter of the invocation limit, the purge of the frequency
    starts and the constructor change. *)
Definition task_core (T : PromisePoolTaskPrivate) : list nat * nat * nat * num :=
  (_groups T, _taskGroup T, _invocations T, _invocationLimit T).
Definition group_core (G : PromisePoolGroupPrivate) : Z * list Z * jsval * Z * num :=
  (_activePromiseCount G, _frequencyStarts G, _frequencyLimit G, _frequencyWindow G,
   _concurrencyLimit G).
Definition core (w : world) :=
  (inflights w, group_core <$> groups w, task_core <$> tasks w).

(** How often group [g] is listed in a task's groups. *)
Definition occurrences (g : nat) (gs : list nat) : nat :=
  length (filter (fun g' => g' = g) gs).

(** The number of times the invocations in flight count for group [g]:
    each one counts once for every place [g] takes in the groups of its
    task. *)
Definition weight (g : nat) (ts : list PromisePoolTaskPrivate) (p : inflight) : nat :=
  match ts !! p_task p with
  | Some T => occurrences g (_groups T)
  | None => 0%nat
  end.
Definition load (g : nat) (w : world) : nat :=
  sum_list_with (weight g (tasks w)) (inflights w).


(** Every group's counter is the load of the group; every invocation in
    flight belongs to a task of the store and every task to groups of the
    store. *)
Definition counts_ok (w : world) : Prop :=
  (forall g G, groups w !! g = Some G -> _activePromiseCount G = Z.of_nat (load g w))
  /\ (forall p, p ∈ inflights w -> (p_task p < length (tasks w))%nat)
  /\ (forall t T g, tasks w !! t = Some T -> g ∈ _groups T -> (g < length (groups w))%nat).

(** A property of the groups and of the task group of every task: the
    two fields no method assigns after the constructor. *)
Definition shaped (P : list nat -> nat -> Prop) (w : world) : Prop :=
  forall t T, tasks w !! t = Some T -> P (_groups T) (_taskGroup T).

(** No task lists a group twice. *)
Definition groups_distinct (w : world) : Prop :=
  shaped (fun gs _ => NoDup gs) w.

(** A group without frequency limit has recorded no start. *)
Definition starts_ok (w : world) : Prop :=
  forall g G, groups w !! g = Some G ->
    truthy (_frequencyLimit G) = false -> _frequencyStarts G = [].

(** [invocations < invocationLimit + 1] for every task: the invocations
    made are within the limit, or have passed by less than one a limit that
    is not a whole number.  For a whole limit and for [Infinity] this is
    [invocations <= invocationLimit]. *)
Definition limit_ok (w : world) : Prop :=
  forall t T, tasks w !! t = Some T ->
    near (Z.of_nat (_invocations T)) (_invocationLimit T).

(** [invocations <= invocationLimit] for every task, whatever the limit. *)
Definition limit_le (w : world) : Prop :=
  forall t T, tasks w !! t = Some T ->
    num_le (Fin (Z.of_nat (_invocations T))) (_invocationLimit T) = true.

(** Task [t] has a recorded rejection, and its error is [e]. *)
Definition recorded (w : world) (t : nat) (e : jsval) : Prop :=
  exists T r E,
    tasks w !! t = Some T /\ _rejection T = Some r
    /\ errors w !! r = Some E /\ error E = e.

(** Task [t] has a recorded rejection with error [e] that is marked as
    handled. *)
Definition claimed (w : world) (t : nat) (e : jsval) : Prop :=
  exists T r E,
    tasks w !! t = Some T /\ _rejection T = Some r
    /\ errors w !! r = Some E /\ error E = e /\ handled E = true.

(** The deferred check of the rejection of task [t] is the next callback
    of [process.nextTick] to run. *)
Definition check_due (w : world) (t : nat) : Prop :=
  exists T r rest,
    tasks w !! t = Some T /\ _rejection T = Some r /\ nextTicks w = r :: rest.

(** *** Scenarios *)

(** A generator whose invocation [i] returns a promise that is fulfilled
    with [i], and one whose invocation [i] returns a promise that is
    rejected with [i]. *)
Definition counting_generator (i : nat) : script :=
  Ret (Returns (RetPromise (WillResolve (VNum (Fin (Z.of_nat i)))))).
Definition failing_generator (i : nat) : script :=
  Ret (Returns (RetPromise (WillReject (VNum (Fin (Z.of_nat i)))))).

Definition plain_params (g : nat -> script) (limit : jsval) : GenericTaskParams :=
  mkParams g limit false [] None VUndefined VUndefined VUndefined.

(** A task of two invocations, both started, the first of which has failed:
    the rejection handler of invocation 0 has run. *)
Definition failed_world : world :=
  run_ops [OpNew 0 0 (plain_params failing_generator (VNum (Fin 2)));
           OpSchedule 0 5; OpSchedule 0 5; OpComplete 0] pool_world.

(** A task of three invocations, two of them started. *)
Definition busy_ops : list op :=
  [OpNew 0 0 (plain_params counting_generator (VNum (Fin 3)));
   OpSchedule 0 5; OpSchedule 0 5].
Definition busy_world : world := run_ops busy_ops pool_world.


(** The test "End Task / From Generator With Promise":
[[
  generator() { this.end(); return Promise.resolve(1); }
]] *)
Definition ending_generator (_ : nat) : script :=
  CallEnd (Ret (Returns (RetPromise (WillResolve (VNum (Fin 1)))))).

(** ** Relations used to state the invariants *)

(** A group without a frequency limit has recorded no start. *)
Definition group_starts_ok (G : PromisePoolGroupPrivate) : Prop :=
  truthy (_frequencyLimit G) = false -> _frequencyStarts G = [].

(** The operations that may break [limit_ok]: the setter, when it lowers
    the limit by one or more below the invocations made, and the
    constructor, when it is given a negative limit or [NaN]. *)
Definition respects_limit (o : op) (w : world) : Prop :=
  match o with
  | OpSetLimit t (VNum n) =>
      forall T, tasks w !! t = Some T -> near (Z.of_nat (_invocations T)) n
  | OpNew _ _ params =>
      match invocationLimit params with
      | VNum n => num_le (Fin 0) n = true
      | _ => True
      end
  | _ => True
  end.

(** From [w] to [w']: a task keeps the rejection it has recorded and stays
    exhausted or terminated once it is; an error object keeps its error, and
    stays handled once it is. *)
Definition task_stable (T T' : PromisePoolTaskPrivate) : Prop :=
  (forall r, _rejection T = Some r -> _rejection T' = Some r)
  /\ (state_ge (_state T) Exhausted = true -> state_ge (_state T') Exhausted = true)
  /\ (_state T = Terminated -> _state T' = Terminated).

Definition stable (w w' : world) : Prop :=
  (forall t T, tasks w !! t = Some T ->
     exists T', tasks w' !! t = Some T' /\ task_stable T T')
  /\ (forall r E, errors w !! r = Some E ->
        exists E', errors w' !! r = Some E' /\ error E' = error E
                   /\ (handled E = true -> handled E' = true)).

(** ** The results of a task *)

(** A generator body that does not end its own task. *)
Fixpoint calm (s : script) : Prop :=
  match s with
  | Ret _ => True
  | CallEnd _ => False
  | CallPause k => calm k
  end.

(** What a generator body hands back. *)
Fixpoint script_outcome (s : script) : outcome :=
  match s with
  | Ret o => o
  | CallEnd k | CallPause k => script_outcome k
  end.

(** No call of the generator of the task ends the task. *)
Definition calm_task (T : PromisePoolTaskPrivate) : Prop :=
  forall i, calm (_generator T i).

(** The operation that invocation [i] of a task starts, when it starts
    one: the promise the generator returned, or its value made a promise. *)
Definition produced (T : PromisePoolTaskPrivate) (i : nat) : option fate :=
  match script_outcome (_generator T i) with
  | Returns v => if falsy v then None else Some (as_promise v)
  | Throws _ => None
  end.

(** Slot [j] of the array holds the value the operation of invocation [j]
    is fulfilled with. *)
Definition stored (T : PromisePoolTaskPrivate) (a : array) (j : nat) : Prop :=
  produced T j = Some (WillResolve (arr_get j a)).

(** The results of task [t], given the invocations in flight.  Every
    invocation in flight has an index below [_invocations] and is the
    operation its generator call returned.  While the task has its result
    array it is not terminated, a slot of the array is empty or holds the
    value of its invocation, and every invocation made is in flight or has
    its value in its slot.  Once the array is given away the task is
    terminated, nothing of it is in flight, and (without a converter) the
    value it resolves with is an array with one slot for every invocation,
    each holding the value of its invocation. *)
Definition task_results_ok (fl : list inflight) (t : nat) (T : PromisePoolTaskPrivate)
  : Prop :=
  (forall p, p ∈ fl -> p_task p = t ->
     (p_index p < _invocations T)%nat /\ produced T (p_index p) = Some (p_fate p))
  /\ match _result T with
     | Some a =>
         _state T <> Terminated
         /\ (forall j, arr_get j a = VUndefined
                       \/ ((j < _invocations T)%nat /\ stored T a j))
         /\ (forall j, (j < _invocations T)%nat ->
               (exists p, p ∈ fl /\ p_task p = t /\ p_index p = j) \/ stored T a j)
     | None =>
         _state T = Terminated
         /\ (forall p, p ∈ fl -> p_task p <> t)
         /\ (_resultConverter T = None ->
             exists a, _returnResult T = Some (RArray a)
                       /\ length a = _invocations T
                       /\ forall j, (j < _invocations T)%nat -> stored T a j)
     end.

(** The results are right for every task that has no recorded rejection
    and whose generator does not end the task from inside. *)
Definition results_ok (w : world) : Prop :=
  forall t T, tasks w !! t = Some T -> calm_task T -> _rejection T = None ->
    task_results_ok (inflights w) t T.

(** The group of a task is one of the groups of the task. *)
Definition listed (w : world) : Prop :=
  shaped (fun gs g => g ∈ gs) w.

(** Two states of a task that [task_results_ok] cannot tell apart. *)
Definition same_results (T T' : PromisePoolTaskPrivate) : Prop :=
  _generator T' = _generator T /\ _invocations T' = _invocations T
  /\ _result T' = _result T /\ _returnResult T' = _returnResult T
  /\ _resultConverter T' = _resultConverter T
  /\ (_state T' = Terminated <-> _state T = Terminated).

(** From [w] to [w']: nothing changed for the tasks other than [t], and
    task [t] has kept its generator. *)
Definition others_kept (t : nat) (w w' : world) : Prop :=
  (forall p, p_task p <> t -> (p ∈ inflights w' <-> p ∈ inflights w))
  /\ (forall t', t' <> t -> tasks w' !! t' = tasks w !! t')
  /\ (forall T, tasks w !! t = Some T ->
        exists T', tasks w' !! t = Some T' /\ _generator T' = _generator T).

(** The three invariants the results depend on, together. *)
Definition sound (w : world) : Prop := counts_ok w /\ listed w /\ results_ok w.

(** ** The concurrency limits of the groups *)

(** The active promises of a group are not a whole step above its
    concurrency limit: within the limit when it is a whole number. *)
Definition group_within (G : PromisePoolGroupPrivate) : Prop :=
  near (_activePromiseCount G) (_concurrencyLimit G).

(** Every group of the store is within its limit. *)
Definition within_limits (w : world) : Prop :=
  forall g G, groups w !! g = Some G -> group_within G.

(** Group [g] can take one more promise. *)
Definition has_room (w : world) (g : nat) : Prop :=
  exists G, groups w !! g = Some G
            /\ num_ge (Fin (_activePromiseCount G)) (_concurrencyLimit G) = false.

(** The two fields of a group that the concurrency limit is about. *)
Definition counter_and_limit (G : PromisePoolGroupPrivate) : Z * num :=
  (_activePromiseCount G, _concurrencyLimit G).

(** Two worlds whose groups agree on them. *)
Definition same_counters (w w' : world) : Prop :=
  forall g, counter_and_limit <$> groups w' !! g = counter_and_limit <$> groups w !! g.

(** The operations that create no task listing a group twice: the groups
    given to the constructor differ from each other and from the global
    group. *)
Definition distinct_op (o : op) : Prop :=
  match o with
  | OpNew _ gg params => NoDup (gg :: params_groups params)
  | _ => True
  end.

End TaskTs.

(* ===================================================================== *)
(** ** Lists *)
(* ===================================================================== *)

Lemma filter_none {A} (P : A -> Prop) `{forall x, Decision (P x)} (l : list A) :
  (forall x, x ∈ l -> ~ P x) -> filter P l = [].
Proof.
  induction l as [|a l IH]; intros Hl; [reflexivity|].
  rewrite filter_cons_False by (apply Hl; left).
  apply IH. intros x Hx. apply Hl. right. assumption.
Qed.

(* ===================================================================== *)
(** ** Numbers *)
(* ===================================================================== *)

Module NumFacts.
Import JS.

Lemma num_lt_down a b L : b <= a -> num_lt (Fin a) L = true -> num_lt (Fin b) L = true.
Proof.
  intros Hb. destruct L as [|z| | |z f]; simpl; try discriminate; auto.
  - intros H. apply Z.ltb_lt in H. apply Z.ltb_lt. lia.
  - intros H. apply Z.leb_le in H. apply Z.leb_le. lia.
Qed.

Lemma num_le_down a b L : b <= a -> num_le (Fin a) L = true -> num_le (Fin b) L = true.
Proof.
  intros Hb. destruct L as [|z| | |z f]; simpl; try discriminate; auto.
  - intros H. apply Z.leb_le in H. apply Z.leb_le. lia.
  - intros H. apply Z.leb_le in H. apply Z.leb_le. lia.
Qed.

Lemma num_lt_le a L : num_lt (Fin a) L = true -> num_le (Fin a) L = true.
Proof.
  destruct L as [|z| | |z f]; simpl; try discriminate; auto.
  intros H. apply Z.ltb_lt in H. apply Z.leb_le. lia.
Qed.

(** A count that was below its limit and went up by one. *)
Lemma near_succ a L : num_lt (Fin a) L = true -> near (a + 1) L.
Proof. unfold near. replace (a + 1 - 1) with a by lia. auto. Qed.

(** A count whose guard [c >= L] was false, and that went up by one. *)
Lemma near_room a L : near a L -> num_ge (Fin a) L = false -> near (a + 1) L.
Proof.
  unfold num_ge, near. replace (a + 1 - 1) with a by lia.
  destruct L as [|l| | |l f]; simpl; try congruence.
  - intros _ H2. apply Z.leb_gt in H2. apply Z.ltb_lt. lia.
  - intros _ H2. apply Z.ltb_ge in H2. apply Z.leb_le. lia.
Qed.

(** A guard [a >= L] that is false says [a < L], for a limit that counts
    can be compared with. *)
Lemma num_lt_room a b L :
  num_lt (Fin b) L = true -> num_ge (Fin a) L = false -> num_lt (Fin a) L = true.
Proof.
  unfold num_ge. destruct L as [|l| | |l f]; simpl; try congruence.
  - intros _ H2. apply Z.leb_gt in H2. apply Z.ltb_lt. lia.
  - intros _ H2. apply Z.ltb_ge in H2. apply Z.leb_le. lia.
Qed.

Lemma near_down a b L : b <= a -> near a L -> near b L.
Proof. unfold near. intros Hb. apply num_lt_down. lia. Qed.

Lemma near_pred a L : near a L -> near (a - 1) L.
Proof. apply near_down. lia. Qed.

Lemma near_zero L : num_le (Fin 0) L = true -> near 0 L.
Proof.
  unfold near. destruct L as [|z| | |z f]; simpl; try discriminate; auto.
  - intros H. apply Z.leb_le in H. apply Z.ltb_lt. lia.
  - intros H. apply Z.leb_le in H. apply Z.leb_le. lia.
Qed.

Lemma near_le c L : num_le (Fin c) L = true -> near c L.
Proof.
  unfold near. destruct L as [|z| | |z f]; simpl; try discriminate; auto.
  - intros H. apply Z.leb_le in H. apply Z.ltb_lt. lia.
  - intros H. apply Z.leb_le in H. apply Z.leb_le. lia.
Qed.

(** For a whole limit, [near] is [<=]. *)
Lemma near_whole c L : whole L = true -> near c L -> num_le (Fin c) L = true.
Proof.
  unfold near. destruct L as [|z| | |z f]; simpl; try discriminate; auto.
  intros _ H. apply Z.ltb_lt in H. apply Z.leb_le. lia.
Qed.

(** For a limit with a fraction, it is one more than [<=] allows. *)
Lemma near_frac c z f : near c (Frac z f) <-> c <= z + 1.
Proof.
  unfold near. simpl. rewrite Z.leb_le. lia.
Qed.

(** *** The arithmetic of fractions *)

Lemma frac_num_bounds f : 0 < frac_num f < 2 ^ Z.of_nat (frac_len f).
Proof.
  induction f as [f IH|f IH|]; cbn [frac_num frac_len].
  - rewrite Nat2Z.inj_succ, Z.pow_succ_r by lia. lia.
  - rewrite Nat2Z.inj_succ, Z.pow_succ_r by lia. lia.
  - simpl. lia.
Qed.

Lemma frac_of_num f : frac_of (frac_len f) (frac_num f) = Some f.
Proof.
  induction f as [f IH|f IH|]; cbn [frac_num frac_len frac_of].
  - pose proof (frac_num_bounds f) as Hb.
    destruct (Z.eqb_spec (2 ^ Z.of_nat (frac_len f) + frac_num f) 0) as [E|_]; [lia|].
    destruct (Z.ltb_spec (2 ^ Z.of_nat (frac_len f) + frac_num f)
                (2 ^ Z.of_nat (frac_len f))) as [E|_]; [lia|].
    replace (2 ^ Z.of_nat (frac_len f) + frac_num f - 2 ^ Z.of_nat (frac_len f))
      with (frac_num f) by lia.
    rewrite IH. reflexivity.
  - pose proof (frac_num_bounds f) as Hb.
    destruct (Z.eqb_spec (frac_num f) 0) as [E|_]; [lia|].
    destruct (Z.ltb_spec (frac_num f) (2 ^ Z.of_nat (frac_len f))) as [_|E]; [|lia].
    rewrite IH. reflexivity.
  - reflexivity.
Qed.

(** [dyadic] gives back the number whose scaled value it is handed. *)
Lemma dyadic_frac z f :
  dyadic (z * 2 ^ Z.of_nat (frac_len f) + frac_num f) (frac_len f) = Frac z f.
Proof.
  pose proof (frac_num_bounds f) as Hb. unfold dyadic.
  rewrite Z.add_comm, Z_mod_plus_full, Z.mod_small by lia.
  rewrite frac_of_num. rewrite Z_div_plus_full by lia.
  rewrite Z.div_small by lia. reflexivity.
Qed.

Lemma num_sub_0_r n : num_sub n (Fin 0) = n.
Proof.
  destruct n as [|z| | |z f]; try reflexivity.
  - simpl. rewrite Z.sub_0_r. reflexivity.
  - unfold num_sub. cbn [digits scaled]. rewrite Nat.max_0_r, Nat.sub_diag.
    simpl (2 ^ Z.of_nat 0). rewrite Z.mul_1_r, Z.mul_0_l, Z.sub_0_r.
    apply dyadic_frac.
Qed.

(** A limit with a fraction and an integer count. *)
Lemma num_sub_frac_fin z f c : num_sub (Frac z f) (Fin c) = Frac (z - c) f.
Proof.
  unfold num_sub. cbn [digits scaled]. rewrite Nat.max_0_r, Nat.sub_diag.
  simpl (2 ^ Z.of_nat 0). rewrite Z.mul_1_r.
  replace (z * 2 ^ Z.of_nat (frac_len f) + frac_num f - c * 2 ^ Z.of_nat (frac_len f))
    with ((z - c) * 2 ^ Z.of_nat (frac_len f) + frac_num f) by lia.
  apply dyadic_frac.
Qed.

Example half_and_half : num_add (Frac 0 xH) (Frac 0 xH) = Fin 1.
Proof. reflexivity. Qed.
Example quarter_and_half : num_add (Frac 0 (xO xH)) (Frac 1 xH) = Frac 1 (xI xH).
Proof. reflexivity. Qed.
Example three_less_half : num_sub (Fin 3) (Frac 0 xH) = Frac 2 xH.
Proof. reflexivity. Qed.
Example half_less_quarter : num_sub (Frac 0 xH) (Frac 0 (xO xH)) = Frac 0 (xO xH).
Proof. reflexivity. Qed.
Example minus_half : num_sub (Fin 0) (Frac 0 xH) = Frac (-1) xH.
Proof. reflexivity. Qed.
Example quarter_below_half : num_lt (Frac 0 (xO xH)) (Frac 0 xH) = true.
Proof. reflexivity. Qed.
Example one_above_half : num_lt (Frac 0 xH) (Fin 1) = true /\ num_le (Fin 1) (Frac 0 xH) = false.
Proof. split; reflexivity. Qed.
End NumFacts.

(* ===================================================================== *)
(** ** Facts about [index.ts] *)
(* ===================================================================== *)

Module LegacyFacts.
Import JS Legacy NumFacts.

Lemma same_counts_refl w : same_counts w w.
Proof.
  repeat split; auto. intros r t' H. rewrite H. reflexivity.
Qed.

Lemma same_counts_trans w1 w2 w3 :
  same_counts w1 w2 -> same_counts w2 w3 -> same_counts w1 w3.
Proof.
  intros (A1 & I1 & L1 & H1) (A2 & I2 & L2 & H2).
  repeat split; try congruence; try lia.
  intros r t3 Ht3. specialize (H2 r t3 Ht3).
  destruct (heap w2 !! r) as [t2|] eqn:E2.
  - specialize (H1 r t2 E2). destruct (heap w1 !! r); congruence.
  - destruct (heap w1 !! r) as [t1|] eqn:E1; [|assumption].
    apply lookup_lt_Some in E1. apply lookup_ge_None in E2. lia.
Qed.

Lemma pool_counts_same w w' : counts_ok w -> same_counts w w' -> counts_ok w'.
Proof.
  intros (A & T & B) (A' & I' & L' & H').
  unfold counts_ok, inflight_of in *. rewrite I', A'. split; [assumption|]. split.
  - intros r t' Ht'. specialize (H' r t' Ht').
    destruct (heap w !! r) as [t|] eqn:E.
    + rewrite H'. apply (T r t E).
    + rewrite H'. apply lookup_ge_None in E.
      rewrite filter_none; [reflexivity|].
      intros p Hp Heq. specialize (B p Hp). lia.
  - intros p Hp. specialize (B p Hp). lia.
Qed.

(** Updating a task without touching its counter changes no count. *)
Lemma same_counts_with_task r f w :
  (forall t, activeCount (f t) = activeCount t) ->
  same_counts w (with_task r f w).
Proof.
  intros Hf. unfold with_task. repeat split; simpl; auto.
  - rewrite length_alter. lia.
  - intros r' t' H. destruct (decide (r = r')) as [->|Hne].
    + rewrite list_lookup_alter_eq in H.
      destruct (heap w !! r') as [t|]; simpl in H; [|discriminate].
      injection H as <-. apply Hf.
    + rewrite list_lookup_alter_ne in H by assumption. rewrite H. reflexivity.
Qed.

(** Step forms: what is applied last to the pool is peeled off first. *)
Lemma sc_with_task w x r f :
  (forall t, activeCount (f t) = activeCount t) ->
  same_counts w x -> same_counts w (with_task r f x).
Proof.
  intros Hf Hx. eapply same_counts_trans; [exact Hx|].
  apply same_counts_with_task, Hf.
Qed.

Lemma sc_fields w x y :
  _activePromiseCount y = _activePromiseCount x ->
  inflights y = inflights x ->
  heap y = heap x ->
  same_counts w x -> same_counts w y.
Proof.
  intros A I H Hx. eapply same_counts_trans; [exact Hx|].
  unfold same_counts. rewrite A, I, H. repeat split; auto.
  intros r t' E. rewrite E. reflexivity.
Qed.

Lemma resolveInstance_count t : activeCount (resolveInstance t) = activeCount t.
Proof. unfold resolveInstance. destruct (promise t); reflexivity. Qed.

Lemma rejectInstance_count e t : activeCount (rejectInstance e t) = activeCount t.
Proof. unfold rejectInstance. destruct (promise t); reflexivity. Qed.

Lemma sc_set_tasks w x l : same_counts w x -> same_counts w (set_tasks l x).
Proof. apply sc_fields; reflexivity. Qed.
Lemma sc_set_taskMap w x m : same_counts w x -> same_counts w (set_taskMap m x).
Proof. apply sc_fields; reflexivity. Qed.
Lemma sc_set_idle w x l d : same_counts w x -> same_counts w (set_idle l d x).
Proof. apply sc_fields; reflexivity. Qed.
Lemma sc_set_tasksInit w x n : same_counts w x -> same_counts w (set_tasksInit n x).
Proof. apply sc_fields; reflexivity. Qed.
Lemma sc_set_timers w x l : same_counts w x -> same_counts w (set_timers l x).
Proof. apply sc_fields; reflexivity. Qed.
Lemma sc_set_vars w x l : same_counts w x -> same_counts w (set_vars l x).
Proof. apply sc_fields; reflexivity. Qed.
Lemma sc_set_symbols w x n : same_counts w x -> same_counts w (set_symbols n x).
Proof. apply sc_fields; reflexivity. Qed.
Lemma sc_set_idle_fresh w x n : same_counts w x -> same_counts w (set_idle_fresh n x).
Proof. apply sc_fields; reflexivity. Qed.

(** Peel the outermost update off the right-hand pool. *)
Ltac sc_step :=
  first
    [ assumption
    | apply same_counts_refl
    | apply sc_with_task;
      [ intros ?; first [ reflexivity | apply resolveInstance_count
                        | apply rejectInstance_count ] | ]
    | apply sc_set_tasks | apply sc_set_taskMap | apply sc_set_idle
    | apply sc_set_tasksInit | apply sc_set_timers | apply sc_set_vars
    | apply sc_set_symbols | apply sc_set_idle_fresh ].

Ltac sc := repeat sc_step.

Lemma sc_errorTask w x r e : same_counts w x -> same_counts w (errorTask r e x).
Proof.
  intros Hx. unfold errorTask, errorIdle, add_timer.
  destruct (heap x !! r) as [t|]; [|assumption].
  destruct (negb (errored t)); [destruct (negb (init t))|];
    match goal with |- context [if ?c then _ else _] => destruct c end; sc.
Qed.

Lemma sc_retire w x r : same_counts w x -> same_counts w (retire r x).
Proof.
  intros Hx. unfold retire, add_timer.
  destruct (heap x !! r) as [t|]; [|assumption].
  destruct (exhausted t && (activeCount t <=? 0)); [|assumption].
  destruct (negb (errored t)); [destruct (init t)|]; sc.
Qed.

Lemma sc_settle_idle w x : same_counts w x -> same_counts w (settle_idle x).
Proof.
  intros Hx. unfold settle_idle, resolveIdle, add_timer.
  destruct (idling x); [|assumption].
  destruct (_tasksInit x =? 0); sc.
Qed.

Lemma sc_stopTask w x i : same_counts w x -> same_counts w (snd (stopTask i x)).
Proof.
  intros Hx. unfold stopTask. destruct (map_get i (_taskMap x)); simpl; sc.
Qed.

Lemma sc_fire_timer w x j : same_counts w x -> same_counts w (fire_timer j x).
Proof.
  intros Hx. unfold fire_timer, errorIdle, resolveIdle.
  destruct (timers x !! j) as [[]|]; [..|assumption]; sc.
  match goal with |- context [if ?c then _ else _] => destruct c end; sc.
Qed.

Lemma sc_waitForIdle w x : same_counts w x -> same_counts w (snd (waitForIdle x)).
Proof.
  intros Hx. unfold waitForIdle. destruct (idling x); simpl; sc.
Qed.

Lemma sc_resolve_id w x i : same_counts w x -> same_counts w (snd (resolve_id i x)).
Proof.
  intros Hx. unfold resolve_id.
  destruct i as [i|]; [destruct (id_truthy i)|]; simpl; sc.
Qed.

Lemma sc_checkGenericTask w x p :
  same_counts w x -> same_counts w (snd (checkGenericTask p x)).
Proof.
  intros Hx. unfold checkGenericTask.
  pose proof (sc_resolve_id w x (gp_id p) Hx) as Hr.
  destruct (resolve_id (gp_id p) x) as [i w0]. simpl in Hr.
  destruct (map_has i (_taskMap w0)); [exact Hr|].
  destruct (or_infinity (gp_invocationLimit p)) as [| | |il| | |]; try exact Hr.
  destruct (num_le il (Fin 0)); [exact Hr|].
  destruct (or_infinity (gp_concurrencyLimit p)) as [| | |cl| | |]; try exact Hr.
  destruct (num_le cl (Fin 0)); exact Hr.
Qed.

(** A task fresh from [checkGenericTask] has nothing in flight. *)
Lemma checkGenericTask_fresh p w t w0 :
  checkGenericTask p w = (inr t, w0) -> activeCount t = 0.
Proof.
  unfold checkGenericTask. destruct (resolve_id (gp_id p) w) as [i w1].
  destruct (map_has i (_taskMap w1)); [discriminate|].
  destruct (or_infinity (gp_invocationLimit p)) as [| | |il| | |]; try discriminate.
  destruct (num_le il (Fin 0)); [discriminate|].
  destruct (or_infinity (gp_concurrencyLimit p)) as [| | |cl| | |]; try discriminate.
  destruct (num_le cl (Fin 0)); [discriminate|].
  intros [= <- _]. reflexivity.
Qed.

Lemma sc_registerTask w x t :
  activeCount t = 0 -> same_counts w x -> same_counts w (snd (registerTask t x)).
Proof.
  intros Ht Hx. eapply same_counts_trans; [exact Hx|].
  unfold registerTask, add_timer. simpl. repeat split; simpl; auto.
  - rewrite length_app. lia.
  - intros r t' E. destruct (heap x !! r) as [t0|] eqn:E0.
    + rewrite lookup_app_l in E by (eapply lookup_lt_Some; eauto). congruence.
    + apply lookup_ge_None in E0.
      rewrite lookup_app_r in E by assumption.
      destruct (r - length (heap x))%nat; simpl in E; [|discriminate].
      congruence.
Qed.

(** Starting an invocation and completing one keep the counters right. *)
Lemma pool_counts_begin r f w : counts_ok w -> counts_ok (begin_invocation r f w).
Proof.
  intros (A & T & B). unfold begin_invocation.
  destruct (heap w !! r) as [t|] eqn:E; [|repeat split; assumption].
  unfold counts_ok, inflight_of, with_task. simpl.
  split; [rewrite length_app, A; simpl; lia|]. split.
  - intros r' t' E'. rewrite filter_app, length_app.
    destruct (decide (r = r')) as [->|Hne].
    + rewrite list_lookup_alter_eq, E in E'. simpl in E'. injection E' as <-.
      rewrite filter_cons_True by reflexivity. simpl.
      assert (activeCount (if num_ge (Fin (Z.of_nat (S (invocations t)))) (invocationLimit t)
                then set_exhausted true (set_invocations (S (invocations t))
                       (set_activeCount (activeCount t + 1) t))
                else set_invocations (S (invocations t))
                       (set_activeCount (activeCount t + 1) t)) = activeCount t + 1) as ->
        by (destruct (num_ge _ _); reflexivity).
      rewrite (T r' t E). unfold inflight_of. lia.
    + rewrite list_lookup_alter_ne in E' by assumption.
      rewrite filter_cons_False by (simpl; congruence). simpl.
      rewrite (T r' t' E'). unfold inflight_of. lia.
  - intros p Hp. rewrite length_alter. apply elem_of_app in Hp as [Hp|Hp].
    + apply B, Hp.
    + apply list_elem_of_singleton in Hp as ->. simpl. eapply lookup_lt_Some; eauto.
Qed.

Lemma filter_insert_length {A} (P : A -> Prop) `{forall x, Decision (P x)}
    (l : list A) i x y :
  l !! i = Some x -> (P y <-> P x) ->
  length (filter P (<[i := y]> l)) = length (filter P l).
Proof.
  intros Hi Hxy.
  rewrite <- (take_drop_middle l i x Hi) at 2.
  rewrite insert_take_drop by (eapply lookup_lt_Some; eauto).
  rewrite !filter_app, !length_app, !filter_cons.
  destruct (decide (P y)), (decide (P x)); tauto || reflexivity.
Qed.

Lemma filter_delete_length {A} (P : A -> Prop) `{forall x, Decision (P x)}
    (l : list A) i x :
  l !! i = Some x ->
  length (filter P l) =
  (length (filter P (delete i l)) + (if decide (P x) then 1 else 0))%nat.
Proof.
  intros Hi.
  rewrite <- (take_drop_middle l i x Hi) at 1.
  rewrite delete_take_drop.
  rewrite !filter_app, !length_app, filter_cons.
  destruct (decide (P x)); simpl; lia.
Qed.

Lemma elem_of_delete {A} (l : list A) i x : x ∈ delete i l -> x ∈ l.
Proof.
  intros [j Hj]%list_elem_of_lookup. destruct (decide (j < i)%nat).
  - rewrite list_lookup_delete_lt in Hj by assumption.
    eapply list_elem_of_lookup_2; eauto.
  - rewrite list_lookup_delete_ge in Hj by lia.
    eapply list_elem_of_lookup_2; eauto.
Qed.

(** The rejection handler keeps the invocation in flight. *)
Lemma pool_counts_caught w i p :
  counts_ok w -> inflights w !! i = Some p ->
  counts_ok (set_inflights
               (<[i := mkInflight (p_task p) (p_index p) (WillResolve VUndefined)]>
                  (inflights w)) w).
Proof.
  intros (A & T & B) Hi. unfold counts_ok, inflight_of. simpl.
  rewrite length_insert. split; [assumption|]. split.
  - intros r t E. rewrite (filter_insert_length _ _ _ p) by (assumption || reflexivity).
    apply (T r t E).
  - intros q Hq. apply list_elem_of_lookup in Hq as [j Hj].
    destruct (decide (i = j)) as [->|Hne].
    + rewrite list_lookup_insert_eq in Hj by (eapply lookup_lt_Some; eauto).
      injection Hj as <-. simpl. apply B. eapply list_elem_of_lookup_2; eauto.
    + rewrite list_lookup_insert_ne in Hj by assumption.
      apply B. eapply list_elem_of_lookup_2; eauto.
Qed.

(** The fulfilment handler takes the invocation out of both counters. *)
Lemma pool_counts_finished w i p v :
  counts_ok w -> inflights w !! i = Some p ->
  counts_ok
    (with_task (p_task p)
       (fun t => set_result (arr_set (p_index p) v (result t))
                   (set_activeCount (activeCount t - 1) t))
       (set_active (_activePromiseCount w - 1)
          (set_inflights (delete i (inflights w)) w))).
Proof.
  intros (A & T & B) Hi. unfold counts_ok, inflight_of, with_task. simpl.
  assert (length (inflights w) = S (length (delete i (inflights w)))) as Hlen.
  { rewrite length_delete by eauto. apply lookup_lt_Some in Hi. lia. }
  split; [lia|]. split.
  - intros r t' E.
    pose proof (filter_delete_length (fun q => p_task q = r) (inflights w) i p Hi) as Hf.
    destruct (decide (p_task p = r)) as [Heq|Hne].
    + subst r. rewrite list_lookup_alter_eq in E.
      destruct (heap w !! p_task p) as [t|] eqn:Et; simpl in E; [|discriminate].
      injection E as <-. simpl. rewrite (T _ t Et). unfold inflight_of. lia.
    + rewrite list_lookup_alter_ne in E by assumption.
      rewrite (T r t' E). unfold inflight_of. lia.
  - intros q Hq. rewrite length_alter. apply B. eapply elem_of_delete; eauto.
Qed.

(** The functions that call each other, all at once. *)
Lemma pool_counts_exec fuel :
  (forall idx w w', counts_ok w -> triggerLoop fuel idx w = Some w' -> counts_ok w')
  /\ (forall r w w', counts_ok w -> startPromise fuel r w = Some w' -> counts_ok w')
  /\ (forall s w o w', counts_ok w -> run_script fuel s w = Some (o, w') -> counts_ok w')
  /\ (forall r w w', counts_ok w -> nextPromise fuel r w = Some w' -> counts_ok w')
  /\ (forall p w a w', counts_ok w -> addGenericTask fuel p w = Some (a, w') ->
        counts_ok w').
Proof.
  induction fuel as [|fuel (IHloop & IHstart & IHscript & IHnext & IHadd)].
  { repeat split; intros; discriminate. }
  split; [|split; [|split; [|split]]].
  - (* triggerLoop *)
    intros idx w w' Hw. cbn [triggerLoop].
    destruct (num_lt _ _ && _); [|intros [= <-]; exact Hw].
    destruct (_tasks w !! idx) as [r|]; [|discriminate].
    destruct (heap w !! r) as [t|]; [|discriminate].
    destruct (negb (exhausted t) && _).
    + destruct (startPromise fuel r w) as [w1|] eqn:E1; [|discriminate].
      intros H. eapply IHloop; [|exact H]. eapply IHstart; eauto.
    + intros H. eapply IHloop; eauto.
  - (* startPromise *)
    intros r w w' Hw. cbn [startPromise].
    destruct (heap w !! r) as [t|]; [|discriminate].
    destruct (run_script fuel _ w) as [[[e|v] w1]|] eqn:E1; [| |discriminate].
    + intros [= <-]. pose proof (IHscript _ _ _ _ Hw E1) as Hw1.
      eapply pool_counts_same; [exact Hw1|]. apply sc_errorTask, same_counts_refl.
    + pose proof (IHscript _ _ _ _ Hw E1) as Hw1.
      destruct (falsy v).
      * intros H. eapply IHnext; [|exact H].
        eapply pool_counts_same; [exact Hw1|]. sc.
      * intros [= <-]. apply pool_counts_begin, Hw1.
  - (* run_script *)
    intros s w o w' Hw. cbn [run_script]. destruct s as [o1|x k|x v k|i g cl il k|i k|i k].
    + intros [= <- <-]. exact Hw.
    + destruct (vars w !! x); [|intros [= <- <-]; exact Hw].
      intros H. eapply IHscript; eauto.
    + intros H. eapply IHscript; [|exact H].
      eapply pool_counts_same; [exact Hw|]. sc.
    + destruct (addGenericTask fuel _ w) as [[a w1]|] eqn:E1; [|discriminate].
      intros H. eapply IHscript; [|exact H]. eapply IHadd; eauto.
    + intros H. eapply IHscript; [|exact H].
      eapply pool_counts_same; [exact Hw|]. apply sc_stopTask, same_counts_refl.
    + intros H. eapply IHscript; eauto.
  - (* nextPromise *)
    intros r w w' Hw. cbn [nextPromise].
    destruct (triggerLoop fuel 0 (retire r w)) as [w1|] eqn:E1; [|discriminate].
    intros [= <-].
    eapply pool_counts_same; [|apply sc_settle_idle, same_counts_refl].
    eapply IHloop; [|exact E1].
    eapply pool_counts_same; [exact Hw|]. apply sc_retire, same_counts_refl.
  - (* addGenericTask *)
    intros p w a w' Hw. cbn [addGenericTask].
    pose proof (sc_checkGenericTask w w p (same_counts_refl w)) as Hc.
    destruct (checkGenericTask p w) as [[a0|t] w0] eqn:Ec; simpl in Hc.
    + intros [= <- <-]. eapply pool_counts_same; eauto.
    + pose proof (sc_registerTask w0 w0 t (checkGenericTask_fresh _ _ _ _ Ec)
                    (same_counts_refl w0)) as Hr.
      destruct (registerTask t w0) as [r w1]. simpl in Hr.
      destruct (triggerLoop fuel 0 w1) as [w2|] eqn:E2; [|discriminate].
      intros [= <- <-]. eapply IHloop; [|exact E2].
      eapply pool_counts_same; [|exact Hr]. eapply pool_counts_same; eauto.
Qed.

Lemma pool_counts_new_pool c w : new_pool c = Some w -> counts_ok w.
Proof.
  unfold new_pool. destruct (or_infinity c) as [| | |n| | |]; try discriminate.
  destruct (num_le n (Fin 0)); [discriminate|]. intros [= <-].
  repeat split; simpl; try reflexivity.
  - intros r t E. rewrite lookup_nil in E. discriminate.
  - intros p Hp. apply elem_of_nil in Hp. contradiction.
Qed.

Lemma pool_counts_complete fuel i w w' :
  counts_ok w -> complete fuel i w = Some w' -> counts_ok w'.
Proof.
  intros Hw. unfold complete.
  destruct (inflights w !! i) as [p|] eqn:Hi; [|intros [= <-]; exact Hw].
  destruct (p_fate p) as [v|e].
  - intros H. eapply (proj1 (proj2 (proj2 (proj2 (pool_counts_exec fuel))))); [|exact H].
    apply (pool_counts_finished w i p v Hw Hi).
  - intros [= <-].
    assert (counts_ok (errorTask (p_task p) e w)) as Hw1
      by (eapply pool_counts_same; [exact Hw|]; apply sc_errorTask, same_counts_refl).
    assert (inflights (errorTask (p_task p) e w) = inflights w) as Hin
      by (apply (sc_errorTask w w (p_task p) e (same_counts_refl w))).
    apply pool_counts_caught; [exact Hw1|]. rewrite Hin. exact Hi.
Qed.

(** *** What a start and a completion do to the counters *)









Lemma pool_counts_addBatchTask fuel p w a w' :
  counts_ok w -> addBatchTask fuel p w = Some (a, w') -> counts_ok w'.
Proof.
  intros Hw. unfold addBatchTask.
  destruct (invalid_batch_size (bp_batchSize p)); [intros [= <- <-]; exact Hw|].
  pose proof (sc_resolve_id w (set_vars (vars w ++ [Fin 0]) w) (bp_id p)
                ltac:(sc)) as Hr.
  destruct (resolve_id (bp_id p) _) as [i w1]. simpl in Hr.
  intros H. eapply (proj2 (proj2 (proj2 (proj2 (pool_counts_exec fuel))))); [|exact H].
  eapply pool_counts_same; eauto.
Qed.

(** Every operation on a pool keeps the counters right. *)
Lemma pool_counts_apply_op fuel o w w' :
  counts_ok w -> apply_op fuel o w = Some w' -> counts_ok w'.
Proof.
  intros Hw. destruct o as [p|p|i| |i|j]; simpl.
  - destruct (addGenericTask fuel p w) as [[a w1]|] eqn:E; [|discriminate].
    intros [= <-]. eapply (proj2 (proj2 (proj2 (proj2 (pool_counts_exec fuel))))); eauto.
  - destruct (addBatchTask fuel p w) as [[a w1]|] eqn:E; [|discriminate].
    intros [= <-]. eapply pool_counts_addBatchTask; eauto.
  - intros [= <-]. eapply pool_counts_same; [exact Hw|]. apply sc_stopTask, same_counts_refl.
  - intros [= <-]. eapply pool_counts_same; [exact Hw|].
    apply sc_waitForIdle, same_counts_refl.
  - apply pool_counts_complete, Hw.
  - intros [= <-]. eapply pool_counts_same; [exact Hw|].
    apply sc_fire_timer, same_counts_refl.
Qed.

Lemma pool_counts_run_ops fuel os : forall w w',
  counts_ok w -> run_ops fuel os w = Some w' -> counts_ok w'.
Proof.
  induction os as [|o os IH]; intros w w' Hw; simpl.
  - intros [= <-]. exact Hw.
  - destruct (apply_op fuel o w) as [w1|] eqn:E; [|discriminate].
    intros H. eapply IH; [|exact H]. eapply pool_counts_apply_op; eauto.
Qed.

(** *** The limits, when no generator adds a task *)

(** A limit that went through [|| Infinity] and was not turned away as
    [<= 0] is above zero. *)
Lemma or_infinity_positive v n :
  or_infinity v = VNum n -> num_le n (Fin 0) = false -> num_le (Fin 0) n = true.
Proof.
  unfold or_infinity. destruct (truthy v) eqn:Ev.
  - intros ->. destruct n as [|z| | |z f]; simpl in *; try discriminate; auto.
    + intros H. apply Z.leb_gt in H. apply Z.leb_le. lia.
    + intros H. apply Z.ltb_ge in H. apply Z.leb_le. lia.
  - intros [= <-]. reflexivity.
Qed.

Lemma same_bounds_refl w : same_bounds w w.
Proof.
  split; [reflexivity|]. split; [reflexivity|]. split; [reflexivity|].
  intros r t t' E E'. assert (t' = t) as -> by congruence. auto.
Qed.

Lemma same_bounds_trans w1 w2 w3 :
  same_bounds w1 w2 -> same_bounds w2 w3 -> same_bounds w1 w3.
Proof.
  intros (A1 & C1 & L1 & H1) (A2 & C2 & L2 & H2).
  split; [congruence|]. split; [congruence|]. split; [congruence|].
  intros r t1 t3 E1 E3.
  destruct (lookup_lt_is_Some_2 (heap w2) r) as [t2 E2].
  { rewrite L1. eapply lookup_lt_Some; eauto. }
  destruct (H1 r t1 t2 E1 E2) as (a & b & c).
  destruct (H2 r t2 t3 E2 E3) as (a' & b' & c').
  repeat split; congruence.
Qed.

Lemma bounded_same w w' : bounded w -> same_bounds w w' -> bounded w'.
Proof.
  intros ((A & T) & Q) (A' & C' & L' & H'). split; [split|].
  - rewrite A', C'. exact A.
  - intros r t' E'.
    destruct (lookup_lt_is_Some_2 (heap w) r) as [t E].
    { rewrite <- L'. eapply lookup_lt_Some; eauto. }
    destruct (H' r t t' E E') as (a & b & _). rewrite a, b. eapply T; eauto.
  - intros r t' i E'.
    destruct (lookup_lt_is_Some_2 (heap w) r) as [t E].
    { rewrite <- L'. eapply lookup_lt_Some; eauto. }
    destruct (H' r t t' E E') as (_ & _ & c). rewrite c. eapply Q; eauto.
Qed.

Lemma sb_with_task w x r f :
  (forall t, activeCount (f t) = activeCount t
             /\ concurrencyLimit (f t) = concurrencyLimit t
             /\ generator (f t) = generator t) ->
  same_bounds w x -> same_bounds w (with_task r f x).
Proof.
  intros Hf Hx. eapply same_bounds_trans; [exact Hx|].
  unfold with_task. split; [reflexivity|]. split; [reflexivity|].
  split; [apply length_alter|]. simpl. intros r' t t' E E'.
  destruct (decide (r = r')) as [->|Hne].
  - rewrite list_lookup_alter_eq, E in E'. simpl in E'. injection E' as <-. apply Hf.
  - rewrite list_lookup_alter_ne in E' by assumption.
    assert (t' = t) as -> by congruence. auto.
Qed.

Lemma sb_fields w x y :
  _activePromiseCount y = _activePromiseCount x ->
  _concurrencyLimit y = _concurrencyLimit x ->
  heap y = heap x ->
  same_bounds w x -> same_bounds w y.
Proof.
  intros A C H Hx. eapply same_bounds_trans; [exact Hx|].
  unfold same_bounds. rewrite A, C, H. apply same_bounds_refl.
Qed.

Lemma sb_set_tasks w x l : same_bounds w x -> same_bounds w (set_tasks l x).
Proof. apply sb_fields; reflexivity. Qed.
Lemma sb_set_taskMap w x m : same_bounds w x -> same_bounds w (set_taskMap m x).
Proof. apply sb_fields; reflexivity. Qed.
Lemma sb_set_idle w x l d : same_bounds w x -> same_bounds w (set_idle l d x).
Proof. apply sb_fields; reflexivity. Qed.
Lemma sb_set_tasksInit w x n : same_bounds w x -> same_bounds w (set_tasksInit n x).
Proof. apply sb_fields; reflexivity. Qed.
Lemma sb_set_timers w x l : same_bounds w x -> same_bounds w (set_timers l x).
Proof. apply sb_fields; reflexivity. Qed.
Lemma sb_set_vars w x l : same_bounds w x -> same_bounds w (set_vars l x).
Proof. apply sb_fields; reflexivity. Qed.
Lemma sb_set_symbols w x n : same_bounds w x -> same_bounds w (set_symbols n x).
Proof. apply sb_fields; reflexivity. Qed.
Lemma sb_set_idle_fresh w x n : same_bounds w x -> same_bounds w (set_idle_fresh n x).
Proof. apply sb_fields; reflexivity. Qed.
Lemma sb_set_inflights w x l : same_bounds w x -> same_bounds w (set_inflights l x).
Proof. apply sb_fields; reflexivity. Qed.

Ltac sb_task :=
  intros ?; unfold resolveInstance, rejectInstance;
  repeat match goal with |- context [match promise ?t with _ => _ end] =>
    destruct (promise t) end;
  repeat split; reflexivity.

Ltac sb_step :=
  first
    [ assumption
    | apply same_bounds_refl
    | apply sb_with_task; [ sb_task | ]
    | apply sb_set_tasks | apply sb_set_taskMap | apply sb_set_idle
    | apply sb_set_tasksInit | apply sb_set_timers | apply sb_set_vars
    | apply sb_set_symbols | apply sb_set_idle_fresh | apply sb_set_inflights ].

Ltac sb := repeat sb_step.

Lemma sb_errorTask w x r e : same_bounds w x -> same_bounds w (errorTask r e x).
Proof.
  intros Hx. unfold errorTask, errorIdle, add_timer.
  destruct (heap x !! r) as [t|]; [|assumption].
  destruct (negb (errored t)); [destruct (negb (init t))|];
    match goal with |- context [if ?c then _ else _] => destruct c end; sb.
Qed.

Lemma sb_retire w x r : same_bounds w x -> same_bounds w (retire r x).
Proof.
  intros Hx. unfold retire, add_timer.
  destruct (heap x !! r) as [t|]; [|assumption].
  destruct (exhausted t && (activeCount t <=? 0)); [|assumption].
  destruct (negb (errored t)); [destruct (init t)|]; sb.
Qed.

Lemma sb_settle_idle w x : same_bounds w x -> same_bounds w (settle_idle x).
Proof.
  intros Hx. unfold settle_idle, resolveIdle, add_timer.
  destruct (idling x); [|assumption].
  destruct (_tasksInit x =? 0); sb.
Qed.

Lemma sb_stopTask w x i : same_bounds w x -> same_bounds w (snd (stopTask i x)).
Proof.
  intros Hx. unfold stopTask. destruct (map_get i (_taskMap x)); simpl; sb.
Qed.

Lemma sb_fire_timer w x j : same_bounds w x -> same_bounds w (fire_timer j x).
Proof.
  intros Hx. unfold fire_timer, errorIdle, resolveIdle.
  destruct (timers x !! j) as [[]|]; [..|assumption]; sb.
  match goal with |- context [if ?c then _ else _] => destruct c end; sb.
Qed.

Lemma sb_waitForIdle w x : same_bounds w x -> same_bounds w (snd (waitForIdle x)).
Proof.
  intros Hx. unfold waitForIdle. destruct (idling x); simpl; sb.
Qed.

Lemma sb_resolve_id w x i : same_bounds w x -> same_bounds w (snd (resolve_id i x)).
Proof.
  intros Hx. unfold resolve_id.
  destruct i as [i|]; [destruct (id_truthy i)|]; simpl; sb.
Qed.

Lemma sb_checkGenericTask w x p :
  same_bounds w x -> same_bounds w (snd (checkGenericTask p x)).
Proof.
  intros Hx. unfold checkGenericTask.
  pose proof (sb_resolve_id w x (gp_id p) Hx) as Hr.
  destruct (resolve_id (gp_id p) x) as [i w0]. simpl in Hr.
  destruct (map_has i (_taskMap w0)); [exact Hr|].
  destruct (or_infinity (gp_invocationLimit p)) as [| | |il| | |]; try exact Hr.
  destruct (num_le il (Fin 0)); [exact Hr|].
  destruct (or_infinity (gp_concurrencyLimit p)) as [| | |cl| | |]; try exact Hr.
  destruct (num_le cl (Fin 0)); exact Hr.
Qed.

(** The task [checkGenericTask] lets through: nothing in flight, a
    concurrency limit above zero, the generator of the caller. *)
Lemma checkGenericTask_task p w t w0 :
  checkGenericTask p w = (inr t, w0) ->
  activeCount t = 0 /\ num_le (Fin 0) (concurrencyLimit t) = true
  /\ generator t = gp_generator p.
Proof.
  unfold checkGenericTask. destruct (resolve_id (gp_id p) w) as [i w1].
  destruct (map_has i (_taskMap w1)); [discriminate|].
  destruct (or_infinity (gp_invocationLimit p)) as [| | |il| | |]; try discriminate.
  destruct (num_le il (Fin 0)); [discriminate|].
  destruct (or_infinity (gp_concurrencyLimit p)) as [| | |cl| | |] eqn:Ec;
    try discriminate.
  destruct (num_le cl (Fin 0)) eqn:El; [discriminate|].
  intros [= <- _]. simpl. repeat split. eapply or_infinity_positive; eauto.
Qed.

Lemma bounded_registerTask t w :
  bounded w -> activeCount t = 0 -> num_le (Fin 0) (concurrencyLimit t) = true ->
  (forall i, quiet (generator t i)) ->
  bounded (snd (registerTask t w)).
Proof.
  intros ((A & T) & Q) Ha Hc Hq. unfold registerTask, add_timer. simpl.
  assert (forall r t', (heap w ++ [t]) !! r = Some t' ->
            heap w !! r = Some t' \/ t' = t) as Hcase.
  { intros r t' E. destruct (heap w !! r) as [t0|] eqn:E0.
    - rewrite lookup_app_l in E by (eapply lookup_lt_Some; eauto). left. congruence.
    - apply lookup_ge_None in E0. rewrite lookup_app_r in E by assumption.
      destruct (r - length (heap w))%nat; simpl in E; [|discriminate].
      right. congruence. }
  split; [split|]; simpl.
  - exact A.
  - intros r t' E. destruct (Hcase r t' E) as [E0| ->]; [eapply T; eauto|].
    rewrite Ha. apply near_zero, Hc.
  - intros r t' i E. simpl in E. destruct (Hcase r t' E) as [E0| ->]; [eapply Q; eauto|].
    apply Hq.
Qed.

(** [startPromise] raises the counters of a task that had room. *)
Lemma bounded_begin r f w t :
  bounded w -> heap w !! r = Some t ->
  num_lt (Fin (_activePromiseCount w)) (_concurrencyLimit w) = true ->
  num_lt (Fin (activeCount t)) (concurrencyLimit t) = true ->
  bounded (begin_invocation r f w).
Proof.
  intros ((A & T) & Q) E Hp Ht. unfold begin_invocation. rewrite E.
  unfold with_task. split; [split|]; simpl.
  - apply near_succ, Hp.
  - intros r' t' E'. destruct (decide (r = r')) as [->|Hne].
    + rewrite list_lookup_alter_eq, E in E'. simpl in E'. injection E' as <-.
      destruct (num_ge _ _); simpl; apply near_succ, Ht.
    + rewrite list_lookup_alter_ne in E' by assumption. eapply T; eauto.
  - intros r' t' i E'. simpl in E'. destruct (decide (r = r')) as [->|Hne].
    + rewrite list_lookup_alter_eq, E in E'. simpl in E'. injection E' as <-.
      destruct (num_ge _ _); simpl; eapply Q; eauto.
    + rewrite list_lookup_alter_ne in E' by assumption. eapply Q; eauto.
Qed.

(** The fulfilment handler lowers them. *)
Lemma bounded_finished w i p v :
  bounded w ->
  bounded
    (with_task (p_task p)
       (fun t => set_result (arr_set (p_index p) v (result t))
                   (set_activeCount (activeCount t - 1) t))
       (set_active (_activePromiseCount w - 1)
          (set_inflights (delete i (inflights w)) w))).
Proof.
  intros ((A & T) & Q). unfold with_task. split; [split|]; simpl.
  - apply near_pred, A.
  - intros r t' E. destruct (decide (p_task p = r)) as [Heq|Hne].
    + subst r. rewrite list_lookup_alter_eq in E.
      destruct (heap w !! p_task p) as [t|] eqn:Et; simpl in E; [|discriminate].
      injection E as <-. simpl. apply near_pred. eapply T; eauto.
    + rewrite list_lookup_alter_ne in E by assumption. eapply T; eauto.
  - intros r t' j E. simpl in E. destruct (decide (p_task p = r)) as [Heq|Hne].
    + subst r. rewrite list_lookup_alter_eq in E.
      destruct (heap w !! p_task p) as [t|] eqn:Et; simpl in E; [|discriminate].
      injection E as <-. simpl. eapply Q; eauto.
    + rewrite list_lookup_alter_ne in E by assumption. eapply Q; eauto.
Qed.

(** A quiet script leaves tasks, counters and limits as they are. *)
Lemma quiet_run_script fuel : forall s w o w',
  quiet s -> run_script fuel s w = Some (o, w') -> same_bounds w w'.
Proof.
  induction fuel as [|fuel IH]; intros s w o w' Hq; [discriminate|].
  cbn [run_script]. destruct Hq as [o1|x k Hk|x v k Hk|i k Hk|i k Hk].
  - intros [= <- <-]. apply same_bounds_refl.
  - destruct (vars w !! x); [|intros [= <- <-]; apply same_bounds_refl].
    intros H. eapply IH; [apply Hk|exact H].
  - intros H. eapply same_bounds_trans; [|eapply IH; [exact Hk|exact H]]. sb.
  - intros H. eapply same_bounds_trans; [|eapply IH; [exact Hk|exact H]].
    apply sb_stopTask, same_bounds_refl.
  - intros H. eapply IH; [apply Hk|exact H].
Qed.

(** The functions that call each other, all at once; [startPromise] is
    called for a task that has room, in a pool that has room. *)
Lemma bounded_exec fuel :
  (forall idx w w', bounded w -> triggerLoop fuel idx w = Some w' -> bounded w')
  /\ (forall r t w w', bounded w -> heap w !! r = Some t ->
        num_lt (Fin (_activePromiseCount w)) (_concurrencyLimit w) = true ->
        num_lt (Fin (activeCount t)) (concurrencyLimit t) = true ->
        startPromise fuel r w = Some w' -> bounded w')
  /\ (forall r w w', bounded w -> nextPromise fuel r w = Some w' -> bounded w')
  /\ (forall p w a w', bounded w -> (forall i, quiet (gp_generator p i)) ->
        addGenericTask fuel p w = Some (a, w') -> bounded w').
Proof.
  induction fuel as [|fuel (IHloop & IHstart & IHnext & IHadd)].
  { repeat split; intros; discriminate. }
  split; [|split; [|split]].
  - (* triggerLoop *)
    intros idx w w' Hw. cbn [triggerLoop].
    destruct (num_lt (Fin (_activePromiseCount w)) (_concurrencyLimit w)) eqn:Hp;
      [|intros [= <-]; exact Hw].
    destruct (idx <? length (_tasks w))%nat; [|intros [= <-]; exact Hw].
    cbn [andb].
    destruct (_tasks w !! idx) as [r|]; [|discriminate].
    destruct (heap w !! r) as [t|] eqn:Et; [|discriminate].
    destruct (exhausted t); cbn [negb andb].
    + intros H. eapply IHloop; eauto.
    + destruct (num_lt (Fin (activeCount t)) (concurrencyLimit t)) eqn:Hc.
      * destruct (startPromise fuel r w) as [w1|] eqn:E1; [|discriminate].
        intros H. eapply IHloop; [|exact H]. eapply IHstart; eauto.
      * intros H. eapply IHloop; eauto.
  - (* startPromise *)
    intros r t w w' Hw Et Hp Hc. cbn [startPromise]. rewrite Et.
    destruct (run_script fuel _ w) as [[[e|v] w1]|] eqn:E1; [| |discriminate].
    + intros [= <-]. eapply bounded_same; [exact Hw|].
      apply sb_errorTask. eapply quiet_run_script; [|exact E1].
      destruct Hw as (_ & Q). eapply Q; eauto.
    + assert (same_bounds w w1) as Hs.
      { eapply quiet_run_script; [|exact E1]. destruct Hw as (_ & Q). eapply Q; eauto. }
      pose proof (bounded_same _ _ Hw Hs) as Hw1.
      destruct (falsy v).
      * intros H. eapply IHnext; [|exact H].
        eapply bounded_same; [exact Hw|]. sb.
      * intros [= <-]. destruct Hs as (A' & C' & L' & H').
        destruct (lookup_lt_is_Some_2 (heap w1) r) as [t1 E].
        { rewrite L'. eapply lookup_lt_Some; eauto. }
        destruct (H' r t t1 Et E) as (a & b & _).
        apply (bounded_begin r _ w1 t1 Hw1 E); congruence.
  - (* nextPromise *)
    intros r w w' Hw. cbn [nextPromise].
    destruct (triggerLoop fuel 0 (retire r w)) as [w1|] eqn:E1; [|discriminate].
    intros [= <-].
    eapply bounded_same; [|apply sb_settle_idle, same_bounds_refl].
    eapply IHloop; [|exact E1].
    eapply bounded_same; [exact Hw|]. apply sb_retire, same_bounds_refl.
  - (* addGenericTask *)
    intros p w a w' Hw Hq. cbn [addGenericTask].
    pose proof (sb_checkGenericTask w w p (same_bounds_refl w)) as Hc.
    destruct (checkGenericTask p w) as [[a0|t] w0] eqn:Ec; simpl in Hc.
    + intros [= <- <-]. eapply bounded_same; eauto.
    + destruct (checkGenericTask_task _ _ _ _ Ec) as (Ha & Hl & Hg).
      pose proof (bounded_registerTask t w0 (bounded_same _ _ Hw Hc) Ha Hl) as Hr.
      destruct (registerTask t w0) as [r w1]. simpl in Hr.
      destruct (triggerLoop fuel 0 w1) as [w2|] eqn:E2; [|discriminate].
      intros [= <- <-]. eapply IHloop; [|exact E2].
      apply Hr. intros i. rewrite Hg. apply Hq.
Qed.

Lemma bounded_new_pool c w : new_pool c = Some w -> bounded w.
Proof.
  unfold new_pool. destruct (or_infinity c) as [| | |n| | |] eqn:Ec; try discriminate.
  destruct (num_le n (Fin 0)) eqn:El; [discriminate|]. intros [= <-].
  split; [split|]; simpl.
  - apply near_zero. eapply or_infinity_positive; eauto.
  - intros r t E. rewrite lookup_nil in E. discriminate.
  - intros r t i E. simpl in E. rewrite lookup_nil in E. discriminate.
Qed.

Lemma quiet_batch_generator x i p :
  (forall d n j, quiet (bp_generator p d n j)) ->
  forall invocation, quiet (batch_generator x i p invocation).
Proof.
  intros Hq invocation. unfold batch_generator. constructor. intros index.
  destruct (num_ge index _); [constructor|].
  destruct (bp_batchSize p) as [v|f].
  - constructor. apply Hq.
  - constructor. intros [st|]; [|constructor].
    destruct (invalid_returned_size _); constructor. apply Hq.
Qed.

Lemma bounded_apply_op fuel o w w' :
  bounded w -> quiet_op o -> apply_op fuel o w = Some w' -> bounded w'.
Proof.
  intros Hw Hq. destruct o as [p|p|i| |i|j]; simpl in *.
  - destruct (addGenericTask fuel p w) as [[a w1]|] eqn:E; [|discriminate].
    intros [= <-]. eapply (proj2 (proj2 (proj2 (bounded_exec fuel)))); eauto.
  - unfold addBatchTask.
    destruct (invalid_batch_size (bp_batchSize p)); [intros [= <-]; exact Hw|].
    pose proof (sb_resolve_id w (set_vars (vars w ++ [Fin 0]) w) (bp_id p)
                  ltac:(sb)) as Hr.
    destruct (resolve_id (bp_id p) _) as [i w1]. simpl in Hr.
    destruct (addGenericTask fuel _ w1) as [[a w2]|] eqn:E; [|discriminate].
    intros [= <-]. eapply (proj2 (proj2 (proj2 (bounded_exec fuel)))); [| |exact E].
    + eapply bounded_same; eauto.
    + simpl. apply quiet_batch_generator, Hq.
  - intros [= <-]. eapply bounded_same; [exact Hw|]. apply sb_stopTask, same_bounds_refl.
  - intros [= <-]. eapply bounded_same; [exact Hw|].
    apply sb_waitForIdle, same_bounds_refl.
  - unfold complete. destruct (inflights w !! i) as [p|] eqn:Hi; [|intros [= <-]; exact Hw].
    destruct (p_fate p) as [v|e].
    + intros H. eapply (proj1 (proj2 (proj2 (bounded_exec fuel)))); [|exact H].
      apply (bounded_finished w i p v Hw).
    + intros [= <-]. eapply bounded_same; [exact Hw|].
      apply sb_set_inflights, sb_errorTask, same_bounds_refl.
  - intros [= <-]. eapply bounded_same; [exact Hw|].
    apply sb_fire_timer, same_bounds_refl.
Qed.

(** As long as no generator adds a task to the pool from inside, no
    counter is a whole step above its limit in any state the operations
    lead to ([counter <= limit] when the limit is a whole number or
    [Infinity]): [triggerPromises] starts an invocation only when the pool
    and the task have room, and the generator it calls changes neither
    counter. *)
Lemma limits_hold_for_quiet_generators fuel os : forall w w',
  bounded w -> Forall quiet_op os -> run_ops fuel os w = Some w' ->
  bounded w'.
Proof.
  induction os as [|o os IH]; intros w w' Hw Hq; simpl.
  - intros [= <-]. exact Hw.
  - destruct (apply_op fuel o w) as [w1|] eqn:E; [|discriminate].
    apply Forall_cons in Hq as (Ho & Hos).
    intros H. eapply IH; [|exact Hos|exact H]. eapply bounded_apply_op; eauto.
Qed.

(** *** The claims about the scheduler of [index.ts] *)

(** C1 at a generator that adds a task.  The pool has concurrency limit 1.
    [addGenericTask] calls [triggerPromises], which calls the generator;
    the generator, on its first call, adds a second task, and that call of
    [addGenericTask] runs [triggerPromises] again while the counters of the
    first call are not yet raised: the first task is started a second time
    (the pool's counter becomes 1), and when the outer call of the generator
    returns its promise the counter is raised to 2, above the limit.  (When
    no generator adds a task, the counters stay within limits that are
    whole numbers: [limits_hold_for_quiet_generators] above.) *)
Theorem C1_reentrant_generator_exceeds_limit :
  match w0 ← pool_with_vars 1 [Fin 1];
        run_ops 20 [OpAddGeneric (mkParams None adding_generator VUndefined VUndefined)] w0
  with
  | Some w =>
      _concurrencyLimit w = Fin 1
      /\ _activePromiseCount w = 2
      /\ length (inflights w) = 2%nat
  | None => False
  end.
Proof. vm_compute. repeat split. Qed.

(** C3 at a generator that adds a task.  Variable 0 is [1] exactly while
    the outer generator is running, and the generator of the new task
    copies it into variable 1 when it is called: it reads [1], so it was
    called before the outer generator returned. *)
Theorem C3_new_task_invoked_inside_generator :
  match w0 ← pool_with_vars 5 [Fin 0; Fin 0; Fin 0];
        run_ops 20 [OpAddGeneric (mkParams None submitting_generator VUndefined VUndefined)]
          w0
  with
  | Some w => vars w = [Fin 0; Fin 1; Fin 1]
  | None => False
  end.
Proof. vm_compute. reflexivity. Qed.

(** [invocationLimit: 0] reaches the check [task.invocationLimit <= 0] as
    [Infinity]: [0 || Infinity] is [Infinity]. *)
Lemma zero_limit_becomes_infinity : or_infinity (VNum (Fin 0)) = VNum PInf.
Proof. reflexivity. Qed.

(** C8 at [addGenericTask] of [index.ts].  With [invocationLimit: 0] the
    task is not resolved on the spot with an empty result: it is registered
    with the limit [Infinity] and its generator is called until the pool is
    full (here twice, the concurrency limit of the pool). *)
Theorem C8_zero_limit_is_unlimited :
  match w0 ← new_pool (VNum (Fin 2));
        addGenericTask 20
          (mkParams None (fun _ => Ret (pending_promise VNull)) VUndefined (VNum (Fin 0))) w0
  with
  | Some (a, w) =>
      a = AddPromise 0
      /\ (invocationLimit <$> heap w !! 0%nat) = Some PInf
      /\ (invocations <$> heap w !! 0%nat) = Some 2%nat
      /\ (promise <$> heap w !! 0%nat) = Some Unsettled
      /\ length (inflights w) = 2%nat
  | None => False
  end.
Proof. vm_compute. repeat split. Qed.

(** A negative limit does take the branch that resolves with the empty
    result. *)
Example negative_limit_resolves_empty :
  match w0 ← new_pool VUndefined;
        addGenericTask 20
          (mkParams None (fun _ => Ret (pending_promise VNull)) VUndefined (VNum (Fin (-1))))
          w0
  with
  | Some (a, w) => a = AddResolved [] /\ heap w = []
  | None => False
  end.
Proof. vm_compute. repeat split. Qed.

(** *** The claim about [addBatchTask] *)

Lemma invalid_batch_size_spec b :
  invalid_batch_size b = true <->
  bs_typeof b <> TyFunction /\ ~ (exists v, b = BSVal v /\ positive_number v).
Proof.
  unfold invalid_batch_size, positive_number. destruct b as [v|f]; simpl.
  - split.
    + intros H. split; [destruct v; discriminate|].
      intros (v' & [= <-] & n & -> & Hn). simpl in H.
      destruct n as [|z| | |z f]; simpl in *; try discriminate.
      * apply Z.ltb_lt in Hn.
        destruct (z =? 0) eqn:E0; [apply Z.eqb_eq in E0; lia|].
        simpl in H. apply Z.leb_le in H. lia.
      * apply Z.leb_le in Hn. apply Z.ltb_lt in H. lia.
    + intros (_ & Hn).
      destruct v as [| |b|n|s|m|o]; simpl; try reflexivity;
        try (destruct b; reflexivity);
        try (destruct (negb (String.eqb s "")); reflexivity).
      destruct n as [|z| | |z f]; simpl; try reflexivity.
      * destruct (z =? 0) eqn:E0; [reflexivity|]. simpl. apply Z.leb_le.
        destruct (Z.ltb_spec 0 z) as [Hpos|]; [|assumption].
        exfalso. apply Hn. exists (VNum (Fin z)). split; [reflexivity|].
        exists (Fin z). split; [reflexivity|]. simpl. apply Z.ltb_lt. assumption.
      * exfalso. apply Hn. exists (VNum PInf). split; [reflexivity|].
        exists PInf. split; reflexivity.
      * apply Z.ltb_lt. destruct (Z.ltb_spec z 0) as [Hneg|Hpos]; [assumption|].
        exfalso. apply Hn. exists (VNum (Frac z f)). split; [reflexivity|].
        exists (Frac z f). split; [reflexivity|]. simpl. apply Z.leb_le. assumption.
  - split; [discriminate|]. intros (H & _). contradiction.
Qed.

Lemma invalid_returned_size_spec v :
  invalid_returned_size v = true <-> ~ positive_number v.
Proof.
  unfold invalid_returned_size, positive_number. split.
  - intros H (n & -> & Hn). simpl in H.
    destruct n as [|z| | |z f]; simpl in *; try discriminate.
    + apply Z.ltb_lt in Hn.
      destruct (z =? 0) eqn:E0; [apply Z.eqb_eq in E0; lia|].
      simpl in H. apply Z.leb_le in H. lia.
    + apply Z.leb_le in Hn. apply Z.ltb_lt in H. lia.
  - intros Hn.
    destruct v as [| |b|n|s|m|o]; simpl; try reflexivity;
      try (destruct b; reflexivity);
      try (destruct (negb (String.eqb s "")); reflexivity).
    destruct n as [|z| | |z f]; simpl; try reflexivity.
    + destruct (z =? 0) eqn:E0; [reflexivity|]. simpl. apply Z.leb_le.
      destruct (Z.ltb_spec 0 z) as [Hpos|]; [|assumption].
      exfalso. apply Hn. exists (Fin z). split; [reflexivity|].
      simpl. apply Z.ltb_lt. assumption.
    + exfalso. apply Hn. exists PInf. split; reflexivity.
    + apply Z.ltb_lt. destruct (Z.ltb_spec z 0) as [Hneg|Hpos]; [assumption|].
      exfalso. apply Hn. exists (Frac z f). split; [reflexivity|].
      simpl. apply Z.leb_le. assumption.
Qed.

(** What [errorTask] leaves behind for the task: it is marked as failed
    and exhausted, and its promise is rejected with the error, at once or,
    during the first millisecond of the task, by a timer. *)
Lemma errorTask_fails r e w t :
  heap w !! r = Some t -> errored t = false ->
  exists t', heap (errorTask r e w) !! r = Some t'
             /\ errored t' = true /\ exhausted t' = true
             /\ (if init t then TRejectTask r e ∈ timers (errorTask r e w)
                 else promise t' = promise (rejectInstance e t)).
Proof.
  intros Ht Ee. unfold errorTask. rewrite Ht, Ee. simpl negb. cbv iota.
  destruct (init t) eqn:Ei; simpl negb; cbv iota.
  - exists (set_exhausted true (set_errored true t)).
    assert (forall x, heap x = heap (with_task r (fun t => set_exhausted true
                                                  (set_errored true t)) w) ->
              heap x !! r = Some (set_exhausted true (set_errored true t))) as Hh.
    { intros x ->. unfold with_task. simpl. rewrite list_lookup_alter_eq, Ht. reflexivity. }
    destruct (_tasksInit _ =? 0); (split; [apply Hh; reflexivity|]);
      repeat split; simpl; rewrite elem_of_app, list_elem_of_singleton; auto.
    left. rewrite elem_of_app, list_elem_of_singleton. auto.
  - exists (rejectInstance e (set_exhausted true (set_errored true t))).
    assert (forall x, heap x = heap (with_task r (rejectInstance e)
                                  (with_task r (fun t => set_exhausted true
                                                  (set_errored true t)) w)) ->
              heap x !! r
              = Some (rejectInstance e (set_exhausted true (set_errored true t)))) as Hh.
    { intros x ->. unfold with_task. simpl.
      rewrite !list_lookup_alter_eq, Ht. reflexivity. }
    destruct (_tasksInit _ =? 0); (split; [apply Hh; reflexivity|]);
      unfold rejectInstance; simpl; destruct (promise t); repeat split.
Qed.

(** What [addBatchTask] and the generator it builds do with the batch
    size.  [addBatchTask] rejects on the spot, and registers nothing, when
    [batchSize] is neither a function nor a positive number.  When it is a
    function, every call of the task's generator that finds elements left
    applies it to the number of elements left and to the free slots of the
    task; a result that is not a positive number makes the generator return
    a rejected promise without moving the index, so that an invocation is
    started whose completion runs [errorTask], which marks the task as
    failed and rejects its promise; a positive result [n] moves the index
    by [n] and hands the next [n] elements to the generator of the caller.
    (The call that finds no element left returns [null] without asking: it
    starts no invocation.) *)
Lemma batch_size_is_checked :
  (forall fuel p w,
     bs_typeof (bp_batchSize p) <> TyFunction ->
     ~ (exists v, bp_batchSize p = BSVal v /\ positive_number v) ->
     addBatchTask fuel p w = Some (AddRejected invalid_size_error, w))
  /\ (forall fuel x i p f invocation w index r t,
        bp_batchSize p = BSFun f ->
        vars w !! x = Some index ->
        num_ge index (Fin (Z.of_nat (length (bp_data p)))) = false ->
        map_get i (_taskMap w) = Some r -> heap w !! r = Some t ->
        let ret := f (num_sub (Fin (Z.of_nat (length (bp_data p)))) index)
                     (free_slots_of t w) in
        (~ positive_number ret ->
           run_script (S (S (S fuel))) (batch_generator x i p invocation) w
           = Some (Returns (RetPromise (WillReject invalid_size_error)), w))
        /\ (forall n, ret = VNum n -> num_lt (Fin 0) n = true ->
              run_script (S (S (S fuel))) (batch_generator x i p invocation) w
              = run_script fuel
                  (bp_generator p (slice index (num_add index n) (bp_data p)) index
                     invocation)
                  (set_vars (<[x := num_add index n]> (vars w)) w)))
  /\ (forall fuel r t w x i p,
        heap w !! r = Some t -> generator t = batch_generator x i p ->
        run_script fuel (batch_generator x i p (invocations t)) w
        = Some (Returns (RetPromise (WillReject invalid_size_error)), w) ->
        startPromise (S fuel) r w = Some (begin_invocation r (WillReject invalid_size_error) w))
  /\ (forall fuel i w p e,
        inflights w !! i = Some p -> p_fate p = WillReject e ->
        exists w', complete fuel i w = Some w'
                   /\ heap w' = heap (errorTask (p_task p) e w)
                   /\ timers w' = timers (errorTask (p_task p) e w))
  /\ (forall r e w t,
        heap w !! r = Some t -> errored t = false ->
        exists t', heap (errorTask r e w) !! r = Some t'
                   /\ errored t' = true /\ exhausted t' = true
                   /\ (if init t then TRejectTask r e ∈ timers (errorTask r e w)
                       else promise t' = promise (rejectInstance e t))).
Proof.
  split; [|split; [|split; [|split]]].
  - intros fuel p w Hf Hn. unfold addBatchTask.
    rewrite (proj2 (invalid_batch_size_spec (bp_batchSize p))); [reflexivity|].
    split; assumption.
  - intros fuel x i p f invocation w index r t Hbs Hx Hidx Hi Ht ret.
    assert (getTaskStatus i w
            = Some (mkStatus (tid t) (activeCount t) (concurrencyLimit t) (invocations t)
                      (invocationLimit t) (free_slots_of t w))) as Hst
      by (unfold getTaskStatus; rewrite Hi, Ht; reflexivity).
    split.
    + intros Hret. apply invalid_returned_size_spec in Hret.
      cbn [run_script]. unfold batch_generator. rewrite Hx. cbn [run_script].
      rewrite Hidx, Hbs. cbn [run_script]. rewrite Hst. simpl st_freeSlots.
      fold ret. rewrite Hret. reflexivity.
    + intros n Hn Hpos.
      assert (invalid_returned_size ret = false) as Hv.
      { destruct (invalid_returned_size ret) eqn:E; [|reflexivity].
        apply invalid_returned_size_spec in E. exfalso. apply E. exists n. auto. }
      cbn [run_script]. unfold batch_generator. rewrite Hx. cbn [run_script].
      rewrite Hidx, Hbs. cbn [run_script]. rewrite Hst. simpl st_freeSlots.
      fold ret. rewrite Hv, Hn. reflexivity.
  - intros fuel r t w x i p Ht Hg Hrun. cbn [startPromise].
    rewrite Ht, Hg, Hrun. reflexivity.
  - intros fuel i w p e Hp He. unfold complete. rewrite Hp, He.
    eexists. split; [reflexivity|]. split; reflexivity.
  - apply errorTask_fails.
Qed.

(** The generator of a batch task whose size function answers nothing but
    invalid sizes: with elements left and the index at [0], every call
    returns a rejected promise, and leaves the index where it is. *)
Lemma invalid_batch_call fuel p f w invocation :
  bp_batchSize p = BSFun f -> bp_data p <> [] ->
  (forall a b, ~ positive_number (f a b)) ->
  batch_looping p w ->
  run_script fuel (batch_generator 0 (IdSym 0) p invocation) w = None
  \/ run_script fuel (batch_generator 0 (IdSym 0) p invocation) w
     = Some (Returns (RetPromise (WillReject invalid_size_error)), w).
Proof.
  intros Hbs Hdata Hf (_ & _ & Hmap & Hvar & t & Ht & _).
  destruct fuel as [|fuel]; [left; reflexivity|].
  cbn [run_script]. unfold batch_generator. rewrite Hvar.
  destruct fuel as [|fuel]; [left; reflexivity|].
  assert (num_ge (Fin 0) (Fin (Z.of_nat (length (bp_data p)))) = false) as Hidx.
  { unfold num_ge. simpl. apply Z.leb_gt. destruct (bp_data p); [contradiction|].
    simpl length. lia. }
  rewrite Hidx, Hbs. cbn [run_script].
  destruct fuel as [|fuel]; [left; reflexivity|].
  unfold getTaskStatus. rewrite Hmap, Ht.
  rewrite (proj2 (invalid_returned_size_spec _) (Hf _ _)).
  cbn [run_script]. right. reflexivity.
Qed.

Lemma batch_looping_begin p f w :
  batch_looping p w -> batch_looping p (begin_invocation 0 f w).
Proof.
  intros (Hl & Hts & Hmap & Hvar & t & Ht & Hg & Hex & Hcl & Hil).
  unfold begin_invocation. rewrite Ht. unfold with_task. simpl.
  repeat (split; [assumption|]).
  exists (started t). split.
  - change (alter (fun t1 => started t1) 0%nat (heap w) !! 0%nat = Some (started t)).
    rewrite list_lookup_alter_eq, Ht. reflexivity.
  - unfold started. simpl invocationLimit. rewrite Hil. simpl. repeat split; assumption.
Qed.

(** In such a pool the loop of [triggerPromises] does not come to an end:
    whatever the fuel, it runs out. *)
Lemma batch_loop_never_ends p f :
  bp_batchSize p = BSFun f -> bp_data p <> [] ->
  (forall a b, ~ positive_number (f a b)) ->
  forall fuel w, batch_looping p w -> triggerLoop fuel 0 w = None.
Proof.
  intros Hbs Hdata Hf. induction fuel as [|fuel IH]; intros w Hw; [reflexivity|].
  pose proof Hw as (Hl & Hts & Hmap & Hvar & t & Ht & Hg & Hex & Hcl & Hil).
  cbn [triggerLoop]. rewrite Hl, Hts. simpl. rewrite Ht, Hex, Hcl. simpl.
  destruct fuel as [|fuel]; [reflexivity|]. cbn [startPromise]. rewrite Ht, Hg.
  destruct (invalid_batch_call fuel p f w (invocations t) Hbs Hdata Hf Hw) as [-> | ->];
    [reflexivity|].
  simpl falsy. cbv iota. apply IH, batch_looping_begin, Hw.
Qed.

(** C7 in a pool without limits.  A batch task whose size function answers
    a value that is not a positive number does not fail: the generator
    [addBatchTask] builds returns the rejected promise before it has moved
    the index, so that [startPromise] counts an invocation and leaves the
    task as it is, and [triggerPromises], which [addGenericTask] calls
    before it returns, calls the generator again, and again: with no limit
    of the pool or of the task to stop it, the call of [addBatchTask] never
    returns, and no handler ever runs.  (With a limit the loop stops when
    the limit is reached, and the first completion fails the task:
    [zero_batch_size_fails_the_task] below.) *)
Theorem C7_invalid_batch_size_never_returns fuel g data f :
  data <> [] -> (forall a b, ~ positive_number (f a b)) ->
  (w0 ← new_pool VUndefined;
   addBatchTask fuel (mkBatchParams None g data (BSFun f) VUndefined VUndefined) w0)
  = None.
Proof.
  intros Hdata Hf. simpl. unfold addBatchTask. simpl.
  destruct fuel as [|fuel]; [reflexivity|].
  cbn [addGenericTask]. unfold checkGenericTask. simpl.
  match goal with |- context [triggerLoop fuel 0 ?w] =>
    rewrite (batch_loop_never_ends
               (mkBatchParams None g data (BSFun f) VUndefined VUndefined) f
               eq_refl Hdata Hf fuel w)
  end; [reflexivity|].
  unfold batch_looping. simpl. repeat split. eexists. split; [reflexivity|].
  repeat split.
Qed.

Lemma C7_witness :
  (w0 ← new_pool VUndefined; addBatchTask 1000 zero_batch_params w0) = None.
Proof.
  apply (C7_invalid_batch_size_never_returns 1000 _ _ (fun _ _ => VNum (Fin 0))).
  - discriminate.
  - intros a b (n & Hn & Hpos). injection Hn as <-. discriminate.
Defined.

(** The whole way, in a pool of concurrency limit 1: the batch task whose
    size function answers [0] is started once, the promise its generator
    returned is rejected, and the task ends up failed, rejected with the
    error of the check (by the timer, since it fails in its first
    millisecond), and out of the pool. *)
Example zero_batch_size_fails_the_task :
  match w0 ← new_pool (VNum (Fin 1));
        run_ops 20 [OpAddBatch zero_batch_params; OpComplete 0; OpComplete 0;
                    OpTimer 0; OpTimer 0] w0
  with
  | Some w =>
      (errored <$> heap w !! 0%nat) = Some true
      /\ (promise <$> heap w !! 0%nat) = Some (Rejected invalid_size_error)
      /\ (invocations <$> heap w !! 0%nat) = Some 1%nat
      /\ _tasks w = [] /\ _activePromiseCount w = 0
  | None => False
  end.
Proof. vm_compute. repeat split. Qed.

End LegacyFacts.

(* ===================================================================== *)
(** ** Facts about [task.ts] *)
(* ===================================================================== *)

Module TaskFacts.
Import JS TaskTs NumFacts.

#[local] Arguments forEach_group : simpl never.
#[local] Arguments end_ : simpl never.
#[local] Arguments _reject : simpl never.
#[local] Arguments _resolve : simpl never.

(** *** What leaves the core of a world alone *)

Lemma fmap_alter_same {A B} (p : A -> B) (f : A -> A) i (l : list A) :
  (forall x, p (f x) = p x) -> p <$> alter f i l = p <$> l.
Proof.
  intros Hf. revert i. induction l as [|a l IH]; intros [|i]; simpl; try reflexivity.
  - rewrite Hf. reflexivity.
  - f_equal. apply IH.
Qed.

Lemma core_with_task t F w :
  (forall T, task_core (F T) = task_core T) -> core (with_task t F w) = core w.
Proof.
  intros HF. unfold core, with_task. simpl. rewrite fmap_alter_same by exact HF.
  reflexivity.
Qed.

Lemma core_with_group g F w :
  (forall G, group_core (F G) = group_core G) -> core (with_group g F w) = core w.
Proof.
  intros HF. unfold core, with_group. simpl. rewrite fmap_alter_same by exact HF.
  reflexivity.
Qed.

Lemma core_with_error r F w : core (with_error r F w) = core w.
Proof. reflexivity. Qed.
Lemma core_set_errors l w : core (set_errors l w) = core w.
Proof. reflexivity. Qed.
Lemma core_set_nextTicks l w : core (set_nextTicks l w) = core w.
Proof. reflexivity. Qed.
Lemma core_set_fresh n w : core (set_fresh n w) = core w.
Proof. reflexivity. Qed.
Lemma core_settle_all ps s w : core (settle_all ps s w) = core w.
Proof. reflexivity. Qed.
Lemma core_drop_unobserved e w : core (drop_unobserved e w) = core w.
Proof. reflexivity. Qed.
Lemma core_triggerCallback w : core (triggerCallback w) = core w.
Proof. reflexivity. Qed.
Lemma core_detachCallback t w : core (detachCallback t w) = core w.
Proof. reflexivity. Qed.

Lemma core_forEach gs (f : nat -> world -> world) w :
  (forall g x, core (f g x) = core x) -> core (forEach_group gs f w) = core w.
Proof.
  intros Hf. unfold forEach_group. revert w.
  induction gs as [|g gs IH]; intros w; simpl; [reflexivity|].
  rewrite IH. apply Hf.
Qed.

(** Rewrite the core of an updated world to the core of the world before
    the update, for the updates that leave the core alone. *)
Ltac core_step :=
  first
    [ rewrite core_with_task by (intros ?; simpl; repeat case_match; reflexivity)
    | rewrite core_with_group by (intros ?; simpl; repeat case_match; reflexivity)
    | rewrite core_with_error
    | rewrite core_set_errors
    | rewrite core_set_nextTicks
    | rewrite core_set_fresh
    | rewrite core_settle_all
    | rewrite core_drop_unobserved
    | rewrite core_triggerCallback
    | rewrite core_detachCallback ].

Ltac core_norm := repeat core_step; try reflexivity.

Lemma core_incrementTasks g w : core (_incrementTasks g w) = core w.
Proof. unfold _incrementTasks. core_norm. Qed.

Lemma core_decrementTasks g w : core (_decrementTasks g w) = core w.
Proof.
  unfold _decrementTasks. destruct (groups w !! g) as [G|]; [|reflexivity].
  destruct (_activeTaskCount G - 1 <=? 0); core_norm.
Qed.

Lemma core_group_reject r g w : core (group_reject r g w) = core w.
Proof.
  unfold group_reject.
  destruct (groups w !! g) as [G|]; [|reflexivity].
  destruct (errors w !! r) as [E|]; [|reflexivity].
  destruct (g_rejection G), (_idleWaiters G); core_norm.
Qed.

Lemma core_pause t w : core (pause t w) = core w.
Proof. unfold pause. core_norm. Qed.

Lemma core_resume t w : core (resume t w) = core w.
Proof.
  unfold resume. destruct (tasks w !! t) as [T|]; [|reflexivity].
  case_bool_decide; core_norm.
Qed.

Lemma core_tick w : core (tick w) = core w.
Proof.
  unfold tick. destruct (nextTicks w) as [|r rest]; [reflexivity|].
  destruct (errors _ !! r) as [E|]; [destruct (negb (handled E))|]; core_norm.
Qed.

Lemma core_promise t w r w' : promise t w = Some (r, w') -> core w' = core w.
Proof.
  unfold promise. destruct (tasks w !! t) as [T|]; [|discriminate].
  destruct (_rejection T) as [e|].
  - destruct (errors w !! e); [|discriminate]. intros [= <- <-]. core_norm.
  - case_bool_decide; intros [= <- <-]; core_norm.
Qed.

Lemma core_reject_rest t e r w : core (reject_rest t e r w) = core w.
Proof.
  unfold reject_rest. destruct (tasks w !! t) as [T2|]; [|reflexivity].
  match goal with |- core (match errors ?w4 !! _ with _ => _ end) = _ =>
    assert (core w4 = core w) as H4;
    [|destruct (errors w4 !! r) as [E|]; [destruct (negb (handled E))|];
      core_norm; exact H4]
  end.
  rewrite core_forEach by (intros; apply core_group_reject).
  destruct (_promises T2); core_norm.
Qed.

(** [end], [_resolve] and [_reject], at any depth. *)
Lemma core_end_resolve_reject depth :
  (forall t w, core (end_f depth t w) = core w)
  /\ (forall t w, core (resolve_f depth t w) = core w)
  /\ (forall t e w, core (reject_f depth t e w) = core w).
Proof.
  induction depth as [|depth (IHend & IHresolve & IHreject)];
    [repeat split; reflexivity|].
  split; [|split].
  - intros t w. cbn [end_f].
    destruct (tasks w !! t) as [T|]; [|reflexivity].
    destruct (groups w !! _taskGroup T) as [TG|]; [|reflexivity].
    destruct (state_lt (_state T) Terminated && _).
    + rewrite IHresolve. destruct (0 <? _activeTaskCount TG).
      * rewrite core_detachCallback, core_forEach by (intros; apply core_decrementTasks).
        core_norm.
      * core_norm.
    + destruct (state_lt (_state T) Exhausted); core_norm.
  - intros t w. cbn [resolve_f].
    destruct (tasks w !! t) as [T|]; [|reflexivity].
    destruct (_rejection T); [reflexivity|].
    destruct (_result T) as [a|]; [|reflexivity].
    destruct (_resultConverter T) as [conv|].
    + destruct (conv _).
      * rewrite IHreject. core_norm.
      * destruct (_promises T); core_norm.
    + destruct (_promises T); core_norm.
  - intros t e w. cbn [reject_f].
    destruct (tasks w !! t) as [T|]; [|reflexivity].
    destruct (_rejection T); [reflexivity|].
    rewrite core_reject_rest, IHend. core_norm.
Qed.

Lemma core_end t w : core (end_ t w) = core w.
Proof. apply (core_end_resolve_reject 3). Qed.

Lemma core_reject t e w : core (_reject t e w) = core w.
Proof. apply (core_end_resolve_reject 3). Qed.

Lemma core_run_script t s : forall w, core (snd (run_script t s w)) = core w.
Proof.
  induction s as [o|k IH|k IH]; intros w; simpl.
  - reflexivity.
  - rewrite IH. apply core_end.
  - rewrite IH. apply core_pause.
Qed.

(** *** Reading the core *)

Lemma core_groups_lookup w w' g G' :
  core w' = core w -> groups w' !! g = Some G' ->
  exists G, groups w !! g = Some G /\ group_core G = group_core G'.
Proof.
  intros Hc HG'. unfold core in Hc. injection Hc as _ Hg _.
  assert ((group_core <$> groups w) !! g = Some (group_core G')) as H
    by (rewrite <- Hg, list_lookup_fmap, HG'; reflexivity).
  rewrite list_lookup_fmap in H.
  destruct (groups w !! g) as [G|]; [|discriminate].
  exists G. split; [reflexivity|]. simpl in H. congruence.
Qed.

Lemma core_tasks_lookup w w' t T' :
  core w' = core w -> tasks w' !! t = Some T' ->
  exists T, tasks w !! t = Some T /\ task_core T = task_core T'.
Proof.
  intros Hc HT'. unfold core in Hc. injection Hc as _ _ Ht.
  assert ((task_core <$> tasks w) !! t = Some (task_core T')) as H
    by (rewrite <- Ht, list_lookup_fmap, HT'; reflexivity).
  rewrite list_lookup_fmap in H.
  destruct (tasks w !! t) as [T|]; [|discriminate].
  exists T. split; [reflexivity|]. simpl in H. congruence.
Qed.

Lemma core_lengths w w' :
  core w' = core w ->
  inflights w' = inflights w
  /\ length (groups w') = length (groups w)
  /\ length (tasks w') = length (tasks w).
Proof.
  intros Hc. unfold core in Hc. injection Hc as Hi Hg Ht.
  split; [assumption|]. split.
  - rewrite <- (length_fmap group_core (groups w')), Hg. apply length_fmap.
  - rewrite <- (length_fmap task_core (tasks w')), Ht. apply length_fmap.
Qed.

(** *** No frequency limit, no recorded start *)

Lemma starts_ok_core w w' : core w' = core w -> starts_ok w -> starts_ok w'.
Proof.
  intros Hc Hw g G' HG' Hlim.
  destruct (core_groups_lookup _ _ _ _ Hc HG') as (G & HG & Heq).
  unfold group_core in Heq. injection Heq as _ Hs Hl _ _.
  rewrite <- Hs. apply (Hw g G HG). congruence.
Qed.

Lemma starts_ok_with_group g F w :
  (forall G, group_starts_ok G -> group_starts_ok (F G)) ->
  starts_ok w -> starts_ok (with_group g F w).
Proof.
  intros HF Hw g' G' HG'. unfold with_group in HG'. simpl in HG'.
  destruct (decide (g = g')) as [->|Hne].
  - rewrite list_lookup_alter_eq in HG'.
    destruct (groups w !! g') as [G|] eqn:E; [|discriminate].
    injection HG' as <-. apply HF. exact (Hw g' G E).
  - rewrite list_lookup_alter_ne in HG' by assumption. exact (Hw g' G' HG').
Qed.

Lemma starts_ok_same_groups w w' : groups w' = groups w -> starts_ok w -> starts_ok w'.
Proof. intros Hg Hw g G. rewrite Hg. apply Hw. Qed.

Lemma starts_ok_set_inflights l x : starts_ok x -> starts_ok (set_inflights l x).
Proof. apply starts_ok_same_groups. reflexivity. Qed.
Lemma starts_ok_with_task t F x : starts_ok x -> starts_ok (with_task t F x).
Proof. apply starts_ok_same_groups. reflexivity. Qed.
Lemma starts_ok_set_tasks l x : starts_ok x -> starts_ok (set_tasks l x).
Proof. apply starts_ok_same_groups. reflexivity. Qed.
Lemma starts_ok_triggerCallback x : starts_ok x -> starts_ok (triggerCallback x).
Proof. apply starts_ok_same_groups. reflexivity. Qed.
Lemma starts_ok_drop_unobserved e x : starts_ok x -> starts_ok (drop_unobserved e x).
Proof. apply starts_ok_same_groups. reflexivity. Qed.
Lemma starts_ok_end t x : starts_ok x -> starts_ok (end_ t x).
Proof. apply starts_ok_core, core_end. Qed.
Lemma starts_ok_reject t e x : starts_ok x -> starts_ok (_reject t e x).
Proof. apply starts_ok_core, core_reject. Qed.

Lemma starts_ok_forEach gs (f : nat -> world -> world) w :
  (forall g x, starts_ok x -> starts_ok (f g x)) ->
  starts_ok w -> starts_ok (forEach_group gs f w).
Proof.
  intros Hf. unfold forEach_group. revert w.
  induction gs as [|g gs IH]; intros w Hw; simpl; [assumption|].
  apply IH, Hf, Hw.
Qed.

Lemma start_group_ok now G : group_starts_ok G -> group_starts_ok (start_group now G).
Proof.
  unfold group_starts_ok, start_group. simpl.
  destruct (truthy (_frequencyLimit G)) eqn:E; simpl; rewrite E; [discriminate|auto].
Qed.

Lemma finish_group_ok G : group_starts_ok G -> group_starts_ok (finish_group G).
Proof. unfold group_starts_ok, finish_group. simpl. auto. Qed.

Lemma clean_group_ok now G : group_starts_ok G -> group_starts_ok (clean_group now G).
Proof.
  unfold group_starts_ok, clean_group. simpl. intros H Hl. rewrite (H Hl). reflexivity.
Qed.

Lemma starts_ok_clean now g w :
  starts_ok w -> starts_ok (group_cleanFrequencyStarts now g w).
Proof. apply starts_ok_with_group, clean_group_ok. Qed.

Lemma starts_ok_group_busyTime now g w :
  starts_ok w -> starts_ok (snd (group_busyTime now g w)).
Proof.
  intros Hw. unfold group_busyTime.
  destruct (groups w !! g) as [G|]; [|exact Hw].
  destruct (num_ge _ _); [exact Hw|].
  destruct (_frequencyLimit G) as [| | |limit| | |]; try exact Hw.
  pose proof (starts_ok_clean now g w Hw) as Hc.
  destruct (groups _ !! g) as [G1|]; [|exact Hc].
  destruct (num_ge _ limit); [destruct (_frequencyStarts G1)|]; exact Hc.
Qed.

Lemma starts_ok_busy_loop now gs : forall time w,
  starts_ok w -> starts_ok (snd (busy_loop now gs time w)).
Proof.
  induction gs as [|g gs IH]; intros time w Hw; simpl; [assumption|].
  pose proof (starts_ok_group_busyTime now g w Hw) as Hb.
  destruct (group_busyTime now g w) as [[[]|n] w1]; simpl in Hb; auto.
Qed.

Lemma starts_ok_run t now w : starts_ok w -> starts_ok (_run t now w).
Proof.
  intros Hw. unfold _run. destruct (tasks w !! t) as [T|]; [|assumption].
  destruct (num_ge _ _); [apply starts_ok_end, Hw|].
  pose proof (core_run_script t (_generator T (_invocations T)) w) as Hs.
  destruct (run_script t _ w) as [[e|v] w1]; simpl in Hs.
  { apply starts_ok_reject. eapply starts_ok_core; eauto. }
  assert (starts_ok w1) as Hw1 by (eapply starts_ok_core; eauto).
  destruct (falsy v).
  { destruct (tasks w1 !! t) as [T1|]; [|assumption].
    case_bool_decide; [|assumption]. apply starts_ok_end, Hw1. }
  assert (starts_ok (forEach_group (_groups T) (start_in_group now) w1)) as Hw2.
  { apply starts_ok_forEach; [|assumption].
    intros g x Hx. apply starts_ok_with_group; [apply start_group_ok|assumption]. }
  destruct (tasks _ !! t) as [T2|]; [|assumption].
  apply starts_ok_set_inflights.
  destruct (num_ge _ _); [apply starts_ok_end|]; apply starts_ok_with_task, Hw2.
Qed.

Lemma starts_ok_complete i w : starts_ok w -> starts_ok (complete i w).
Proof.
  intros Hw. unfold complete. destruct (inflights w !! i) as [p|]; [|assumption].
  destruct (p_fate p) as [v|e].
  - destruct (tasks _ !! p_task p) as [T|]; [|apply starts_ok_set_inflights, Hw].
    assert (starts_ok (forEach_group (_groups T) finish_in_group
              (set_inflights (delete i (inflights w)) w))) as Hw2.
    { apply starts_ok_forEach; [|apply starts_ok_set_inflights, Hw].
      intros g x Hx. apply starts_ok_with_group; [apply finish_group_ok|assumption]. }
    case_bool_decide.
    + apply starts_ok_triggerCallback.
      match goal with |- context [if ?c then _ else _] => destruct c end;
        [apply starts_ok_end|]; exact Hw2.
    + destruct (_result T) as [a|]; [|apply starts_ok_drop_unobserved, Hw2].
      apply starts_ok_triggerCallback.
      match goal with |- context [if ?c then _ else _] => destruct c end;
        [apply starts_ok_end|]; apply starts_ok_with_task, Hw2.
  - apply starts_ok_set_inflights, starts_ok_reject, Hw.
Qed.

Lemma starts_ok_schedule t now w : starts_ok w -> starts_ok (schedule t now w).
Proof.
  intros Hw. unfold schedule.
  assert (starts_ok (_cleanFrequencyStarts now t w)) as H1.
  { unfold _cleanFrequencyStarts. destruct (tasks w !! t) as [T|]; [|assumption].
    apply starts_ok_forEach; [|assumption]. intros; apply starts_ok_clean; assumption. }
  assert (starts_ok (snd (_busyTime now t (_cleanFrequencyStarts now t w)))) as H2.
  { unfold _busyTime. destruct (tasks _ !! t) as [T|]; [|assumption].
    destruct (negb _); [assumption|]. apply starts_ok_busy_loop, H1. }
  destruct (_busyTime now t _) as [[[]|n] w2]; simpl in H2; try assumption.
  apply starts_ok_run, H2.
Qed.

Lemma starts_ok_set_limit t v w w' :
  set_limit t v w = Some w' -> starts_ok w -> starts_ok w'.
Proof.
  unfold set_limit. destruct (tasks w !! t) as [T|]; [|discriminate].
  destruct (isNull v).
  { intros [= <-] Hw. apply starts_ok_triggerCallback, starts_ok_with_task, Hw. }
  destruct v as [| | |n| | |]; try discriminate.
  destruct (negb _ && _); [|discriminate].
  intros H Hw. injection H as <-. apply starts_ok_triggerCallback.
  destruct (num_ge _ n); [apply starts_ok_end|]; apply starts_ok_with_task, Hw.
Qed.

Lemma new_group_fresh pool cl fl fw G :
  new_group pool cl fl fw = Some G ->
  _activePromiseCount G = 0 /\ _frequencyStarts G = [].
Proof.
  unfold new_group. destruct (_ || _); [discriminate|].
  intros [= <-]. split; reflexivity.
Qed.

Lemma starts_ok_snoc_group G w :
  _frequencyStarts G = [] -> starts_ok w -> starts_ok (set_groups (groups w ++ [G]) w).
Proof.
  intros HG Hw g G' HG'. simpl in HG'.
  destruct (groups w !! g) as [G0|] eqn:E.
  - rewrite lookup_app_l in HG' by (eapply lookup_lt_Some; eauto).
    apply (Hw g G'). congruence.
  - apply lookup_ge_None in E. rewrite lookup_app_r in HG' by assumption.
    destruct (g - length (groups w))%nat; simpl in HG'; [|discriminate].
    injection HG' as <-. intros _. exact HG.
Qed.

Lemma starts_ok_new_task pool gg params w t w' :
  new_task pool gg params w = Some (t, w') -> starts_ok w -> starts_ok w'.
Proof.
  unfold new_task.
  destruct (if isNull _ then _ else _) as [limit|]; [|discriminate].
  destruct (new_group _ _ _ _) as [TG|] eqn:ETG; [|discriminate].
  destruct (_ && _); [|discriminate].
  intros H Hw.
  assert (starts_ok (set_groups (groups w ++ [TG]) w)) as H1
    by (apply starts_ok_snoc_group; [apply (new_group_fresh _ _ _ _ _ ETG)|assumption]).
  destruct (limit_le_zero _); injection H as _ <-.
  - apply starts_ok_end.
    apply (starts_ok_same_groups (set_groups (groups w ++ [TG]) w)); [reflexivity|exact H1].
  - eapply starts_ok_core; [apply core_forEach; intros; apply core_incrementTasks|].
    apply (starts_ok_same_groups (set_groups (groups w ++ [TG]) w)); [reflexivity|exact H1].
Qed.

Lemma starts_ok_addGroup pool cl fl fw w g w' :
  addGroup pool cl fl fw w = Some (g, w') -> starts_ok w -> starts_ok w'.
Proof.
  unfold addGroup. destruct (new_group _ _ _ _) as [G|] eqn:EG; [|discriminate].
  intros H Hw. injection H as _ <-.
  apply starts_ok_snoc_group; [apply (new_group_fresh _ _ _ _ _ EG)|assumption].
Qed.

(** Every operation keeps [starts_ok]. *)
Lemma starts_ok_apply_op o w : starts_ok w -> starts_ok (apply_op o w).
Proof.
  intros Hw. destruct o as [pool cl fl fw|pool gg params|t|t|t|t|t v|t now|i|]; simpl.
  - destruct (addGroup pool cl fl fw w) as [[g w']|] eqn:E; [|assumption].
    eapply starts_ok_addGroup; eauto.
  - destruct (new_task pool gg params w) as [[t w']|] eqn:E; [|assumption].
    eapply starts_ok_new_task; eauto.
  - destruct (promise t w) as [[r w']|] eqn:E; [|assumption].
    eapply starts_ok_core; [eapply core_promise; eauto|assumption].
  - eapply starts_ok_core; [apply core_pause|assumption].
  - eapply starts_ok_core; [apply core_resume|assumption].
  - eapply starts_ok_core; [apply core_end|assumption].
  - destruct (set_limit t v w) as [w'|] eqn:E; [|assumption].
    eapply starts_ok_set_limit; eauto.
  - apply starts_ok_schedule, Hw.
  - apply starts_ok_complete, Hw.
  - eapply starts_ok_core; [apply core_tick|assumption].
Qed.

(** *** [invocations <= invocationLimit] *)

Lemma limit_ok_ext w w' :
  (forall t T', tasks w' !! t = Some T' ->
     exists T, tasks w !! t = Some T /\ _invocations T = _invocations T'
               /\ _invocationLimit T = _invocationLimit T') ->
  limit_ok w -> limit_ok w'.
Proof.
  intros H Hw t T' HT'. destruct (H t T' HT') as (T & HT & Hi & Hl).
  rewrite <- Hi, <- Hl. exact (Hw t T HT).
Qed.

Lemma limit_ok_core w w' : core w' = core w -> limit_ok w -> limit_ok w'.
Proof.
  intros Hc. apply limit_ok_ext. intros t T' HT'.
  destruct (core_tasks_lookup _ _ _ _ Hc HT') as (T & HT & Heq).
  unfold task_core in Heq. injection Heq as _ _ Hi Hl. eauto.
Qed.

Lemma limit_ok_same_tasks w w' : tasks w' = tasks w -> limit_ok w -> limit_ok w'.
Proof. intros Ht Hw t T. rewrite Ht. apply Hw. Qed.

Lemma tasks_forEach_with_group gs F w :
  tasks (forEach_group gs (fun g => with_group g F) w) = tasks w.
Proof.
  unfold forEach_group. revert w. induction gs as [|g gs IH]; intros w; simpl;
    [reflexivity|]. rewrite IH. reflexivity.
Qed.

Lemma tasks_group_busyTime now g w : tasks (snd (group_busyTime now g w)) = tasks w.
Proof.
  unfold group_busyTime. destruct (groups w !! g) as [G|]; [|reflexivity].
  destruct (num_ge _ _); [reflexivity|].
  destruct (_frequencyLimit G) as [| | |limit| | |]; try reflexivity.
  destruct (groups _ !! g) as [G1|]; [|reflexivity].
  destruct (num_ge _ limit); [destruct (_frequencyStarts G1)|]; reflexivity.
Qed.

Lemma tasks_busy_loop now gs : forall time w,
  tasks (snd (busy_loop now gs time w)) = tasks w.
Proof.
  induction gs as [|g gs IH]; intros time w; simpl; [reflexivity|].
  pose proof (tasks_group_busyTime now g w) as Hb.
  destruct (group_busyTime now g w) as [[[]|n] w1]; simpl in Hb;
    rewrite ?IH; exact Hb.
Qed.

Lemma tasks_busyTime now t w : tasks (snd (_busyTime now t w)) = tasks w.
Proof.
  unfold _busyTime. destruct (tasks w !! t) as [T|]; [|reflexivity].
  destruct (negb _); [reflexivity|]. apply tasks_busy_loop.
Qed.

Lemma tasks_cleanFrequencyStarts now t w : tasks (_cleanFrequencyStarts now t w) = tasks w.
Proof.
  unfold _cleanFrequencyStarts. destruct (tasks w !! t) as [T|]; [|reflexivity].
  apply tasks_forEach_with_group.
Qed.

(** The guard of [_run]: an invocation is started when [invocations >=
    invocationLimit] is false. *)
Lemma near_step a L :
  near (Z.of_nat a) L -> num_ge (Fin (Z.of_nat a)) L = false ->
  near (Z.of_nat (S a)) L.
Proof.
  intros H1 H2. replace (Z.of_nat (S a)) with (Z.of_nat a + 1) by lia.
  apply near_room; assumption.
Qed.

Lemma limit_ok_with_task t F w :
  (forall T, tasks w !! t = Some T ->
     near (Z.of_nat (_invocations (F T))) (_invocationLimit (F T))) ->
  limit_ok w -> limit_ok (with_task t F w).
Proof.
  intros HF Hw t' T' HT'. unfold with_task in HT'. simpl in HT'.
  destruct (decide (t = t')) as [->|Hne].
  - rewrite list_lookup_alter_eq in HT'.
    destruct (tasks w !! t') as [T|] eqn:E; [|discriminate].
    injection HT' as <-. apply HF. reflexivity.
  - rewrite list_lookup_alter_ne in HT' by assumption. exact (Hw t' T' HT').
Qed.

Lemma limit_ok_set_inflights l x : limit_ok x -> limit_ok (set_inflights l x).
Proof. apply limit_ok_same_tasks. reflexivity. Qed.
Lemma limit_ok_end t x : limit_ok x -> limit_ok (end_ t x).
Proof. apply limit_ok_core, core_end. Qed.
Lemma limit_ok_reject t e x : limit_ok x -> limit_ok (_reject t e x).
Proof. apply limit_ok_core, core_reject. Qed.
Lemma limit_ok_triggerCallback x : limit_ok x -> limit_ok (triggerCallback x).
Proof. apply limit_ok_same_tasks. reflexivity. Qed.
Lemma limit_ok_drop_unobserved e x : limit_ok x -> limit_ok (drop_unobserved e x).
Proof. apply limit_ok_same_tasks. reflexivity. Qed.

(** [_run] starts an invocation only below the limit. *)
Lemma limit_ok_run t now w : limit_ok w -> limit_ok (_run t now w).
Proof.
  intros Hw. unfold _run. destruct (tasks w !! t) as [T|] eqn:ET; [|assumption].
  destruct (num_ge _ _) eqn:Hguard; [apply limit_ok_end, Hw|].
  pose proof (core_run_script t (_generator T (_invocations T)) w) as Hs.
  destruct (run_script t _ w) as [[e|v] w1]; simpl in Hs.
  { apply limit_ok_reject. eapply limit_ok_core; eauto. }
  assert (limit_ok w1) as Hw1 by (eapply limit_ok_core; eauto).
  destruct (falsy v).
  { destruct (tasks w1 !! t) as [T1|]; [|assumption].
    case_bool_decide; [|assumption]. apply limit_ok_end, Hw1. }
  assert (tasks (forEach_group (_groups T) (start_in_group now) w1) = tasks w1) as Ht2
    by apply (tasks_forEach_with_group (_groups T) (start_group now) w1).
  assert (limit_ok (forEach_group (_groups T) (start_in_group now) w1)) as Hw2
    by (eapply limit_ok_same_tasks; eauto).
  destruct (tasks (forEach_group _ _ _) !! t) as [T2|] eqn:ET2; [|exact Hw2].
  assert (limit_ok (with_task t (set_invocations (S (_invocations T2)))
            (forEach_group (_groups T) (start_in_group now) w1))) as Hw3.
  { apply limit_ok_with_task; [|exact Hw2]. intros T3 ET3. simpl.
    assert (T3 = T2) as -> by congruence.
    rewrite Ht2 in ET2.
    destruct (core_tasks_lookup _ _ _ _ Hs ET2) as (T0 & ET0 & Heq).
    assert (T0 = T) as -> by congruence.
    unfold task_core in Heq. injection Heq as _ _ Hi Hl.
    rewrite <- Hi, <- Hl. apply near_step; [apply (Hw t T ET)|exact Hguard]. }
  apply limit_ok_set_inflights.
  destruct (num_ge (Fin (Z.of_nat (S _))) _); [apply limit_ok_end|]; exact Hw3.
Qed.

Lemma limit_ok_complete i w : limit_ok w -> limit_ok (complete i w).
Proof.
  intros Hw. unfold complete. destruct (inflights w !! i) as [p|]; [|assumption].
  destruct (p_fate p) as [v|e].
  - destruct (tasks _ !! p_task p) as [T|]; [|apply limit_ok_set_inflights, Hw].
    assert (limit_ok (forEach_group (_groups T) finish_in_group
              (set_inflights (delete i (inflights w)) w))) as Hw2.
    { eapply limit_ok_same_tasks; [|apply limit_ok_set_inflights, Hw].
      apply (tasks_forEach_with_group (_groups T) finish_group). }
    case_bool_decide.
    + apply limit_ok_triggerCallback.
      match goal with |- context [if ?c then _ else _] => destruct c end;
        [apply limit_ok_end|]; exact Hw2.
    + destruct (_result T) as [a|]; [|apply limit_ok_drop_unobserved, Hw2].
      apply limit_ok_triggerCallback.
      assert (limit_ok (with_task (p_task p)
                (set_result (Some (arr_set (p_index p) v a)))
                (forEach_group (_groups T) finish_in_group
                   (set_inflights (delete i (inflights w)) w)))) as Hw3
        by (eapply limit_ok_core; [apply core_with_task; reflexivity|exact Hw2]).
      match goal with |- context [if ?c then _ else _] => destruct c end;
        [apply limit_ok_end|]; exact Hw3.
  - apply limit_ok_set_inflights, limit_ok_reject, Hw.
Qed.

Lemma limit_ok_schedule t now w : limit_ok w -> limit_ok (schedule t now w).
Proof.
  intros Hw. unfold schedule.
  assert (limit_ok (snd (_busyTime now t (_cleanFrequencyStarts now t w)))) as H2.
  { eapply limit_ok_same_tasks; [|exact Hw].
    rewrite tasks_busyTime. apply tasks_cleanFrequencyStarts. }
  destruct (_busyTime now t _) as [[[]|n] w2]; simpl in H2; try assumption.
  apply limit_ok_run, H2.
Qed.

Lemma limit_ok_set_limit t v w w' :
  respects_limit (OpSetLimit t v) w ->
  set_limit t v w = Some w' -> limit_ok w -> limit_ok w'.
Proof.
  intros Hr. unfold set_limit. destruct (tasks w !! t) as [T|] eqn:ET; [|discriminate].
  destruct (isNull v).
  { intros H Hw. injection H as <-. apply limit_ok_triggerCallback.
    apply limit_ok_with_task; [|exact Hw]. intros; reflexivity. }
  destruct v as [| | |n| | |]; try discriminate.
  destruct (negb _ && _); [|discriminate].
  intros H Hw. injection H as <-. apply limit_ok_triggerCallback.
  assert (limit_ok (with_task t (set_invocationLimit n) w)) as H1.
  { apply limit_ok_with_task; [|exact Hw]. intros T0 ET0. simpl. apply Hr, ET0. }
  destruct (num_ge _ n); [apply limit_ok_end|]; exact H1.
Qed.

Lemma limit_ok_snoc_task T w :
  near (Z.of_nat (_invocations T)) (_invocationLimit T) ->
  limit_ok w -> limit_ok (set_tasks (tasks w ++ [T]) w).
Proof.
  intros HT Hw t T' HT'. simpl in HT'.
  destruct (tasks w !! t) as [T0|] eqn:E.
  - rewrite lookup_app_l in HT' by (eapply lookup_lt_Some; eauto).
    apply (Hw t T'). congruence.
  - apply lookup_ge_None in E. rewrite lookup_app_r in HT' by assumption.
    destruct (t - length (tasks w))%nat; simpl in HT'; [|discriminate].
    injection HT' as <-. exact HT.
Qed.

Lemma limit_ok_new_task pool gg params w t w' :
  respects_limit (OpNew pool gg params) w ->
  new_task pool gg params w = Some (t, w') -> limit_ok w -> limit_ok w'.
Proof.
  intros Hr. unfold new_task.
  destruct (if isNull _ then _ else _) as [limit|] eqn:El; [|discriminate].
  destruct (new_group _ _ _ _) as [TG|] eqn:ETG; [|discriminate].
  destruct (_ && _); [|discriminate].
  intros H Hw.
  assert (num_le (Fin 0) limit = true) as Hl.
  { simpl in Hr. destruct (invocationLimit params) as [| | |n| | |];
      simpl in El; try discriminate; injection El as <-; auto. }
  match type of H with context [set_tasks (_ ++ [?T]) ?w1] =>
    assert (limit_ok (set_tasks (tasks w1 ++ [T]) w1)) as H1
      by (apply limit_ok_snoc_task; [apply near_zero; exact Hl|];
          eapply limit_ok_same_tasks; [reflexivity|exact Hw])
  end.
  destruct (limit_le_zero _); injection H as _ <-.
  - apply limit_ok_end. exact H1.
  - eapply limit_ok_core; [apply core_forEach; intros; apply core_incrementTasks|].
    exact H1.
Qed.

(** Every operation that respects the limit keeps [limit_ok]. *)
Lemma limit_ok_apply_op o w :
  respects_limit o w -> limit_ok w -> limit_ok (apply_op o w).
Proof.
  intros Hr Hw. destruct o as [pool cl fl fw|pool gg params|t|t|t|t|t v|t now|i|]; simpl.
  - unfold addGroup. destruct (new_group _ _ _ _) as [G|]; [|assumption].
    eapply limit_ok_same_tasks; [reflexivity|exact Hw].
  - destruct (new_task pool gg params w) as [[t w']|] eqn:E; [|assumption].
    eapply limit_ok_new_task; eauto.
  - destruct (promise t w) as [[r w']|] eqn:E; [|assumption].
    eapply limit_ok_core; [eapply core_promise; eauto|assumption].
  - eapply limit_ok_core; [apply core_pause|assumption].
  - eapply limit_ok_core; [apply core_resume|assumption].
  - apply limit_ok_end, Hw.
  - destruct (set_limit t v w) as [w'|] eqn:E; [|assumption].
    eapply limit_ok_set_limit; eauto.
  - apply limit_ok_schedule, Hw.
  - apply limit_ok_complete, Hw.
  - eapply limit_ok_core; [apply core_tick|assumption].
Qed.

(** *** The counters of the groups *)

Lemma sum_list_with_ext {A} (f g : A -> nat) l :
  (forall x, f x = g x) -> sum_list_with f l = sum_list_with g l.
Proof. intros H. induction l as [|a l IH]; simpl; [reflexivity|]. rewrite H, IH. reflexivity. Qed.

Lemma counts_ok_ext w w' :
  inflights w' = inflights w ->
  (forall g, _activePromiseCount <$> groups w' !! g = _activePromiseCount <$> groups w !! g) ->
  (forall t, _groups <$> tasks w' !! t = _groups <$> tasks w !! t) ->
  counts_ok w -> counts_ok w'.
Proof.
  intros Hi Hg Ht (C & B & V).
  assert (forall g, load g w' = load g w) as Hload.
  { intros g. unfold load. rewrite Hi. apply sum_list_with_ext. intros p.
    unfold weight. specialize (Ht (p_task p)).
    destruct (tasks w' !! p_task p), (tasks w !! p_task p); simpl in Ht; congruence. }
  split; [|split].
  - intros g G' HG'. specialize (Hg g). rewrite HG' in Hg.
    destruct (groups w !! g) as [G|] eqn:E; [|discriminate].
    simpl in Hg. injection Hg as ->. rewrite Hload. exact (C g G E).
  - intros p Hp. rewrite Hi in Hp. specialize (B p Hp).
    apply lookup_lt_is_Some in B as [T HT]. specialize (Ht (p_task p)).
    rewrite HT in Ht. destruct (tasks w' !! p_task p) eqn:E; [|discriminate].
    eapply lookup_lt_Some; eauto.
  - intros t T' g HT' Hin. pose proof (Ht t) as Ht'. rewrite HT' in Ht'.
    destruct (tasks w !! t) as [T|] eqn:E; [|discriminate].
    simpl in Ht'. injection Ht' as Heq. rewrite Heq in Hin.
    specialize (V t T g E Hin). apply lookup_lt_is_Some in V as [G HG].
    specialize (Hg g). rewrite HG in Hg.
    destruct (groups w' !! g) eqn:E'; [|discriminate].
    eapply lookup_lt_Some; eauto.
Qed.

Lemma counts_ok_core w w' : core w' = core w -> counts_ok w -> counts_ok w'.
Proof.
  intros Hc. pose proof Hc as Hc'. unfold core in Hc'. injection Hc' as Hi Hg Ht.
  apply counts_ok_ext; [exact Hi| |].
  - intros g.
    assert ((group_core <$> groups w') !! g = (group_core <$> groups w) !! g) as H
      by (rewrite Hg; reflexivity).
    rewrite !list_lookup_fmap in H.
    destruct (groups w' !! g), (groups w !! g); simpl in *; try congruence.
    unfold group_core in H. congruence.
  - intros t.
    assert ((task_core <$> tasks w') !! t = (task_core <$> tasks w) !! t) as H
      by (rewrite Ht; reflexivity).
    rewrite !list_lookup_fmap in H.
    destruct (tasks w' !! t), (tasks w !! t); simpl in *; try congruence.
    unfold task_core in H. congruence.
Qed.

Lemma counts_ok_with_group g F w :
  (forall G, _activePromiseCount (F G) = _activePromiseCount G) ->
  counts_ok w -> counts_ok (with_group g F w).
Proof.
  intros HF. apply counts_ok_ext; [reflexivity| |reflexivity].
  intros g'. unfold with_group. simpl. destruct (decide (g = g')) as [->|Hne].
  - rewrite list_lookup_alter_eq. destruct (groups w !! g'); simpl; [|reflexivity].
    rewrite HF. reflexivity.
  - rewrite list_lookup_alter_ne by assumption. reflexivity.
Qed.

Lemma counts_ok_with_task t F w :
  (forall T, _groups (F T) = _groups T) ->
  counts_ok w -> counts_ok (with_task t F w).
Proof.
  intros HF. apply counts_ok_ext; [reflexivity|reflexivity|].
  intros t'. unfold with_task. simpl. destruct (decide (t = t')) as [->|Hne].
  - rewrite list_lookup_alter_eq. destruct (tasks w !! t'); simpl; [|reflexivity].
    rewrite HF. reflexivity.
  - rewrite list_lookup_alter_ne by assumption. reflexivity.
Qed.

Lemma counts_ok_forEach gs (f : nat -> world -> world) w :
  (forall g x, counts_ok x -> counts_ok (f g x)) ->
  counts_ok w -> counts_ok (forEach_group gs f w).
Proof.
  intros Hf. unfold forEach_group. revert w.
  induction gs as [|g gs IH]; intros w Hw; simpl; [assumption|].
  apply IH, Hf, Hw.
Qed.

(** [forEach] over a list of groups applies the update to a group once for
    each place the group takes in the list. *)
Lemma groups_forEach_with_group F gs : forall w g,
  groups (forEach_group gs (fun g => with_group g F) w) !! g
  = Nat.iter (occurrences g gs) F <$> groups w !! g.
Proof.
  unfold forEach_group, occurrences.
  induction gs as [|g0 gs IH]; intros w g; simpl.
  - destruct (groups w !! g); reflexivity.
  - rewrite IH. unfold with_group at 1. simpl. rewrite filter_cons.
    destruct (decide (g0 = g)) as [->|Hne].
    + rewrite list_lookup_alter_eq. simpl.
      destruct (groups w !! g); simpl; [|reflexivity].
      rewrite <- Nat.iter_succ_r. reflexivity.
    + rewrite list_lookup_alter_ne by assumption. reflexivity.
Qed.

Lemma inflights_forEach_with_group gs F w :
  inflights (forEach_group gs (fun g => with_group g F) w) = inflights w.
Proof.
  unfold forEach_group. revert w. induction gs as [|g gs IH]; intros w; simpl;
    [reflexivity|]. rewrite IH. reflexivity.
Qed.

Lemma apc_iter_start now n G :
  _activePromiseCount (Nat.iter n (start_group now) G) = _activePromiseCount G + Z.of_nat n.
Proof.
  induction n as [|n IH]; [simpl; lia|].
  rewrite Nat.iter_succ. unfold start_group at 1. simpl.
  destruct (truthy _); simpl; rewrite IH; lia.
Qed.

Lemma apc_iter_finish n G :
  _activePromiseCount (Nat.iter n finish_group G) = _activePromiseCount G - Z.of_nat n.
Proof.
  induction n as [|n IH]; [simpl; lia|].
  rewrite Nat.iter_succ. unfold finish_group at 1. simpl. rewrite IH. lia.
Qed.

(** [_run] starts an invocation: every group of the task counts it once
    for each place it takes among the groups of the task. *)
Lemma counts_ok_begin t T now n p w :
  tasks w !! t = Some T -> p_task p = t ->
  counts_ok w ->
  counts_ok (set_inflights (inflights w ++ [p])
               (with_task t (set_invocations n)
                  (forEach_group (_groups T) (start_in_group now) w))).
Proof.
  intros HT Hp (C & B & V).
  set (w2 := forEach_group (_groups T) (start_in_group now) w).
  assert (tasks w2 = tasks w) as Ht2
    by apply (tasks_forEach_with_group (_groups T) (start_group now) w).
  assert (inflights w2 = inflights w) as Hi2
    by apply (inflights_forEach_with_group (_groups T) (start_group now) w).
  assert (forall g, groups w2 !! g
            = Nat.iter (occurrences g (_groups T)) (start_group now) <$> groups w !! g) as Hg2
    by apply (groups_forEach_with_group (start_group now) (_groups T) w).
  assert (forall t', _groups <$> alter (set_invocations n) t (tasks w2) !! t'
                     = _groups <$> tasks w !! t') as Htl.
  { intros t'. rewrite Ht2. destruct (decide (t = t')) as [->|Hne].
    - rewrite list_lookup_alter_eq. destruct (tasks w !! t'); reflexivity.
    - rewrite list_lookup_alter_ne by assumption. reflexivity. }
  split; [|split]; simpl.
  - intros g G' HG'. rewrite Hg2 in HG'.
    destruct (groups w !! g) as [G|] eqn:E; [|discriminate].
    simpl in HG'. injection HG' as <-. rewrite apc_iter_start, (C g G E).
    unfold load. simpl. rewrite sum_list_with_app. simpl.
    assert (weight g (alter (set_invocations n) t (tasks w2)) p = occurrences g (_groups T)) as ->.
    { unfold weight. rewrite Hp. specialize (Htl t). rewrite HT in Htl.
      destruct (alter _ _ _ !! t); simpl in Htl; [|discriminate]. congruence. }
    rewrite (sum_list_with_ext (weight g (alter (set_invocations n) t (tasks w2)))
               (weight g (tasks w))); [lia|].
    intros q. unfold weight. specialize (Htl (p_task q)).
    destruct (alter _ _ _ !! p_task q), (tasks w !! p_task q); simpl in Htl; congruence.
  - intros q Hq. rewrite length_alter, Ht2.
    apply elem_of_app in Hq as [Hq|Hq]; [apply B, Hq|].
    apply list_elem_of_singleton in Hq as ->. rewrite Hp. eapply lookup_lt_Some; eauto.
  - intros t' T' g HT' Hin. specialize (Htl t'). rewrite HT' in Htl.
    destruct (tasks w !! t') as [T0|] eqn:E; [|discriminate].
    simpl in Htl. injection Htl as Heq. rewrite Heq in Hin.
    specialize (V t' T0 g E Hin). apply lookup_lt_is_Some in V as [G HG].
    assert (is_Some (groups w2 !! g)) as HS by (rewrite Hg2, HG; eauto).
    apply lookup_lt_is_Some in HS. exact HS.
Qed.

Lemma sum_list_with_delete {A} (f : A -> nat) l i x :
  l !! i = Some x -> sum_list_with f l = (sum_list_with f (delete i l) + f x)%nat.
Proof.
  intros Hi. rewrite <- (take_drop_middle l i x Hi) at 1.
  rewrite delete_take_drop, !sum_list_with_app. simpl. lia.
Qed.

Lemma sum_list_with_insert {A} (f : A -> nat) l i x y :
  l !! i = Some x -> f y = f x -> sum_list_with f (<[i := y]> l) = sum_list_with f l.
Proof.
  intros Hi Hf. rewrite <- (take_drop_middle l i x Hi) at 2.
  rewrite insert_take_drop by (eapply lookup_lt_Some; eauto).
  rewrite !sum_list_with_app. simpl. lia.
Qed.

(** The completion handler takes the invocation out of every group of the
    task, once for each place the group takes. *)
Lemma counts_ok_finish i p T w :
  inflights w !! i = Some p -> tasks w !! p_task p = Some T ->
  counts_ok w ->
  counts_ok (forEach_group (_groups T) finish_in_group
               (set_inflights (delete i (inflights w)) w)).
Proof.
  intros Hi HT (C & B & V).
  set (w1 := set_inflights (delete i (inflights w)) w).
  set (w2 := forEach_group (_groups T) finish_in_group w1).
  assert (tasks w2 = tasks w) as Ht2
    by apply (tasks_forEach_with_group (_groups T) finish_group w1).
  assert (inflights w2 = delete i (inflights w)) as Hi2
    by apply (inflights_forEach_with_group (_groups T) finish_group w1).
  assert (forall g, groups w2 !! g
            = Nat.iter (occurrences g (_groups T)) finish_group <$> groups w !! g) as Hg2
    by apply (groups_forEach_with_group finish_group (_groups T) w1).
  split; [|split].
  - intros g G' HG'. rewrite Hg2 in HG'.
    destruct (groups w !! g) as [G|] eqn:E; [|discriminate].
    simpl in HG'. injection HG' as <-. rewrite apc_iter_finish, (C g G E).
    unfold load. rewrite Hi2, Ht2.
    rewrite (sum_list_with_delete (weight g (tasks w)) (inflights w) i p Hi).
    assert (weight g (tasks w) p = occurrences g (_groups T)) as ->
      by (unfold weight; rewrite HT; reflexivity).
    lia.
  - intros q Hq. rewrite Ht2. rewrite Hi2 in Hq. apply B.
    apply list_elem_of_lookup in Hq as [j Hj]. destruct (decide (j < i)%nat).
    + rewrite list_lookup_delete_lt in Hj by assumption.
      eapply list_elem_of_lookup_2; eauto.
    + rewrite list_lookup_delete_ge in Hj by lia.
      eapply list_elem_of_lookup_2; eauto.
  - intros t T' g HT' Hin. rewrite Ht2 in HT'. specialize (V t T' g HT' Hin).
    apply lookup_lt_is_Some in V as [G HG].
    assert (is_Some (groups w2 !! g)) as HS by (rewrite Hg2, HG; eauto).
    apply lookup_lt_is_Some in HS. exact HS.
Qed.

(** The rejection handler leaves the invocation in flight. *)
Lemma counts_ok_caught i p q w :
  inflights w !! i = Some p -> p_task q = p_task p ->
  counts_ok w -> counts_ok (set_inflights (<[i := q]> (inflights w)) w).
Proof.
  intros Hi Hq (C & B & V). split; [|split]; simpl.
  - intros g G HG. rewrite (C g G HG). unfold load. simpl.
    rewrite (sum_list_with_insert _ _ _ p); [reflexivity|exact Hi|].
    unfold weight. rewrite Hq. reflexivity.
  - intros r Hr. apply list_elem_of_lookup in Hr as [j Hj].
    destruct (decide (i = j)) as [->|Hne].
    + rewrite list_lookup_insert_eq in Hj by (eapply lookup_lt_Some; eauto).
      injection Hj as <-. rewrite Hq. apply B. eapply list_elem_of_lookup_2; eauto.
    + rewrite list_lookup_insert_ne in Hj by assumption.
      apply B. eapply list_elem_of_lookup_2; eauto.
  - exact V.
Qed.

Lemma occurrences_absent g gs : g ∉ gs -> occurrences g gs = 0%nat.
Proof.
  intros Hg. unfold occurrences. rewrite filter_none; [reflexivity|].
  intros x Hx ->. contradiction.
Qed.

(** The constructor adds a group nobody counts for yet and a task with
    nothing in flight. *)
Lemma counts_ok_snoc TG T w :
  _activePromiseCount TG = 0 ->
  (forall g, g ∈ _groups T -> (g < S (length (groups w)))%nat) ->
  counts_ok w ->
  counts_ok (set_tasks (tasks w ++ [T]) (set_groups (groups w ++ [TG]) w)).
Proof.
  intros HTG HT (C & B & V).
  assert (forall g p, p ∈ inflights w ->
            weight g (tasks w ++ [T]) p = weight g (tasks w) p) as Hweight.
  { intros g p Hp. unfold weight. rewrite lookup_app_l by (apply B, Hp). reflexivity. }
  assert (forall g l, (forall p, p ∈ l -> p ∈ inflights w) ->
            sum_list_with (weight g (tasks w ++ [T])) l
            = sum_list_with (weight g (tasks w)) l) as Hsum.
  { intros g l. induction l as [|a l IH]; intros Hl; simpl; [reflexivity|].
    rewrite Hweight by (apply Hl; left).
    rewrite IH by (intros q Hq; apply Hl; right; exact Hq). reflexivity. }
  split; [|split]; simpl.
  - intros g G HG. unfold load. simpl. rewrite Hsum by auto.
    destruct (groups w !! g) as [G0|] eqn:E.
    + rewrite lookup_app_l in HG by (eapply lookup_lt_Some; eauto).
      apply (C g G). congruence.
    + apply lookup_ge_None in E. rewrite lookup_app_r in HG by assumption.
      destruct (g - length (groups w))%nat; simpl in HG; [|discriminate].
      injection HG as <-. rewrite HTG.
      assert (sum_list_with (weight g (tasks w)) (inflights w) = 0%nat) as ->; [|reflexivity].
      assert (forall l, (forall p, p ∈ l -> p ∈ inflights w) ->
                sum_list_with (weight g (tasks w)) l = 0%nat) as H0; [|apply H0; auto].
      intros l. induction l as [|a l IH]; intros Hl; simpl; [reflexivity|].
      rewrite IH by (intros q Hq; apply Hl; right; exact Hq).
      unfold weight. destruct (tasks w !! p_task a) as [T0|] eqn:E0; [|reflexivity].
      rewrite occurrences_absent; [reflexivity|].
      intros Hin. specialize (V _ _ _ E0 Hin). lia.
  - intros p Hp. rewrite length_app. specialize (B p Hp). simpl. lia.
  - intros t T' g HT' Hin. rewrite length_app. simpl.
    destruct (tasks w !! t) as [T0|] eqn:E.
    + rewrite lookup_app_l in HT' by (eapply lookup_lt_Some; eauto).
      assert (T0 = T') as -> by congruence. specialize (V _ _ _ E Hin). lia.
    + apply lookup_ge_None in E. rewrite lookup_app_r in HT' by assumption.
      destruct (t - length (tasks w))%nat; simpl in HT'; [|discriminate].
      injection HT' as <-. specialize (HT g Hin). lia.
Qed.

Lemma core_snoc_inflight x y l :
  core x = core y ->
  core (set_inflights (inflights x ++ l) x) = core (set_inflights (inflights y ++ l) y).
Proof.
  unfold core. simpl. intros H. injection H as Hi Hg Ht. rewrite Hi, Hg, Ht. reflexivity.
Qed.

Lemma counts_ok_end t x : counts_ok x -> counts_ok (end_ t x).
Proof. apply counts_ok_core, core_end. Qed.
Lemma counts_ok_reject t e x : counts_ok x -> counts_ok (_reject t e x).
Proof. apply counts_ok_core, core_reject. Qed.
Lemma counts_ok_triggerCallback x : counts_ok x -> counts_ok (triggerCallback x).
Proof. apply counts_ok_core. reflexivity. Qed.
Lemma counts_ok_drop_unobserved e x : counts_ok x -> counts_ok (drop_unobserved e x).
Proof. apply counts_ok_core. reflexivity. Qed.

Lemma counts_ok_run t now w : counts_ok w -> counts_ok (_run t now w).
Proof.
  intros Hw. unfold _run. destruct (tasks w !! t) as [T|] eqn:ET; [|assumption].
  destruct (num_ge _ _); [apply counts_ok_end, Hw|].
  pose proof (core_run_script t (_generator T (_invocations T)) w) as Hs.
  destruct (run_script t _ w) as [[e|v] w1]; simpl in Hs.
  { apply counts_ok_reject. eapply counts_ok_core; eauto. }
  assert (counts_ok w1) as Hw1 by (eapply counts_ok_core; eauto).
  destruct (falsy v).
  { destruct (tasks w1 !! t) as [T1|]; [|assumption].
    case_bool_decide; [|assumption]. apply counts_ok_end, Hw1. }
  assert (exists T1, tasks w1 !! t = Some T1 /\ _groups T1 = _groups T) as (T1 & ET1 & HG1).
  { symmetry in Hs. destruct (core_tasks_lookup _ _ _ _ Hs ET) as (T1 & ET1 & Heq).
    exists T1. split; [exact ET1|]. unfold task_core in Heq. congruence. }
  set (w2 := forEach_group (_groups T) (start_in_group now) w1).
  assert (inflights w2 = inflights w1) as Hi2
    by apply (inflights_forEach_with_group (_groups T) (start_group now) w1).
  assert (tasks w2 = tasks w1) as Ht2
    by apply (tasks_forEach_with_group (_groups T) (start_group now) w1).
  destruct (tasks w2 !! t) as [T2|] eqn:ET2.
  2:{ exfalso. rewrite Ht2 in ET2. congruence. }
  set (p := mkInflight t (_invocations T2) (as_promise v)).
  set (w3 := with_task t (set_invocations (S (_invocations T2))) w2).
  assert (counts_ok (set_inflights (inflights w3 ++ [p]) w3)) as H3.
  { unfold w3 at 1. simpl. rewrite Hi2. unfold w3, w2. rewrite <- HG1.
    apply counts_ok_begin; [exact ET1|reflexivity|exact Hw1]. }
  destruct (num_ge (Fin (Z.of_nat (S _))) _); [|exact H3].
  eapply counts_ok_core; [|exact H3]. apply core_snoc_inflight, core_end.
Qed.

Lemma counts_ok_complete i w : counts_ok w -> counts_ok (complete i w).
Proof.
  intros Hw. unfold complete. destruct (inflights w !! i) as [p|] eqn:Hi; [|assumption].
  destruct (p_fate p) as [v|e].
  - assert (is_Some (tasks w !! p_task p)) as [T HT].
    { apply lookup_lt_is_Some. apply Hw. eapply list_elem_of_lookup_2; eauto. }
    change (tasks (set_inflights (delete i (inflights w)) w)) with (tasks w).
    rewrite HT.
    pose proof (counts_ok_finish i p T w Hi HT Hw) as Hw2.
    case_bool_decide.
    + apply counts_ok_triggerCallback.
      match goal with |- context [if ?c then _ else _] => destruct c end;
        [apply counts_ok_end|]; exact Hw2.
    + destruct (_result T) as [a|]; [|apply counts_ok_drop_unobserved, Hw2].
      apply counts_ok_triggerCallback.
      assert (counts_ok (with_task (p_task p)
                (set_result (Some (arr_set (p_index p) v a)))
                (forEach_group (_groups T) finish_in_group
                   (set_inflights (delete i (inflights w)) w)))) as Hw3
        by (apply counts_ok_with_task; [reflexivity|exact Hw2]).
      match goal with |- context [if ?c then _ else _] => destruct c end;
        [apply counts_ok_end|]; exact Hw3.
  - assert (inflights (_reject (p_task p) e w) = inflights w) as Hin
      by (apply (core_lengths _ _ (core_reject (p_task p) e w))).
    apply (counts_ok_caught i p); [rewrite Hin; exact Hi|reflexivity|].
    apply counts_ok_reject, Hw.
Qed.

Lemma clean_group_apc now G :
  _activePromiseCount (clean_group now G) = _activePromiseCount G.
Proof. reflexivity. Qed.

Lemma counts_ok_clean now g w :
  counts_ok w -> counts_ok (group_cleanFrequencyStarts now g w).
Proof. apply counts_ok_with_group, clean_group_apc. Qed.

Lemma counts_ok_group_busyTime now g w :
  counts_ok w -> counts_ok (snd (group_busyTime now g w)).
Proof.
  intros Hw. unfold group_busyTime.
  destruct (groups w !! g) as [G|]; [|exact Hw].
  destruct (num_ge _ _); [exact Hw|].
  destruct (_frequencyLimit G) as [| | |limit| | |]; try exact Hw.
  pose proof (counts_ok_clean now g w Hw) as Hc.
  destruct (groups _ !! g) as [G1|]; [|exact Hc].
  destruct (num_ge _ limit); [destruct (_frequencyStarts G1)|]; exact Hc.
Qed.

Lemma counts_ok_busy_loop now gs : forall time w,
  counts_ok w -> counts_ok (snd (busy_loop now gs time w)).
Proof.
  induction gs as [|g gs IH]; intros time w Hw; simpl; [assumption|].
  pose proof (counts_ok_group_busyTime now g w Hw) as Hb.
  destruct (group_busyTime now g w) as [[[]|n] w1]; simpl in Hb; auto.
Qed.

Lemma counts_ok_schedule t now w : counts_ok w -> counts_ok (schedule t now w).
Proof.
  intros Hw. unfold schedule.
  assert (counts_ok (_cleanFrequencyStarts now t w)) as H1.
  { unfold _cleanFrequencyStarts. destruct (tasks w !! t) as [T|]; [|assumption].
    apply counts_ok_forEach; [|assumption]. intros; apply counts_ok_clean; assumption. }
  assert (counts_ok (snd (_busyTime now t (_cleanFrequencyStarts now t w)))) as H2.
  { unfold _busyTime. destruct (tasks _ !! t) as [T|]; [|assumption].
    destruct (negb _); [assumption|]. apply counts_ok_busy_loop, H1. }
  destruct (_busyTime now t _) as [[[]|n] w2]; simpl in H2; try assumption.
  apply counts_ok_run, H2.
Qed.

Lemma counts_ok_set_limit t v w w' :
  set_limit t v w = Some w' -> counts_ok w -> counts_ok w'.
Proof.
  unfold set_limit. destruct (tasks w !! t) as [T|]; [|discriminate].
  destruct (isNull v).
  { intros H Hw. injection H as <-. apply counts_ok_triggerCallback.
    apply counts_ok_with_task; [reflexivity|exact Hw]. }
  destruct v as [| | |n| | |]; try discriminate.
  destruct (negb _ && _); [|discriminate].
  intros H Hw. injection H as <-. apply counts_ok_triggerCallback.
  destruct (num_ge _ n); [apply counts_ok_end|];
    (apply counts_ok_with_task; [reflexivity|exact Hw]).
Qed.

Lemma counts_ok_new_task pool gg params w t w' :
  new_task pool gg params w = Some (t, w') -> counts_ok w -> counts_ok w'.
Proof.
  unfold new_task.
  destruct (if isNull _ then _ else _) as [limit|]; [|discriminate].
  destruct (new_group _ _ _ _) as [TG|] eqn:ETG; [|discriminate].
  destruct (bool_decide _ && _) eqn:Hchk; [|discriminate].
  apply andb_prop in Hchk as [Hgg Hgs]. apply bool_decide_eq_true in Hgg.
  intros H Hw.
  match type of H with context [set_tasks (_ ++ [?T]) ?w1] =>
    assert (counts_ok (set_tasks (tasks w ++ [T]) (set_groups (groups w ++ [TG]) w))) as H1
  end.
  { apply counts_ok_snoc; [apply (new_group_fresh _ _ _ _ _ ETG)| |exact Hw].
    simpl. intros g Hg. apply elem_of_cons in Hg as [->|Hg]; [lia|].
    apply elem_of_cons in Hg as [->|Hg]; [lia|].
    rewrite forallb_forall in Hgs. apply list_elem_of_In in Hg.
    specialize (Hgs g Hg). simpl in Hgs.
    destruct (groups w !! g) eqn:E; [|discriminate].
    apply lookup_lt_Some in E. lia. }
  destruct (limit_le_zero _); injection H as _ <-.
  - apply counts_ok_end. exact H1.
  - eapply counts_ok_core; [apply core_forEach; intros; apply core_incrementTasks|].
    exact H1.
Qed.

Lemma counts_ok_snoc_group TG w :
  _activePromiseCount TG = 0 ->
  counts_ok w -> counts_ok (set_groups (groups w ++ [TG]) w).
Proof.
  intros HTG (C & B & V). split; [|split]; simpl.
  - intros g G HG. change (load g (set_groups (groups w ++ [TG]) w)) with (load g w).
    destruct (groups w !! g) as [G0|] eqn:E.
    + rewrite lookup_app_l in HG by (eapply lookup_lt_Some; eauto).
      apply (C g G). congruence.
    + apply lookup_ge_None in E. rewrite lookup_app_r in HG by assumption.
      destruct (g - length (groups w))%nat; simpl in HG; [|discriminate].
      injection HG as <-. rewrite HTG. unfold load.
      assert (forall l, (forall p, p ∈ l -> p ∈ inflights w) ->
                sum_list_with (weight g (tasks w)) l = 0%nat) as H0;
        [|rewrite H0; auto].
      intros l. induction l as [|a l IH]; intros Hl; simpl; [reflexivity|].
      rewrite IH by (intros q Hq; apply Hl; right; exact Hq).
      unfold weight. destruct (tasks w !! p_task a) as [T0|] eqn:E0; [|reflexivity].
      rewrite occurrences_absent; [reflexivity|].
      intros Hin. specialize (V _ _ _ E0 Hin). lia.
  - exact B.
  - intros t T g HT Hin. rewrite length_app. specialize (V _ _ _ HT Hin). simpl. lia.
Qed.

(** Every operation keeps [counts_ok]. *)
Lemma counts_ok_apply_op o w : counts_ok w -> counts_ok (apply_op o w).
Proof.
  intros Hw. destruct o as [pool cl fl fw|pool gg params|t|t|t|t|t v|t now|i|]; simpl.
  - unfold addGroup. destruct (new_group _ _ _ _) as [G|] eqn:EG; [|assumption].
    apply counts_ok_snoc_group; [apply (new_group_fresh _ _ _ _ _ EG)|assumption].
  - destruct (new_task pool gg params w) as [[t w']|] eqn:E; [|assumption].
    eapply counts_ok_new_task; eauto.
  - destruct (promise t w) as [[r w']|] eqn:E; [|assumption].
    eapply counts_ok_core; [eapply core_promise; eauto|assumption].
  - eapply counts_ok_core; [apply core_pause|assumption].
  - eapply counts_ok_core; [apply core_resume|assumption].
  - apply counts_ok_end, Hw.
  - destruct (set_limit t v w) as [w'|] eqn:E; [|assumption].
    eapply counts_ok_set_limit; eauto.
  - apply counts_ok_schedule, Hw.
  - apply counts_ok_complete, Hw.
  - eapply counts_ok_core; [apply core_tick|assumption].
Qed.

(** With no group listed twice, the load of a group is the number of
    invocations in flight of the tasks that belong to it. *)
Lemma occurrences_NoDup g gs :
  NoDup gs -> occurrences g gs = if bool_decide (g ∈ gs) then 1%nat else 0%nat.
Proof.
  intros Hnd. unfold occurrences. induction Hnd as [|x l Hx Hl IH]; [reflexivity|].
  rewrite filter_cons. destruct (decide (x = g)) as [->|Hne].
  - simpl. rewrite IH. rewrite bool_decide_eq_false_2 by assumption.
    rewrite bool_decide_eq_true_2 by left. reflexivity.
  - rewrite IH. case_bool_decide as H1; case_bool_decide as H2; try reflexivity.
    + exfalso. apply H2. right. exact H1.
    + exfalso. apply elem_of_cons in H2 as [->|H2]; [congruence|contradiction].
Qed.


(** *** Recorded rejections stay *)

Lemma task_stable_refl T : task_stable T T.
Proof. repeat split; auto. Qed.

Lemma task_stable_trans T1 T2 T3 :
  task_stable T1 T2 -> task_stable T2 T3 -> task_stable T1 T3.
Proof. intros (A1 & B1 & C1) (A2 & B2 & C2). repeat split; auto. Qed.

Lemma stable_refl w : stable w w.
Proof. split; eauto using task_stable_refl. Qed.

Lemma stable_trans w1 w2 w3 : stable w1 w2 -> stable w2 w3 -> stable w1 w3.
Proof.
  intros (T1 & E1) (T2 & E2). split.
  - intros t T HT. destruct (T1 _ _ HT) as (T' & HT' & Hs').
    destruct (T2 _ _ HT') as (T'' & HT'' & Hs'').
    exists T''. split; [assumption|]. eapply task_stable_trans; eauto.
  - intros r E HE. destruct (E1 _ _ HE) as (E' & HE' & He' & Hh').
    destruct (E2 _ _ HE') as (E'' & HE'' & He'' & Hh'').
    exists E''. repeat split; [assumption|congruence|auto].
Qed.

Lemma stable_same w x y :
  tasks y = tasks x -> errors y = errors x -> stable w x -> stable w y.
Proof. intros Ht He (T1 & E1). split; rewrite ?Ht, ?He; assumption. Qed.

Lemma st_with_task_at w x t F :
  (forall T, tasks x !! t = Some T -> task_stable T (F T)) ->
  stable w x -> stable w (with_task t F x).
Proof.
  intros HF Hx. eapply stable_trans; [exact Hx|]. split; [|eauto].
  intros t' T HT. unfold with_task. simpl.
  destruct (decide (t = t')) as [->|Hne].
  - rewrite list_lookup_alter_eq, HT. simpl. eauto.
  - rewrite list_lookup_alter_ne by assumption. eauto using task_stable_refl.
Qed.

Lemma st_with_task w x t F :
  (forall T, task_stable T (F T)) ->
  stable w x -> stable w (with_task t F x).
Proof. intros HF. apply st_with_task_at. auto. Qed.

Lemma st_with_error w x r F :
  (forall E, error (F E) = error E /\ (handled E = true -> handled (F E) = true)) ->
  stable w x -> stable w (with_error r F x).
Proof.
  intros HF Hx. eapply stable_trans; [exact Hx|]. split; [eauto using task_stable_refl|].
  intros r' E HE. unfold with_error. simpl.
  destruct (decide (r = r')) as [->|Hne].
  - rewrite list_lookup_alter_eq, HE. simpl. exists (F E).
    destruct (HF E). auto.
  - rewrite list_lookup_alter_ne by assumption. eauto.
Qed.

Lemma st_with_group w x g F : stable w x -> stable w (with_group g F x).
Proof. apply stable_same; reflexivity. Qed.
Lemma st_settle_all w x ps s : stable w x -> stable w (settle_all ps s x).
Proof. apply stable_same; reflexivity. Qed.
Lemma st_drop_unobserved w x e : stable w x -> stable w (drop_unobserved e x).
Proof. apply stable_same; reflexivity. Qed.
Lemma st_triggerCallback w x : stable w x -> stable w (triggerCallback x).
Proof. apply stable_same; reflexivity. Qed.
Lemma st_detachCallback w x t : stable w x -> stable w (detachCallback t x).
Proof. apply stable_same; reflexivity. Qed.
Lemma st_set_nextTicks w x l : stable w x -> stable w (set_nextTicks l x).
Proof. apply stable_same; reflexivity. Qed.
Lemma st_set_inflights w x l : stable w x -> stable w (set_inflights l x).
Proof. apply stable_same; reflexivity. Qed.
Lemma st_set_fresh w x n : stable w x -> stable w (set_fresh n x).
Proof. apply stable_same; reflexivity. Qed.

Lemma st_forEach w x gs (f : nat -> world -> world) :
  (forall g y, stable w y -> stable w (f g y)) ->
  stable w x -> stable w (forEach_group gs f x).
Proof.
  intros Hf. unfold forEach_group. revert x.
  induction gs as [|g gs IH]; intros x Hx; simpl; [assumption|].
  apply IH, Hf, Hx.
Qed.

Lemma st_snoc_error w x E : stable w x -> stable w (set_errors (errors x ++ [E]) x).
Proof.
  intros Hx. eapply stable_trans; [exact Hx|]. split; [eauto using task_stable_refl|].
  intros r E0 HE. simpl. rewrite lookup_app_l by (eapply lookup_lt_Some; eauto). eauto.
Qed.

Lemma st_snoc_task w x T : stable w x -> stable w (set_tasks (tasks x ++ [T]) x).
Proof.
  intros Hx. eapply stable_trans; [exact Hx|]. split; [|eauto].
  intros t T0 HT. simpl. rewrite lookup_app_l by (eapply lookup_lt_Some; eauto).
  eauto using task_stable_refl.
Qed.

(** Recording a rejection for a task that has none. *)
Lemma st_record w x t r :
  (forall T, tasks x !! t = Some T -> _rejection T = None) ->
  stable w x -> stable w (with_task t (set_rejection (Some r)) x).
Proof.
  intros Hnone Hx. eapply stable_trans; [exact Hx|]. split; [|eauto].
  intros t' T' HT'. unfold with_task. simpl.
  destruct (decide (t = t')) as [->|Hne].
  - rewrite list_lookup_alter_eq, HT'. simpl. eexists. split; [reflexivity|].
    repeat split; simpl; auto. rewrite (Hnone _ HT'). discriminate.
  - rewrite list_lookup_alter_ne by assumption. eauto using task_stable_refl.
Qed.

(** The changes of state the methods make. *)
Lemma ts_terminate T : task_stable T (set_state Terminated T).
Proof. repeat split; simpl; auto. Qed.

Lemma ts_exhaust T :
  state_lt (_state T) Exhausted = true -> task_stable T (set_state Exhausted T).
Proof.
  intros H. repeat split; simpl; auto. intros Ht. rewrite Ht in H. discriminate.
Qed.

Lemma ts_pause T :
  task_stable T (if bool_decide (_state T = Active) then set_state Paused T else T).
Proof.
  case_bool_decide as H; [|apply task_stable_refl].
  repeat split; simpl; auto; rewrite H; discriminate.
Qed.

Lemma ts_resume T : _state T = Paused -> task_stable T (set_state Active T).
Proof. intros H. repeat split; simpl; auto; rewrite H; discriminate. Qed.

Ltac st_step :=
  first
    [ assumption
    | apply stable_refl
    | apply st_with_task;
      [intros ?; first [ apply ts_terminate | apply ts_pause
                       | repeat split; simpl; auto ] |]
    | apply st_with_error; [intros ?; simpl; auto|]
    | apply st_with_group | apply st_settle_all | apply st_drop_unobserved
    | apply st_triggerCallback | apply st_detachCallback | apply st_set_nextTicks
    | apply st_set_inflights | apply st_set_fresh ].

Ltac st := repeat st_step.

Lemma st_decrementTasks w x g : stable w x -> stable w (_decrementTasks g x).
Proof.
  intros Hx. unfold _decrementTasks. destruct (groups x !! g) as [G|]; [|assumption].
  destruct (_ <=? 0); st.
Qed.

Lemma st_incrementTasks w x g : stable w x -> stable w (_incrementTasks g x).
Proof. intros Hx. unfold _incrementTasks. st. Qed.

Lemma st_group_reject w x r g : stable w x -> stable w (group_reject r g x).
Proof.
  intros Hx. unfold group_reject.
  destruct (groups x !! g) as [G|]; [|assumption].
  destruct (errors x !! r) as [E|]; [|assumption].
  destruct (g_rejection G), (_idleWaiters G); st.
Qed.

Lemma st_reject_rest w x t e r : stable w x -> stable w (reject_rest t e r x).
Proof.
  intros Hx. unfold reject_rest. destruct (tasks x !! t) as [T2|]; [|assumption].
  match goal with |- stable w (match errors ?w4 !! _ with _ => _ end) =>
    assert (stable w w4) as H4;
    [|destruct (errors w4 !! r) as [E|]; [destruct (negb (handled E))|]; st]
  end.
  apply st_forEach; [intros; apply st_group_reject; assumption|].
  destruct (_promises T2); st.
Qed.

Lemma st_end_resolve_reject depth :
  (forall w t x, stable w x -> stable w (end_f depth t x))
  /\ (forall w t x, stable w x -> stable w (resolve_f depth t x))
  /\ (forall w t e x, stable w x -> stable w (reject_f depth t e x)).
Proof.
  induction depth as [|depth (IHend & IHresolve & IHreject)];
    [split; [|split]; intros; assumption|].
  split; [|split].
  - intros w t x Hx. cbn [end_f].
    destruct (tasks x !! t) as [T|] eqn:ET; [|assumption].
    destruct (groups x !! _taskGroup T) as [TG|]; [|assumption].
    destruct (state_lt (_state T) Terminated && _).
    + apply IHresolve. destruct (0 <? _activeTaskCount TG); [|st].
      apply st_detachCallback, st_forEach; [intros; apply st_decrementTasks; assumption|st].
    + destruct (state_lt (_state T) Exhausted) eqn:Hlt; [|assumption].
      apply st_with_task_at; [|assumption].
      intros T0 HT0. assert (T0 = T) as -> by congruence. apply ts_exhaust, Hlt.
  - intros w t x Hx. cbn [resolve_f].
    destruct (tasks x !! t) as [T|]; [|assumption].
    destruct (_rejection T); [assumption|].
    destruct (_result T) as [a|]; [|assumption].
    destruct (_resultConverter T) as [conv|].
    + destruct (conv _); [apply IHreject; st|destruct (_promises T); st].
    + destruct (_promises T); st.
  - intros w t e x Hx. cbn [reject_f].
    destruct (tasks x !! t) as [T|] eqn:ET; [|assumption].
    destruct (_rejection T) eqn:ER; [st|].
    apply st_reject_rest, IHend, st_record; [|apply st_snoc_error, Hx].
    intros T0 HT0. simpl in HT0. congruence.
Qed.

Lemma st_end w x t : stable w x -> stable w (end_ t x).
Proof. apply (st_end_resolve_reject 3). Qed.
Lemma st_reject w x t e : stable w x -> stable w (_reject t e x).
Proof. apply (st_end_resolve_reject 3). Qed.

Lemma st_pause w x t : stable w x -> stable w (pause t x).
Proof. intros Hx. unfold pause. st. Qed.

Lemma st_run_script t s : forall w x, stable w x -> stable w (snd (run_script t s x)).
Proof.
  induction s as [o|k IH|k IH]; intros w x Hx; simpl.
  - assumption.
  - apply IH, st_end, Hx.
  - apply IH, st_pause, Hx.
Qed.

Lemma st_promise w x t r x' : promise t x = Some (r, x') -> stable w x -> stable w x'.
Proof.
  unfold promise. destruct (tasks x !! t) as [T|]; [|discriminate].
  destruct (_rejection T) as [e|].
  - destruct (errors x !! e); [|discriminate]. intros Hp Hx. injection Hp as _ <-. st.
  - case_bool_decide; intros Hp Hx; injection Hp as _ <-; st.
Qed.

Lemma st_resume w x t : stable w x -> stable w (resume t x).
Proof.
  intros Hx. unfold resume. destruct (tasks x !! t) as [T|] eqn:ET; [|assumption].
  case_bool_decide as Hp; [|assumption].
  apply st_triggerCallback, st_with_task_at; [|assumption].
  intros T0 HT0. assert (T0 = T) as -> by congruence. apply ts_resume, Hp.
Qed.

Lemma st_tick w x : stable w x -> stable w (tick x).
Proof.
  intros Hx. unfold tick. destruct (nextTicks x) as [|r rest]; [assumption|].
  destruct (errors _ !! r) as [E|]; [destruct (negb (handled E))|]; st.
Qed.

Lemma st_set_limit w x t v x' : set_limit t v x = Some x' -> stable w x -> stable w x'.
Proof.
  unfold set_limit. destruct (tasks x !! t) as [T|]; [|discriminate].
  destruct (isNull v); [intros H Hx; injection H as <-; st|].
  destruct v as [| | |n| | |]; try discriminate.
  destruct (negb _ && _); [|discriminate].
  intros H Hx. injection H as <-. apply st_triggerCallback.
  destruct (num_ge _ n); [apply st_end|]; st.
Qed.

Lemma st_run w x t now : stable w x -> stable w (_run t now x).
Proof.
  intros Hx. unfold _run. destruct (tasks x !! t) as [T|]; [|assumption].
  destruct (num_ge _ _); [apply st_end, Hx|].
  pose proof (st_run_script t (_generator T (_invocations T)) w x Hx) as Hs.
  destruct (run_script t _ x) as [[e|v] x1]; simpl in Hs; [apply st_reject, Hs|].
  destruct (falsy v).
  { destruct (tasks x1 !! t) as [T1|]; [|assumption].
    case_bool_decide; [apply st_end|]; assumption. }
  assert (stable w (forEach_group (_groups T) (start_in_group now) x1)) as H2
    by (apply st_forEach; [intros; apply st_with_group; assumption|exact Hs]).
  destruct (tasks (forEach_group _ _ _) !! t) as [T2|]; [|exact H2].
  apply st_set_inflights.
  destruct (num_ge (Fin (Z.of_nat (S _))) _); [apply st_end|]; st.
Qed.

Lemma st_complete w x i : stable w x -> stable w (complete i x).
Proof.
  intros Hx. unfold complete. destruct (inflights x !! i) as [p|]; [|assumption].
  destruct (p_fate p) as [v|e]; [|apply st_set_inflights, st_reject, Hx].
  destruct (tasks _ !! p_task p) as [T|]; [|st].
  assert (stable w (forEach_group (_groups T) finish_in_group
            (set_inflights (delete i (inflights x)) x))) as H2
    by (apply st_forEach; [intros; apply st_with_group; assumption|st]).
  case_bool_decide.
  - apply st_triggerCallback.
    match goal with |- context [if ?c then _ else _] => destruct c end;
      [apply st_end|]; exact H2.
  - destruct (_result T) as [a|]; [|st].
    apply st_triggerCallback.
    match goal with |- context [if ?c then _ else _] => destruct c end;
      [apply st_end|]; st.
Qed.

Lemma st_group_busyTime w x now g : stable w x -> stable w (snd (group_busyTime now g x)).
Proof.
  intros Hx. unfold group_busyTime, group_cleanFrequencyStarts.
  destruct (groups x !! g) as [G|]; [|exact Hx].
  destruct (num_ge _ _); [exact Hx|].
  destruct (_frequencyLimit G) as [| | |limit| | |]; try exact Hx.
  destruct (groups _ !! g) as [G1|]; [|st].
  destruct (num_ge _ limit); [destruct (_frequencyStarts G1)|]; simpl; st.
Qed.

Lemma st_busy_loop w now gs : forall time x,
  stable w x -> stable w (snd (busy_loop now gs time x)).
Proof.
  induction gs as [|g gs IH]; intros time x Hx; simpl; [assumption|].
  pose proof (st_group_busyTime w x now g Hx) as Hb.
  destruct (group_busyTime now g x) as [[[]|n] x1]; simpl in Hb; auto.
Qed.

Lemma st_schedule w x t now : stable w x -> stable w (schedule t now x).
Proof.
  intros Hx. unfold schedule.
  assert (stable w (_cleanFrequencyStarts now t x)) as H1.
  { unfold _cleanFrequencyStarts. destruct (tasks x !! t) as [T|]; [|assumption].
    apply st_forEach; [|assumption]. intros. apply st_with_group. assumption. }
  assert (stable w (snd (_busyTime now t (_cleanFrequencyStarts now t x)))) as H2.
  { unfold _busyTime. destruct (tasks _ !! t) as [T|]; [|assumption].
    destruct (negb _); [assumption|]. apply st_busy_loop, H1. }
  destruct (_busyTime now t _) as [[[]|n] x2]; simpl in H2; try assumption.
  apply st_run, H2.
Qed.

Lemma st_new_task w x pool gg params t x' :
  new_task pool gg params x = Some (t, x') -> stable w x -> stable w x'.
Proof.
  unfold new_task.
  destruct (if isNull _ then _ else _) as [limit|]; [|discriminate].
  destruct (new_group _ _ _ _) as [TG|]; [|discriminate].
  destruct (_ && _); [|discriminate].
  intros H Hx.
  match type of H with context [set_tasks (_ ++ [?T]) ?x1] =>
    assert (stable w (set_tasks (tasks x1 ++ [T]) x1)) as H1
      by (apply st_snoc_task; eapply stable_same; [reflexivity|reflexivity|exact Hx])
  end.
  destruct (limit_le_zero _); injection H as _ <-.
  - apply st_end. exact H1.
  - apply st_forEach; [intros; apply st_incrementTasks; assumption|exact H1].
Qed.

(** No operation touches a recorded rejection. *)
Lemma st_apply_op o w : stable w (apply_op o w).
Proof.
  pose proof (stable_refl w) as Hw.
  destruct o as [pool cl fl fw|pool gg params|t|t|t|t|t v|t now|i|]; simpl.
  - unfold addGroup. destruct (new_group _ _ _ _) as [G|]; [|assumption].
    eapply stable_same; [reflexivity|reflexivity|exact Hw].
  - destruct (new_task pool gg params w) as [[t w']|] eqn:E; [|assumption].
    eapply st_new_task; eauto.
  - destruct (promise t w) as [[r w']|] eqn:E; [|assumption].
    eapply st_promise; eauto.
  - apply st_pause, Hw.
  - apply st_resume, Hw.
  - apply st_end, Hw.
  - destruct (set_limit t v w) as [w'|] eqn:E; [|assumption].
    eapply st_set_limit; eauto.
  - apply st_schedule, Hw.
  - apply st_complete, Hw.
  - apply st_tick, Hw.
Qed.

Lemma st_run_ops os : forall w, stable w (run_ops os w).
Proof.
  unfold run_ops. induction os as [|o os IH]; intros w; simpl; [apply stable_refl|].
  eapply stable_trans; [apply st_apply_op|apply IH].
Qed.


Lemma claimed_stable w w' t e : stable w w' -> claimed w t e -> claimed w' t e.
Proof.
  intros (HT & HE) (T & r & E & H1 & H2 & H3 & H4 & H5).
  destruct (HT _ _ H1) as (T' & H1' & (H2' & _)).
  destruct (HE _ _ H3) as (E' & H3' & H4' & H5').
  exists T', r, E'. repeat split; auto. congruence.
Qed.

(** *** The claims about failures *)



(** C6.  When a task has a recorded rejection, [promise()] returns a
    promise rejected with the recorded error and marks the rejection as
    handled; from then on, whatever happens in between, the deferred check
    of that rejection reports nothing when it runs. *)
Theorem C6_promise_claims_rejection t e w :
  recorded w t e ->
  exists w',
    promise t w = Some (PRejected e, w')
    /\ claimed w' t e
    /\ (forall os, check_due (run_ops os w') t ->
          unobserved (tick (run_ops os w')) = unobserved (run_ops os w')).
Proof.
  intros (T & r & E & HT & Hr & HE & He).
  exists (with_error r (fun E => mkTaskError (error E) true) w).
  assert (claimed (with_error r (fun E => mkTaskError (error E) true) w) t e) as Hc.
  { exists T, r, (mkTaskError (error E) true). unfold with_error. simpl.
    rewrite list_lookup_alter_eq, HE. repeat split; assumption. }
  split; [|split].
  - unfold promise. rewrite HT, Hr, HE, He. reflexivity.
  - exact Hc.
  - intros os (T1 & r1 & rest & HT1 & Hr1 & Hn).
    destruct (claimed_stable _ _ t e (st_run_ops os _) Hc)
      as (T2 & r2 & E2 & HT2 & Hr2 & HE2 & _ & Hh2).
    assert (r1 = r2) as -> by congruence.
    unfold tick. rewrite Hn. simpl. rewrite HE2, Hh2. reflexivity.
Qed.

Lemma C6_witness :
  exists w',
    promise 0 failed_world = Some (PRejected (VNum (Fin 0)), w')
    /\ claimed w' 0 (VNum (Fin 0)).
Proof.
  assert (recorded failed_world 0 (VNum (Fin 0))) as Hrec.
  { eexists _, _, _. vm_compute. repeat split. }
  destruct (C6_promise_claims_rejection 0 (VNum (Fin 0)) failed_world Hrec)
    as (w' & Hp & Hc & _).
  exists w'. split; assumption.
Defined.

(** Without [promise()], the deferred check of [failed_world] does report
    the error: the check is armed and the error is not handled. *)
Example failed_world_reports :
  check_due failed_world 0
  /\ unobserved (tick failed_world) = unobserved failed_world ++ [VNum (Fin 0)].
Proof. split; [eexists _, _, _|]; vm_compute; repeat split. Qed.

(** *** Three levels of [end], [_resolve], [_reject] are enough *)

Lemma tasks_decrementTasks g w : tasks (_decrementTasks g w) = tasks w.
Proof.
  unfold _decrementTasks. destruct (groups w !! g) as [G|]; [|reflexivity].
  destruct (_ <=? 0); reflexivity.
Qed.

Lemma tasks_forEach gs (f : nat -> world -> world) w :
  (forall g x, tasks (f g x) = tasks x) -> tasks (forEach_group gs f w) = tasks w.
Proof.
  intros Hf. unfold forEach_group. revert w.
  induction gs as [|g gs IH]; intros w; simpl; [reflexivity|].
  rewrite IH. apply Hf.
Qed.

(** [end()] on a terminated task does nothing. *)
Lemma end_f_terminated depth t w T :
  tasks w !! t = Some T -> _state T = Terminated -> end_f depth t w = w.
Proof.
  intros HT Hs. destruct depth as [|depth]; [reflexivity|].
  cbn [end_f]. rewrite HT. destruct (groups w !! _taskGroup T); [|reflexivity].
  rewrite Hs. reflexivity.
Qed.

(** [_resolve()] on a task with a recorded rejection does nothing. *)
Lemma resolve_f_rejected depth t w T r :
  tasks w !! t = Some T -> _rejection T = Some r -> resolve_f depth t w = w.
Proof.
  intros HT Hr. destruct depth as [|depth]; [reflexivity|].
  cbn [resolve_f]. rewrite HT, Hr. reflexivity.
Qed.

Lemma reject_f_terminated depth t e w T :
  tasks w !! t = Some T -> _state T = Terminated ->
  reject_f (S depth) t e w = reject_f 1 t e w.
Proof.
  intros HT Hs. cbn [reject_f]. rewrite HT.
  destruct (_rejection T); [reflexivity|].
  rewrite (end_f_terminated depth t _ (set_rejection (Some (length (errors w))) T));
    [reflexivity| |exact Hs].
  unfold with_task. simpl. rewrite list_lookup_alter_eq, HT. reflexivity.
Qed.

Lemma resolve_f_depth depth t w : resolve_f (S (S depth)) t w = resolve_f 2 t w.
Proof.
  cbn [resolve_f]. destruct (tasks w !! t) as [T|] eqn:HT; [|reflexivity].
  destruct (_rejection T); [reflexivity|].
  destruct (_result T) as [a|]; [|reflexivity].
  destruct (_resultConverter T) as [conv|]; [|reflexivity].
  destruct (conv _) as [e|r]; [|reflexivity].
  apply (reject_f_terminated depth t e _
           (set_state Terminated (set_result (Some (arr_set_length (_invocations T) a)) T))).
  - unfold with_task. simpl. rewrite list_lookup_alter_eq, HT. reflexivity.
  - reflexivity.
Qed.

Lemma end_f_depth depth t w : end_f (S (S (S depth))) t w = end_f 3 t w.
Proof.
  cbn [end_f]. destruct (tasks w !! t) as [T|]; [|reflexivity].
  destruct (groups w !! _taskGroup T) as [TG|]; [|reflexivity].
  destruct (_ && _); [|reflexivity].
  apply resolve_f_depth.
Qed.

Lemma end_f_rejected depth t w T r :
  tasks w !! t = Some T -> _rejection T = Some r ->
  end_f (S (S depth)) t w = end_f 2 t w.
Proof.
  intros HT Hr. cbn [end_f]. rewrite HT.
  destruct (groups w !! _taskGroup T) as [TG|]; [|reflexivity].
  destruct (_ && _); [|reflexivity].
  assert (forall x, tasks x = tasks (with_task t (set_state Terminated) w) ->
            resolve_f (S depth) t x = resolve_f 1 t x) as H.
  { intros x Hx.
    assert (tasks x !! t = Some (set_state Terminated T)) as HT'
      by (rewrite Hx; unfold with_task; simpl; rewrite list_lookup_alter_eq, HT; reflexivity).
    rewrite (resolve_f_rejected (S depth) t x _ r HT' Hr).
    rewrite (resolve_f_rejected 1 t x _ r HT' Hr). reflexivity. }
  apply H. destruct (0 <? _activeTaskCount TG); [|reflexivity].
  simpl. apply tasks_forEach. intros; apply tasks_decrementTasks.
Qed.

Lemma reject_f_depth depth t e w : reject_f (S (S (S depth))) t e w = reject_f 3 t e w.
Proof.
  cbn [reject_f]. destruct (tasks w !! t) as [T|] eqn:HT; [|reflexivity].
  destruct (_rejection T); [reflexivity|].
  f_equal.
  apply (end_f_rejected depth t _ (set_rejection (Some (length (errors w))) T)
           (length (errors w))); [|reflexivity].
  unfold with_task. simpl. rewrite list_lookup_alter_eq, HT. reflexivity.
Qed.

(** *** The claims about limits and timestamps *)

Lemma starts_ok_run_ops os : forall w, starts_ok w -> starts_ok (run_ops os w).
Proof.
  unfold run_ops. induction os as [|o os IH]; intros w Hw; simpl; [assumption|].
  apply IH, starts_ok_apply_op, Hw.
Qed.

Lemma starts_ok_pool_world : starts_ok pool_world.
Proof.
  intros g G HG _. destruct g as [|g]; simpl in HG; [|discriminate].
  injection HG as <-. reflexivity.
Qed.

(** C9.  A group whose frequency limit is not set has an empty list of
    frequency starts in every state the operations lead to: [_run] records
    a start only in the groups that have a frequency limit, and nothing else
    adds to the list. *)
Theorem C9_no_frequency_limit_no_starts :
  (forall now G, truthy (_frequencyLimit G) = false ->
     _frequencyStarts (start_group now G) = _frequencyStarts G)
  /\ (forall os w g G,
        starts_ok w -> groups (run_ops os w) !! g = Some G ->
        truthy (_frequencyLimit G) = false -> _frequencyStarts G = []).
Proof.
  split.
  - intros now G H. unfold start_group. simpl. rewrite H. reflexivity.
  - intros os w g G Hw. apply (starts_ok_run_ops os w Hw).
Qed.

Lemma C9_witness :
  starts_ok pool_world
  /\ groups (run_ops busy_ops pool_world) !! 0%nat
     = Some (mkGroup 0 PInf VUndefined 0 2 1 [] [] None)
  /\ _frequencyStarts (mkGroup 0 PInf VUndefined 0 2 1 [] [] None) = [].
Proof.
  assert (groups (run_ops busy_ops pool_world) !! 0%nat
          = Some (mkGroup 0 PInf VUndefined 0 2 1 [] [] None))
    as HG by (vm_compute; reflexivity).
  split; [exact starts_ok_pool_world|]. split; [exact HG|].
  exact (proj2 C9_no_frequency_limit_no_starts busy_ops pool_world 0%nat
           (mkGroup 0 PInf VUndefined 0 2 1 [] [] None)
           starts_ok_pool_world HG eq_refl).
Defined.

(** [end()] leaves the task exhausted or terminated. *)
Lemma end_exhausts t w T :
  tasks w !! t = Some T -> is_Some (groups w !! _taskGroup T) ->
  exists T', tasks (end_ t w) !! t = Some T' /\ state_ge (_state T') Exhausted = true.
Proof.
  intros HT [TG HTG]. unfold end_. cbn [end_f]. rewrite HT, HTG.
  destruct (state_lt (_state T) Terminated && _).
  - match goal with |- context [resolve_f 2 t ?w2] =>
      assert (stable (with_task t (set_state Terminated) w) (resolve_f 2 t w2)) as Hst
    end.
    { apply (st_end_resolve_reject 2).
      destruct (0 <? _activeTaskCount TG); [|apply stable_refl].
      apply st_detachCallback, st_forEach;
        [intros; apply st_decrementTasks; assumption|apply stable_refl]. }
    destruct Hst as (Hst & _).
    destruct (Hst t (set_state Terminated T)) as (T' & HT' & _ & Hge & _).
    { unfold with_task. simpl. rewrite list_lookup_alter_eq, HT. reflexivity. }
    exists T'. split; [exact HT'|]. apply Hge. reflexivity.
  - destruct (state_lt (_state T) Exhausted) eqn:Hlt.
    + exists (set_state Exhausted T). split; [|reflexivity].
      unfold with_task. simpl. rewrite list_lookup_alter_eq, HT. reflexivity.
    + exists T. split; [exact HT|].
      unfold state_lt in Hlt. unfold state_ge. simpl in *.
      apply Z.leb_le. apply Z.ltb_ge in Hlt. exact Hlt.
Qed.

(** An exhausted or terminated task is busy for the scheduler. *)
Lemma busy_when_exhausted now t w T :
  tasks w !! t = Some T -> state_ge (_state T) Exhausted = true ->
  fst (_busyTime now t w) = BusyBool true.
Proof.
  intros HT Hge. unfold _busyTime. rewrite HT.
  case_bool_decide as Ha; [|reflexivity]. rewrite Ha in Hge. discriminate.
Qed.

(** The setter of the limit stores [Infinity] for [null] and [undefined]
    and every number that is not negative, ending the task when the
    invocations made have reached the new limit; it throws for anything
    else. *)
Lemma set_limit_stores t n w T :
  tasks w !! t = Some T -> num_ge n (Fin 0) = true ->
  set_limit t (VNum n) w
  = Some (triggerCallback
            (if num_ge (Fin (Z.of_nat (_invocations T))) n
             then end_ t (with_task t (set_invocationLimit n) w)
             else with_task t (set_invocationLimit n) w)).
Proof.
  intros HT Hn. unfold set_limit. rewrite HT. simpl isNull. cbv iota. rewrite Hn.
  rewrite bool_decide_false by (intros ->; discriminate Hn). reflexivity.
Qed.

Lemma set_limit_null t v w T :
  tasks w !! t = Some T -> isNull v = true ->
  set_limit t v w = Some (triggerCallback (with_task t (set_invocationLimit PInf) w)).
Proof. intros HT Hv. unfold set_limit. rewrite HT, Hv. reflexivity. Qed.

Lemma set_limit_throws t v w :
  isNull v = false -> (forall n, v = VNum n -> num_ge n (Fin 0) = false) ->
  set_limit t v w = None.
Proof.
  intros Hv Hn. unfold set_limit. destruct (tasks w !! t) as [T|]; [|reflexivity].
  rewrite Hv. destruct v as [| | |n| | |]; try reflexivity.
  rewrite (Hn n eq_refl), andb_false_r. reflexivity.
Qed.

(** C5, as the code has it.  No check of [task.ts] asks a limit to be a
    whole number, and the guard of [_run] lets an invocation start while
    [invocations >= invocationLimit] is false: what holds of a task
    constructed with a limit that is absent or not negative is
    [invocations - 1 < invocationLimit] ([limit_ok]), kept by every
    operation except the setter of the limit when it is given a value a
    whole step below the invocations made; for a limit that is a whole
    number or [Infinity] this is [invocations <= invocationLimit].  The
    setter stores [Infinity] for [null] and [undefined] and every number
    that is not negative, and throws for anything else; given a value
    [<= invocations] it calls [end()]: the stored limit is that value, the
    invocations stay, the task is exhausted or terminated and the scheduler
    never finds it ready again. *)
Theorem C5_invocations_within_limit :
  (forall o w, limit_ok w -> respects_limit o w -> limit_ok (apply_op o w))
  /\ (forall w t T,
        limit_ok w -> tasks w !! t = Some T -> whole (_invocationLimit T) = true ->
        num_le (Fin (Z.of_nat (_invocations T))) (_invocationLimit T) = true)
  /\ (forall t n w T,
        tasks w !! t = Some T -> num_ge n (Fin 0) = true ->
        exists w' T',
          set_limit t (VNum n) w = Some w'
          /\ tasks w' !! t = Some T' /\ _invocationLimit T' = n
          /\ _invocations T' = _invocations T
          /\ (num_le n (Fin (Z.of_nat (_invocations T))) = false ->
              w' = triggerCallback (with_task t (set_invocationLimit n) w)
              /\ _state T' = _state T)
          /\ (num_le n (Fin (Z.of_nat (_invocations T))) = true ->
              w' = triggerCallback (end_ t (with_task t (set_invocationLimit n) w))
              /\ (is_Some (groups w !! _taskGroup T) ->
                  state_ge (_state T') Exhausted = true
                  /\ forall os now, fst (_busyTime now t (run_ops os w')) = BusyBool true)))
  /\ (forall t v w T,
        tasks w !! t = Some T -> isNull v = true ->
        set_limit t v w = Some (triggerCallback (with_task t (set_invocationLimit PInf) w)))
  /\ (forall t v w,
        isNull v = false -> (forall n, v = VNum n -> num_ge n (Fin 0) = false) ->
        set_limit t v w = None).
Proof.
  split; [intros o w Hw Hr; apply limit_ok_apply_op; assumption|].
  split; [intros w t T Hw HT Hwh; apply near_whole; [exact Hwh|apply (Hw t T HT)]|].
  split; [|split; [apply set_limit_null|apply set_limit_throws]].
  intros t n w T HT Hn. rewrite (set_limit_stores t n w T HT Hn).
  set (w1 := with_task t (set_invocationLimit n) w).
  assert (tasks w1 !! t = Some (set_invocationLimit n T)) as HT1
    by (unfold w1, with_task; simpl; rewrite list_lookup_alter_eq, HT; reflexivity).
  unfold num_ge at 1. destruct (num_le n (Fin (Z.of_nat (_invocations T)))) eqn:Hle.
  - assert (exists T', tasks (end_ t w1) !! t = Some T') as (T' & HT').
    { destruct (st_end w1 w1 t (stable_refl w1)) as (Hst & _).
      destruct (Hst t _ HT1) as (T' & HT' & _). eauto. }
    assert (_invocationLimit T' = n /\ _invocations T' = _invocations T) as (Hl & Hi).
    { destruct (core_tasks_lookup _ _ _ _ (core_end t w1) HT') as (T0 & HT0 & Heq).
      assert (T0 = set_invocationLimit n T) as -> by congruence.
      unfold task_core in Heq. simpl in Heq. split; congruence. }
    exists (triggerCallback (end_ t w1)), T'.
    split; [reflexivity|]. split; [exact HT'|]. split; [exact Hl|]. split; [exact Hi|].
    split; [discriminate|]. intros _. split; [reflexivity|]. intros HTG.
    destruct (end_exhausts t w1 _ HT1 HTG) as (T2 & HT2 & Hge).
    assert (T2 = T') as -> by congruence.
    split; [exact Hge|]. intros os now.
    destruct (st_run_ops os (triggerCallback (end_ t w1))) as (Hst & _).
    destruct (Hst t T' HT') as (T'' & HT'' & _ & Hge'' & _).
    eapply busy_when_exhausted; eauto.
  - exists (triggerCallback w1), (set_invocationLimit n T).
    split; [reflexivity|]. split; [exact HT1|]. split; [reflexivity|].
    split; [reflexivity|]. split; [intros _; split; reflexivity|discriminate].
Qed.

Lemma C5_witness :
  exists T', tasks (apply_op (OpSetLimit 0 (VNum (Fin 2))) busy_world) !! 0%nat = Some T'
             /\ _invocationLimit T' = Fin 2
             /\ state_ge (_state T') Exhausted = true.
Proof.
  assert (tasks busy_world !! 0%nat
          = Some (mkTask [0; 1]%nat counting_generator 1 2 (Fin 3) (Some []) None Active
                    None [] 0 None)) as HT by (vm_compute; reflexivity).
  assert (is_Some (groups busy_world !! 1%nat)) as HG by (vm_compute; eauto).
  destruct (proj1 (proj2 (proj2 C5_invocations_within_limit)) 0%nat (Fin 2) busy_world _
              HT eq_refl) as (w' & T' & Hset & HT' & Hl & _ & _ & Hend).
  destruct (Hend eq_refl) as (_ & Hex). destruct (Hex HG) as (Hs & _).
  exists T'. split; [|split; [exact Hl|exact Hs]].
  unfold apply_op. rewrite Hset. exact HT'.
Defined.

(** A task with the invocation limit [0.5]. *)
Example half_limit_task :
  tasks (run_ops [OpNew 0 0 (plain_params counting_generator (VNum (Frac 0 xH)));
                  OpSchedule 0 5] pool_world) !! 0%nat
  = Some (mkTask [0; 1]%nat counting_generator 1 1 (Frac 0 xH) (Some []) None Exhausted
            None [] 0 None).
Proof. vm_compute. reflexivity. Qed.

(** The claim as it is stated fails in two ways.  When the limit is lowered
    below the invocations made: two invocations, then [invocationLimit =
    1].  And when the limit is not a whole number: a task constructed with
    [invocationLimit: 0.5] is invoked once. *)
Lemma C5_counterexample :
  (limit_le busy_world
   /\ ~ limit_le (apply_op (OpSetLimit 0 (VNum (Fin 1))) busy_world))
  /\ (limit_le (apply_op (OpNew 0 0 (plain_params counting_generator (VNum (Frac 0 xH))))
                 pool_world)
      /\ ~ limit_le (run_ops [OpNew 0 0 (plain_params counting_generator
                                           (VNum (Frac 0 xH)));
                              OpSchedule 0 5] pool_world)).
Proof.
  split; split.
  - intros t T HT. destruct t as [|t]; vm_compute in HT; [|discriminate].
    injection HT as <-. reflexivity.
  - intros H.
    assert (tasks (apply_op (OpSetLimit 0 (VNum (Fin 1))) busy_world) !! 0%nat
            = Some (mkTask [0; 1]%nat counting_generator 1 2 (Fin 1) (Some []) None
                      Exhausted None [] 0 None)) as HT by (vm_compute; reflexivity).
    specialize (H 0%nat _ HT). discriminate.
  - intros t T HT. destruct t as [|t]; vm_compute in HT; [|discriminate].
    injection HT as <-. reflexivity.
  - intros H. specialize (H 0%nat _ half_limit_task). discriminate.
Qed.

(** *** Results out of order, and a task ended from its generator *)

(** Three invocations that complete in the order 1, 2, 0: the results are
    in the order of the invocations. *)
Example results_in_invocation_order :
  let w := run_ops [OpNew 0 0 (plain_params counting_generator (VNum (Fin 3)));
                    OpPromise 0;
                    OpSchedule 0 5; OpSchedule 0 5; OpSchedule 0 6;
                    OpComplete 1; OpComplete 1; OpComplete 0] pool_world in
  settled w = [(0%nat, Resolved (Some (RArray [Some (VNum (Fin 0)); Some (VNum (Fin 1));
                                                Some (VNum (Fin 2))])))].
Proof. vm_compute. reflexivity. Qed.

(** C2 at the input of the test "End Task / From Generator With Promise".
    The generator calls [this.end()] and returns [Promise.resolve(1)].  No
    promise is active when [end()] runs, so the task is terminated and its
    waiter resolved with the empty array on the spot; the invocation is
    counted afterwards, and when it completes the handler finds
    [this._result] to be [null].  The task has terminated without a
    rejection, with one invocation and a result of length zero.  (For the
    generators that do not end their task from inside,
    [results_of_calm_tasks] below shows what the claim says.) *)
Theorem C2_end_inside_generator :
  let w := run_ops [OpNew 0 0 (plain_params ending_generator VUndefined);
                    OpPromise 0; OpSchedule 0 5; OpComplete 0] pool_world in
  exists T,
    tasks w !! 0%nat = Some T
    /\ _state T = Terminated /\ _rejection T = None
    /\ _invocations T = 1%nat
    /\ _returnResult T = Some (RArray [])
    /\ settled w = [(0%nat, Resolved (Some (RArray [])))]
    /\ unobserved w = [VErr "TypeError"].
Proof. vm_compute. eexists. repeat split. Qed.

(** *** A task constructed with [invocationLimit: 0] *)

Lemma lookup_with_task t F w : tasks (with_task t F w) !! t = F <$> tasks w !! t.
Proof. unfold with_task. simpl. apply list_lookup_alter_eq. Qed.

Lemma new_group_idle pool cl fl fw G :
  new_group pool cl fl fw = Some G -> _activePromiseCount G = 0 /\ _activeTaskCount G = 0.
Proof.
  unfold new_group. destruct (_ || _); [discriminate|].
  intros [= <-]. split; reflexivity.
Qed.

(** The constructor of [task.ts] ends a task whose limit is [0] before it
    returns: the task is terminated with the empty array as its result
    (converted, if a converter is given), and [promise()] resolves on the
    spot. *)
Lemma zero_limit_task_resolves_empty pool gg params w t w' :
  invocationLimit params = VNum (Fin 0) ->
  new_task pool gg params w = Some (t, w') ->
  match resultConverter params with
  | None => promise t w' = Some (PResolved (Some (RArray [])), w')
  | Some conv =>
      forall r, conv [] = ConvReturns r -> promise t w' = Some (PResolved (Some r), w')
  end.
Proof.
  intros Hl. unfold new_task. rewrite Hl. simpl isNull. cbv iota.
  destruct (new_group _ _ _ _) as [TG|] eqn:ETG; [|discriminate].
  destruct (new_group_idle _ _ _ _ _ ETG) as (Hapc & Hatc).
  destruct (_ && _); [|discriminate].
  simpl limit_le_zero. cbv iota. intros H. injection H as <- <-.
  set (T := mkTask _ _ _ _ _ _ _ _ _ _ _ _).
  set (w2 := set_tasks _ _).
  assert (tasks w2 !! length (tasks w) = Some T) as HT.
  { unfold w2. simpl. rewrite lookup_app_r by lia. rewrite Nat.sub_diag. reflexivity. }
  assert (groups w2 !! length (groups w) = Some TG) as HG.
  { unfold w2. simpl. rewrite lookup_app_r by lia. rewrite Nat.sub_diag. reflexivity. }
  assert (state_lt (_state T) Terminated = true) as Hst
    by (unfold T; simpl; destruct (paused params); reflexivity).
  unfold end_. cbn [end_f]. rewrite HT. change (_taskGroup T) with (length (groups w)).
  rewrite HG, Hst, Hapc, Hatc.
  change (0 <=? 0) with true. change (0 <? 0) with false. simpl andb. cbv iota.
  cbn [resolve_f]. rewrite lookup_with_task, HT. simpl.
  destruct (resultConverter params) as [conv|] eqn:EC.
  - intros r Hr. change (arr_set_length 0 []) with (@nil (option jsval)). rewrite Hr.
    unfold promise. rewrite !lookup_with_task, HT. reflexivity.
  - unfold promise. rewrite !lookup_with_task, HT. reflexivity.
Qed.

(** *** The results of a task, when its generator does not end it *)

(** Reading and writing a JavaScript array. *)
Lemma arr_get_set_eq i v a : arr_get i (arr_set i v a) = v.
Proof.
  unfold arr_set. destruct (i <? length a)%nat eqn:E; unfold arr_get, array in *.
  - apply Nat.ltb_lt in E. rewrite list_lookup_insert_eq by assumption. reflexivity.
  - apply Nat.ltb_ge in E. rewrite lookup_app_r by assumption.
    rewrite lookup_app_r by (rewrite length_replicate; lia).
    rewrite length_replicate, Nat.sub_diag. reflexivity.
Qed.

Lemma arr_get_set_ne i j v a : i <> j -> arr_get j (arr_set i v a) = arr_get j a.
Proof.
  intros Hne. unfold arr_set. destruct (i <? length a)%nat eqn:E; unfold arr_get, array in *.
  - rewrite list_lookup_insert_ne by assumption. reflexivity.
  - apply Nat.ltb_ge in E. destruct (decide (j < length a)%nat) as [Hj|Hj].
    + rewrite lookup_app_l by assumption. reflexivity.
    + rewrite (lookup_ge_None_2 a j) by lia.
      rewrite lookup_app_r by lia.
      destruct (decide (j - length a < i - length a)%nat) as [Hk|Hk].
      * rewrite lookup_app_l by (rewrite length_replicate; lia).
        rewrite lookup_replicate_2 by lia. reflexivity.
      * rewrite lookup_app_r by (rewrite length_replicate; lia).
        rewrite length_replicate.
        destruct (j - length a - (i - length a))%nat eqn:Ed; [lia|]. reflexivity.
Qed.

Lemma length_arr_set_length n a : length (arr_set_length n a) = n.
Proof.
  unfold arr_set_length, array in *. rewrite length_app, length_take, length_replicate. lia.
Qed.

Lemma arr_get_set_length n a j : (j < n)%nat -> arr_get j (arr_set_length n a) = arr_get j a.
Proof.
  intros Hj. unfold arr_get, arr_set_length, array in *.
  destruct (decide (j < length a)%nat) as [Hl|Hl].
  - rewrite lookup_app_l by (rewrite length_take; lia).
    rewrite lookup_take_lt by assumption. reflexivity.
  - rewrite (lookup_ge_None_2 a j) by lia.
    rewrite lookup_app_r by (rewrite length_take; lia).
    rewrite length_take. rewrite lookup_replicate_2 by lia. reflexivity.
Qed.


Lemma same_results_refl T : same_results T T.
Proof. repeat split; auto. Qed.

Lemma task_results_same fl t T T' :
  same_results T T' -> task_results_ok fl t T -> task_results_ok fl t T'.
Proof.
  intros (Hg & Hi & Hr & Hrr & Hc & Hs).
  destruct T, T'. simpl in *. subst.
  unfold task_results_ok, stored, produced. simpl.
  intros (A & B). split; [exact A|].
  destruct _result0 as [a|].
  - destruct B as (B0 & B1 & B2). split; [|split]; auto. rewrite Hs. exact B0.
  - destruct B as (B0 & B1 & B2). split; [|split]; auto. apply Hs, B0.
Qed.

Lemma task_results_fl fl fl' t T :
  (forall p, p_task p = t -> (p ∈ fl' <-> p ∈ fl)) ->
  task_results_ok fl t T -> task_results_ok fl' t T.
Proof.
  intros Hfl (A & B). split.
  - intros p Hp Ht. apply A; [|exact Ht]. apply Hfl; assumption.
  - destruct (_result T) as [a|].
    + destruct B as (B0 & B1 & B2). split; [exact B0|]. split; [exact B1|].
      intros j Hj. destruct (B2 j Hj) as [(p & Hp & Ht & Hi)|Hs]; [left|right; exact Hs].
      exists p. split; [apply Hfl; assumption|]. auto.
    + destruct B as (B0 & B1 & B2). split; [exact B0|]. split; [|exact B2].
      intros p Hp Ht. apply (B1 p); [|exact Ht]. apply Hfl; assumption.
Qed.

Lemma others_kept_refl t w : others_kept t w w.
Proof. split; [|split]; intros; eauto. Qed.

Lemma others_kept_trans t w1 w2 w3 :
  others_kept t w1 w2 -> others_kept t w2 w3 -> others_kept t w1 w3.
Proof.
  intros (A1 & B1 & G1) (A2 & B2 & G2). split; [|split].
  - intros p Hp. rewrite (A2 p Hp). apply A1, Hp.
  - intros t' Ht'. rewrite (B2 t' Ht'). apply B1, Ht'.
  - intros T1 E1. destruct (G1 T1 E1) as (T2 & E2 & H12).
    destruct (G2 T2 E2) as (T3 & E3 & H23). exists T3. split; [exact E3|congruence].
Qed.

Lemma others_kept_same t w w' :
  tasks w' = tasks w -> inflights w' = inflights w -> others_kept t w w'.
Proof.
  intros Ht Hi. split; [|split]; intros; rewrite ?Ht, ?Hi; eauto.
Qed.

Lemma ok_with_task w x t F :
  (forall T, _generator (F T) = _generator T) ->
  others_kept t w x -> others_kept t w (with_task t F x).
Proof.
  intros HF Hx. eapply others_kept_trans; [exact Hx|]. split; [reflexivity|]. split.
  - intros t' Ht'. unfold with_task. simpl. apply list_lookup_alter_ne. congruence.
  - intros T ET. rewrite lookup_with_task, ET. simpl. eauto.
Qed.

Lemma ok_same w x y t :
  tasks y = tasks x -> inflights y = inflights x -> others_kept t w x -> others_kept t w y.
Proof.
  intros Ht Hi Hx. eapply others_kept_trans; [exact Hx|]. apply others_kept_same; assumption.
Qed.

(** What the other tasks had before, they have after; task [t] is checked
    on its own. *)
Lemma results_ok_others t w w' :
  others_kept t w w' -> results_ok w ->
  (forall T', tasks w' !! t = Some T' -> calm_task T' -> _rejection T' = None ->
     task_results_ok (inflights w') t T') ->
  results_ok w'.
Proof.
  intros (A & B & _) Hw Ht t' T' HT' Hcalm Hrej.
  destruct (decide (t' = t)) as [->|Hne]; [apply Ht; assumption|].
  rewrite (B t' Hne) in HT'.
  eapply task_results_fl; [|apply (Hw t' T' HT' Hcalm Hrej)].
  intros p Hp. apply A. congruence.
Qed.

Lemma results_ok_same w w' :
  tasks w' = tasks w -> inflights w' = inflights w -> results_ok w -> results_ok w'.
Proof.
  intros Ht Hi Hw t T HT. rewrite Hi. rewrite Ht in HT. apply Hw, HT.
Qed.

Lemma results_ok_with_task t F w :
  (forall T, tasks w !! t = Some T -> _rejection (F T) = None ->
     _rejection T = None /\ same_results T (F T)) ->
  results_ok w -> results_ok (with_task t F w).
Proof.
  intros HF Hw t' T'. unfold with_task. simpl.
  destruct (decide (t = t')) as [->|Hne].
  - rewrite list_lookup_alter_eq.
    destruct (tasks w !! t') as [T|] eqn:ET; [|discriminate].
    intros [= <-] Hcalm Hrej. destruct (HF T eq_refl Hrej) as (Hrej0 & Hs).
    eapply task_results_same; [exact Hs|]. apply Hw; auto.
    intros i. destruct Hs as (Hg & _). rewrite <- Hg. apply Hcalm.
  - rewrite list_lookup_alter_ne by assumption. apply Hw.
Qed.

Lemma ok_with_error w x t r F : others_kept t w x -> others_kept t w (with_error r F x).
Proof. apply ok_same; reflexivity. Qed.
Lemma ok_with_group w x t g F : others_kept t w x -> others_kept t w (with_group g F x).
Proof. apply ok_same; reflexivity. Qed.
Lemma ok_settle_all w x t ps s : others_kept t w x -> others_kept t w (settle_all ps s x).
Proof. apply ok_same; reflexivity. Qed.
Lemma ok_drop_unobserved w x t e : others_kept t w x -> others_kept t w (drop_unobserved e x).
Proof. apply ok_same; reflexivity. Qed.
Lemma ok_triggerCallback w x t : others_kept t w x -> others_kept t w (triggerCallback x).
Proof. apply ok_same; reflexivity. Qed.
Lemma ok_detachCallback w x t t' : others_kept t w x -> others_kept t w (detachCallback t' x).
Proof. apply ok_same; reflexivity. Qed.
Lemma ok_set_nextTicks w x t l : others_kept t w x -> others_kept t w (set_nextTicks l x).
Proof. apply ok_same; reflexivity. Qed.
Lemma ok_set_errors w x t l : others_kept t w x -> others_kept t w (set_errors l x).
Proof. apply ok_same; reflexivity. Qed.
Lemma ok_set_fresh w x t n : others_kept t w x -> others_kept t w (set_fresh n x).
Proof. apply ok_same; reflexivity. Qed.

Lemma ok_forEach w x t gs (f : nat -> world -> world) :
  (forall g y, others_kept t w y -> others_kept t w (f g y)) ->
  others_kept t w x -> others_kept t w (forEach_group gs f x).
Proof.
  intros Hf. unfold forEach_group. revert x.
  induction gs as [|g gs IH]; intros x Hx; simpl; [assumption|].
  apply IH, Hf, Hx.
Qed.

Ltac ok_step :=
  first
    [ assumption
    | apply others_kept_refl
    | apply ok_with_task; [intros ?; try case_bool_decide; reflexivity|]
    | apply ok_with_error | apply ok_with_group
    | apply ok_settle_all | apply ok_drop_unobserved | apply ok_triggerCallback
    | apply ok_detachCallback | apply ok_set_nextTicks | apply ok_set_errors
    | apply ok_set_fresh ].

Ltac ok := repeat ok_step.

Lemma ok_decrementTasks w x t g : others_kept t w x -> others_kept t w (_decrementTasks g x).
Proof.
  intros Hx. unfold _decrementTasks. destruct (groups x !! g) as [G|]; [|assumption].
  destruct (_ <=? 0); ok.
Qed.

Lemma ok_incrementTasks w x t g : others_kept t w x -> others_kept t w (_incrementTasks g x).
Proof. intros Hx. unfold _incrementTasks. ok. Qed.

Lemma ok_group_reject w x t r g : others_kept t w x -> others_kept t w (group_reject r g x).
Proof.
  intros Hx. unfold group_reject.
  destruct (groups x !! g) as [G|]; [|assumption].
  destruct (errors x !! r) as [E|]; [|assumption].
  destruct (g_rejection G), (_idleWaiters G); ok.
Qed.

Lemma ok_reject_rest w x t e r : others_kept t w x -> others_kept t w (reject_rest t e r x).
Proof.
  intros Hx. unfold reject_rest. destruct (tasks x !! t) as [T2|]; [|assumption].
  match goal with |- others_kept t w (match errors ?w4 !! _ with _ => _ end) =>
    assert (others_kept t w w4) as H4;
    [|destruct (errors w4 !! r) as [E|]; [destruct (negb (handled E))|]; ok]
  end.
  apply ok_forEach; [intros; apply ok_group_reject; assumption|].
  destruct (_promises T2); ok.
Qed.

Lemma ok_end_resolve_reject depth :
  (forall w t x, others_kept t w x -> others_kept t w (end_f depth t x))
  /\ (forall w t x, others_kept t w x -> others_kept t w (resolve_f depth t x))
  /\ (forall w t e x, others_kept t w x -> others_kept t w (reject_f depth t e x)).
Proof.
  induction depth as [|depth (IHend & IHresolve & IHreject)];
    [split; [|split]; intros; assumption|].
  split; [|split].
  - intros w t x Hx. cbn [end_f].
    destruct (tasks x !! t) as [T|] eqn:ET; [|assumption].
    destruct (groups x !! _taskGroup T) as [TG|]; [|assumption].
    destruct (state_lt (_state T) Terminated && _).
    + apply IHresolve. destruct (0 <? _activeTaskCount TG); [|ok].
      apply ok_detachCallback, ok_forEach; [intros; apply ok_decrementTasks; assumption|ok].
    + destruct (state_lt (_state T) Exhausted) eqn:Hlt; [|assumption]. ok.
  - intros w t x Hx. cbn [resolve_f].
    destruct (tasks x !! t) as [T|]; [|assumption].
    destruct (_rejection T); [assumption|].
    destruct (_result T) as [a|]; [|assumption].
    destruct (_resultConverter T) as [conv|].
    + destruct (conv _); [apply IHreject; ok|destruct (_promises T); ok].
    + destruct (_promises T); ok.
  - intros w t e x Hx. cbn [reject_f].
    destruct (tasks x !! t) as [T|] eqn:ET; [|assumption].
    destruct (_rejection T) eqn:ER; [ok|].
    apply ok_reject_rest, IHend. ok.
Qed.

Lemma ok_end w x t : others_kept t w x -> others_kept t w (end_ t x).
Proof. apply (ok_end_resolve_reject 3). Qed.
Lemma ok_reject w x t e : others_kept t w x -> others_kept t w (_reject t e x).
Proof. apply (ok_end_resolve_reject 3). Qed.
Lemma ok_pause w x t : others_kept t w x -> others_kept t w (pause t x).
Proof. intros Hx. unfold pause. ok. Qed.

Lemma ok_run_script t s : forall w x,
  others_kept t w x -> others_kept t w (snd (run_script t s x)).
Proof.
  induction s as [o|k IH|k IH]; intros w x Hx; simpl.
  - assumption.
  - apply IH, ok_end, Hx.
  - apply IH, ok_pause, Hx.
Qed.

(** *** An idle task group means nothing in flight *)

Lemma sum_list_with_zero {A} (f : A -> nat) l :
  sum_list_with f l = 0%nat -> forall x, x ∈ l -> f x = 0%nat.
Proof.
  induction l as [|a l IH]; simpl; intros H x Hx.
  - apply elem_of_nil in Hx. contradiction.
  - apply elem_of_cons in Hx as [->|Hx]; [lia|]. apply IH; [lia|exact Hx].
Qed.

Lemma occurrences_listed g gs : g ∈ gs -> (0 < occurrences g gs)%nat.
Proof.
  unfold occurrences. induction gs as [|a gs IH]; intros H.
  - apply elem_of_nil in H. contradiction.
  - rewrite filter_cons. destruct (decide (a = g)) as [->|Hne]; simpl; [lia|].
    apply elem_of_cons in H as [->|H]; [congruence|]. apply IH, H.
Qed.

Lemma idle_no_inflight w t T TG :
  counts_ok w -> listed w ->
  tasks w !! t = Some T -> groups w !! _taskGroup T = Some TG ->
  _activePromiseCount TG <= 0 ->
  forall p, p ∈ inflights w -> p_task p <> t.
Proof.
  intros (C & _) Hl ET EG Hapc p Hp Ht.
  rewrite (C _ _ EG) in Hapc.
  assert (load (_taskGroup T) w = 0%nat) as H0 by lia.
  unfold load in H0. pose proof (sum_list_with_zero _ _ H0 p Hp) as Hw.
  unfold weight in Hw. rewrite Ht, ET in Hw.
  pose proof (occurrences_listed _ _ (Hl t T ET)). lia.
Qed.

Lemma rejected_after_reject_rest t e r x T :
  tasks x !! t = Some T -> _rejection T = Some r ->
  forall T', tasks (reject_rest t e r x) !! t = Some T' -> _rejection T' = Some r.
Proof.
  intros ET Er T' ET'.
  destruct (st_reject_rest x x t e r (stable_refl x)) as (Hs & _).
  destruct (Hs t T ET) as (T2 & ET2 & Hr & _).
  assert (T2 = T') as -> by congruence. apply Hr, Er.
Qed.

Lemma end_task_results t w T' :
  counts_ok w -> listed w -> results_ok w ->
  tasks (end_ t w) !! t = Some T' -> calm_task T' -> _rejection T' = None ->
  task_results_ok (inflights w) t T'.
Proof.
  intros Hc Hl Hr. unfold end_. cbn [end_f].
  destruct (tasks w !! t) as [T|] eqn:ET; [|rewrite ET; discriminate].
  destruct (groups w !! _taskGroup T) as [TG|] eqn:EG.
  2:{ rewrite ET. intros [= <-]. apply (Hr t T ET). }
  destruct (state_lt (_state T) Terminated && (_activePromiseCount TG <=? 0)) eqn:Hcond.
  - apply andb_prop in Hcond as (Hst & Hapc). apply Z.leb_le in Hapc.
    pose proof (idle_no_inflight w t T TG Hc Hl ET EG Hapc) as Hnone.
    set (w1 := with_task t (set_state Terminated) w).
    set (w2 := if 0 <? _activeTaskCount TG
               then detachCallback t (forEach_group (_groups T) _decrementTasks w1)
               else w1).
    assert (tasks w2 = tasks w1) as Ht2.
    { unfold w2. destruct (0 <? _); [|reflexivity]. simpl.
      apply tasks_forEach. intros; apply tasks_decrementTasks. }
    assert (tasks w2 !! t = Some (set_state Terminated T)) as ET2.
    { rewrite Ht2. unfold w1. rewrite lookup_with_task, ET. reflexivity. }
    cbn [resolve_f]. rewrite ET2. simpl _rejection. simpl _result.
    destruct (_rejection T) as [r|] eqn:Erej.
    { rewrite ET2. intros [= <-]. simpl. congruence. }
    destruct (_result T) as [a|] eqn:Eres.
    2:{ rewrite ET2. intros [= <-] Hcalm _.
        destruct (Hr t T ET Hcalm Erej) as (_ & B). rewrite Eres in B.
        destruct B as (Hterm & _). rewrite Hterm in Hst. discriminate. }
    simpl _invocations. simpl _promises. simpl _resultConverter.
    set (res := arr_set_length (_invocations T) a).
    set (w3 := with_task t (fun T => set_state Terminated (set_result (Some res) T)) w2).
    assert (forall r T', 
      tasks (match _promises T with
             | [] => with_task t (fun T => set_result None (set_returnResult (Some r) T)) w3
             | ps => with_task t (set_promises [])
                       (settle_all ps (Resolved (Some r))
                          (with_task t (fun T => set_result None
                                                   (set_returnResult (Some r) T)) w3))
             end) !! t = Some T' ->
      calm_task T' -> _rejection T' = None ->
      (_resultConverter T = None -> r = RArray res) ->
      task_results_ok (inflights w) t T') as Hfin.
    { intros r T0 HT0 Hcalm Hrej Hconv.
      assert (exists ps, T0 = set_promises ps (set_result None (set_returnResult (Some r)
                (set_state Terminated (set_result (Some res) (set_state Terminated T)))))) 
        as (ps & ->).
      { revert HT0. destruct (_promises T) as [|q qs] eqn:Ep; intros HT0;
          [exists []|exists []].
        - rewrite lookup_with_task in HT0. unfold w3 in HT0.
          rewrite lookup_with_task, ET2 in HT0. simpl in HT0. injection HT0 as <-.
          unfold set_promises, set_result, set_returnResult, set_state. simpl.
          rewrite Ep. reflexivity.
        - rewrite lookup_with_task in HT0.
          change (tasks (settle_all (q :: qs) (Resolved (Some r))
                    (with_task t (fun T => set_result None (set_returnResult (Some r) T))
                       w3)))
            with (tasks (with_task t (fun T => set_result None
                                                 (set_returnResult (Some r) T)) w3)) in HT0.
          rewrite lookup_with_task in HT0. unfold w3 in HT0.
          rewrite lookup_with_task, ET2 in HT0. simpl in HT0. injection HT0 as <-.
          reflexivity. }
      assert (calm_task T) as HcalmT by exact Hcalm.
      destruct (Hr t T ET HcalmT Erej) as (A & B). rewrite Eres in B.
      destruct B as (B0 & B1 & B2).
      split; [intros p Hp Ht; exfalso; exact (Hnone p Hp Ht)|].
      simpl. split; [reflexivity|]. split; [exact Hnone|].
      intros Hnoconv. exists res. rewrite (Hconv Hnoconv). split; [reflexivity|].
      split; [apply length_arr_set_length|].
      intros j Hj. unfold stored. unfold res. rewrite arr_get_set_length by exact Hj.
      destruct (B2 j Hj) as [(p & Hp & Ht & _)|Hs]; [exfalso; exact (Hnone p Hp Ht)|].
      exact Hs. }
    destruct (_resultConverter T) as [conv|] eqn:Econv.
    + destruct (conv res) as [e|r] eqn:Ec.
      * cbn [reject_f end_f].
        assert (tasks w3 !! t
                = Some (set_state Terminated (set_result (Some res)
                          (set_state Terminated T)))) as ET3
          by (unfold w3; rewrite lookup_with_task, ET2; reflexivity).
        rewrite ET3. simpl _rejection. rewrite Erej. intros HT' _ Hrej'. exfalso.
        match type of HT' with tasks (reject_rest t e ?r ?x) !! t = _ =>
          assert (_rejection T' = Some r) as Hsome
        end.
        { eapply rejected_after_reject_rest; [| |exact HT'].
          - rewrite lookup_with_task.
            change (tasks (set_errors ?l ?x)) with (tasks x).
            rewrite ET3. reflexivity.
          - reflexivity. }
        congruence.
      * intros HT' Hcalm Hrej. apply (Hfin r T' HT' Hcalm Hrej). discriminate.
    + intros HT' Hcalm Hrej. apply (Hfin (RArray res) T' HT' Hcalm Hrej). reflexivity.
  - destruct (state_lt (_state T) Exhausted) eqn:Hex.
    + rewrite lookup_with_task, ET. intros [= <-] Hcalm Hrej.
      apply (task_results_same _ _ T); [|apply Hr; assumption].
      repeat split; simpl; try discriminate.
      intros Hs. rewrite Hs in Hex. discriminate.
    + rewrite ET. intros [= <-]. apply Hr; assumption.
Qed.

Lemma results_ok_end t w :
  counts_ok w -> listed w -> results_ok w -> results_ok (end_ t w).
Proof.
  intros Hc Hl Hr. apply (results_ok_others t w); [apply ok_end, others_kept_refl|exact Hr|].
  intros T' HT' Hcalm Hrej.
  rewrite (proj1 (core_lengths _ _ (core_end t w))).
  eapply end_task_results; eauto.
Qed.

(** *** The groups of a task stay what the constructor made them *)

Section Shaped.
Variable P : list nat -> nat -> Prop.

Lemma shaped_ext w w' :
  (forall t T', tasks w' !! t = Some T' ->
     exists T, tasks w !! t = Some T /\ _groups T = _groups T'
               /\ _taskGroup T = _taskGroup T') ->
  shaped P w -> shaped P w'.
Proof.
  intros H Hw t T' HT'. destruct (H t T' HT') as (T & HT & Hg & Htg).
  rewrite <- Hg, <- Htg. exact (Hw t T HT).
Qed.

Lemma shaped_core w w' : core w' = core w -> shaped P w -> shaped P w'.
Proof.
  intros Hc. apply shaped_ext. intros t T' HT'.
  destruct (core_tasks_lookup _ _ _ _ Hc HT') as (T & HT & Heq).
  unfold task_core in Heq. injection Heq as Hg Htg _ _. eauto.
Qed.

Lemma shaped_same_tasks w w' : tasks w' = tasks w -> shaped P w -> shaped P w'.
Proof. intros Ht Hw t T. rewrite Ht. apply Hw. Qed.

Lemma shaped_with_task t F w :
  (forall T, _groups (F T) = _groups T /\ _taskGroup (F T) = _taskGroup T) ->
  shaped P w -> shaped P (with_task t F w).
Proof.
  intros HF. apply shaped_ext. intros t' T'. unfold with_task. simpl.
  destruct (decide (t = t')) as [->|Hne].
  - rewrite list_lookup_alter_eq. destruct (tasks w !! t') as [T|]; [|discriminate].
    intros [= <-]. exists T. destruct (HF T). auto.
  - rewrite list_lookup_alter_ne by assumption. eauto.
Qed.

Lemma shaped_end t x : shaped P x -> shaped P (end_ t x).
Proof. apply shaped_core, core_end. Qed.
Lemma shaped_reject t e x : shaped P x -> shaped P (_reject t e x).
Proof. apply shaped_core, core_reject. Qed.

Lemma shaped_run t now w : shaped P w -> shaped P (_run t now w).
Proof.
  intros Hw. unfold _run. destruct (tasks w !! t) as [T|] eqn:ET; [|assumption].
  destruct (num_ge _ _) eqn:Hguard; [apply shaped_end, Hw|].
  pose proof (core_run_script t (_generator T (_invocations T)) w) as Hs.
  destruct (run_script t _ w) as [[e|v] w1]; simpl in Hs.
  { apply shaped_reject. eapply shaped_core; eauto. }
  assert (shaped P w1) as Hw1 by (eapply shaped_core; eauto).
  destruct (falsy v).
  { destruct (tasks w1 !! t) as [T1|]; [|assumption].
    case_bool_decide; [|assumption]. apply shaped_end, Hw1. }
  assert (tasks (forEach_group (_groups T) (start_in_group now) w1) = tasks w1) as Ht2
    by apply (tasks_forEach_with_group (_groups T) (start_group now) w1).
  assert (shaped P (forEach_group (_groups T) (start_in_group now) w1)) as Hw2
    by (eapply shaped_same_tasks; eauto).
  destruct (tasks (forEach_group _ _ _) !! t) as [T2|] eqn:ET2; [|exact Hw2].
  assert (shaped P (with_task t (set_invocations (S (_invocations T2)))
            (forEach_group (_groups T) (start_in_group now) w1))) as Hw3
    by (apply shaped_with_task; [split; reflexivity|exact Hw2]).
  eapply shaped_same_tasks; [reflexivity|].
  destruct (num_ge (Fin (Z.of_nat (S _))) _); [apply shaped_end|]; exact Hw3.
Qed.

Lemma shaped_complete i w : shaped P w -> shaped P (complete i w).
Proof.
  intros Hw. unfold complete. destruct (inflights w !! i) as [p|]; [|assumption].
  destruct (p_fate p) as [v|e].
  - destruct (tasks _ !! p_task p) as [T|];
      [|eapply shaped_same_tasks; [reflexivity|exact Hw]].
    assert (shaped P (forEach_group (_groups T) finish_in_group
              (set_inflights (delete i (inflights w)) w))) as Hw2.
    { eapply shaped_same_tasks; [|exact Hw].
      apply (tasks_forEach_with_group (_groups T) finish_group
               (set_inflights (delete i (inflights w)) w)). }
    case_bool_decide.
    + eapply shaped_same_tasks; [reflexivity|].
      match goal with |- context [if ?c then _ else _] => destruct c end;
        [apply shaped_end|]; exact Hw2.
    + destruct (_result T) as [a|];
        [|eapply shaped_same_tasks; [reflexivity|exact Hw2]].
      eapply shaped_same_tasks; [reflexivity|].
      assert (shaped P (with_task (p_task p)
                (set_result (Some (arr_set (p_index p) v a)))
                (forEach_group (_groups T) finish_in_group
                   (set_inflights (delete i (inflights w)) w)))) as Hw3
        by (apply shaped_with_task; [split; reflexivity|exact Hw2]).
      match goal with |- context [if ?c then _ else _] => destruct c end;
        [apply shaped_end|]; exact Hw3.
  - eapply shaped_same_tasks; [reflexivity|]. apply shaped_reject, Hw.
Qed.

Lemma shaped_schedule t now w : shaped P w -> shaped P (schedule t now w).
Proof.
  intros Hw. unfold schedule.
  assert (shaped P (snd (_busyTime now t (_cleanFrequencyStarts now t w)))) as H2.
  { eapply shaped_same_tasks; [|exact Hw].
    rewrite tasks_busyTime. apply tasks_cleanFrequencyStarts. }
  destruct (_busyTime now t _) as [[[]|n] w2]; simpl in H2; try assumption.
  apply shaped_run, H2.
Qed.

Lemma shaped_set_limit t v w w' : set_limit t v w = Some w' -> shaped P w -> shaped P w'.
Proof.
  unfold set_limit. destruct (tasks w !! t) as [T|] eqn:ET; [|discriminate].
  destruct (isNull v).
  { intros H Hw. injection H as <-. eapply shaped_same_tasks; [reflexivity|].
    apply shaped_with_task; [split; reflexivity|exact Hw]. }
  destruct v as [| | |n| | |]; try discriminate.
  destruct (negb _ && _); [|discriminate].
  intros H Hw. injection H as <-. eapply shaped_same_tasks; [reflexivity|].
  assert (shaped P (with_task t (set_invocationLimit n) w)) as H1
    by (apply shaped_with_task; [split; reflexivity|exact Hw]).
  destruct (num_ge _ n); [apply shaped_end|]; exact H1.
Qed.

Lemma shaped_snoc_task T w :
  P (_groups T) (_taskGroup T) -> shaped P w -> shaped P (set_tasks (tasks w ++ [T]) w).
Proof.
  intros HT Hw t T' HT'. simpl in HT'.
  destruct (tasks w !! t) as [T0|] eqn:E.
  - rewrite lookup_app_l in HT' by (eapply lookup_lt_Some; eauto).
    apply (Hw t T'). congruence.
  - apply lookup_ge_None in E. rewrite lookup_app_r in HT' by assumption.
    destruct (t - length (tasks w))%nat; simpl in HT'; [|discriminate].
    injection HT' as <-. exact HT.
Qed.

Lemma shaped_new_task pool gg params w t w' :
  P ([gg; length (groups w)] ++ params_groups params) (length (groups w)) ->
  new_task pool gg params w = Some (t, w') -> shaped P w -> shaped P w'.
Proof.
  intros HP. unfold new_task.
  destruct (if isNull _ then _ else _) as [limit|] eqn:El; [|discriminate].
  destruct (new_group _ _ _ _) as [TG|] eqn:ETG; [|discriminate].
  destruct (_ && _); [|discriminate].
  intros H Hw.
  match type of H with context [set_tasks (_ ++ [?T]) ?w1] =>
    assert (shaped P (set_tasks (tasks w1 ++ [T]) w1)) as H1
      by (apply shaped_snoc_task; [exact HP|];
          eapply shaped_same_tasks; [reflexivity|exact Hw])
  end.
  destruct (limit_le_zero _); injection H as _ <-.
  - apply shaped_end. exact H1.
  - eapply shaped_core; [apply core_forEach; intros; apply core_incrementTasks|].
    exact H1.
Qed.

Lemma shaped_apply_op o w :
  match o with
  | OpNew _ gg params =>
      P ([gg; length (groups w)] ++ params_groups params) (length (groups w))
  | _ => True
  end ->
  shaped P w -> shaped P (apply_op o w).
Proof.
  intros HP Hw. destruct o as [pool cl fl fw|pool gg params|t|t|t|t|t v|t now|i|]; simpl.
  - unfold addGroup. destruct (new_group _ _ _ _) as [G|]; [|assumption].
    eapply shaped_same_tasks; [reflexivity|exact Hw].
  - destruct (new_task pool gg params w) as [[t w']|] eqn:E; [|assumption].
    eapply shaped_new_task; eauto.
  - destruct (promise t w) as [[r w']|] eqn:E; [|assumption].
    eapply shaped_core; [eapply core_promise; eauto|assumption].
  - eapply shaped_core; [apply core_pause|assumption].
  - eapply shaped_core; [apply core_resume|assumption].
  - apply shaped_end, Hw.
  - destruct (set_limit t v w) as [w'|] eqn:E; [|assumption].
    eapply shaped_set_limit; eauto.
  - apply shaped_schedule, Hw.
  - apply shaped_complete, Hw.
  - eapply shaped_core; [apply core_tick|assumption].
Qed.

End Shaped.

Lemma listed_apply_op o w : listed w -> listed (apply_op o w).
Proof.
  apply shaped_apply_op. destruct o; auto. simpl. rewrite !elem_of_cons. auto.
Qed.

(** *** Running a generator *)

Lemma script_outcome_run t s : forall w, fst (run_script t s w) = script_outcome s.
Proof. induction s; intros w; simpl; auto. Qed.

Lemma calm_run_script t s :
  calm s -> forall w T, tasks w !! t = Some T ->
  exists T1, tasks (snd (run_script t s w)) !! t = Some T1
             /\ (T1 = T \/ T1 = set_state Paused T).
Proof.
  induction s as [o|k IH|k IH]; simpl; intros Hc w T ET.
  - eauto.
  - contradiction.
  - destruct (IH Hc (pause t w)
                (if bool_decide (_state T = Active) then set_state Paused T else T))
      as (T1 & E1 & H1).
    { unfold pause. rewrite lookup_with_task, ET. reflexivity. }
    exists T1. split; [exact E1|]. case_bool_decide; destruct H1 as [->| ->]; auto.
Qed.

Lemma results_ok_pause t w : results_ok w -> results_ok (pause t w).
Proof.
  unfold pause. apply results_ok_with_task. intros T ET.
  case_bool_decide as Hs; simpl; intros Hrej; (split; [exact Hrej|]);
    [|apply same_results_refl].
  repeat split; simpl; try discriminate. intros H. rewrite Hs in H. discriminate.
Qed.

Lemma sound_run_script t s : forall w,
  counts_ok w -> listed w -> results_ok w -> results_ok (snd (run_script t s w)).
Proof.
  induction s as [o|k IH|k IH]; intros w Hc Hl Hr; simpl.
  - exact Hr.
  - apply IH; [apply counts_ok_end|apply shaped_end|apply results_ok_end]; assumption.
  - apply IH; [eapply counts_ok_core; [apply core_pause|]
              |eapply shaped_core; [apply core_pause|]
              |apply results_ok_pause]; assumption.
Qed.

Lemma reject_records t e w T :
  tasks w !! t = Some T ->
  forall T', tasks (_reject t e w) !! t = Some T' -> _rejection T' <> None.
Proof.
  intros ET T' ET'.
  destruct (_rejection T) as [r|] eqn:Er.
  - destruct (st_reject w w t e (stable_refl w)) as (Hs & _).
    destruct (Hs t T ET) as (T2 & ET2 & Hr & _).
    assert (T2 = T') as -> by congruence. rewrite (Hr r Er). discriminate.
  - unfold _reject in ET'. cbn [reject_f] in ET'. rewrite ET, Er in ET'.
    match type of ET' with tasks (reject_rest t e ?r (end_f 2 t ?x)) !! t = _ =>
      destruct (st_reject_rest x (end_f 2 t x) t e r
                  (proj1 (st_end_resolve_reject 2) x t x (stable_refl x))) as (Hs & _);
      destruct (Hs t (set_rejection (Some r) T)) as (T2 & ET2 & Hr & _)
    end.
    { rewrite lookup_with_task. simpl. rewrite ET. reflexivity. }
    assert (T2 = T') as -> by congruence. rewrite (Hr _ eq_refl). discriminate.
Qed.

Lemma results_ok_reject t e w : results_ok w -> results_ok (_reject t e w).
Proof.
  intros Hr. apply (results_ok_others t w); [apply ok_reject, others_kept_refl|exact Hr|].
  intros T' ET' _ Hrej. exfalso.
  destruct (tasks w !! t) as [T|] eqn:ET.
  - exact (reject_records t e w T ET T' ET' Hrej).
  - unfold _reject in ET'. cbn [reject_f] in ET'. rewrite ET in ET'. congruence.
Qed.

Lemma end_busy t w T TG :
  tasks w !! t = Some T -> groups w !! _taskGroup T = Some TG ->
  0 < _activePromiseCount TG ->
  end_ t w = if state_lt (_state T) Exhausted
             then with_task t (set_state Exhausted) w else w.
Proof.
  intros ET EG Hapc. unfold end_. cbn [end_f]. rewrite ET, EG.
  assert ((_activePromiseCount TG <=? 0) = false) as -> by (apply Z.leb_gt; lia).
  rewrite andb_false_r. reflexivity.
Qed.

Lemma ok_snoc_inflight w x t p :
  p_task p = t -> others_kept t w x ->
  others_kept t w (set_inflights (inflights x ++ [p]) x).
Proof.
  intros Hp Hx. eapply others_kept_trans; [exact Hx|]. split; [|split].
  - intros q Hq. simpl. rewrite elem_of_app, list_elem_of_singleton.
    split; [intros [H|H]; [exact H|congruence]|auto].
  - intros t' _. reflexivity.
  - intros T ET. exists T. auto.
Qed.

(** The task as [_run] leaves it when it has started an invocation. *)
Lemma started_task_results fl t T1 f :
  _state T1 <> Terminated ->
  produced T1 (_invocations T1) = Some f ->
  task_results_ok fl t T1 ->
  task_results_ok (fl ++ [mkInflight t (_invocations T1) f]) t
    (set_invocations (S (_invocations T1)) T1).
Proof.
  intros Hst Hprod (A & B).
  destruct (_result T1) as [a|] eqn:Eres; [|destruct B as (B0 & _); contradiction].
  destruct B as (B0 & B1 & B2).
  unfold task_results_ok, stored, produced in *. simpl. rewrite Eres. split; [|split; [|split]].
  - intros p Hp Ht. apply elem_of_app in Hp as [Hp|Hp].
    + destruct (A p Hp Ht) as (Hlt & Hpr). split; [lia|exact Hpr].
    + apply list_elem_of_singleton in Hp as ->. simpl. split; [lia|exact Hprod].
  - exact B0.
  - intros j. destruct (B1 j) as [H|(Hlt & H)]; [left; exact H|right]. split; [lia|exact H].
  - intros j Hj. destruct (decide (j = _invocations T1)) as [->|Hne].
    + left. exists (mkInflight t (_invocations T1) f).
      rewrite elem_of_app, list_elem_of_singleton. auto.
    + destruct (B2 j ltac:(lia)) as [(p & Hp & Ht & Hi)|H]; [left|right; exact H].
      exists p. rewrite elem_of_app. auto.
Qed.

Lemma results_ok_run t now w T :
  counts_ok w -> listed w -> results_ok w ->
  tasks w !! t = Some T -> _state T = Active ->
  results_ok (_run t now w).
Proof.
  intros Hc Hl Hr ET Hact. unfold _run. rewrite ET.
  destruct (num_ge _ _); [apply results_ok_end; assumption|].
  set (s := _generator T (_invocations T)).
  pose proof (core_run_script t s w) as Hcore.
  pose proof (script_outcome_run t s w) as Hout.
  pose proof (sound_run_script t s w Hc Hl Hr) as Hr1.
  pose proof (ok_run_script t s w w (others_kept_refl t w)) as Hok1.
  pose proof (fun Hcalm => calm_run_script t s Hcalm w T ET) as Hcalm1.
  destruct (run_script t s w) as [[e|v] w1]; simpl in Hcore, Hout, Hr1, Hok1, Hcalm1.
  { apply results_ok_reject, Hr1. }
  assert (counts_ok w1) as Hc1 by (eapply counts_ok_core; eauto).
  assert (listed w1) as Hl1 by (eapply shaped_core; eauto).
  destruct (falsy v) eqn:Hfalsy.
  { destruct (tasks w1 !! t) as [T1|]; [|assumption].
    case_bool_decide; [|assumption]. apply results_ok_end; assumption. }
  destruct Hok1 as (_ & _ & Hgen). destruct (Hgen T ET) as (T1 & ET1 & Hg1).
  assert (task_core T1 = task_core T) as Hcore1.
  { destruct (core_tasks_lookup _ _ _ _ Hcore ET1) as (T0 & ET0 & Heq). congruence. }
  unfold task_core in Hcore1. injection Hcore1 as HG1 HTG1 HI1 HL1.
  set (w2 := forEach_group (_groups T) (start_in_group now) w1).
  assert (inflights w2 = inflights w1) as Hi2
    by apply (inflights_forEach_with_group (_groups T) (start_group now) w1).
  assert (tasks w2 = tasks w1) as Ht2
    by apply (tasks_forEach_with_group (_groups T) (start_group now) w1).
  rewrite Ht2, ET1.
  set (T3 := set_invocations (S (_invocations T1)) T1).
  set (w3 := with_task t (set_invocations (S (_invocations T1))) w2).
  assert (tasks w3 !! t = Some T3) as ET3
    by (unfold w3; rewrite lookup_with_task, Ht2, ET1; reflexivity).
  assert (exists TG3, groups w3 !! _taskGroup T3 = Some TG3 /\ 0 < _activePromiseCount TG3)
    as (TG3 & EG3 & Hbusy).
  { destruct Hc1 as (C1 & _ & C3).
    pose proof (Hl1 t T1 ET1) as Hin.
    destruct (lookup_lt_is_Some_2 (groups w1) (_taskGroup T1)) as [TG1 EG1];
      [eapply C3; eauto|].
    exists (Nat.iter (occurrences (_taskGroup T1) (_groups T)) (start_group now) TG1).
    split.
    - change (groups w3 !! _taskGroup T3) with (groups w2 !! _taskGroup T1).
      assert (groups w2 !! _taskGroup T1
              = Nat.iter (occurrences (_taskGroup T1) (_groups T)) (start_group now)
                  <$> groups w1 !! _taskGroup T1) as ->
        by apply (groups_forEach_with_group (start_group now) (_groups T) w1).
      rewrite EG1. reflexivity.
    - rewrite apc_iter_start, (C1 _ _ EG1).
      pose proof (occurrences_listed _ _ Hin) as Ho. rewrite HG1 in Ho. lia. }
  match goal with |- results_ok (set_inflights (inflights ?x ++ _) ?x) => set (w4 := x) end.
  assert (others_kept t w1 w4 /\ inflights w4 = inflights w1
          /\ exists T4, tasks w4 !! t = Some T4 /\ same_results T3 T4
                        /\ _rejection T4 = _rejection T3) as (Hok4 & Hi4 & T4 & ET4 & Hs4 & Hrej4).
  { assert (others_kept t w1 w3) as Hok3.
    { unfold w3. apply ok_with_task; [reflexivity|].
      apply others_kept_same; [exact Ht2|exact Hi2]. }
    unfold w4. destruct (num_ge (Fin (Z.of_nat (S _))) _).
    - rewrite (end_busy t w3 T3 TG3 ET3 EG3 Hbusy).
      destruct (state_lt (_state T3) Exhausted) eqn:Hex.
      + split; [apply ok_with_task; [reflexivity|exact Hok3]|]. split; [exact Hi2|].
        exists (set_state Exhausted T3). rewrite lookup_with_task, ET3.
        split; [reflexivity|]. split; [|reflexivity].
        repeat split; simpl; try discriminate.
        intros H. simpl in Hex. rewrite H in Hex. discriminate.
      + split; [exact Hok3|]. split; [exact Hi2|]. exists T3.
        split; [exact ET3|]. split; [apply same_results_refl|reflexivity].
    - split; [exact Hok3|]. split; [exact Hi2|]. exists T3.
      split; [exact ET3|]. split; [apply same_results_refl|reflexivity]. }
  apply (results_ok_others t w1); [apply ok_snoc_inflight; [reflexivity|exact Hok4]|exact Hr1|].
  simpl. rewrite Hi4, ET4. intros T' [= <-] Hcalm Hrej.
  eapply task_results_same; [exact Hs4|].
  assert (_generator T4 = _generator T) as Hg4.
  { destruct Hs4 as (Hg & _). rewrite Hg. simpl. exact Hg1. }
  assert (calm_task T1) as HcalmT1.
  { intros i. rewrite Hg1, <- Hg4. apply Hcalm. }
  assert (_rejection T1 = None) as Hrej1 by (rewrite Hrej4 in Hrej; exact Hrej).
  assert (calm s) as Hcs by (unfold s; rewrite <- Hg4; apply Hcalm).
  destruct (Hcalm1 Hcs) as (T1' & ET1' & HT1).
  assert (T1' = T1) as -> by congruence.
  assert (_state T1 <> Terminated) as Hst1
    by (destruct HT1 as [->| ->]; simpl; rewrite ?Hact; discriminate).
  apply started_task_results; [exact Hst1| |apply Hr1; assumption].
  unfold produced. rewrite Hg1, HI1. fold s. rewrite <- Hout, Hfalsy. reflexivity.
Qed.

(** *** Completing an invocation *)

Lemma elem_of_delete_ne {A} (l : list A) i x y :
  l !! i = Some x -> y ∈ l -> y <> x -> y ∈ delete i l.
Proof.
  intros Hi [j Hj]%list_elem_of_lookup Hne.
  destruct (decide (j < i)%nat).
  - apply (list_elem_of_lookup_2 _ j). rewrite list_lookup_delete_lt by assumption.
    exact Hj.
  - assert (j <> i) by congruence. apply (list_elem_of_lookup_2 _ (j - 1)%nat).
    rewrite list_lookup_delete_ge by lia. replace (S (j - 1)) with j by lia. exact Hj.
Qed.

Lemma elem_of_insert_other {A} (l : list A) i p q y :
  l !! i = Some p -> y <> p -> y <> q -> (y ∈ <[i := q]> l <-> y ∈ l).
Proof.
  intros Hi Hp Hq.
  split; intros [j Hj]%list_elem_of_lookup; destruct (decide (i = j)) as [->|Hne].
  - rewrite list_lookup_insert_eq in Hj by (eapply lookup_lt_Some; eauto). congruence.
  - rewrite list_lookup_insert_ne in Hj by assumption. eapply list_elem_of_lookup_2; eauto.
  - congruence.
  - apply (list_elem_of_lookup_2 _ j). rewrite list_lookup_insert_ne by assumption.
    exact Hj.
Qed.

(** The task as the fulfilment handler leaves it: the invocation is out
    of flight and its value, unless it is [undefined], in its slot. *)
Lemma finished_task_results fl i p v T a :
  fl !! i = Some p -> p_fate p = WillResolve v -> _result T = Some a ->
  task_results_ok fl (p_task p) T ->
  task_results_ok (delete i fl) (p_task p)
    (set_result (Some (if bool_decide (v = VUndefined) then a
                       else arr_set (p_index p) v a)) T).
Proof.
  intros Hi Hf Eres (A & B). rewrite Eres in B. destruct B as (B0 & B1 & B2).
  assert (p ∈ fl) as Hp by (eapply list_elem_of_lookup_2; eauto).
  destruct (A p Hp eq_refl) as (Hlt & Hprod). rewrite Hf in Hprod.
  set (a' := if bool_decide (v = VUndefined) then a else arr_set (p_index p) v a).
  assert (stored T a' (p_index p)) as Hidx.
  { unfold stored, a'. case_bool_decide as Hv.
    - destruct (B1 (p_index p)) as [H|(_ & H)]; [|exact H].
      rewrite H, Hprod, Hv. reflexivity.
    - rewrite arr_get_set_eq. exact Hprod. }
  assert (forall j, j <> p_index p -> arr_get j a' = arr_get j a) as Hoth.
  { intros j Hj. unfold a'. case_bool_decide; [reflexivity|].
    apply arr_get_set_ne. congruence. }
  unfold task_results_ok. simpl. fold a'.
  change (produced (set_result (Some a') T)) with (produced T).
  change (stored (set_result (Some a') T)) with (stored T).
  split; [|split; [|split]].
  - intros q Hq Ht. apply A; [|exact Ht]. eapply LegacyFacts.elem_of_delete; eauto.
  - exact B0.
  - intros j. destruct (decide (j = p_index p)) as [->|Hne]; [right; auto|].
    unfold stored. rewrite (Hoth j Hne). apply B1.
  - intros j Hj. destruct (decide (j = p_index p)) as [->|Hne]; [right; exact Hidx|].
    unfold stored. rewrite (Hoth j Hne).
    destruct (B2 j Hj) as [(q & Hq & Ht & Hqi)|H]; [left|right; exact H].
    exists q. split; [|auto]. eapply elem_of_delete_ne; eauto. congruence.
Qed.

Lemma ok_delete_inflight w t i p :
  inflights w !! i = Some p -> p_task p = t ->
  others_kept t w (set_inflights (delete i (inflights w)) w).
Proof.
  intros Hi Hp. split; [|split].
  - intros q Hq. simpl. split; [apply LegacyFacts.elem_of_delete|].
    intros H. eapply elem_of_delete_ne; eauto. congruence.
  - intros t' _. reflexivity.
  - intros T ET. exists T. auto.
Qed.

Lemma results_ok_complete i w :
  counts_ok w -> listed w -> results_ok w -> results_ok (complete i w).
Proof.
  intros Hc Hl Hr. unfold complete.
  destruct (inflights w !! i) as [p|] eqn:Hi; [|assumption].
  assert (p ∈ inflights w) as Hp by (eapply list_elem_of_lookup_2; eauto).
  destruct (p_fate p) as [v|e] eqn:Hf.
  - change (tasks (set_inflights (delete i (inflights w)) w)) with (tasks w).
    pose proof (ok_delete_inflight w (p_task p) i p Hi eq_refl) as Hok1.
    destruct (tasks w !! p_task p) as [T|] eqn:ET.
    2:{ apply (results_ok_others (p_task p) w); [exact Hok1|exact Hr|].
        simpl. intros T' ET'. congruence. }
    set (w2 := forEach_group (_groups T) finish_in_group
                 (set_inflights (delete i (inflights w)) w)).
    assert (tasks w2 = tasks w) as Ht2
      by apply (tasks_forEach_with_group (_groups T) finish_group
                  (set_inflights (delete i (inflights w)) w)).
    assert (inflights w2 = delete i (inflights w)) as Hi2
      by apply (inflights_forEach_with_group (_groups T) finish_group
                  (set_inflights (delete i (inflights w)) w)).
    assert (others_kept (p_task p) w w2) as Hok2.
    { eapply others_kept_trans; [exact Hok1|]. apply others_kept_same; assumption. }
    pose proof (counts_ok_finish i p T w Hi ET Hc) as Hc2. fold w2 in Hc2.
    assert (listed w2) as Hl2 by (eapply shaped_same_tasks; eauto).
    (* the world after the result is stored *)
    assert (forall a, _result T = Some a ->
              results_ok (with_task (p_task p)
                (set_result (Some (if bool_decide (v = VUndefined) then a
                                   else arr_set (p_index p) v a))) w2)) as Hstore.
    { intros a Eres. apply (results_ok_others (p_task p) w);
        [apply ok_with_task; [reflexivity|exact Hok2]|exact Hr|].
      intros T'. rewrite lookup_with_task, Ht2, ET. intros [= <-] Hcalm Hrej.
      change (inflights (with_task (p_task p) ?F w2)) with (inflights w2). rewrite Hi2.
      apply finished_task_results; auto. }
    assert (forall w3, counts_ok w3 -> listed w3 -> results_ok w3 ->
              results_ok (triggerCallback
                (if state_ge (_state T) Exhausted
                    && match groups w3 !! _taskGroup T with
                       | Some TG => _activePromiseCount TG <=? 0
                       | None => false
                       end
                 then end_ (p_task p) w3 else w3))) as Hrest.
    { intros w3 Hc3 Hl3 Hr3.
      destruct (_ && _);
        [apply (results_ok_same (end_ (p_task p) w3))|apply (results_ok_same w3)];
        try reflexivity; [apply results_ok_end|]; assumption. }
    case_bool_decide as Hv.
    + apply Hrest; [exact Hc2|exact Hl2|].
      apply (results_ok_others (p_task p) w); [exact Hok2|exact Hr|].
      rewrite Ht2, ET, Hi2. intros T' [= <-] Hcalm Hrej.
      pose proof (Hr _ _ ET Hcalm Hrej) as HT.
      destruct (_result T) as [a|] eqn:Eres.
      * eapply task_results_same;
          [|apply (finished_task_results _ i p v T a Hi Hf Eres HT)].
        rewrite bool_decide_true by exact Hv.
        repeat split; simpl; auto.
      * destruct HT as (_ & HT). rewrite Eres in HT. destruct HT as (_ & Hnone & _).
        exfalso. exact (Hnone p Hp eq_refl).
    + destruct (_result T) as [a|] eqn:Eres.
      * specialize (Hstore a eq_refl). cbv iota in Hstore.
        apply Hrest; [|apply shaped_with_task; [split; reflexivity|exact Hl2]|exact Hstore].
        apply counts_ok_with_task; [reflexivity|exact Hc2].
      * apply (results_ok_same w2); [reflexivity|reflexivity|].
        apply (results_ok_others (p_task p) w); [exact Hok2|exact Hr|].
        rewrite Ht2, ET. intros T' [= <-] Hcalm Hrej.
        destruct (Hr _ _ ET Hcalm Hrej) as (_ & HT). rewrite Eres in HT.
        destruct HT as (_ & Hnone & _). exfalso. exact (Hnone p Hp eq_refl).
  - assert (inflights (_reject (p_task p) e w) = inflights w) as Hin
      by (apply (core_lengths _ _ (core_reject (p_task p) e w))).
    apply (results_ok_others (p_task p) w); [|exact Hr|].
    + eapply others_kept_trans; [apply ok_reject, others_kept_refl|].
      split; [|split].
      * intros q Hq. simpl. apply (elem_of_insert_other _ i p);
          [rewrite Hin; exact Hi|congruence|].
        intros ->. apply Hq. reflexivity.
      * intros t' _. reflexivity.
      * intros T ET. exists T. auto.
    + simpl. intros T' ET' _ Hrej. exfalso.
      destruct (tasks w !! p_task p) as [T|] eqn:ET.
      * exact (reject_records _ e w T ET T' ET' Hrej).
      * unfold _reject in ET'. cbn [reject_f] in ET'. rewrite ET in ET'. congruence.
Qed.

(** *** The other operations *)

Lemma inflights_group_busyTime now g w :
  inflights (snd (group_busyTime now g w)) = inflights w.
Proof.
  unfold group_busyTime. destruct (groups w !! g) as [G|]; [|reflexivity].
  destruct (num_ge _ _); [reflexivity|].
  destruct (_frequencyLimit G) as [| | |limit| | |]; try reflexivity.
  destruct (groups _ !! g) as [G1|]; [|reflexivity].
  destruct (num_ge _ limit); [destruct (_frequencyStarts G1)|]; reflexivity.
Qed.

Lemma inflights_busy_loop now gs : forall time w,
  inflights (snd (busy_loop now gs time w)) = inflights w.
Proof.
  induction gs as [|g gs IH]; intros time w; simpl; [reflexivity|].
  pose proof (inflights_group_busyTime now g w) as Hb.
  destruct (group_busyTime now g w) as [[[]|n] w1]; simpl in Hb;
    rewrite ?IH; exact Hb.
Qed.

Lemma inflights_busyTime now t w : inflights (snd (_busyTime now t w)) = inflights w.
Proof.
  unfold _busyTime. destruct (tasks w !! t) as [T|]; [|reflexivity].
  destruct (negb _); [reflexivity|]. apply inflights_busy_loop.
Qed.

Lemma inflights_cleanFrequencyStarts now t w :
  inflights (_cleanFrequencyStarts now t w) = inflights w.
Proof.
  unfold _cleanFrequencyStarts. destruct (tasks w !! t) as [T|]; [|reflexivity].
  apply inflights_forEach_with_group.
Qed.

Lemma busyTime_ready now t w :
  fst (_busyTime now t w) = BusyBool false ->
  exists T, tasks w !! t = Some T /\ _state T = Active.
Proof.
  unfold _busyTime. destruct (tasks w !! t) as [T|]; [|discriminate].
  case_bool_decide; simpl; [eauto|discriminate].
Qed.

Lemma results_ok_schedule t now w :
  counts_ok w -> listed w -> results_ok w -> results_ok (schedule t now w).
Proof.
  intros Hc Hl Hr. unfold schedule.
  set (w1 := _cleanFrequencyStarts now t w).
  assert (counts_ok w1) as H1.
  { unfold w1, _cleanFrequencyStarts. destruct (tasks w !! t) as [T|]; [|assumption].
    apply counts_ok_forEach; [|assumption]. intros; apply counts_ok_clean; assumption. }
  assert (counts_ok (snd (_busyTime now t w1))) as H2.
  { unfold _busyTime. destruct (tasks _ !! t) as [T|]; [|assumption].
    destruct (negb _); [assumption|]. apply counts_ok_busy_loop, H1. }
  assert (tasks (snd (_busyTime now t w1)) = tasks w) as Ht2
    by (rewrite tasks_busyTime; apply tasks_cleanFrequencyStarts).
  assert (inflights (snd (_busyTime now t w1)) = inflights w) as Hi2
    by (rewrite inflights_busyTime; apply inflights_cleanFrequencyStarts).
  pose proof (busyTime_ready now t w1) as Hready.
  destruct (_busyTime now t w1) as [b w2]; simpl in H2, Ht2, Hi2, Hready.
  assert (results_ok w2) as Hr2 by (eapply results_ok_same; eauto).
  destruct b as [[]|n]; try exact Hr2.
  destruct (Hready eq_refl) as (T & ET & Hact).
  apply (results_ok_run t now w2 T); auto.
  - eapply shaped_same_tasks; eauto.
  - rewrite Ht2. rewrite <- ET. unfold w1. rewrite tasks_cleanFrequencyStarts. reflexivity.
Qed.

Lemma results_ok_set_limit t v w w' :
  set_limit t v w = Some w' ->
  counts_ok w -> listed w -> results_ok w -> results_ok w'.
Proof.
  unfold set_limit. destruct (tasks w !! t) as [T|] eqn:ET; [|discriminate].
  assert (forall n, results_ok w -> results_ok (with_task t (set_invocationLimit n) w))
    as Hset.
  { intros n. apply results_ok_with_task. intros T0 _ Hrej.
    split; [exact Hrej|repeat split; simpl; auto]. }
  destruct (isNull v).
  { intros H Hc Hl Hr. injection H as <-.
    apply (results_ok_same (with_task t (set_invocationLimit PInf) w));
      [reflexivity|reflexivity|]. apply Hset, Hr. }
  destruct v as [| | |n| | |]; try discriminate.
  destruct (negb _ && _); [|discriminate].
  intros H Hc Hl Hr. injection H as <-.
  destruct (num_ge _ n).
  - apply (results_ok_same (end_ t (with_task t (set_invocationLimit n) w)));
      [reflexivity|reflexivity|].
    apply results_ok_end; [|apply shaped_with_task; [split; reflexivity|exact Hl]|auto].
    apply counts_ok_with_task; [reflexivity|exact Hc].
  - apply (results_ok_same (with_task t (set_invocationLimit n) w));
      [reflexivity|reflexivity|]. apply Hset, Hr.
Qed.

Lemma results_ok_promise t w r w' :
  promise t w = Some (r, w') -> results_ok w -> results_ok w'.
Proof.
  unfold promise. destruct (tasks w !! t) as [T|] eqn:ET; [|discriminate].
  destruct (_rejection T) as [e|].
  - destruct (errors w !! e); [|discriminate]. intros [= _ <-].
    apply results_ok_same; reflexivity.
  - case_bool_decide.
    + intros [= _ <-]. auto.
    + intros [= _ <-] Hr.
      apply results_ok_with_task; [|apply (results_ok_same w); [reflexivity..|exact Hr]].
      intros T0 _ Hrej. split; [exact Hrej|repeat split; simpl; auto].
Qed.

Lemma results_ok_resume t w : results_ok w -> results_ok (resume t w).
Proof.
  intros Hr. unfold resume. destruct (tasks w !! t) as [T|] eqn:ET; [|assumption].
  case_bool_decide as Hs; [|assumption].
  apply (results_ok_same (with_task t (set_state Active) w)); [reflexivity..|].
  apply results_ok_with_task; [|exact Hr].
  intros T0 ET0 Hrej. assert (T0 = T) as -> by congruence.
  split; [exact Hrej|]. repeat split; simpl; try discriminate.
  intros H. rewrite Hs in H. discriminate.
Qed.

Lemma results_ok_tick w : results_ok w -> results_ok (tick w).
Proof.
  intros Hr. unfold tick. destruct (nextTicks w) as [|r rest]; [assumption|].
  destruct (errors _ !! r) as [E|]; [destruct (negb (handled E))|];
    (eapply results_ok_same; [| |exact Hr]); reflexivity.
Qed.

(** What the constructor does, step by step. *)
Lemma new_task_steps pool gg params w t w' :
  new_task pool gg params w = Some (t, w') -> counts_ok w ->
  exists TG T,
    let w2 := set_tasks (tasks w ++ [T]) (set_groups (groups w ++ [TG]) w) in
    t = length (tasks w) /\ counts_ok w2
    /\ _taskGroup T ∈ _groups T /\ _result T = Some [] /\ _invocations T = 0%nat
    /\ _state T <> Terminated
    /\ (w' = end_ t w2 \/ w' = forEach_group (_groups T) _incrementTasks w2).
Proof.
  unfold new_task.
  destruct (if isNull _ then _ else _) as [limit|]; [|discriminate].
  destruct (new_group _ _ _ _) as [TG|] eqn:ETG; [|discriminate].
  destruct (bool_decide _ && _) eqn:Hchk; [|discriminate].
  apply andb_prop in Hchk as [Hgg Hgs]. apply bool_decide_eq_true in Hgg.
  intros H Hw.
  match type of H with context [set_tasks (_ ++ [?T]) ?w1] => exists TG, T end.
  simpl. split; [destruct (limit_le_zero _); injection H as <- _; reflexivity|]. split.
  { apply counts_ok_snoc; [apply (new_group_fresh _ _ _ _ _ ETG)| |exact Hw].
    simpl. intros g Hg. apply elem_of_cons in Hg as [->|Hg]; [lia|].
    apply elem_of_cons in Hg as [->|Hg]; [lia|].
    rewrite forallb_forall in Hgs. apply list_elem_of_In in Hg.
    specialize (Hgs g Hg). simpl in Hgs.
    destruct (groups w !! g) eqn:E; [|discriminate].
    apply lookup_lt_Some in E. lia. }
  split; [rewrite !elem_of_cons; auto|]. split; [reflexivity|]. split; [reflexivity|].
  split; [destruct (paused params); discriminate|].
  destruct (limit_le_zero _); injection H as <- <-; auto.
Qed.

Lemma results_ok_new_task pool gg params w t w' :
  new_task pool gg params w = Some (t, w') ->
  counts_ok w -> listed w -> results_ok w -> results_ok w'.
Proof.
  intros H Hc Hl Hr.
  destruct (new_task_steps _ _ _ _ _ _ H Hc)
    as (TG & T & -> & Hc2 & Hin & Eres & Einv & Hst & Hw').
  set (w2 := set_tasks (tasks w ++ [T]) (set_groups (groups w ++ [TG]) w)) in *.
  assert (results_ok w2) as Hr2.
  { intros t' T' ET' Hcalm Hrej. simpl in ET'. simpl inflights.
    destruct (tasks w !! t') as [T0|] eqn:E.
    - rewrite lookup_app_l in ET' by (eapply lookup_lt_Some; eauto).
      apply Hr; assumption.
    - apply lookup_ge_None in E. rewrite lookup_app_r in ET' by assumption.
      destruct (t' - length (tasks w))%nat eqn:Ed; simpl in ET'; [|discriminate].
      injection ET' as <-.
      assert (forall p, p ∈ inflights w -> p_task p <> t') as Hnone.
      { intros p Hp. destruct Hc as (_ & C2 & _). specialize (C2 p Hp). lia. }
      split; [intros p Hp Ht; exfalso; exact (Hnone p Hp Ht)|].
      rewrite Eres, Einv. split; [exact Hst|]. split; [|intros j Hj; lia].
      intros j. left. destruct j; reflexivity. }
  assert (listed w2) as Hl2.
  { apply (shaped_snoc_task _ T (set_groups (groups w ++ [TG]) w)); [exact Hin|].
    apply (shaped_same_tasks _ w); [reflexivity|exact Hl]. }
  destruct Hw' as [-> | ->].
  - apply results_ok_end; assumption.
  - eapply results_ok_same; [| |exact Hr2].
    + apply tasks_forEach. intros; reflexivity.
    + apply (proj1 (core_lengths _ _ (core_forEach _ _ _
               (fun g x => core_incrementTasks g x)))).
Qed.

(** *** Every operation *)

Lemma results_ok_apply_op o w : sound w -> results_ok (apply_op o w).
Proof.
  intros (Hc & Hl & Hr).
  destruct o as [pool cl fl fw|pool gg params|t|t|t|t|t v|t now|i|]; simpl.
  - unfold addGroup. destruct (new_group _ _ _ _) as [G|]; [|assumption].
    eapply results_ok_same; [| |exact Hr]; reflexivity.
  - destruct (new_task pool gg params w) as [[t w']|] eqn:E; [|assumption].
    eapply results_ok_new_task; eauto.
  - destruct (promise t w) as [[r w']|] eqn:E; [|assumption].
    eapply results_ok_promise; eauto.
  - apply results_ok_pause, Hr.
  - apply results_ok_resume, Hr.
  - apply results_ok_end; assumption.
  - destruct (set_limit t v w) as [w'|] eqn:E; [|assumption].
    eapply results_ok_set_limit; eauto.
  - apply results_ok_schedule; assumption.
  - apply results_ok_complete; assumption.
  - apply results_ok_tick, Hr.
Qed.

Lemma sound_apply_op o w : sound w -> sound (apply_op o w).
Proof.
  intros Hw. split; [|split].
  - apply counts_ok_apply_op, Hw.
  - apply listed_apply_op, Hw.
  - apply results_ok_apply_op, Hw.
Qed.

Lemma sound_run_ops os : forall w, sound w -> sound (run_ops os w).
Proof.
  unfold run_ops. induction os as [|o os IH]; intros w Hw; simpl; [exact Hw|].
  apply IH, sound_apply_op, Hw.
Qed.

Lemma sound_pool_world : sound pool_world.
Proof.
  split; [|split].
  - split; [|split].
    + intros g G HG. destruct g; [|discriminate]. injection HG as <-. reflexivity.
    + intros p Hp. apply elem_of_nil in Hp. contradiction.
    + intros t T g HT. destruct t; discriminate HT.
  - intros t T HT. destruct t; discriminate HT.
  - intros t T HT. destruct t; discriminate HT.
Qed.

(** What C2 says, for the tasks whose generator does not call
    [this.end()]: whatever the operations and the order of the completions,
    a task that has terminated without a rejection (and has no result
    converter) resolves with an array that has one slot for every
    invocation made, slot [j] holding the value of invocation [j] (a hole
    reads as [undefined], the value that is not stored), and [promise()]
    resolves with that array. *)
Theorem results_of_calm_tasks os w t T :
  sound w ->
  tasks (run_ops os w) !! t = Some T ->
  calm_task T -> _resultConverter T = None ->
  _state T = Terminated -> _rejection T = None ->
  exists a,
    _returnResult T = Some (RArray a)
    /\ length a = _invocations T
    /\ (forall j, (j < _invocations T)%nat ->
          produced T j = Some (WillResolve (arr_get j a)))
    /\ promise t (run_ops os w) = Some (PResolved (Some (RArray a)), run_ops os w).
Proof.
  intros Hw HT Hcalm Hconv Hst Hrej.
  destruct (sound_run_ops os w Hw) as (_ & _ & Hr).
  destruct (Hr t T HT Hcalm Hrej) as (_ & B).
  destruct (_result T) as [a|]; [destruct B as (B0 & _); contradiction|].
  destruct B as (_ & _ & B2). destruct (B2 Hconv) as (a & Hret & Hlen & Hsto).
  exists a. split; [exact Hret|]. split; [exact Hlen|]. split; [exact Hsto|].
  unfold promise. rewrite HT, Hrej, Hret.
  rewrite bool_decide_true by exact Hst. reflexivity.
Qed.

(** *** The concurrency limits, under the scheduler of the data model *)

Lemma same_counters_refl w : same_counters w w.
Proof. intros g. reflexivity. Qed.

Lemma same_counters_trans w1 w2 w3 :
  same_counters w1 w2 -> same_counters w2 w3 -> same_counters w1 w3.
Proof. intros H1 H2 g. rewrite H2. apply H1. Qed.

Lemma same_counters_core w w' : core w' = core w -> same_counters w w'.
Proof.
  intros Hc g. destruct (groups w' !! g) as [G'|] eqn:E'.
  - destruct (core_groups_lookup _ _ _ _ Hc E') as (G & E & Heq). rewrite E. simpl.
    unfold group_core in Heq. injection Heq as Ha _ _ _ Hl.
    unfold counter_and_limit. congruence.
  - destruct (groups w !! g) as [G|] eqn:E; [|reflexivity]. exfalso.
    apply lookup_ge_None in E'. apply lookup_lt_Some in E.
    destruct (core_lengths _ _ Hc) as (_ & Hlen & _). lia.
Qed.

Lemma same_counters_groups w w' : groups w' = groups w -> same_counters w w'.
Proof. intros H g. rewrite H. reflexivity. Qed.

Lemma same_counters_with_group g F w :
  (forall G, counter_and_limit (F G) = counter_and_limit G) ->
  same_counters w (with_group g F w).
Proof.
  intros HF g'. unfold with_group. simpl. destruct (decide (g = g')) as [->|Hne].
  - rewrite list_lookup_alter_eq. destruct (groups w !! g'); simpl; [|reflexivity].
    rewrite HF. reflexivity.
  - rewrite list_lookup_alter_ne by assumption. reflexivity.
Qed.

Lemma within_same w w' : same_counters w w' -> within_limits w -> within_limits w'.
Proof.
  intros Hs Hw g G' E'. specialize (Hs g). rewrite E' in Hs.
  destruct (groups w !! g) as [G|] eqn:E; [|discriminate].
  simpl in Hs. injection Hs as Ha Hl. unfold group_within. rewrite Ha, Hl.
  apply (Hw g G E).
Qed.

Lemma room_same w w' g : same_counters w w' -> has_room w g -> has_room w' g.
Proof.
  intros Hs (G & E & Hr). specialize (Hs g). rewrite E in Hs.
  destruct (groups w' !! g) as [G'|] eqn:E'; [|discriminate].
  simpl in Hs. injection Hs as Ha Hl. exists G'. split; [exact E'|]. congruence.
Qed.

Lemma limit_iter_start now n G :
  _concurrencyLimit (Nat.iter n (start_group now) G) = _concurrencyLimit G.
Proof.
  induction n as [|n IH]; simpl; [reflexivity|].
  unfold start_group at 1. simpl. destruct (truthy _); simpl; exact IH.
Qed.

Lemma limit_iter_finish n G :
  _concurrencyLimit (Nat.iter n finish_group G) = _concurrencyLimit G.
Proof. induction n as [|n IH]; simpl; [reflexivity|exact IH]. Qed.

(** [_run] called for a task whose groups all have room. *)
Lemma within_run t now w T :
  tasks w !! t = Some T -> NoDup (_groups T) ->
  (forall g, g ∈ _groups T -> has_room w g) ->
  within_limits w -> within_limits (_run t now w).
Proof.
  intros ET Hnd Hroom Hw. unfold _run. rewrite ET.
  destruct (num_ge _ _);
    [eapply within_same; [apply same_counters_core, core_end|exact Hw]|].
  pose proof (core_run_script t (_generator T (_invocations T)) w) as Hs.
  destruct (run_script t _ w) as [[e|v] w1]; simpl in Hs.
  { eapply within_same; [|exact Hw]. eapply same_counters_trans;
      [apply same_counters_core, Hs|apply same_counters_core, core_reject]. }
  assert (within_limits w1) as Hw1
    by (eapply within_same; [apply same_counters_core, Hs|exact Hw]).
  destruct (falsy v).
  { destruct (tasks w1 !! t) as [T1|]; [|assumption].
    case_bool_decide; [|assumption].
    eapply within_same; [apply same_counters_core, core_end|exact Hw1]. }
  set (w2 := forEach_group (_groups T) (start_in_group now) w1).
  assert (within_limits w2) as Hw2.
  { intros g G2 E2.
    assert (groups w2 !! g
            = Nat.iter (occurrences g (_groups T)) (start_group now) <$> groups w1 !! g)
      as Hg by apply (groups_forEach_with_group (start_group now) (_groups T) w1).
    rewrite E2 in Hg. destruct (groups w1 !! g) as [G1|] eqn:E1; [|discriminate].
    simpl in Hg. injection Hg as ->. unfold group_within.
    rewrite apc_iter_start, limit_iter_start, (occurrences_NoDup _ _ Hnd).
    case_bool_decide as Hin.
    - destruct (room_same w w1 g (same_counters_core _ _ Hs) (Hroom g Hin))
        as (G & E & Hr). assert (G = G1) as -> by congruence.
      apply near_room; [apply (Hw1 g G1 E1)|exact Hr].
    - rewrite Z.add_0_r. apply (Hw1 g G1 E1). }
  destruct (tasks w2 !! t) as [T2|]; [|exact Hw2].
  eapply within_same; [|exact Hw2].
  apply (same_counters_trans _ (with_task t (set_invocations (S (_invocations T2))) w2));
    [apply same_counters_groups; reflexivity|].
  destruct (num_ge (Fin (Z.of_nat (S _))) _).
  - eapply same_counters_trans; [apply same_counters_core, core_end|].
    apply same_counters_groups. reflexivity.
  - apply same_counters_groups. reflexivity.
Qed.

Lemma within_complete i w : within_limits w -> within_limits (complete i w).
Proof.
  intros Hw. unfold complete. destruct (inflights w !! i) as [p|]; [|assumption].
  destruct (p_fate p) as [v|e].
  - destruct (tasks _ !! p_task p) as [T|];
      [|eapply within_same; [apply same_counters_groups; reflexivity|exact Hw]].
    set (w2 := forEach_group (_groups T) finish_in_group
                 (set_inflights (delete i (inflights w)) w)).
    assert (within_limits w2) as Hw2.
    { intros g G2 E2.
      assert (groups w2 !! g
              = Nat.iter (occurrences g (_groups T)) finish_group <$> groups w !! g)
        as Hg by apply (groups_forEach_with_group finish_group (_groups T)
                          (set_inflights (delete i (inflights w)) w)).
      rewrite E2 in Hg. destruct (groups w !! g) as [G1|] eqn:E1; [|discriminate].
      simpl in Hg. injection Hg as ->. unfold group_within.
      rewrite apc_iter_finish, limit_iter_finish.
      eapply near_down; [|apply (Hw g G1 E1)]. lia. }
    assert (forall w3, within_limits w3 ->
              within_limits (triggerCallback
                (if state_ge (_state T) Exhausted
                    && match groups w3 !! _taskGroup T with
                       | Some TG => _activePromiseCount TG <=? 0
                       | None => false
                       end
                 then end_ (p_task p) w3 else w3))) as Hrest.
    { intros w3 H3. destruct (_ && _).
      - eapply within_same; [|exact H3].
        eapply same_counters_trans; [apply same_counters_core, core_end|].
        apply same_counters_groups. reflexivity.
      - eapply within_same; [apply same_counters_groups; reflexivity|exact H3]. }
    case_bool_decide.
    + apply Hrest, Hw2.
    + destruct (_result T) as [a|].
      * apply Hrest. eapply within_same; [apply same_counters_groups; reflexivity|exact Hw2].
      * eapply within_same; [apply same_counters_groups; reflexivity|exact Hw2].
  - eapply within_same; [|exact Hw].
    eapply same_counters_trans; [apply same_counters_core, core_reject|].
    apply same_counters_groups. reflexivity.
Qed.

Lemma same_counters_sym w w' : same_counters w w' -> same_counters w' w.
Proof. intros H g. symmetry. apply H. Qed.

Lemma same_counters_clean now g w : same_counters w (group_cleanFrequencyStarts now g w).
Proof. apply same_counters_with_group. reflexivity. Qed.

Lemma same_counters_forEach gs (f : nat -> world -> world) :
  (forall g x, same_counters x (f g x)) ->
  forall w, same_counters w (forEach_group gs f w).
Proof.
  intros Hf. unfold forEach_group. induction gs as [|g gs IH]; intros w; simpl.
  - apply same_counters_refl.
  - eapply same_counters_trans; [apply Hf|apply IH].
Qed.

Lemma group_busyTime_room now g w :
  same_counters w (snd (group_busyTime now g w))
  /\ (fst (group_busyTime now g w) <> BusyBool true -> has_room w g).
Proof.
  unfold group_busyTime. destruct (groups w !! g) as [G|] eqn:E.
  2:{ split; [apply same_counters_refl|]. intros H. exfalso. apply H. reflexivity. }
  destruct (num_ge _ _) eqn:Hr.
  { split; [apply same_counters_refl|]. intros H. exfalso. apply H. reflexivity. }
  assert (has_room w g) as Hroom by (exists G; auto).
  destruct (_frequencyLimit G) as [| | |limit| | |];
    try (split; [apply same_counters_refl|intros _; exact Hroom]).
  pose proof (same_counters_clean now g w) as Hc.
  destruct (groups (group_cleanFrequencyStarts now g w) !! g) as [G1|];
    [|split; [exact Hc|intros _; exact Hroom]].
  destruct (num_ge _ limit); [destruct (_frequencyStarts G1)|];
    (split; [exact Hc|intros _; exact Hroom]).
Qed.

Lemma busy_loop_room now gs : forall time w,
  same_counters w (snd (busy_loop now gs time w))
  /\ (fst (busy_loop now gs time w) <> BusyBool true ->
      forall g, g ∈ gs -> has_room w g).
Proof.
  induction gs as [|g gs IH]; intros time w; simpl.
  - split; [apply same_counters_refl|]. intros _ g Hg.
    apply elem_of_nil in Hg. contradiction.
  - destruct (group_busyTime_room now g w) as (Hs & Hr).
    destruct (group_busyTime now g w) as [[[]|n] w1]; simpl in Hs, Hr.
    + split; [exact Hs|]. intros H. exfalso. apply H. reflexivity.
    + destruct (IH time w1) as (Hs1 & Hr1).
      split; [eapply same_counters_trans; eauto|].
      intros H g' Hg'. apply elem_of_cons in Hg' as [->|Hg'].
      * apply Hr. discriminate.
      * eapply room_same; [apply same_counters_sym, Hs|]. apply Hr1; assumption.
    + destruct (IH (if time <? n then n else time) w1) as (Hs1 & Hr1).
      split; [eapply same_counters_trans; eauto|].
      intros H g' Hg'. apply elem_of_cons in Hg' as [->|Hg'].
      * apply Hr. discriminate.
      * eapply room_same; [apply same_counters_sym, Hs|]. apply Hr1; assumption.
Qed.

Lemma within_schedule t now w :
  groups_distinct w -> within_limits w -> within_limits (schedule t now w).
Proof.
  intros Hd Hw. unfold schedule.
  set (w1 := _cleanFrequencyStarts now t w).
  assert (same_counters w w1) as Hs1.
  { unfold w1, _cleanFrequencyStarts. destruct (tasks w !! t) as [T|];
      [|apply same_counters_refl].
    apply same_counters_forEach. intros; apply same_counters_clean. }
  assert (tasks w1 = tasks w) as Ht1 by apply tasks_cleanFrequencyStarts.
  pose proof (tasks_busyTime now t w1) as Ht2.
  unfold _busyTime in *. rewrite Ht1 in *.
  destruct (tasks w !! t) as [T|] eqn:ET;
    [|eapply within_same; [exact Hs1|exact Hw]].
  destruct (negb _); [eapply within_same; [exact Hs1|exact Hw]|].
  destruct (busy_loop_room now (_groups T) 0 w1) as (Hs2 & Hroom).
  destruct (busy_loop now (_groups T) 0 w1) as [b w2]; simpl in Hs2, Hroom, Ht2.
  assert (within_limits w2) as Hw2
    by (eapply within_same; [exact Hs2|]; eapply within_same; [exact Hs1|exact Hw]).
  destruct b as [[]|n]; try exact Hw2.
  apply (within_run t now w2 T); [congruence|apply (Hd t T ET)| |exact Hw2].
  intros g Hg. eapply room_same; [exact Hs2|]. apply Hroom; [discriminate|exact Hg].
Qed.

Lemma new_group_within pool cl fl fw G :
  new_group pool cl fl fw = Some G -> group_within G.
Proof.
  unfold new_group, group_within, near.
  destruct cl as [| | |[|z| | |z f]| | |]; simpl; try discriminate;
    try (destruct (_ || _); [discriminate|]; intros [= <-]; reflexivity).
  - destruct (0 <? z) eqn:Hz; simpl; [|discriminate].
    destruct (_ || _); [discriminate|]. intros [= <-]. simpl.
    apply Z.ltb_lt in Hz. apply Z.ltb_lt. lia.
  - destruct (0 <=? z) eqn:Hz; simpl; [|discriminate].
    destruct (_ || _); [discriminate|]. intros [= <-]. simpl.
    apply Z.leb_le in Hz. apply Z.leb_le. lia.
Qed.

Lemma within_snoc_group G w :
  group_within G -> within_limits w -> within_limits (set_groups (groups w ++ [G]) w).
Proof.
  intros HG Hw g G' E. simpl in E.
  destruct (groups w !! g) as [G0|] eqn:E0.
  - rewrite lookup_app_l in E by (eapply lookup_lt_Some; eauto).
    apply (Hw g G'). congruence.
  - apply lookup_ge_None in E0. rewrite lookup_app_r in E by assumption.
    destruct (g - length (groups w))%nat; simpl in E; [|discriminate].
    injection E as <-. exact HG.
Qed.

Lemma within_apply_op o w :
  groups_distinct w -> within_limits w -> within_limits (apply_op o w).
Proof.
  intros Hd Hw.
  destruct o as [pool cl fl fw|pool gg params|t|t|t|t|t v|t now|i|]; simpl.
  - unfold addGroup. destruct (new_group _ _ _ _) as [G|] eqn:EG; [|assumption].
    apply within_snoc_group; [eapply new_group_within; eauto|exact Hw].
  - unfold new_task.
    destruct (if isNull _ then _ else _) as [limit|]; [|assumption].
    destruct (new_group _ _ _ _) as [TG|] eqn:ETG; [|assumption].
    destruct (_ && _); [|assumption].
    match goal with |- context [set_tasks ?l (set_groups ?gs w)] =>
      assert (within_limits (set_tasks l (set_groups gs w))) as H1
        by (eapply within_same; [apply same_counters_groups; reflexivity|];
            apply within_snoc_group; [eapply new_group_within; eauto|exact Hw])
    end.
    destruct (limit_le_zero _).
    + eapply within_same; [apply same_counters_core, core_end|exact H1].
    + eapply within_same; [|exact H1].
      apply same_counters_core, core_forEach. intros; apply core_incrementTasks.
  - destruct (promise t w) as [[r w']|] eqn:E; [|assumption].
    eapply within_same; [eapply same_counters_core, core_promise; eauto|assumption].
  - eapply within_same; [apply same_counters_core, core_pause|assumption].
  - eapply within_same; [apply same_counters_core, core_resume|assumption].
  - eapply within_same; [apply same_counters_core, core_end|assumption].
  - unfold set_limit. destruct (tasks w !! t) as [T|]; [|assumption].
    destruct (isNull v);
      [eapply within_same; [apply same_counters_groups; reflexivity|exact Hw]|].
    destruct v as [| | |n| | |]; try assumption.
    destruct (negb _ && _); [|assumption].
    eapply within_same; [|exact Hw].
    apply (same_counters_trans _ (with_task t (set_invocationLimit n) w));
      [apply same_counters_groups; reflexivity|].
    destruct (num_ge _ n).
    + eapply same_counters_trans; [apply same_counters_core, core_end|].
      apply same_counters_groups. reflexivity.
    + apply same_counters_groups. reflexivity.
  - apply within_schedule; assumption.
  - apply within_complete, Hw.
  - eapply within_same; [apply same_counters_core, core_tick|assumption].
Qed.

Lemma new_task_checked pool gg params w t w' :
  new_task pool gg params w = Some (t, w') ->
  (gg < length (groups w))%nat
  /\ (forall g, g ∈ params_groups params -> (g < length (groups w))%nat).
Proof.
  unfold new_task.
  destruct (if isNull _ then _ else _) as [limit|]; [|discriminate].
  destruct (new_group _ _ _ _) as [TG|]; [|discriminate].
  destruct (bool_decide _ && _) eqn:Hchk; [|discriminate].
  apply andb_prop in Hchk as [Hgg Hgs]. apply bool_decide_eq_true in Hgg.
  intros _. split; [exact Hgg|]. intros g Hg.
  rewrite forallb_forall in Hgs. apply list_elem_of_In in Hg.
  specialize (Hgs g Hg). simpl in Hgs.
  destruct (groups w !! g) eqn:E; [|discriminate].
  eapply lookup_lt_Some; eauto.
Qed.

Lemma groups_distinct_apply_op o w :
  distinct_op o -> groups_distinct w -> groups_distinct (apply_op o w).
Proof.
  intros Ho Hw. destruct o as [pool cl fl fw|pool gg params|t|t|t|t|t v|t now|i|];
    try (apply shaped_apply_op; [exact I|exact Hw]).
  simpl. destruct (new_task pool gg params w) as [[t w']|] eqn:E; [|exact Hw].
  destruct (new_task_checked _ _ _ _ _ _ E) as (Hgg & Hgs).
  eapply shaped_new_task; [|exact E|exact Hw].
  simpl in Ho. apply NoDup_cons in Ho as (Hnot & Hnd).
  simpl. apply NoDup_cons. split.
  - rewrite elem_of_cons. intros [->|H]; [lia|contradiction].
  - apply NoDup_cons. split; [|exact Hnd].
    intros H. specialize (Hgs _ H). lia.
Qed.

(** What C1 says, for [task.ts] under the scheduler of the data model
    (which invokes a task only when [_busyTime()] answers "ready") and for
    tasks that list no group twice: no group ever has more active promises
    than its concurrency limit allows (a limit that is not a whole number
    is passed by less than one).  [_run] itself checks no limit: it raises
    the counter of every group of the task once for every place the group
    takes in the list. *)
Theorem group_limits_hold os : forall w,
  Forall distinct_op os -> groups_distinct w -> within_limits w ->
  within_limits (run_ops os w).
Proof.
  unfold run_ops. induction os as [|o os IH]; intros w Ho Hd Hw; simpl; [exact Hw|].
  apply Forall_cons in Ho as (Ho & Hos).
  apply IH; [exact Hos|apply groups_distinct_apply_op; assumption|].
  apply within_apply_op; assumption.
Qed.

Lemma within_pool_world : groups_distinct pool_world /\ within_limits pool_world.
Proof.
  split.
  - intros t T HT. destruct t; discriminate HT.
  - intros g G HG. destruct g; [|discriminate]. injection HG as <-. reflexivity.
Qed.

(** *** What a start and a completion do to the counters of the groups *)





End TaskFacts.

(* ===================================================================== *)
(** ** The counters, in both generations *)
(* ===================================================================== *)






(* ===================================================================== *)
(** ** More facts about [index.ts] *)
(* ===================================================================== *)

Module PoolFacts.
Import JS Legacy NumFacts LegacyFacts.

Lemma task_steady_refl t : task_steady t t.
Proof. repeat split; auto. Qed.

Lemma task_steady_trans t1 t2 t3 :
  task_steady t1 t2 -> task_steady t2 t3 -> task_steady t1 t3.
Proof.
  intros (a1 & b1 & c1 & d1 & e1 & f1 & g1 & h1 & i1)
         (a2 & b2 & c2 & d2 & e2 & f2 & g2 & h2 & i2).
  repeat split; try congruence; auto.
Qed.

Lemma steady_refl w : steady w w.
Proof.
  repeat split; auto. intros r t H. exists t. split; [exact H|apply task_steady_refl].
Qed.

Lemma steady_trans w1 w2 w3 : steady w1 w2 -> steady w2 w3 -> steady w1 w3.
Proof.
  intros (A1 & B1 & C1 & D1 & E1 & F1 & G1) (A2 & B2 & C2 & D2 & E2 & F2 & G2).
  split; [congruence|]. split; [congruence|]. split; [congruence|].
  split; [congruence|]. split; [|split].
  - intros r t1 H1. destruct (E1 r t1 H1) as (t2 & H2 & S12).
    destruct (E2 r t2 H2) as (t3 & H3 & S23). exists t3. split; [exact H3|].
    eapply task_steady_trans; eauto.
  - congruence.
  - congruence.
Qed.

Lemma sd_with_task w x r f :
  (forall t, task_steady t (f t)) -> steady w x -> steady w (with_task r f x).
Proof.
  intros Hf Hx. eapply steady_trans; [exact Hx|].
  unfold with_task. split; [reflexivity|]. split; [reflexivity|]. split; [reflexivity|].
  split; [apply length_alter|]. split; [|split; auto].
  simpl. intros r' t E. destruct (decide (r = r')) as [->|Hne].
  - rewrite list_lookup_alter_eq, E. simpl. eauto.
  - rewrite list_lookup_alter_ne by assumption. exists t. split; [exact E|].
    apply task_steady_refl.
Qed.

Lemma sd_fields w x y :
  _concurrencyLimit y = _concurrencyLimit x ->
  _activePromiseCount y = _activePromiseCount x ->
  inflights y = inflights x -> heap y = heap x ->
  _taskMap y = _taskMap x -> _tasks y = _tasks x ->
  steady w x -> steady w y.
Proof.
  intros A B C D E F Hx. eapply steady_trans; [exact Hx|].
  unfold steady. rewrite A, B, C, D, E, F. apply steady_refl.
Qed.

Lemma sd_set_idle w x l d : steady w x -> steady w (set_idle l d x).
Proof. apply sd_fields; reflexivity. Qed.
Lemma sd_set_tasksInit w x n : steady w x -> steady w (set_tasksInit n x).
Proof. apply sd_fields; reflexivity. Qed.
Lemma sd_set_timers w x l : steady w x -> steady w (set_timers l x).
Proof. apply sd_fields; reflexivity. Qed.
Lemma sd_set_vars w x l : steady w x -> steady w (set_vars l x).
Proof. apply sd_fields; reflexivity. Qed.
Lemma sd_set_symbols w x n : steady w x -> steady w (set_symbols n x).
Proof. apply sd_fields; reflexivity. Qed.
Lemma sd_set_idle_fresh w x n : steady w x -> steady w (set_idle_fresh n x).
Proof. apply sd_fields; reflexivity. Qed.

(** [Map.get] after [Map.delete] and after [Map.set]. *)
Lemma map_get_delete i j m :
  map_get j (map_delete i m) = if decide (j = i) then None else map_get j m.
Proof.
  unfold map_get, map_delete. induction m as [|[k r] m IH]; simpl.
  - destruct (decide (j = i)); reflexivity.
  - rewrite filter_cons. simpl. destruct (decide (k ≠ i)) as [Hk|Hk]; simpl.
    + case_bool_decide as Hkj.
      * subst k. destruct (decide (j = i)); [contradiction|reflexivity].
      * exact IH.
    + apply dec_stable in Hk. subst k. case_bool_decide as Hij.
      * subst j. rewrite IH. destruct (decide (i = i)); [reflexivity|contradiction].
      * rewrite IH. reflexivity.
Qed.



Lemma elem_of_splice_task r r' l : r' ∈ splice_task r l -> r' ∈ l.
Proof.
  unfold splice_task. destruct (indexOf r l) as [i|].
  - apply elem_of_delete.
  - intros [j Hj]%list_elem_of_lookup.
    destruct (decide (j < length l - 1)%nat).
    + rewrite lookup_take_lt in Hj by assumption.
      eapply list_elem_of_lookup_2; eauto.
    + apply lookup_lt_Some in Hj. rewrite length_take in Hj. lia.
Qed.

Ltac sd_task :=
  intros ?; unfold resolveInstance, rejectInstance;
  repeat match goal with |- context [match promise ?t with _ => _ end] =>
    destruct (promise t) end;
  repeat split; auto.

Ltac sd_step :=
  first
    [ assumption
    | apply steady_refl
    | apply sd_with_task; [ sd_task | ]
    | apply sd_set_idle
    | apply sd_set_tasksInit | apply sd_set_timers | apply sd_set_vars
    | apply sd_set_symbols | apply sd_set_idle_fresh ].

Ltac sd := repeat sd_step.

Lemma sd_errorTask w x r e : steady w x -> steady w (errorTask r e x).
Proof.
  intros Hx. unfold errorTask, errorIdle, add_timer.
  destruct (heap x !! r) as [t|]; [|assumption].
  destruct (negb (errored t)); [destruct (negb (init t))|];
    match goal with |- context [if ?c then _ else _] => destruct c end; sd.
Qed.

(** [retire] either does nothing or, after a steady step, takes the task
    out of [_tasks] and [_taskMap]. *)
Lemma retire_spec r w :
  retire r w = w
  \/ exists t w1,
       heap w !! r = Some t /\ exhausted t = true /\ activeCount t <= 0
       /\ steady w w1
       /\ retire r w = set_taskMap (map_delete (tid t) (_taskMap w))
                         (set_tasks (splice_task r (_tasks w)) w1).
Proof.
  unfold retire, add_timer. destruct (heap w !! r) as [t|]; [|left; reflexivity].
  destruct (exhausted t) eqn:Hex; [|left; reflexivity].
  destruct (activeCount t <=? 0) eqn:Hle; [|left; reflexivity].
  apply Z.leb_le in Hle. right. simpl andb. cbv iota.
  exists t.
  destruct (negb (errored t)); [destruct (init t)|];
    (eexists; split; [reflexivity|]; split; [exact Hex|]; split; [exact Hle|];
     split; [|reflexivity]); sd.
Qed.

Lemma heap_retire r w r' t :
  heap w !! r' = Some t ->
  exists t', heap (retire r w) !! r' = Some t' /\ task_steady t t'.
Proof.
  intros E. destruct (retire_spec r w) as [->|(t0 & w1 & _ & _ & _ & Hs & ->)].
  - exists t. split; [exact E|apply task_steady_refl].
  - destruct Hs as (_ & _ & _ & _ & H & _). apply (H r' t E).
Qed.

Lemma sd_settle_idle w x : steady w x -> steady w (settle_idle x).
Proof.
  intros Hx. unfold settle_idle, resolveIdle, add_timer.
  destruct (idling x); [|assumption].
  destruct (_tasksInit x =? 0); sd.
Qed.

Lemma sd_stopTask w x i : steady w x -> steady w (snd (stopTask i x)).
Proof.
  intros Hx. unfold stopTask. destruct (map_get i (_taskMap x)); simpl; sd.
Qed.

Lemma sd_fire_timer w x j : steady w x -> steady w (fire_timer j x).
Proof.
  intros Hx. unfold fire_timer, errorIdle, resolveIdle.
  destruct (timers x !! j) as [[]|]; [..|assumption]; sd.
  match goal with |- context [if ?c then _ else _] => destruct c end; sd.
Qed.

Lemma sd_waitForIdle w x : steady w x -> steady w (snd (waitForIdle x)).
Proof.
  intros Hx. unfold waitForIdle. destruct (idling x); simpl; sd.
Qed.

Lemma sd_resolve_id w x i : steady w x -> steady w (snd (resolve_id i x)).
Proof.
  intros Hx. unfold resolve_id.
  destruct i as [i|]; [destruct (id_truthy i)|]; simpl; sd.
Qed.

Lemma sd_checkGenericTask w x p :
  steady w x -> steady w (snd (checkGenericTask p x)).
Proof.
  intros Hx. unfold checkGenericTask.
  pose proof (sd_resolve_id w x (gp_id p) Hx) as Hr.
  destruct (resolve_id (gp_id p) x) as [i w0]. simpl in Hr.
  destruct (map_has i (_taskMap w0)); [exact Hr|].
  destruct (or_infinity (gp_invocationLimit p)) as [| | |il| | |]; try exact Hr.
  destruct (num_le il (Fin 0)); [exact Hr|].
  destruct (or_infinity (gp_concurrencyLimit p)) as [| | |cl| | |]; try exact Hr.
  destruct (num_le cl (Fin 0)); exact Hr.
Qed.

(** *** What lasts of a task *)

Lemma lasting_refl w : lasting w w.
Proof. intros r t H. exists t. repeat split; auto. Qed.

Lemma lasting_trans w1 w2 w3 : lasting w1 w2 -> lasting w2 w3 -> lasting w1 w3.
Proof.
  intros H1 H2 r t1 E1.
  destruct (H1 r t1 E1) as (t2 & E2 & a1 & b1 & c1 & d1 & e1 & f1 & g1).
  destruct (H2 r t2 E2) as (t3 & E3 & a2 & b2 & c2 & d2 & e2 & f2 & g2).
  exists t3. split; [exact E3|]. repeat split; try congruence; try lia.
  - apply f2, f1. assumption.
  - destruct (f1 H) as [x1 y1]. destruct (f2 x1) as [x2 y2]. congruence.
  - auto.
Qed.

Lemma steady_lasting w w' : steady w w' -> lasting w w'.
Proof.
  intros (_ & _ & _ & _ & H & _) r t E.
  destruct (H r t E) as (t' & E' & a & b & c & d & e & f & g & h & i).
  exists t'. split; [exact E'|]. repeat split; auto; lia.
Qed.

Lemma lasting_heap w w' : heap w' = heap w -> lasting w w'.
Proof. intros H r t E. exists t. rewrite H. repeat split; auto. Qed.

Lemma lasting_registerTask t w : lasting w (snd (registerTask t w)).
Proof.
  intros r t0 E. exists t0. unfold registerTask, add_timer. simpl.
  rewrite lookup_app_l by (eapply lookup_lt_Some; eauto).
  repeat split; auto.
Qed.

Lemma lasting_retire r w : lasting w (retire r w).
Proof.
  intros r' t E. destruct (heap_retire r w r' t E) as (t' & E' & a & b & c & d & e & f & g & h & i).
  exists t'. split; [exact E'|]. repeat split; auto; lia.
Qed.

Lemma begin_invocation_other r r' f w :
  r' <> r -> heap (begin_invocation r f w) !! r' = heap w !! r'.
Proof.
  intros Hne. unfold begin_invocation. destruct (heap w !! r); [|reflexivity].
  unfold with_task. simpl. apply list_lookup_alter_ne. congruence.
Qed.

(** A call of the generator of a task that is not exhausted. *)
Lemma lasting_begin w w1 r t f :
  heap w !! r = Some t -> exhausted t = false ->
  lasting w w1 -> lasting w (begin_invocation r f w1).
Proof.
  intros Et Hex H1 r' t' E'. destruct (H1 r' t' E') as (t1 & E1 & a & b & c & d & e & g & h).
  destruct (decide (r' = r)) as [->|Hne].
  - assert (t' = t) as -> by congruence.
    unfold begin_invocation. rewrite E1. unfold with_task. simpl.
    rewrite list_lookup_alter_eq. simpl. rewrite E1. simpl.
    eexists. split; [reflexivity|].
    destruct (num_ge _ _); simpl; repeat split; auto; try lia; try congruence.
  - exists t1. rewrite begin_invocation_other by assumption.
    split; [exact E1|]. repeat split; auto; apply g; assumption.
Qed.

Lemma lasting_exec fuel :
  (forall idx w w', triggerLoop fuel idx w = Some w' -> lasting w w')
  /\ (forall r t w w', heap w !! r = Some t -> exhausted t = false ->
        startPromise fuel r w = Some w' -> lasting w w')
  /\ (forall s w o w', run_script fuel s w = Some (o, w') -> lasting w w')
  /\ (forall r w w', nextPromise fuel r w = Some w' -> lasting w w')
  /\ (forall p w a w', addGenericTask fuel p w = Some (a, w') -> lasting w w').
Proof.
  induction fuel as [|fuel (IHloop & IHstart & IHrun & IHnext & IHadd)].
  { repeat split; intros; discriminate. }
  split; [|split; [|split; [|split]]].
  - (* triggerLoop *)
    intros idx w w'. cbn [triggerLoop].
    destruct (num_lt (Fin (_activePromiseCount w)) (_concurrencyLimit w));
      [|intros [= <-]; apply lasting_refl].
    destruct (idx <? length (_tasks w))%nat; [|intros [= <-]; apply lasting_refl].
    cbn [andb].
    destruct (_tasks w !! idx) as [r|]; [|discriminate].
    destruct (heap w !! r) as [t|] eqn:Et; [|discriminate].
    destruct (exhausted t) eqn:Hex; cbn [negb andb].
    + apply IHloop.
    + destruct (num_lt (Fin (activeCount t)) (concurrencyLimit t)).
      * destruct (startPromise fuel r w) as [w1|] eqn:E1; [|discriminate].
        intros H. eapply lasting_trans; [|eapply IHloop; exact H].
        eapply IHstart; eauto.
      * apply IHloop.
  - (* startPromise *)
    intros r t w w' Et Hex. cbn [startPromise]. rewrite Et.
    destruct (run_script fuel _ w) as [[[e|v] w1]|] eqn:E1; [| |discriminate].
    + intros [= <-]. eapply lasting_trans; [eapply IHrun; exact E1|].
      apply steady_lasting, sd_errorTask, steady_refl.
    + destruct (falsy v).
      * intros H. eapply lasting_trans; [eapply IHrun; exact E1|].
        eapply lasting_trans; [|eapply IHnext; exact H].
        apply steady_lasting. sd.
      * intros [= <-]. eapply lasting_begin; eauto.
  - (* run_script *)
    intros s w o w'. cbn [run_script]. destruct s as [o1|x k|x v k|i g cl il k|i k|i k].
    + intros [= <- <-]. apply lasting_refl.
    + destruct (vars w !! x); [|intros [= <- <-]; apply lasting_refl]. apply IHrun.
    + intros H. eapply lasting_trans; [|eapply IHrun; exact H].
      apply lasting_heap. reflexivity.
    + destruct (addGenericTask fuel _ w) as [[a w1]|] eqn:E1; [|discriminate].
      intros H. eapply lasting_trans; [eapply IHadd; exact E1|eapply IHrun; exact H].
    + intros H. eapply lasting_trans; [|eapply IHrun; exact H].
      apply steady_lasting, sd_stopTask, steady_refl.
    + apply IHrun.
  - (* nextPromise *)
    intros r w w'. cbn [nextPromise].
    destruct (triggerLoop fuel 0 (retire r w)) as [w1|] eqn:E1; [|discriminate].
    intros [= <-].
    eapply lasting_trans; [apply lasting_retire|].
    eapply lasting_trans; [eapply IHloop; exact E1|].
    apply steady_lasting, sd_settle_idle, steady_refl.
  - (* addGenericTask *)
    intros p w a w'. cbn [addGenericTask].
    pose proof (sd_checkGenericTask w w p (steady_refl w)) as Hc.
    destruct (checkGenericTask p w) as [[a0|t] w0] eqn:Ec; simpl in Hc.
    + intros [= <- <-]. apply steady_lasting, Hc.
    + pose proof (lasting_registerTask t w0) as Hr.
      destruct (registerTask t w0) as [r w1]. simpl in Hr.
      destruct (triggerLoop fuel 0 w1) as [w2|] eqn:E2; [|discriminate].
      intros [= <- <-].
      eapply lasting_trans; [apply steady_lasting, Hc|].
      eapply lasting_trans; [exact Hr|]. eapply IHloop; exact E2.
Qed.

Lemma lasting_nextPromise fuel r w w' : nextPromise fuel r w = Some w' -> lasting w w'.
Proof. destruct (lasting_exec fuel) as (_ & _ & _ & H & _). apply H. Qed.

Lemma lasting_addGenericTask fuel p w a w' :
  addGenericTask fuel p w = Some (a, w') -> lasting w w'.
Proof. destruct (lasting_exec fuel) as (_ & _ & _ & _ & H). apply H. Qed.

Lemma lasting_complete fuel i w w' : complete fuel i w = Some w' -> lasting w w'.
Proof.
  unfold complete. destruct (inflights w !! i) as [p|]; [|intros [= <-]; apply lasting_refl].
  destruct (p_fate p) as [v|e].
  - intros H. eapply lasting_trans; [|eapply lasting_nextPromise; exact H].
    intros r t E. unfold with_task. simpl.
    destruct (decide (p_task p = r)) as [<-|Hne].
    + rewrite list_lookup_alter_eq, E. simpl. eexists. split; [reflexivity|].
      repeat split; auto.
    + rewrite list_lookup_alter_ne by assumption. exists t. repeat split; auto.
  - intros [= <-]. eapply lasting_trans; [apply steady_lasting, sd_errorTask, steady_refl|].
    apply lasting_heap. reflexivity.
Qed.

Lemma lasting_addBatchTask fuel p w a w' :
  addBatchTask fuel p w = Some (a, w') -> lasting w w'.
Proof.
  unfold addBatchTask. destruct (invalid_batch_size _); [intros [= <- <-]; apply lasting_refl|].
  pose proof (sd_resolve_id (set_vars (vars w ++ [Fin 0]) w) _ (bp_id p) (steady_refl _)) as Hr.
  destruct (resolve_id (bp_id p) _) as [i w1]. simpl in Hr.
  intros H. eapply lasting_trans; [|eapply lasting_addGenericTask; exact H].
  eapply lasting_trans; [|apply steady_lasting, Hr]. apply lasting_heap. reflexivity.
Qed.

Lemma lasting_apply_op fuel o w w' : apply_op fuel o w = Some w' -> lasting w w'.
Proof.
  destruct o as [p|p|i| |i|j]; simpl.
  - destruct (addGenericTask fuel p w) as [[a w1]|] eqn:E; [|discriminate].
    intros [= <-]. eapply lasting_addGenericTask; exact E.
  - destruct (addBatchTask fuel p w) as [[a w1]|] eqn:E; [|discriminate].
    intros [= <-]. eapply lasting_addBatchTask; exact E.
  - intros [= <-]. apply steady_lasting, sd_stopTask, steady_refl.
  - intros [= <-]. apply steady_lasting, sd_waitForIdle, steady_refl.
  - apply lasting_complete.
  - intros [= <-]. apply steady_lasting, sd_fire_timer, steady_refl.
Qed.

Lemma lasting_run_ops fuel os : forall w w', run_ops fuel os w = Some w' -> lasting w w'.
Proof.
  induction os as [|o os IH]; intros w w'; simpl.
  - intros [= <-]. apply lasting_refl.
  - destruct (apply_op fuel o w) as [w1|] eqn:E; [|discriminate].
    intros H. eapply lasting_trans; [eapply lasting_apply_op; exact E|apply IH, H].
Qed.

(** *** The task map *)













(** *** The constructor *)

(** X1.  The constructor of the pool.  It throws exactly when the
    argument is truthy and is not a number or is a number [<= 0]; a falsy
    argument ([undefined], [null], [0], [NaN], the empty string) makes the
    limit [Infinity].  A pool that is constructed has a positive limit, all
    of it free, is idling and knows no task. *)
Theorem new_pool_checks_limit c :
  match new_pool c with
  | None => truthy c = true /\ (typeof c <> TyNumber \/ le_zero c = true)
  | Some w =>
      (truthy c = false \/ (typeof c = TyNumber /\ le_zero c = false))
      /\ VNum (_concurrencyLimit w) = or_infinity c
      /\ num_lt (Fin 0) (_concurrencyLimit w) = true
      /\ freeSlots w = _concurrencyLimit w
      /\ idling w = true
      /\ forall i, getTaskStatus i w = None
  end.
Proof.
  unfold new_pool, or_infinity. destruct (truthy c) eqn:Ht.
  - destruct c as [| |b|n|s|m|k]; try discriminate Ht;
      try (split; [reflexivity|left; discriminate]).
    destruct (num_le n (Fin 0)) eqn:Hle.
    + split; [reflexivity|right; exact Hle].
    + split; [right; split; [reflexivity|exact Hle]|].
      split; [reflexivity|].
      destruct n as [|z| | |z f]; try discriminate.
      * cbn in Hle. apply Z.leb_gt in Hle.
        split; [apply Z.ltb_lt; exact Hle|].
        split; [unfold freeSlots; cbn; f_equal; lia|].
        split; reflexivity.
      * split; [reflexivity|]. split; [reflexivity|]. split; reflexivity.
      * cbn in Hle. apply Z.ltb_ge in Hle.
        split; [apply Z.leb_le; exact Hle|].
        split; [unfold freeSlots; cbn [_concurrencyLimit _activePromiseCount];
                apply num_sub_0_r|].
        split; reflexivity.
  - cbn. split; [left; reflexivity|]. split; [reflexivity|].
    split; [reflexivity|]. split; [reflexivity|]. split; reflexivity.
Qed.

(** *** A task that has ended *)

(** A task (id 7) whose generator stops its own task and returns an
    operation all the same: the invocation under way is counted. *)
Example task_stopped_by_its_generator :
  match w0 ← new_pool VUndefined;
        run_ops 20 [OpAddGeneric (mkParams (Some (IdVal (VNum (Fin 7))))
                                    self_stopping_generator VUndefined VUndefined)] w0
  with
  | Some w =>
      (exhausted <$> heap w !! 0%nat) = Some true
      /\ (invocations <$> heap w !! 0%nat) = Some 1%nat
      /\ length (inflights w) = 1%nat
  | None => False
  end.
Proof. vm_compute. repeat split. Qed.



(** *** Tasks that are turned away *)

Lemma or_infinity_above v n :
  or_infinity v = VNum n -> num_le n (Fin 0) = false -> num_lt (Fin 0) n = true.
Proof.
  unfold or_infinity. destruct (truthy v) eqn:Ev.
  - intros ->. destruct n as [|z| | |z f]; cbn in *; try discriminate; auto.
    + intros H. apply Z.leb_gt in H. apply Z.ltb_lt. lia.
    + intros H. apply Z.ltb_ge in H. apply Z.leb_le. lia.
  - intros [= <-]. reflexivity.
Qed.

Lemma checkGenericTask_inr p w t w0 :
  checkGenericTask p w = (inr t, w0) ->
  tid t = fst (resolve_id (gp_id p) w)
  /\ generator t = gp_generator p
  /\ VNum (concurrencyLimit t) = or_infinity (gp_concurrencyLimit p)
  /\ VNum (invocationLimit t) = or_infinity (gp_invocationLimit p)
  /\ num_lt (Fin 0) (concurrencyLimit t) = true
  /\ num_lt (Fin 0) (invocationLimit t) = true
  /\ activeCount t = 0 /\ invocations t = 0%nat
  /\ exhausted t = false /\ errored t = false
  /\ map_has (tid t) (_taskMap w) = false.
Proof.
  unfold checkGenericTask.
  pose proof (sd_resolve_id w w (gp_id p) (steady_refl w)) as (_ & _ & _ & _ & _ & Hm & _).
  destruct (resolve_id (gp_id p) w) as [i w1]. simpl in *.
  destruct (map_has i (_taskMap w1)) eqn:Hhas; [discriminate|].
  destruct (or_infinity (gp_invocationLimit p)) as [| | |il| | |] eqn:Eil; try discriminate.
  destruct (num_le il (Fin 0)) eqn:Hil; [discriminate|].
  destruct (or_infinity (gp_concurrencyLimit p)) as [| | |cl| | |] eqn:Ecl; try discriminate.
  destruct (num_le cl (Fin 0)) eqn:Hcl; [discriminate|].
  intros [= <- <-]. simpl. rewrite <- Hm.
  repeat split; auto; eapply or_infinity_above; eauto.
Qed.

Lemma checkGenericTask_inl p w a w0 :
  checkGenericTask p w = (inl a, w0) ->
  w0 = snd (resolve_id (gp_id p) w)
  /\ match a with
     | AddPromise _ => False
     | AddResolved a' =>
         a' = [] /\ le_zero (or_infinity (gp_invocationLimit p)) = true
     | AddRejected _ => True
     end.
Proof.
  unfold checkGenericTask. destruct (resolve_id (gp_id p) w) as [i w1]. simpl.
  destruct (map_has i (_taskMap w1)); [intros [= <- <-]; auto|].
  destruct (or_infinity (gp_invocationLimit p)) as [| | |il| | |];
    try (intros [= <- <-]; auto).
  destruct (num_le il (Fin 0)) eqn:Hil; [intros [= <- <-]; auto|].
  destruct (or_infinity (gp_concurrencyLimit p)) as [| | |cl| | |];
    try (intros [= <- <-]; auto).
  destruct (num_le cl (Fin 0)); intros [= <- <-]; auto.
Qed.

Lemma checkGenericTask_duplicate p w :
  map_has (fst (resolve_id (gp_id p) w)) (_taskMap w) = true ->
  fst (checkGenericTask p w)
  = inl (AddRejected (VStr "The id used for this task already exists.")).
Proof.
  unfold checkGenericTask.
  pose proof (sd_resolve_id w w (gp_id p) (steady_refl w)) as (_ & _ & _ & _ & _ & Hm & _).
  destruct (resolve_id (gp_id p) w) as [i w1]. simpl in *. rewrite Hm.
  intros ->. reflexivity.
Qed.

(** The task behind the promise [addGenericTask] hands out. *)
Lemma addGenericTask_promise fuel p w r w' :
  addGenericTask fuel p w = Some (AddPromise r, w') ->
  r = length (heap w)
  /\ exists t,
       heap w' !! r = Some t
       /\ tid t = fst (resolve_id (gp_id p) w)
       /\ generator t = gp_generator p
       /\ VNum (concurrencyLimit t) = or_infinity (gp_concurrencyLimit p)
       /\ VNum (invocationLimit t) = or_infinity (gp_invocationLimit p)
       /\ map_has (tid t) (_taskMap w) = false.
Proof.
  destruct fuel as [|fuel]; [discriminate|]. cbn [addGenericTask].
  pose proof (sd_checkGenericTask w w p (steady_refl w)) as Hc.
  destruct (checkGenericTask p w) as [[a0|t] w0] eqn:Ec; simpl in Hc.
  - intros [= -> <-]. destruct (checkGenericTask_inl _ _ _ _ Ec) as (_ & []).
  - destruct (checkGenericTask_inr _ _ _ _ Ec)
      as (Hid & Hg & Hcl & Hil & _ & _ & _ & _ & _ & _ & Hfree).
    assert (length (heap w0) = length (heap w)) as Hlen by apply Hc.
    assert (fst (registerTask t w0) = length (heap w0)
            /\ heap (snd (registerTask t w0)) !! length (heap w0) = Some t) as (Hr & Ht).
    { unfold registerTask, add_timer. simpl. split; [reflexivity|].
      rewrite lookup_app_r by lia. rewrite Nat.sub_diag. reflexivity. }
    destruct (registerTask t w0) as [r0 w1]. simpl in Hr, Ht. subst r0.
    destruct (triggerLoop fuel 0 w1) as [w2|] eqn:E2; [|discriminate].
    intros [= <- <-]. split; [exact Hlen|].
    destruct (proj1 (lasting_exec fuel) _ _ _ E2 _ _ Ht)
      as (t' & E' & a1 & b1 & c1 & d1 & _).
    exists t'. split; [exact E'|]. rewrite a1, b1, c1, d1. auto.
Qed.

Lemma addGenericTask_refused fuel p w a w' :
  addGenericTask fuel p w = Some (a, w') -> (forall r, a <> AddPromise r) ->
  w' = snd (resolve_id (gp_id p) w)
  /\ match a with
     | AddResolved a' => a' = [] /\ le_zero (or_infinity (gp_invocationLimit p)) = true
     | _ => True
     end.
Proof.
  destruct fuel as [|fuel]; [discriminate|]. cbn [addGenericTask].
  destruct (checkGenericTask p w) as [[a0|t] w0] eqn:Ec.
  - intros [= <- <-] _. destruct (checkGenericTask_inl _ _ _ _ Ec) as (Hw & Ha).
    split; [exact Hw|]. destruct a0; auto.
  - destruct (registerTask t w0) as [r0 w1].
    destruct (triggerLoop fuel 0 w1) as [w2|]; [|discriminate].
    intros [= <- <-] H. destruct (H r0 eq_refl).
Qed.

Lemma addGenericTask_duplicate fuel p w a w' :
  addGenericTask fuel p w = Some (a, w') ->
  map_has (fst (resolve_id (gp_id p) w)) (_taskMap w) = true ->
  a = AddRejected (VStr "The id used for this task already exists.").
Proof.
  destruct fuel as [|fuel]; [discriminate|]. cbn [addGenericTask].
  intros H Hd. pose proof (checkGenericTask_duplicate p w Hd) as Hc.
  destruct (checkGenericTask p w) as [[a0|t] w0]; simpl in Hc; [|discriminate].
  injection Hc as ->. injection H as <- <-. reflexivity.
Qed.

(** The checks of [addGenericTask], in their order: the id, the type of
    the invocation limit, its sign, the concurrency limit. *)
Lemma checkGenericTask_cases p w :
  let i := fst (resolve_id (gp_id p) w) in
  let w0 := snd (resolve_id (gp_id p) w) in
  let cl := or_infinity (gp_concurrencyLimit p) in
  let il := or_infinity (gp_invocationLimit p) in
  (map_has i (_taskMap w) = true ->
     checkGenericTask p w
     = (inl (AddRejected (VStr "The id used for this task already exists.")), w0))
  /\ (map_has i (_taskMap w) = false -> typeof il <> TyNumber ->
        checkGenericTask p w = (inl (AddRejected (VStr "Invalid invocation limit: ")), w0))
  /\ (map_has i (_taskMap w) = false -> typeof il = TyNumber -> le_zero il = true ->
        checkGenericTask p w = (inl (AddResolved []), w0))
  /\ (map_has i (_taskMap w) = false -> typeof il = TyNumber -> le_zero il = false ->
        typeof cl <> TyNumber \/ le_zero cl = true ->
        checkGenericTask p w = (inl (AddRejected (VErr "Invalid concurrency limit: ")), w0)).
Proof.
  cbv zeta. unfold checkGenericTask.
  pose proof (sd_resolve_id w w (gp_id p) (steady_refl w)) as (_ & _ & _ & _ & _ & Hm & _).
  destruct (resolve_id (gp_id p) w) as [i w0]. simpl in *. rewrite Hm.
  split; [intros ->; reflexivity|].
  split; [|split].
  - intros -> Hty.
    destruct (or_infinity (gp_invocationLimit p)) as [| | |il| | |]; try reflexivity.
    contradiction Hty. reflexivity.
  - intros -> Hty Hle.
    destruct (or_infinity (gp_invocationLimit p)) as [| | |il| | |]; try discriminate Hty.
    simpl in Hle. rewrite Hle. reflexivity.
  - intros -> Hty Hle Hcl.
    destruct (or_infinity (gp_invocationLimit p)) as [| | |il| | |]; try discriminate Hty.
    simpl in Hle. rewrite Hle.
    destruct (or_infinity (gp_concurrencyLimit p)) as [| | |cl| | |]; try reflexivity.
    destruct Hcl as [Hcl|Hcl]; [contradiction Hcl; reflexivity|].
    simpl in Hcl. rewrite Hcl. reflexivity.
Qed.

(** X2.  [addGenericTask] turns a task away, or registers it.  It
    rejects an id that is in use; then an invocation limit that is not a
    number ([Infinity] stands in for a limit that is falsy); it resolves on
    the spot with the empty array when the invocation limit is [<= 0]; and
    it rejects a concurrency limit that is not a number or is [<= 0].  Each
    of these is what the call returns, and it leaves the pool as it was (but
    for the symbol made for a task without id).  Whenever it returns
    anything else, it hands out the promise of a task: a new object with
    the id given (or a fresh symbol) that was not in use, the generator
    given and the limits given, both numbers above zero. *)
Theorem added_task_is_registered_or_refused p w :
  let i := fst (resolve_id (gp_id p) w) in
  let w0 := snd (resolve_id (gp_id p) w) in
  let cl := or_infinity (gp_concurrencyLimit p) in
  let il := or_infinity (gp_invocationLimit p) in
  (forall fuel,
     map_has i (_taskMap w) = true ->
     addGenericTask (S fuel) p w
     = Some (AddRejected (VStr "The id used for this task already exists."), w0))
  /\ (forall fuel,
        map_has i (_taskMap w) = false -> typeof il <> TyNumber ->
        addGenericTask (S fuel) p w
        = Some (AddRejected (VStr "Invalid invocation limit: "), w0))
  /\ (forall fuel,
        map_has i (_taskMap w) = false -> typeof il = TyNumber -> le_zero il = true ->
        addGenericTask (S fuel) p w = Some (AddResolved [], w0))
  /\ (forall fuel,
        map_has i (_taskMap w) = false -> typeof il = TyNumber -> le_zero il = false ->
        typeof cl <> TyNumber \/ le_zero cl = true ->
        addGenericTask (S fuel) p w
        = Some (AddRejected (VErr "Invalid concurrency limit: "), w0))
  /\ (forall fuel a w',
        addGenericTask fuel p w = Some (a, w') ->
        match a with
        | AddPromise r =>
            r = length (heap w)
            /\ map_has i (_taskMap w) = false
            /\ exists t,
                 heap w' !! r = Some t
                 /\ tid t = i /\ generator t = gp_generator p
                 /\ VNum (concurrencyLimit t) = cl /\ VNum (invocationLimit t) = il
                 /\ num_lt (Fin 0) (concurrencyLimit t) = true
                 /\ num_lt (Fin 0) (invocationLimit t) = true
        | AddResolved a' => a' = [] /\ le_zero il = true /\ w' = w0
        | AddRejected e => w' = w0
        end).
Proof.
  cbv zeta. destruct (checkGenericTask_cases p w) as (C1 & C2 & C3 & C4). cbv zeta in *.
  split; [intros fuel H; cbn [addGenericTask]; rewrite (C1 H); reflexivity|].
  split; [intros fuel H1 H2; cbn [addGenericTask]; rewrite (C2 H1 H2); reflexivity|].
  split; [intros fuel H1 H2 H3; cbn [addGenericTask]; rewrite (C3 H1 H2 H3); reflexivity|].
  split; [intros fuel H1 H2 H3 H4; cbn [addGenericTask]; rewrite (C4 H1 H2 H3 H4);
          reflexivity|].
  intros fuel a w' H. destruct a as [e|a'|r].
  - apply (addGenericTask_refused _ _ _ _ _ H). discriminate.
  - destruct (addGenericTask_refused _ _ _ _ _ H) as (Hw & -> & Hl); [discriminate|]. auto.
  - destruct (addGenericTask_promise _ _ _ _ _ H)
      as (Hr & t & Ht & Hid & Hg & Hcl & Hil & Hfree).
    split; [exact Hr|]. rewrite Hid in Hfree. split; [exact Hfree|].
    exists t. repeat (split; [assumption|]).
    destruct fuel as [|fuel]; [discriminate|]. cbn [addGenericTask] in H.
    destruct (checkGenericTask p w) as [[a0|t0] w1] eqn:Ec.
    { injection H as -> _. destruct (checkGenericTask_inl _ _ _ _ Ec) as (_ & []). }
    destruct (checkGenericTask_inr _ _ _ _ Ec)
      as (_ & _ & Hcl0 & Hil0 & Pcl & Pil & _).
    assert (concurrencyLimit t = concurrencyLimit t0
            /\ invocationLimit t = invocationLimit t0) as (-> & ->);
      [|split; assumption].
    rewrite <- Hcl in Hcl0. rewrite <- Hil in Hil0.
    injection Hcl0 as ->. injection Hil0 as ->. split; reflexivity.
Qed.

Lemma added_task_is_registered_or_refused_witness :
  exists w0 w1,
    new_pool (VNum (Fin 1)) = Some w0
    /\ addGenericTask 20 (mkParams (Some (IdVal (VNum (Fin 7))))
                            (fun _ => Ret (pending_promise VNull))
                            VUndefined VUndefined) w0
       = Some (AddPromise 0, w1)
    /\ addGenericTask 20 (mkParams (Some (IdVal (VNum (Fin 7))))
                            (fun _ => Ret (pending_promise VNull))
                            VUndefined VUndefined) w1
       = Some (AddRejected (VStr "The id used for this task already exists."), w1)
    /\ addGenericTask 20 (mkParams None (fun _ => Ret (pending_promise VNull))
                            (VNum (Fin (-1))) VUndefined) w0
       = Some (AddRejected (VErr "Invalid concurrency limit: "),
               set_symbols 1 w0).
Proof.
  set (g := fun _ : nat => Ret (pending_promise VNull)).
  set (i := IdVal (VNum (Fin 7))).
  set (p := mkParams (Some i) g VUndefined VUndefined).
  set (w0 := mkPool (Fin 1) 0 [] [] [] 0 [] [] [] [] 0%nat 0%nat []).
  set (w1 := mkPool (Fin 1) 1 [0%nat] [(i, 0%nat)] [] 1
               [mkTask i g 1 PInf 1%nat PInf [] false false true Unsettled]
               [mkInflight 0 0 (WillResolve VNull)] [TInitDone 0] [] 0%nat 0%nat []).
  exists w0, w1.
  split; [reflexivity|]. split; [vm_compute; reflexivity|]. split.
  - exact (proj1 (added_task_is_registered_or_refused p w1) 19%nat eq_refl).
  - exact (proj1 (proj2 (proj2 (proj2
             (added_task_is_registered_or_refused (mkParams None g (VNum (Fin (-1)))
                                                     VUndefined) w0))))
             19%nat eq_refl eq_refl eq_refl (or_intror eq_refl)).
Defined.

(** *** Tasks over batches *)






(** *** Taking a task out of the pool *)

Lemma indexOf_Some r l : forall i,
  indexOf r l = Some i ->
  l !! i = Some r /\ forall j, (j < i)%nat -> l !! j <> Some r.
Proof.
  induction l as [|x l IH]; intros i; simpl; [discriminate|].
  destruct (x =? r)%nat eqn:E.
  - intros [= <-]. apply Nat.eqb_eq in E. subst x. split; [reflexivity|]. intros j Hj. lia.
  - destruct (indexOf r l) as [i'|]; [|discriminate]. intros [= <-].
    destruct (IH i' eq_refl) as (H1 & H2). split; [exact H1|].
    intros [|j] Hj; simpl.
    + apply Nat.eqb_neq in E. congruence.
    + apply H2. lia.
Qed.

Lemma indexOf_None r l : indexOf r l = None <-> r ∉ l.
Proof.
  induction l as [|x l IH]; simpl.
  - split; [intros _; apply not_elem_of_nil|reflexivity].
  - rewrite not_elem_of_cons. destruct (x =? r)%nat eqn:E.
    + apply Nat.eqb_eq in E. subst x. split; [discriminate|]. intros [H _]. contradiction.
    + apply Nat.eqb_neq in E. destruct (indexOf r l) as [i|]; simpl.
      * split; [discriminate|]. intros [_ H]. apply IH in H. discriminate.
      * split; [|reflexivity]. intros _. split; [congruence|]. apply IH. reflexivity.
Qed.

(** X10.  The first half of [nextPromise], for a task that is exhausted
    and has nothing in flight: the task is taken out of [_taskMap], and out
    of [_tasks] at its first position; when it is not in [_tasks] (it was
    taken out before), [indexOf] answers [-1], and [splice(-1, 1)] takes the
    last task of [_tasks] out instead. *)
Theorem retire_takes_the_task_or_the_last r w t :
  heap w !! r = Some t -> exhausted t = true -> activeCount t <= 0 ->
  (r ∈ _tasks w ->
     exists i, _tasks w !! i = Some r
               /\ (forall j, (j < i)%nat -> _tasks w !! j <> Some r)
               /\ _tasks (retire r w) = delete i (_tasks w))
  /\ (r ∉ _tasks w ->
        _tasks (retire r w) = take (length (_tasks w) - 1) (_tasks w))
  /\ map_get (tid t) (_taskMap (retire r w)) = None.
Proof.
  intros Ht Hex Hle.
  assert (_tasks (retire r w) = splice_task r (_tasks w)
          /\ _taskMap (retire r w) = map_delete (tid t) (_taskMap w)) as (HT & HM).
  { unfold retire, add_timer. rewrite Ht, Hex. apply Z.leb_le in Hle. rewrite Hle. simpl.
    destruct (negb (errored t)); [destruct (init t)|]; split; reflexivity. }
  rewrite HT, HM. unfold splice_task. split; [|split].
  - intros Hin. destruct (indexOf r (_tasks w)) as [i|] eqn:E.
    + destruct (indexOf_Some _ _ _ E) as (H1 & H2). exists i. auto.
    + apply indexOf_None in E. contradiction.
  - intros Hnot. apply indexOf_None in Hnot. rewrite Hnot. reflexivity.
  - rewrite map_get_delete. destruct (decide (tid t = tid t)); [reflexivity|contradiction].
Qed.

(** A task that [nextPromise] is called for twice (its generator added a
    task to the pool) is not in [_tasks] the second time, and the task the
    generator has added goes in its place: with [delegating_ops] the first
    task (heap position 0) is the only one left in [_tasks], the third
    (position 2) has an invocation in flight and is not started again. *)
Lemma retire_takes_the_task_or_the_last_witness :
  exists w0 w t,
    pool_with_vars 2 [Fin 1] = Some w0
    /\ run_ops 30 delegating_ops w0 = Some w
    /\ heap w !! 1%nat = Some t
    /\ _tasks w = [0%nat]
    /\ _tasks (retire 1 w) = [].
Proof.
  assert (exists w, run_ops 30 delegating_ops
                      (mkPool (Fin 2) 0 [] [] [] 0 [] [] [] [Fin 1] 0%nat 0%nat []) = Some w)
    as [w Hw] by (eexists; vm_compute; reflexivity).
  assert (exists t, heap w !! 1%nat = Some t /\ exhausted t = true /\ activeCount t <= 0
                    /\ _tasks w = [0%nat]) as (t & Ht & Hex & Hle & HT).
  { revert Hw. vm_compute. intros [= <-]. eexists. repeat split. discriminate. }
  exists (mkPool (Fin 2) 0 [] [] [] 0 [] [] [] [Fin 1] 0%nat 0%nat []), w, t.
  split; [reflexivity|]. split; [exact Hw|]. split; [exact Ht|]. split; [exact HT|].
  destruct (retire_takes_the_task_or_the_last 1 w t Ht Hex Hle) as (_ & H & _).
  rewrite H; rewrite HT; [reflexivity|].
  rewrite list_elem_of_singleton. discriminate.
Defined.

(** *** Invariants of a pool whose generators add no task *)

Lemma quiet_steady fuel : forall s w o w',
  quiet s -> run_script fuel s w = Some (o, w') -> steady w w'.
Proof.
  induction fuel as [|fuel IH]; intros s w o w' Hq; [discriminate|].
  cbn [run_script]. destruct Hq as [o1|x k Hk|x v k Hk|i k Hk|i k Hk].
  - intros [= <- <-]. apply steady_refl.
  - destruct (vars w !! x); [|intros [= <- <-]; apply steady_refl].
    intros H. eapply IH; [apply Hk|exact H].
  - intros H. eapply steady_trans; [|eapply IH; [exact Hk|exact H]]. sd.
  - intros H. eapply steady_trans; [|eapply IH; [exact Hk|exact H]].
    apply sd_stopTask, steady_refl.
  - intros H. eapply IH; [apply Hk|exact H].
Qed.

Lemma quiet_pool_forward w w' :
  length (heap w') = length (heap w) ->
  (forall r t, heap w !! r = Some t ->
     exists t', heap w' !! r = Some t' /\ generator t' = generator t) ->
  quiet_pool w -> quiet_pool w'.
Proof.
  intros Hlen Hf Hq r t' i E'.
  destruct (lookup_lt_is_Some_2 (heap w) r) as [t E].
  { rewrite <- Hlen. eapply lookup_lt_Some; eauto. }
  destruct (Hf r t E) as (t'' & E'' & Hg).
  assert (t'' = t') as -> by congruence. rewrite Hg. eapply Hq; eauto.
Qed.

Lemma quiet_pool_steady w w' : steady w w' -> quiet_pool w -> quiet_pool w'.
Proof.
  intros (_ & _ & _ & Hlen & Hh & _). apply quiet_pool_forward; [exact Hlen|].
  intros r t E. destruct (Hh r t E) as (t' & E' & _ & Hg & _). eauto.
Qed.

Lemma quiet_pool_with_task r f w :
  (forall t, generator (f t) = generator t) -> quiet_pool w -> quiet_pool (with_task r f w).
Proof.
  intros Hf. apply quiet_pool_forward; [apply length_alter|].
  intros r' t E. unfold with_task. simpl. destruct (decide (r = r')) as [->|Hne].
  - rewrite list_lookup_alter_eq, E. simpl. eauto.
  - rewrite list_lookup_alter_ne by assumption. eauto.
Qed.

Lemma quiet_pool_heap w w' : heap w' = heap w -> quiet_pool w -> quiet_pool w'.
Proof. intros H Hq r t i. rewrite H. apply Hq. Qed.

Lemma quiet_pool_retire r w : quiet_pool w -> quiet_pool (retire r w).
Proof.
  destruct (retire_spec r w) as [->|(t & w1 & _ & _ & _ & Hs & ->)]; [auto|].
  intros Hq. eapply quiet_pool_heap; [|eapply quiet_pool_steady; eauto]. reflexivity.
Qed.

Lemma quiet_pool_begin r f w : quiet_pool w -> quiet_pool (begin_invocation r f w).
Proof.
  intros Hq. unfold begin_invocation. destruct (heap w !! r) as [t|]; [|exact Hq].
  match goal with |- quiet_pool (set_inflights _ ?x) =>
    apply (quiet_pool_heap x); [reflexivity|] end.
  apply quiet_pool_with_task.
  - intros t0. destruct (num_ge _ _); reflexivity.
  - eapply quiet_pool_heap; [|exact Hq]. reflexivity.
Qed.

Lemma quiet_pool_registerTask t w :
  (forall i, quiet (generator t i)) -> quiet_pool w -> quiet_pool (snd (registerTask t w)).
Proof.
  intros Ht Hq r t' i. unfold registerTask, add_timer. simpl.
  destruct (decide (r < length (heap w))%nat).
  - rewrite lookup_app_l by assumption. apply Hq.
  - rewrite lookup_app_r by lia. destruct (r - length (heap w))%nat; [|discriminate].
    intros [= <-]. apply Ht.
Qed.

Section QuietInvariant.

(** The invariant, and what must hold of a task when [nextPromise] is
    called for it. *)
Variable I : pool -> Prop.
Variable N : nat -> pool -> Prop.

Hypothesis I_steady : forall w w', I w -> steady w w' -> I w'.

Hypothesis I_begin : forall fuel w w1 idx r t v,
  I w -> _tasks w !! idx = Some r -> heap w !! r = Some t ->
  exhausted t = false ->
  num_lt (Fin (_activePromiseCount w)) (_concurrencyLimit w) = true ->
  num_lt (Fin (activeCount t)) (concurrencyLimit t) = true ->
  steady w w1 ->
  run_script fuel (generator t (invocations t)) w = Some (Returns v, w1) ->
  falsy v = false ->
  I (begin_invocation r (as_promise v) w1).

Hypothesis I_last : forall w w1 idx r t,
  I w -> _tasks w !! idx = Some r -> heap w !! r = Some t ->
  exhausted t = false -> steady w w1 ->
  N r (with_task r (set_exhausted true) w1).

Hypothesis I_retire : forall r w, I w -> N r w -> I (retire r w).

Hypothesis I_register : forall p w t w0,
  I w -> checkGenericTask p w = (inr t, w0) -> I (snd (registerTask t w0)).

Hypothesis I_finish : forall w i p v,
  I w -> inflights w !! i = Some p -> p_fate p = WillResolve v ->
  let w3 :=
    with_task (p_task p)
      (fun t => set_result (arr_set (p_index p) v (result t))
                  (set_activeCount (activeCount t - 1) t))
      (set_active (_activePromiseCount w - 1)
         (set_inflights (delete i (inflights w)) w)) in
  I w3 /\ N (p_task p) w3.

Hypothesis I_caught : forall w i p,
  I w -> inflights w !! i = Some p ->
  I (set_inflights
       (<[i := mkInflight (p_task p) (p_index p) (WillResolve VUndefined)]> (inflights w))
       w).

Lemma quiet_inv_steady w w' : quiet_inv I w -> steady w w' -> quiet_inv I w'.
Proof.
  intros (Hi & Hq) Hs. split; [eapply I_steady; eauto|eapply quiet_pool_steady; eauto].
Qed.

Lemma quiet_exec fuel :
  (forall idx w w', quiet_inv I w -> triggerLoop fuel idx w = Some w' -> quiet_inv I w')
  /\ (forall idx r t w w', quiet_inv I w -> _tasks w !! idx = Some r -> heap w !! r = Some t ->
        exhausted t = false ->
        num_lt (Fin (_activePromiseCount w)) (_concurrencyLimit w) = true ->
        num_lt (Fin (activeCount t)) (concurrencyLimit t) = true ->
        startPromise fuel r w = Some w' -> quiet_inv I w')
  /\ (forall r w w', quiet_inv I w -> N r w -> nextPromise fuel r w = Some w' -> quiet_inv I w')
  /\ (forall p w a w', quiet_inv I w -> (forall i, quiet (gp_generator p i)) ->
        addGenericTask fuel p w = Some (a, w') -> quiet_inv I w').
Proof.
  induction fuel as [|fuel (IHloop & IHstart & IHnext & IHadd)].
  { repeat split; intros; discriminate. }
  split; [|split; [|split]].
  - (* triggerLoop *)
    intros idx w w' Hw. cbn [triggerLoop].
    destruct (num_lt (Fin (_activePromiseCount w)) (_concurrencyLimit w)) eqn:Hp;
      [|intros [= <-]; exact Hw].
    destruct (idx <? length (_tasks w))%nat; [|intros [= <-]; exact Hw].
    cbn [andb].
    destruct (_tasks w !! idx) as [r|] eqn:Er; [|discriminate].
    destruct (heap w !! r) as [t|] eqn:Et; [|discriminate].
    destruct (exhausted t) eqn:Hex; cbn [negb andb].
    + intros H. eapply IHloop; eauto.
    + destruct (num_lt (Fin (activeCount t)) (concurrencyLimit t)) eqn:Hc.
      * destruct (startPromise fuel r w) as [w1|] eqn:E1; [|discriminate].
        intros H. eapply IHloop; [|exact H]. eapply IHstart; eauto.
      * intros H. eapply IHloop; eauto.
  - (* startPromise *)
    intros idx r t w w' Hw Er Et Hex Hp Hc. cbn [startPromise]. rewrite Et.
    destruct (run_script fuel _ w) as [[[e|v] w1]|] eqn:E1; [| |discriminate].
    + intros [= <-]. eapply quiet_inv_steady; [exact Hw|].
      apply sd_errorTask. eapply quiet_steady; [|exact E1].
      destruct Hw as (_ & Hq). eapply Hq; eauto.
    + assert (steady w w1) as Hs.
      { eapply quiet_steady; [|exact E1]. destruct Hw as (_ & Hq). eapply Hq; eauto. }
      destruct (falsy v) eqn:Hv.
      * intros H. eapply IHnext; [| |exact H].
        -- eapply quiet_inv_steady; [exact Hw|]. sd.
        -- destruct Hw as (Hi & _). eapply I_last; eauto.
      * intros [= <-]. split.
        -- destruct Hw as (Hi & _). eapply I_begin; eauto.
        -- apply quiet_pool_begin. eapply quiet_pool_steady; [exact Hs|apply Hw].
  - (* nextPromise *)
    intros r w w' Hw Hn. cbn [nextPromise].
    destruct (triggerLoop fuel 0 (retire r w)) as [w1|] eqn:E1; [|discriminate].
    intros [= <-]. eapply quiet_inv_steady; [|apply sd_settle_idle, steady_refl].
    eapply IHloop; [|exact E1]. destruct Hw as (Hi & Hq).
    split; [apply I_retire; assumption|apply quiet_pool_retire, Hq].
  - (* addGenericTask *)
    intros p w a w' Hw Hq. cbn [addGenericTask].
    pose proof (sd_checkGenericTask w w p (steady_refl w)) as Hc.
    destruct (checkGenericTask p w) as [[a0|t] w0] eqn:Ec; simpl in Hc.
    + intros [= <- <-]. eapply quiet_inv_steady; eauto.
    + destruct (checkGenericTask_inr _ _ _ _ Ec) as (_ & Hg & _).
      pose proof (I_register p w t w0 (proj1 Hw) Ec) as Hr.
      pose proof (quiet_pool_registerTask t w0) as Hr'.
      destruct (registerTask t w0) as [r w1]. simpl in Hr, Hr'.
      destruct (triggerLoop fuel 0 w1) as [w2|] eqn:E2; [|discriminate].
      intros [= <- <-]. eapply IHloop; [|exact E2].
      split; [exact Hr|]. apply Hr'.
      * intros i. rewrite Hg. apply Hq.
      * eapply quiet_pool_steady; [exact Hc|apply Hw].
Qed.

Lemma quiet_apply_op fuel o w w' :
  quiet_inv I w -> quiet_op o -> apply_op fuel o w = Some w' -> quiet_inv I w'.
Proof.
  intros Hw Hq. destruct (quiet_exec fuel) as (_ & _ & Hnext & Hadd).
  destruct o as [p|p|i| |i|j]; simpl in *.
  - destruct (addGenericTask fuel p w) as [[a w1]|] eqn:E; [|discriminate].
    intros [= <-]. eapply Hadd; eauto.
  - unfold addBatchTask.
    destruct (invalid_batch_size (bp_batchSize p)); [intros [= <-]; exact Hw|].
    pose proof (sd_resolve_id w (set_vars (vars w ++ [Fin 0]) w) (bp_id p)
                  ltac:(sd)) as Hr.
    destruct (resolve_id (bp_id p) _) as [i w1]. simpl in Hr.
    destruct (addGenericTask fuel _ w1) as [[a w2]|] eqn:E; [|discriminate].
    intros [= <-]. eapply Hadd; [| |exact E].
    + eapply quiet_inv_steady; eauto.
    + simpl. apply quiet_batch_generator, Hq.
  - intros [= <-]. eapply quiet_inv_steady; [exact Hw|]. apply sd_stopTask, steady_refl.
  - intros [= <-]. eapply quiet_inv_steady; [exact Hw|]. apply sd_waitForIdle, steady_refl.
  - unfold complete. destruct (inflights w !! i) as [p|] eqn:Hi; [|intros [= <-]; exact Hw].
    destruct (p_fate p) as [v|e] eqn:Hf.
    + intros H. destruct (I_finish w i p v (proj1 Hw) Hi Hf) as (H3 & Hn).
      eapply Hnext; [|exact Hn|exact H]. split; [exact H3|].
      apply quiet_pool_with_task; [reflexivity|].
      eapply quiet_pool_heap; [|apply Hw]. reflexivity.
    + intros [= <-].
      assert (steady w (errorTask (p_task p) e w)) as Hs
        by apply sd_errorTask, steady_refl.
      pose proof (quiet_inv_steady _ _ Hw Hs) as (H1 & H1').
      split.
      * apply I_caught; [exact H1|].
        replace (inflights (errorTask (p_task p) e w)) with (inflights w)
          by (symmetry; apply Hs). exact Hi.
      * eapply quiet_pool_heap; [|exact H1']. reflexivity.
  - intros [= <-]. eapply quiet_inv_steady; [exact Hw|]. apply sd_fire_timer, steady_refl.
Qed.

Lemma quiet_run_ops fuel os : forall w w',
  I w -> quiet_pool w -> Forall quiet_op os -> run_ops fuel os w = Some w' ->
  I w' /\ quiet_pool w'.
Proof.
  induction os as [|o os IH]; intros w w' Hi Hq Hos; simpl.
  - intros [= <-]. split; assumption.
  - destruct (apply_op fuel o w) as [w1|] eqn:E; [|discriminate].
    apply Forall_cons in Hos as (Ho & Hos).
    destruct (quiet_apply_op fuel o w w1 (conj Hi Hq) Ho E) as (Hi1 & Hq1).
    apply IH; assumption.
Qed.

End QuietInvariant.

(** *** Properties of every task *)

Lemma heap_begin_invocation r f w t :
  heap w !! r = Some t -> heap (begin_invocation r f w) !! r = Some (started t).
Proof.
  intros E. unfold begin_invocation. rewrite E. unfold with_task. simpl.
  rewrite list_lookup_alter_eq, E. reflexivity.
Qed.

Lemma steady_backward w w' r t' :
  steady w w' -> heap w' !! r = Some t' ->
  exists t, heap w !! r = Some t /\ task_steady t t'.
Proof.
  intros (_ & _ & _ & Hlen & Hh & _) E'.
  destruct (lookup_lt_is_Some_2 (heap w) r) as [t E].
  { rewrite <- Hlen. eapply lookup_lt_Some; eauto. }
  destruct (Hh r t E) as (t'' & E'' & Hs). exists t. split; [exact E|]. congruence.
Qed.

Section TaskInvariant.

Variable P : task -> Prop.

Hypothesis P_steady : forall t t', task_steady t t' -> P t -> P t'.
Hypothesis P_finish : forall t a n, P t -> P (set_result a (set_activeCount n t)).
Hypothesis P_new : forall p w t w0, checkGenericTask p w = (inr t, w0) -> P t.
Hypothesis P_begin : forall fuel w w1 t t1 v,
  P t -> P t1 -> task_steady t t1 -> exhausted t = false ->
  num_lt (Fin (activeCount t)) (concurrencyLimit t) = true ->
  run_script fuel (generator t (invocations t)) w = Some (Returns v, w1) ->
  falsy v = false ->
  P (started t1).

Lemma every_task_steady w w' : every_task P w -> steady w w' -> every_task P w'.
Proof.
  intros H Hs r t' E'. destruct (steady_backward _ _ _ _ Hs E') as (t & E & Ht).
  eapply P_steady; eauto.
Qed.

Lemma every_task_heap w w' : heap w' = heap w -> every_task P w -> every_task P w'.
Proof. intros Hh H r t. rewrite Hh. apply H. Qed.

Lemma every_task_run_ops fuel os w w' :
  every_task P w -> quiet_pool w -> Forall quiet_op os ->
  run_ops fuel os w = Some w' ->
  every_task P w' /\ quiet_pool w'.
Proof.
  apply (quiet_run_ops (every_task P) (fun _ _ => True)).
  - apply every_task_steady.
  - intros f w0 w1 idx r t v Hi Er Et Hex Hp Hc Hs Hrun Hv r' t' E'.
    pose proof (every_task_steady _ _ Hi Hs) as H1.
    destruct (Hs) as (_ & _ & _ & _ & Hh & _).
    destruct (Hh r t Et) as (t1 & E1 & Ht1).
    destruct (decide (r' = r)) as [->|Hne].
    + rewrite (heap_begin_invocation _ _ _ _ E1) in E'. injection E' as <-.
      eapply (P_begin f w0 w1 t t1 v); eauto.
    + rewrite begin_invocation_other in E' by assumption. eapply H1; eauto.
  - auto.
  - intros r w0 Hi _. destruct (retire_spec r w0) as [->|(t & w1 & _ & _ & _ & Hs & ->)];
      [exact Hi|].
    eapply every_task_heap; [|eapply every_task_steady; eauto]. reflexivity.
  - intros p w0 t w1 Hi Ec r t'. unfold registerTask, add_timer. simpl.
    pose proof (sd_checkGenericTask w0 w0 p (steady_refl w0)) as Hc.
    rewrite Ec in Hc. simpl in Hc. pose proof (every_task_steady _ _ Hi Hc) as H1.
    destruct (decide (r < length (heap w1))%nat).
    + rewrite lookup_app_l by assumption. apply H1.
    + rewrite lookup_app_r by lia. destruct (r - length (heap w1))%nat; [|discriminate].
      intros [= <-]. eapply P_new; eauto.
  - intros w0 i p v Hi Hp Hf. split; [|exact I].
    intros r t. unfold with_task. simpl. destruct (decide (p_task p = r)) as [<-|Hne].
    + rewrite list_lookup_alter_eq. destruct (heap w0 !! p_task p) as [t0|] eqn:E0;
        [|discriminate].
      intros [= <-]. apply P_finish. eapply Hi; eauto.
    + rewrite list_lookup_alter_ne by assumption. apply Hi.
  - intros w0 i p Hi Hp. eapply every_task_heap; [|exact Hi]. reflexivity.
Qed.

End TaskInvariant.

Lemma started_fields t :
  invocations (started t) = S (invocations t)
  /\ invocationLimit (started t) = invocationLimit t
  /\ generator (started t) = generator t
  /\ (exhausted (started t) = false ->
      num_ge (Fin (Z.of_nat (S (invocations t)))) (invocationLimit t) = false).
Proof.
  unfold started. simpl invocations. simpl invocationLimit.
  destruct (num_ge _ _) eqn:E; simpl; repeat split; auto.
Qed.

Lemma capped_run_ops fuel os w w' :
  every_task capped_task w -> quiet_pool w -> Forall quiet_op os ->
  run_ops fuel os w = Some w' ->
  every_task capped_task w' /\ quiet_pool w'.
Proof.
  apply every_task_run_ops.
  - intros t t' (_ & _ & _ & Hl & Hi & _ & _ & Hex & _) (H1 & H2).
    unfold capped_task. rewrite Hl, Hi. split; [exact H1|].
    intros H. apply H2. destruct (exhausted t); [|reflexivity].
    rewrite Hex in H by reflexivity. discriminate.
  - intros t a n H. exact H.
  - intros p w0 t w1 Ec.
    destruct (checkGenericTask_inr _ _ _ _ Ec) as (_ & _ & _ & _ & _ & Hil & _ & Hi & _).
    unfold capped_task. rewrite Hi. simpl Z.of_nat. split; [|intros _; exact Hil].
    apply near_le, num_lt_le, Hil.
  - intros f w0 w1 t t1 v (_ & H2) _ (_ & _ & _ & Hl & Hi & _) Hne _ _ _.
    specialize (H2 Hne). rewrite <- Hl, <- Hi in H2.
    destruct (started_fields t1) as (Si & Sl & _ & Sx).
    unfold capped_task. rewrite Si, Sl.
    split.
    + replace (Z.of_nat (S (invocations t1))) with (Z.of_nat (invocations t1) + 1) by lia.
      apply near_succ, H2.
    + intros Hx. eapply num_lt_room; [exact H2|apply Sx, Hx].
Qed.

Lemma quiet_each_generator p :
  (forall v i, quiet (ep_generator p v i)) -> forall i, quiet (each_generator p i).
Proof.
  intros Hq i. unfold each_generator. destruct (_ <=? _)%nat; [constructor|apply Hq].
Qed.

Lemma each_run_ops fuel os w w' :
  every_task each_task_bound w -> quiet_pool w -> Forall quiet_op os ->
  run_ops fuel os w = Some w' ->
  every_task each_task_bound w' /\ quiet_pool w'.
Proof.
  apply every_task_run_ops.
  - intros t t' (_ & Hg & _ & _ & Hi & _) H p. rewrite Hg, Hi. apply H.
  - intros t a n H. exact H.
  - intros p w0 t w1 Ec q _.
    destruct (checkGenericTask_inr _ _ _ _ Ec) as (_ & _ & _ & _ & _ & _ & _ & Hi & _).
    rewrite Hi. lia.
  - intros f w0 w1 t t1 v _ _ (_ & Hg & _ & _ & Hi & _) _ _ Hrun Hv p.
    destruct (started_fields t1) as (Si & _ & Sg & _). rewrite Si, Sg, Hg, Hi.
    intros Hgen. rewrite Hgen in Hrun.
    destruct (decide (invocations t < length (ep_data p))%nat) as [Hlt|Hge]; [lia|].
    exfalso. unfold each_generator in Hrun.
    destruct (Nat.leb_spec (length (ep_data p)) (invocations t)) as [_|Hlt]; [|lia].
    destruct f as [|f]; [discriminate|]. cbn [run_script] in Hrun.
    injection Hrun as <- <-. discriminate.
Qed.

Lemma every_task_new_pool P c w : new_pool c = Some w -> every_task P w.
Proof.
  unfold new_pool. destruct (or_infinity c) as [| | |n| | |]; try discriminate.
  destruct (num_le n (Fin 0)); [discriminate|]. intros [= <-] r t E.
  destruct r; discriminate E.
Qed.

Lemma quiet_pool_new_pool c w : new_pool c = Some w -> quiet_pool w.
Proof.
  unfold new_pool. destruct (or_infinity c) as [| | |n| | |]; try discriminate.
  destruct (num_le n (Fin 0)); [discriminate|]. intros [= <-] r t i E.
  destruct r; discriminate E.
Qed.

(** *** The limits of the tasks *)

Lemma run_ops_app fuel os1 os2 w w1 w2 :
  run_ops fuel os1 w = Some w1 -> run_ops fuel os2 w1 = Some w2 ->
  run_ops fuel (os1 ++ os2) w = Some w2.
Proof.
  revert w. induction os1 as [|o os1 IH]; intros w; simpl.
  - intros [= <-]. auto.
  - destruct (apply_op fuel o w) as [w'|]; [|discriminate]. apply IH.
Qed.

(** X5.  With generators that add no task to the pool, in every state
    the operations lead to from a new pool the invocations of a task are
    less than one above its invocation limit ([invocations - 1 <
    invocationLimit]): [startPromise] marks the task exhausted when
    [invocations >= invocationLimit], and [triggerPromises] starts no
    exhausted task, so a task that is not exhausted is below its limit.
    For a limit that is a whole number or [Infinity] this is [invocations
    <= invocationLimit].  No check of [addGenericTask] asks for a whole
    number: with [invocationLimit: 2.5] a task is invoked three times (the
    witness), with [0.5] once. *)
Theorem invocations_stay_within_limit fuel os c w0 w r t :
  new_pool c = Some w0 -> Forall quiet_op os -> run_ops fuel os w0 = Some w ->
  heap w !! r = Some t ->
  near (Z.of_nat (invocations t)) (invocationLimit t)
  /\ (whole (invocationLimit t) = true ->
      num_le (Fin (Z.of_nat (invocations t))) (invocationLimit t) = true)
  /\ (exhausted t = false ->
      num_lt (Fin (Z.of_nat (invocations t))) (invocationLimit t) = true).
Proof.
  intros H0 Hq Hrun Ht.
  destruct (capped_run_ops fuel os w0 w (every_task_new_pool _ _ _ H0)
              (quiet_pool_new_pool _ _ H0) Hq Hrun) as (H & _).
  destruct (H r t Ht) as (H1 & H2).
  split; [exact H1|]. split; [intros Hw; apply near_whole; assumption|exact H2].
Qed.

(** What a task added to a reachable pool is like afterwards. *)
Lemma added_task_later fuel c os1 w0 w p r w1 os2 w2 :
  new_pool c = Some w0 -> Forall quiet_op os1 -> run_ops fuel os1 w0 = Some w ->
  (forall i, quiet (gp_generator p i)) ->
  addGenericTask fuel p w = Some (AddPromise r, w1) ->
  Forall quiet_op os2 -> run_ops fuel os2 w1 = Some w2 ->
  exists t,
    heap w2 !! r = Some t
    /\ generator t = gp_generator p
    /\ VNum (concurrencyLimit t) = or_infinity (gp_concurrencyLimit p)
    /\ VNum (invocationLimit t) = or_infinity (gp_invocationLimit p)
    /\ capped_task t /\ each_task_bound t
    /\ near (activeCount t) (concurrencyLimit t)
    /\ activeCount t = Z.of_nat (length (inflight_of r w2)).
Proof.
  intros H0 Hq1 Hrun1 Hp Hadd Hq2 Hrun2.
  destruct (addGenericTask_promise _ _ _ _ _ Hadd) as (_ & t1 & E1 & _ & Hg & Hcl & Hil & _).
  destruct (lasting_run_ops _ _ _ _ Hrun2 r t1 E1) as (t & E & _ & b & c' & d & _).
  assert (run_ops fuel (os1 ++ [OpAddGeneric p] ++ os2) w0 = Some w2) as Hrun.
  { eapply run_ops_app; [exact Hrun1|]. simpl. rewrite Hadd. simpl. exact Hrun2. }
  assert (Forall quiet_op (os1 ++ [OpAddGeneric p] ++ os2)) as Hq.
  { apply Forall_app. split; [exact Hq1|]. apply Forall_cons. split; [exact Hp|exact Hq2]. }
  destruct (capped_run_ops fuel _ w0 w2 (every_task_new_pool _ _ _ H0)
              (quiet_pool_new_pool _ _ H0) Hq Hrun) as (Hcap & _).
  destruct (each_run_ops fuel _ w0 w2 (every_task_new_pool _ _ _ H0)
              (quiet_pool_new_pool _ _ H0) Hq Hrun) as (Heach & _).
  destruct (limits_hold_for_quiet_generators fuel _ w0 w2 (bounded_new_pool _ _ H0) Hq Hrun)
    as ((_ & Hwithin) & _).
  destruct (pool_counts_run_ops fuel _ w0 w2 (pool_counts_new_pool _ _ H0) Hrun)
    as (_ & Hcount & _).
  exists t. split; [exact E|]. rewrite <- b in Hg. rewrite <- c' in Hcl. rewrite <- d in Hil.
  split; [exact Hg|]. split; [exact Hcl|]. split; [exact Hil|].
  split; [apply (Hcap r t E)|]. split; [apply (Heach r t E)|].
  split; [apply (Hwithin r t E)|apply (Hcount r t E)].
Qed.

(** X7.  [addSingleTask]: the task it registers calls
    [params.generator(params.data)] whatever the invocation number, has
    invocation limit 1, and (generators adding no task) is invoked at most
    once, whatever happens to the pool afterwards. *)
Theorem single_task_is_invoked_at_most_once fuel c os1 w0 w p r w1 os2 w2 :
  new_pool c = Some w0 -> Forall quiet_op os1 -> run_ops fuel os1 w0 = Some w ->
  quiet (sp_generator p (sp_data p)) ->
  addSingleTask fuel p w = Some (AddPromise r, w1) ->
  Forall quiet_op os2 -> run_ops fuel os2 w1 = Some w2 ->
  exists t,
    heap w2 !! r = Some t
    /\ (forall i, generator t i = sp_generator p (sp_data p))
    /\ invocationLimit t = Fin 1
    /\ (invocations t <= 1)%nat.
Proof.
  intros H0 Hq1 Hrun1 Hp Hadd Hq2 Hrun2.
  destruct (added_task_later fuel c os1 w0 w (single_params p) r w1 os2 w2 H0 Hq1 Hrun1
              (fun _ => Hp) Hadd Hq2 Hrun2)
    as (t & E & Hg & _ & Hil & (Hcap & _) & _).
  exists t. split; [exact E|]. split; [intros i; rewrite Hg; reflexivity|].
  simpl in Hil. injection Hil as Hil. split; [exact Hil|].
  rewrite Hil in Hcap. apply near_whole in Hcap; [|reflexivity].
  simpl in Hcap. apply Z.leb_le in Hcap. lia.
Qed.

(** X8.  [addLinearTask]: the task it registers has the generator
    given and concurrency limit 1, and (generators adding no task) never has
    more than one invocation in flight. *)
Theorem linear_task_runs_one_at_a_time fuel c os1 w0 w p r w1 os2 w2 :
  new_pool c = Some w0 -> Forall quiet_op os1 -> run_ops fuel os1 w0 = Some w ->
  (forall i, quiet (lp_generator p i)) ->
  addLinearTask fuel p w = Some (AddPromise r, w1) ->
  Forall quiet_op os2 -> run_ops fuel os2 w1 = Some w2 ->
  exists t,
    heap w2 !! r = Some t
    /\ generator t = lp_generator p
    /\ concurrencyLimit t = Fin 1
    /\ (length (inflight_of r w2) <= 1)%nat.
Proof.
  intros H0 Hq1 Hrun1 Hp Hadd Hq2 Hrun2.
  destruct (added_task_later fuel c os1 w0 w (linear_params p) r w1 os2 w2 H0 Hq1 Hrun1
              Hp Hadd Hq2 Hrun2)
    as (t & E & Hg & Hcl & _ & _ & _ & Hle & Hcount).
  exists t. split; [exact E|]. split; [exact Hg|].
  simpl in Hcl. injection Hcl as Hcl. split; [exact Hcl|].
  rewrite Hcl, Hcount in Hle. apply near_whole in Hle; [|reflexivity].
  simpl in Hle. apply Z.leb_le in Hle. lia.
Qed.

(** X9.  [addEachTask]: the task it registers (generators adding no
    task) is never invoked more often than [params.data] has elements, and
    invocation [i] is the call [params.generator(params.data[i], i)]. *)
Theorem each_task_stays_within_data fuel c os1 w0 w p r w1 os2 w2 :
  new_pool c = Some w0 -> Forall quiet_op os1 -> run_ops fuel os1 w0 = Some w ->
  (forall v i, quiet (ep_generator p v i)) ->
  addEachTask fuel p w = Some (AddPromise r, w1) ->
  Forall quiet_op os2 -> run_ops fuel os2 w1 = Some w2 ->
  exists t,
    heap w2 !! r = Some t
    /\ (invocations t <= length (ep_data p))%nat
    /\ forall i, (i < invocations t)%nat ->
          exists v, ep_data p !! i = Some v /\ generator t i = ep_generator p v i.
Proof.
  intros H0 Hq1 Hrun1 Hp Hadd Hq2 Hrun2.
  destruct (added_task_later fuel c os1 w0 w (each_params p) r w1 os2 w2 H0 Hq1 Hrun1
              (quiet_each_generator p Hp) Hadd Hq2 Hrun2)
    as (t & E & Hg & _ & _ & _ & Heach & _).
  specialize (Heach p Hg).
  exists t. split; [exact E|]. split; [exact Heach|].
  intros i Hi. destruct (lookup_lt_is_Some_2 (ep_data p) i) as [v Hv]; [lia|].
  exists v. split; [exact Hv|]. rewrite Hg. simpl. unfold each_generator.
  destruct (Nat.leb_spec (length (ep_data p)) i) as [Hge|_]; [lia|].
  rewrite Hv. reflexivity.
Qed.

(** *** Tasks that stay in the pool *)

Lemma steady_same_counts w w' : steady w w' -> same_counts w w'.
Proof.
  intros (_ & A & B & C & D & _). split; [exact A|]. split; [exact B|]. split; [lia|].
  intros r t' E'. destruct (heap w !! r) as [t|] eqn:E.
  - destruct (D r t E) as (t'' & E'' & _ & _ & _ & _ & _ & Ha & _). congruence.
  - apply lookup_ge_None in E. apply lookup_lt_Some in E'. lia.
Qed.

Lemma listed_ok_steady w w' : listed_ok w -> steady w w' -> listed_ok w'.
Proof.
  intros (Hc & Hl) Hs. split.
  - eapply pool_counts_same; [exact Hc|apply steady_same_counts, Hs].
  - destruct Hs as (_ & _ & Hi & _ & _ & _ & Ht). intros p. rewrite Hi, Ht. apply Hl.
Qed.

Lemma stuck_steady r w w' : stuck r w -> steady w w' -> stuck r w'.
Proof.
  intros (Hin & (t & E & Hex) & Hno) (_ & _ & Hi & _ & Hh & _ & Ht).
  split; [rewrite Ht; exact Hin|]. split.
  - destruct (Hh r t E) as (t' & E' & _ & _ & _ & _ & _ & _ & _ & Hx & _). eauto.
  - intros p. rewrite Hi. apply Hno.
Qed.

(** A task with no invocation counted has none in flight. *)
Lemma idle_task_not_in_flight w r t :
  counts_ok w -> heap w !! r = Some t -> activeCount t <= 0 ->
  forall p, p ∈ inflights w -> p_task p <> r.
Proof.
  intros (_ & T & _) E Hle p Hp Heq. specialize (T r t E).
  assert (p ∈ inflight_of r w) as Hin.
  { unfold inflight_of. apply list_elem_of_filter. split; assumption. }
  destruct (inflight_of r w); [apply elem_of_nil in Hin; contradiction|].
  simpl in T. lia.
Qed.

Lemma elem_of_splice_other r r' l : r ∈ l -> r' ∈ l -> r' <> r -> r' ∈ splice_task r l.
Proof.
  intros Hr Hr' Hne. unfold splice_task. destruct (indexOf r l) as [i|] eqn:E.
  - destruct (indexOf_Some _ _ _ E) as (Hi & _).
    apply (TaskFacts.elem_of_delete_ne l i r r'); assumption.
  - apply indexOf_None in E. contradiction.
Qed.

Lemma counts_ok_fields w w' :
  _activePromiseCount w' = _activePromiseCount w -> inflights w' = inflights w ->
  heap w' = heap w -> counts_ok w -> counts_ok w'.
Proof.
  intros A B C H. unfold counts_ok, inflight_of in *. rewrite A, B, C. exact H.
Qed.

Lemma listed_ok_retire r w : listed_ok w -> r ∈ _tasks w -> listed_ok (retire r w).
Proof.
  intros Hw Hin.
  destruct (retire_spec r w) as [->|(t & w1 & Et & Hex & Hle & Hs & ->)]; [exact Hw|].
  destruct (listed_ok_steady _ _ Hw Hs) as (Hc1 & Hl1).
  split; [eapply counts_ok_fields; [| | |exact Hc1]; reflexivity|].
  intros p Hp. simpl in *.
  pose proof (idle_task_not_in_flight w r t (proj1 Hw) Et Hle) as Hno.
  destruct Hs as (_ & _ & Hi & _ & _ & _ & Ht). rewrite Hi in Hp.
  apply elem_of_splice_other; [exact Hin|apply Hw, Hp|apply Hno, Hp].
Qed.

Lemma stuck_retire r0 r w :
  counts_ok w -> stuck r w -> r0 ∈ _tasks w -> r0 <> r -> stuck r (retire r0 w).
Proof.
  intros Hc Hst Hin Hne.
  destruct (retire_spec r0 w) as [->|(t & w1 & Et & Hex & Hle & Hs & ->)]; [exact Hst|].
  destruct (stuck_steady _ _ _ Hst Hs) as (Hin1 & Hh1 & Hno1).
  destruct Hst as (Hr & _).
  split; [|split; [exact Hh1|exact Hno1]].
  simpl. apply elem_of_splice_other; auto.
Qed.

Lemma listed_ok_begin r f w :
  listed_ok w -> r ∈ _tasks w -> listed_ok (begin_invocation r f w).
Proof.
  intros (Hc & Hl) Hin. split; [apply pool_counts_begin, Hc|].
  unfold begin_invocation. destruct (heap w !! r) as [t|]; [|exact Hl].
  intros p. simpl. rewrite elem_of_app, list_elem_of_singleton.
  intros [Hp| ->]; [apply Hl, Hp|exact Hin].
Qed.

Lemma stuck_begin r0 r f w :
  stuck r w -> r0 <> r -> stuck r (begin_invocation r0 f w).
Proof.
  intros (Hin & (t & E & Hex) & Hno) Hne. unfold stuck.
  rewrite begin_invocation_other by congruence.
  unfold begin_invocation. destruct (heap w !! r0) as [t0|];
    [|split; [exact Hin|split; [eauto|exact Hno]]].
  simpl. split; [exact Hin|]. split; [eauto|].
  intros p. rewrite elem_of_app, list_elem_of_singleton.
  intros [Hp| ->]; [apply Hno, Hp|exact Hne].
Qed.

Lemma listed_ok_registerTask p w t w0 :
  listed_ok w -> checkGenericTask p w = (inr t, w0) ->
  listed_ok (snd (registerTask t w0)).
Proof.
  intros Hw Ec.
  pose proof (sd_checkGenericTask w w p (steady_refl w)) as Hs.
  rewrite Ec in Hs. simpl in Hs.
  destruct (listed_ok_steady _ _ Hw Hs) as (Hc & Hl).
  destruct (checkGenericTask_inr _ _ _ _ Ec) as (_ & _ & _ & _ & _ & _ & Ha & _).
  split.
  - eapply pool_counts_same; [exact Hc|]. apply sc_registerTask; [exact Ha|].
    apply same_counts_refl.
  - intros q Hq. unfold registerTask, add_timer in *. simpl in *.
    rewrite elem_of_app. left. apply Hl, Hq.
Qed.

Lemma stuck_registerTask r p w t w0 :
  stuck r w -> checkGenericTask p w = (inr t, w0) -> stuck r (snd (registerTask t w0)).
Proof.
  intros Hst Ec.
  pose proof (sd_checkGenericTask w w p (steady_refl w)) as Hs.
  rewrite Ec in Hs. simpl in Hs.
  destruct (stuck_steady _ _ _ Hst Hs) as (Hin & (t0 & E0 & Hex) & Hno).
  unfold stuck, registerTask, add_timer. simpl.
  split; [rewrite elem_of_app; left; exact Hin|]. split; [|exact Hno].
  exists t0. rewrite lookup_app_l by (eapply lookup_lt_Some; eauto). auto.
Qed.

Lemma listed_ok_finished w i p v :
  listed_ok w -> inflights w !! i = Some p ->
  listed_ok
    (with_task (p_task p)
       (fun t => set_result (arr_set (p_index p) v (result t))
                   (set_activeCount (activeCount t - 1) t))
       (set_active (_activePromiseCount w - 1)
          (set_inflights (delete i (inflights w)) w))).
Proof.
  intros (Hc & Hl) Hi. split; [apply pool_counts_finished; assumption|].
  intros q Hq. simpl in *. apply Hl. eapply elem_of_delete; eauto.
Qed.

Lemma stuck_finished r w i p v :
  stuck r w -> 
  stuck r
    (with_task (p_task p)
       (fun t => set_result (arr_set (p_index p) v (result t))
                   (set_activeCount (activeCount t - 1) t))
       (set_active (_activePromiseCount w - 1)
          (set_inflights (delete i (inflights w)) w))).
Proof.
  intros (Hin & (t & E & Hex) & Hno). split; [exact Hin|]. split.
  - unfold with_task. simpl. destruct (decide (p_task p = r)) as [->|Hne].
    + rewrite list_lookup_alter_eq, E. simpl. eauto.
    + rewrite list_lookup_alter_ne by assumption. eauto.
  - intros q Hq. simpl in Hq. apply Hno. eapply elem_of_delete; eauto.
Qed.

Lemma elem_of_caught (l : list inflight) i p q :
  l !! i = Some p ->
  q ∈ <[i := mkInflight (p_task p) (p_index p) (WillResolve VUndefined)]> l ->
  exists q', q' ∈ l /\ p_task q' = p_task q.
Proof.
  intros Hi [j Hj]%list_elem_of_lookup. destruct (decide (i = j)) as [->|Hne].
  - rewrite list_lookup_insert_eq in Hj by (eapply lookup_lt_Some; eauto).
    injection Hj as <-. exists p. split; [eapply list_elem_of_lookup_2; eauto|reflexivity].
  - rewrite list_lookup_insert_ne in Hj by assumption.
    exists q. split; [eapply list_elem_of_lookup_2; eauto|reflexivity].
Qed.

Lemma listed_ok_caught w i p :
  listed_ok w -> inflights w !! i = Some p ->
  listed_ok (set_inflights
               (<[i := mkInflight (p_task p) (p_index p) (WillResolve VUndefined)]>
                  (inflights w)) w).
Proof.
  intros (Hc & Hl) Hi. split; [apply pool_counts_caught; assumption|].
  intros q Hq. simpl in *. destruct (elem_of_caught _ _ _ _ Hi Hq) as (q' & Hq' & <-).
  apply Hl, Hq'.
Qed.

Lemma stuck_caught r w i p :
  stuck r w -> inflights w !! i = Some p ->
  stuck r (set_inflights
             (<[i := mkInflight (p_task p) (p_index p) (WillResolve VUndefined)]>
                (inflights w)) w).
Proof.
  intros (Hin & Hh & Hno) Hi. split; [exact Hin|]. split; [exact Hh|].
  intros q Hq. simpl in Hq. destruct (elem_of_caught _ _ _ _ Hi Hq) as (q' & Hq' & <-).
  apply Hno, Hq'.
Qed.

Lemma listed_ok_run_ops fuel os w w' :
  listed_ok w -> quiet_pool w -> Forall quiet_op os -> run_ops fuel os w = Some w' ->
  listed_ok w' /\ quiet_pool w'.
Proof.
  apply (quiet_run_ops listed_ok (fun r w => r ∈ _tasks w)).
  - apply listed_ok_steady.
  - intros f w0 w1 idx r t v Hi Er Et Hex Hp Hc Hs Hrun Hv.
    apply listed_ok_begin; [eapply listed_ok_steady; eauto|].
    destruct Hs as (_ & _ & _ & _ & _ & _ & Ht). rewrite Ht.
    eapply list_elem_of_lookup_2; eauto.
  - intros w0 w1 idx r t Hi Er Et Hex (_ & _ & _ & _ & _ & _ & Ht). simpl. rewrite Ht.
    eapply list_elem_of_lookup_2; eauto.
  - intros r w0. apply listed_ok_retire.
  - apply listed_ok_registerTask.
  - intros w0 i p v Hi Hp Hf. split; [apply listed_ok_finished; assumption|].
    simpl. apply Hi. eapply list_elem_of_lookup_2; eauto.
  - apply listed_ok_caught.
Qed.

Lemma stuck_run_ops r fuel os w w' :
  listed_ok w /\ stuck r w -> quiet_pool w -> Forall quiet_op os ->
  run_ops fuel os w = Some w' ->
  (listed_ok w' /\ stuck r w') /\ quiet_pool w'.
Proof.
  apply (quiet_run_ops (fun w => listed_ok w /\ stuck r w)
           (fun r0 w => r0 ∈ _tasks w /\ r0 <> r)).
  - intros w0 w1 (H1 & H2) Hs. split; [eapply listed_ok_steady|eapply stuck_steady]; eauto.
  - intros f w0 w1 idx r0 t v (H1 & H2) Er Et Hex Hp Hc Hs Hrun Hv.
    assert (r0 <> r) as Hne.
    { intros ->. destruct H2 as (_ & (t' & E' & Hx) & _). congruence. }
    split.
    + apply listed_ok_begin; [eapply listed_ok_steady; eauto|].
      destruct Hs as (_ & _ & _ & _ & _ & _ & Ht). rewrite Ht.
      eapply list_elem_of_lookup_2; eauto.
    + apply stuck_begin; [eapply stuck_steady; eauto|exact Hne].
  - intros w0 w1 idx r0 t (H1 & H2) Er Et Hex (_ & _ & _ & _ & _ & _ & Ht). simpl.
    split; [rewrite Ht; eapply list_elem_of_lookup_2; eauto|].
    intros ->. destruct H2 as (_ & (t' & E' & Hx) & _). congruence.
  - intros r0 w0 (H1 & H2) (Hin & Hne).
    split; [apply listed_ok_retire; assumption|].
    apply stuck_retire; auto. apply H1.
  - intros p w0 t w1 (H1 & H2) Ec.
    split; [eapply listed_ok_registerTask|eapply stuck_registerTask]; eauto.
  - intros w0 i p v (H1 & H2) Hp Hf.
    assert (p ∈ inflights w0) as Hin by (eapply list_elem_of_lookup_2; eauto).
    split; [split; [apply listed_ok_finished; assumption|apply stuck_finished; assumption]|].
    simpl. split; [apply H1, Hin|]. destruct H2 as (_ & _ & Hno). apply Hno, Hin.
  - intros w0 i p (H1 & H2) Hp.
    split; [apply listed_ok_caught|apply stuck_caught]; assumption.
Qed.

Lemma listed_ok_new_pool c w : new_pool c = Some w -> listed_ok w.
Proof.
  intros H. split; [eapply pool_counts_new_pool; eauto|].
  revert H. unfold new_pool. destruct (or_infinity c) as [| | |n| | |]; try discriminate.
  destruct (num_le n (Fin 0)); [discriminate|]. intros [= <-] p Hp.
  apply elem_of_nil in Hp. contradiction.
Qed.

(** X11.  A task that is exhausted while none of its invocations is in
    flight (it was stopped while it waited for a free slot, or its generator
    threw) stays in [_tasks] for ever: only [nextPromise] takes a task out,
    and it is called for a task when its generator has returned or one of
    its invocations has completed.  So the pool never idles again, and
    [waitForIdle()] hands out a promise that stays pending.  (Generators
    that add no task.) *)
Theorem ended_idle_task_stays_in_pool fuel c os0 w0 w r t os w' :
  new_pool c = Some w0 -> Forall quiet_op os0 -> run_ops fuel os0 w0 = Some w ->
  r ∈ _tasks w -> heap w !! r = Some t -> exhausted t = true -> activeCount t <= 0 ->
  Forall quiet_op os -> run_ops fuel os w = Some w' ->
  r ∈ _tasks w'
  /\ idling w' = false
  /\ exists k, waitForIdle w' = (Some k, snd (waitForIdle w'))
              /\ k ∈ _idlePromises (snd (waitForIdle w')).
Proof.
  intros H0 Hq0 Hrun0 Hin Et Hex Hle Hq Hrun.
  destruct (listed_ok_run_ops fuel os0 w0 w (listed_ok_new_pool _ _ H0)
              (quiet_pool_new_pool _ _ H0) Hq0 Hrun0) as (Hl & Hqp).
  assert (stuck r w) as Hst.
  { split; [exact Hin|]. split; [eauto|].
    eapply idle_task_not_in_flight; eauto. apply Hl. }
  destruct (stuck_run_ops r fuel os w w' (conj Hl Hst) Hqp Hq Hrun)
    as ((_ & (Hin' & _)) & _).
  assert (idling w' = false) as Hidle.
  { unfold idling. destruct (_tasks w'); [apply elem_of_nil in Hin'; contradiction|].
    simpl. apply andb_false_r. }
  split; [exact Hin'|]. split; [exact Hidle|].
  unfold waitForIdle. rewrite Hidle. simpl. eexists. split; [reflexivity|].
  rewrite elem_of_app, list_elem_of_singleton. auto.
Qed.

Lemma invocations_stay_within_limit_witness :
  exists w0 w t,
    new_pool (VNum (Fin 5)) = Some w0
    /\ run_ops 20 [OpAddGeneric (mkParams None (fun _ => Ret (pending_promise VNull))
                                  VUndefined (VNum (Frac 2 xH)))] w0 = Some w
    /\ heap w !! 0%nat = Some t
    /\ invocations t = 3%nat /\ invocationLimit t = Frac 2 xH
    /\ exhausted t = true
    /\ near (Z.of_nat (invocations t)) (invocationLimit t)
       /\ (whole (invocationLimit t) = true ->
           num_le (Fin (Z.of_nat (invocations t))) (invocationLimit t) = true)
       /\ (exhausted t = false ->
           num_lt (Fin (Z.of_nat (invocations t))) (invocationLimit t) = true).
Proof.
  eexists _, _, _.
  split; [reflexivity|]. split; [vm_compute; reflexivity|].
  split; [reflexivity|]. split; [reflexivity|]. split; [reflexivity|].
  split; [reflexivity|].
  eapply (invocations_stay_within_limit 20
           [OpAddGeneric (mkParams None (fun _ => Ret (pending_promise VNull))
                            VUndefined (VNum (Frac 2 xH)))]
           (VNum (Fin 5)) _ _ 0%nat);
    [reflexivity|repeat constructor|vm_compute; reflexivity|reflexivity].
Defined.

Lemma single_task_is_invoked_at_most_once_witness :
  exists w0 w r w1 w2,
    new_pool (VNum (Fin 5)) = Some w0
    /\ run_ops 20 [] w0 = Some w
    /\ addSingleTask 20 (mkSingleParams None (fun d => Ret (pending_promise d))
                           (VNum (Fin 4))) w
       = Some (AddPromise r, w1)
    /\ run_ops 20 [OpComplete 0] w1 = Some w2
    /\ exists t,
         heap w2 !! r = Some t
         /\ (forall i, generator t i = Ret (pending_promise (VNum (Fin 4))))
         /\ invocationLimit t = Fin 1
         /\ (invocations t <= 1)%nat.
Proof.
  eexists _, _, _, _, _.
  split; [reflexivity|]. split; [reflexivity|].
  split; [vm_compute; reflexivity|]. split; [vm_compute; reflexivity|].
  eapply (single_task_is_invoked_at_most_once 20 (VNum (Fin 5)) [] _ _
           (mkSingleParams None (fun d => Ret (pending_promise d)) (VNum (Fin 4)))
           _ _ [OpComplete 0] _);
    [reflexivity|constructor|reflexivity|constructor|vm_compute; reflexivity
    |repeat constructor|vm_compute; reflexivity].
Defined.

Lemma linear_task_runs_one_at_a_time_witness :
  exists w0 w r w1 w2,
    new_pool (VNum (Fin 5)) = Some w0
    /\ run_ops 20 [] w0 = Some w
    /\ addLinearTask 20 (mkLinearParams None (fun _ => Ret (pending_promise VNull))
                           (VNum (Fin 3))) w
       = Some (AddPromise r, w1)
    /\ run_ops 20 [OpComplete 0] w1 = Some w2
    /\ exists t,
         heap w2 !! r = Some t
         /\ generator t = (fun _ => Ret (pending_promise VNull))
         /\ concurrencyLimit t = Fin 1
         /\ (length (inflight_of r w2) <= 1)%nat.
Proof.
  eexists _, _, _, _, _.
  split; [reflexivity|]. split; [reflexivity|].
  split; [vm_compute; reflexivity|]. split; [vm_compute; reflexivity|].
  eapply (linear_task_runs_one_at_a_time 20 (VNum (Fin 5)) [] _ _
           (mkLinearParams None (fun _ => Ret (pending_promise VNull)) (VNum (Fin 3)))
           _ _ [OpComplete 0] _);
    [reflexivity|constructor|reflexivity|intros; constructor|vm_compute; reflexivity
    |repeat constructor|vm_compute; reflexivity].
Defined.

Lemma each_task_stays_within_data_witness :
  exists w0 w r w1 w2,
    new_pool (VNum (Fin 5)) = Some w0
    /\ run_ops 20 [] w0 = Some w
    /\ addEachTask 20 (mkEachParams None (fun v _ => Ret (pending_promise v))
                         [VNum (Fin 7); VNum (Fin 8)] VUndefined VUndefined) w
       = Some (AddPromise r, w1)
    /\ run_ops 20 [OpComplete 0; OpComplete 0] w1 = Some w2
    /\ exists t,
         heap w2 !! r = Some t
         /\ (invocations t <= 2)%nat
         /\ forall i, (i < invocations t)%nat ->
              exists v, [VNum (Fin 7); VNum (Fin 8)] !! i = Some v
                        /\ generator t i = Ret (pending_promise v).
Proof.
  eexists _, _, _, _, _.
  split; [reflexivity|]. split; [reflexivity|].
  split; [vm_compute; reflexivity|]. split; [vm_compute; reflexivity|].
  eapply (each_task_stays_within_data 20 (VNum (Fin 5)) [] _ _
           (mkEachParams None (fun v _ => Ret (pending_promise v))
              [VNum (Fin 7); VNum (Fin 8)] VUndefined VUndefined)
           _ _ [OpComplete 0; OpComplete 0] _);
    [reflexivity|constructor|reflexivity|intros; constructor|vm_compute; reflexivity
    |repeat constructor|vm_compute; reflexivity].
Defined.

Lemma ended_idle_task_stays_in_pool_witness :
  exists w0 w t w',
    new_pool (VNum (Fin 1)) = Some w0
    /\ run_ops 20 waiting_ops w0 = Some w
    /\ heap w !! 1%nat = Some t
    /\ run_ops 20 [OpComplete 0] w = Some w'
    /\ _activePromiseCount w' = 0
    /\ (1%nat ∈ _tasks w'
        /\ idling w' = false
        /\ exists k, waitForIdle w' = (Some k, snd (waitForIdle w'))
                    /\ k ∈ _idlePromises (snd (waitForIdle w'))).
Proof.
  eexists _, _, _, _.
  split; [reflexivity|]. split; [vm_compute; reflexivity|].
  split; [reflexivity|]. split; [vm_compute; reflexivity|].
  split; [reflexivity|].
  eapply (ended_idle_task_stays_in_pool 20 (VNum (Fin 1)) waiting_ops _ _ 1%nat _
            [OpComplete 0] _).
  - reflexivity.
  - repeat constructor.
  - vm_compute; reflexivity.
  - apply (list_elem_of_lookup_2 _ 1%nat). reflexivity.
  - reflexivity.
  - reflexivity.
  - vm_compute. discriminate.
  - repeat constructor.
  - vm_compute; reflexivity.
Defined.

(** X6.  With generators that add no task to the pool, in every state
    the operations lead to from a new pool the counters of active promises
    are less than one above the concurrency limits ([count - 1 < limit]),
    the pool's and every task's: [triggerPromises] starts an invocation only
    while both counters are below their limits.  The counters are the
    numbers of invocations in flight, so the same holds of these.  For a
    limit that is a whole number or [Infinity] this is [count <= limit].
    No check asks for a whole number: [new PromisePoolExecutor(1.5)] runs
    two invocations at a time (the witness). *)
Theorem counters_stay_within_limits fuel os c w0 w :
  new_pool c = Some w0 -> Forall quiet_op os -> run_ops fuel os w0 = Some w ->
  (near (_activePromiseCount w) (_concurrencyLimit w)
   /\ near (Z.of_nat (length (inflights w))) (_concurrencyLimit w)
   /\ (whole (_concurrencyLimit w) = true ->
       num_le (Fin (_activePromiseCount w)) (_concurrencyLimit w) = true
       /\ num_le (Fin (Z.of_nat (length (inflights w)))) (_concurrencyLimit w) = true))
  /\ (forall r t, heap w !! r = Some t ->
        near (activeCount t) (concurrencyLimit t)
        /\ near (Z.of_nat (length (inflight_of r w))) (concurrencyLimit t)
        /\ (whole (concurrencyLimit t) = true ->
            num_le (Fin (activeCount t)) (concurrencyLimit t) = true
            /\ num_le (Fin (Z.of_nat (length (inflight_of r w)))) (concurrencyLimit t)
               = true)).
Proof.
  intros H0 Hq Hrun.
  destruct (limits_hold_for_quiet_generators fuel os w0 w (bounded_new_pool _ _ H0) Hq Hrun)
    as ((Hp & Ht) & _).
  destruct (pool_counts_run_ops fuel os w0 w (pool_counts_new_pool _ _ H0) Hrun)
    as (Ca & Ct & _).
  split.
  - split; [exact Hp|]. rewrite <- Ca. split; [exact Hp|].
    intros Hw. split; apply near_whole; assumption.
  - intros r t E. specialize (Ht r t E). rewrite <- (Ct r t E).
    split; [exact Ht|]. split; [exact Ht|].
    intros Hw. split; apply near_whole; assumption.
Qed.

Lemma counters_stay_within_limits_witness :
  exists w0 w,
    new_pool (VNum (Frac 1 xH)) = Some w0
    /\ run_ops 20 [OpAddGeneric (mkParams None (fun _ => Ret (pending_promise VNull))
                                  VUndefined VUndefined)] w0 = Some w
    /\ length (inflights w) = 2%nat
    /\ _concurrencyLimit w = Frac 1 xH
    /\ near (Z.of_nat (length (inflights w))) (_concurrencyLimit w).
Proof.
  eexists _, _.
  split; [reflexivity|]. split; [vm_compute; reflexivity|]. split; [reflexivity|].
  split; [reflexivity|].
  refine (proj1 (proj2 (proj1 _))).
  eapply (counters_stay_within_limits 20
            [OpAddGeneric (mkParams None (fun _ => Ret (pending_promise VNull))
                             VUndefined VUndefined)] (VNum (Frac 1 xH)) _ _);
    [reflexivity|repeat constructor|vm_compute; reflexivity].
Defined.

End PoolFacts.
